(** * The Boss: table and game engine

    A shallow embedding of [src/engine/index.ts] (class [GameEngine]) and
    of the types of [src/shared/types.ts], followed by the properties of
    the engine that the specification states.

    Conventions of the embedding.
    - Chip amounts ([stack], [betThisRound], [pot], ...) are JavaScript
      numbers that only ever hold integers; they are [Z].  Counters and
      seat numbers are [nat].
    - [players] is a JavaScript [Map] keyed by player id.  Its iteration
      order is insertion order and the engine depends on it, so it is a
      list of records, in insertion order, in which no id occurs twice.
      Player objects are only ever reached through that map, so an update
      of a player is an update of the entry with that id.
    - [seats] is the array of six slots; [actedThisRound] and
      [awaitingCombo] are [Set]s and become [gset]s.
    - [deck] lists the array from its end: the head of the list is the
      card the next [pop()] removes.
    - Every method is a function from the engine to the new engine and the
      list of events it passed to [emit], in order. *)

From Stdlib Require Import ZArith Lia DecimalString.
From stdpp Require Import base decidable countable option list strings gmap sets.

Local Open Scope Z_scope.

(** ** Shared types ([src/shared/types.ts]) *)

Inductive Suit := hearts | diamonds | clubs | spades.

Inductive Rank :=
  | RA | R2 | R3 | R4 | R5 | R6 | R7 | R8 | R9 | R10 | RJ | RQ | RK.

Record Card := mkCard { card_id : string; card_rank : Rank; card_suit : Suit }.

Definition SEAT_COUNT : nat := 6.

Inductive Phase :=
  | waiting | rush | charge | stomp | combo | oxtail | showdown | hand_end.

Inductive ComboMode := low | high.

Record ComboSelection := mkSel { cardId : string; mode : ComboMode }.

Inductive PlayerAction := fold | check | call | raise | submit_combo.

Record Winner := mkWinner { w_playerId : string; w_username : string; w_amount : Z }.

Record HandResult :=
  mkResult { winners : list Winner; r_bossTotal : Z; description : string }.

Record PlayerSummary := mkSummary {
  ps_id : string; ps_username : string; ps_seatIndex : nat; ps_stack : Z;
  ps_isDealer : bool; ps_isSmallBlind : bool; ps_isBigBlind : bool;
  ps_inHand : bool; ps_hasFolded : bool; ps_isActing : bool;
  ps_betThisRound : Z; ps_comboRevealed : option (list Card) }.

Record SeatInfo :=
  mkSeatInfo { si_seatIndex : nat; occupied : bool; si_player : option PlayerSummary }.

Record TableSnapshot := mkSnapshot {
  ts_seats : list SeatInfo; ts_phase : Phase; ts_handNumber : nat; ts_pot : Z;
  ts_sidePot : Z; ts_currentBet : Z; ts_minimumRaise : Z; ts_actingSeat : option nat;
  ts_bossCards : list Card; ts_bossRevealedCount : nat; ts_message : string }.

Record PlayerPrivateState := mkPrivate {
  pp_playerId : string; pp_seatIndex : option nat; pp_stack : Z; pp_hand : list Card;
  pp_comboSelection : list ComboSelection; pp_comboTotal : Z;
  pp_actions : list PlayerAction }.

(** [BetActionMessage], with the optional [amount] the engine reads. *)
Inductive BetActionKind := BetFold | BetCheck | BetCall | BetRaise.

Record BetActionMessage := mkBet { action : BetActionKind; amount : option Z }.

#[global] Instance Suit_eq_dec : EqDecision Suit.
Proof. solve_decision. Defined.
#[global] Instance Rank_eq_dec : EqDecision Rank.
Proof. solve_decision. Defined.
#[global] Instance Phase_eq_dec : EqDecision Phase.
Proof. solve_decision. Defined.
#[global] Instance ComboMode_eq_dec : EqDecision ComboMode.
Proof. solve_decision. Defined.
#[global] Instance PlayerAction_eq_dec : EqDecision PlayerAction.
Proof. solve_decision. Defined.

Definition suit_code (s : Suit) : nat :=
  match s with hearts => 0 | diamonds => 1 | clubs => 2 | spades => 3 end%nat.

Definition suit_of_code (n : nat) : Suit :=
  match n with 0 => hearts | 1 => diamonds | 2 => clubs | _ => spades end%nat.

#[global] Instance Suit_countable : Countable Suit.
Proof. apply (inj_countable' suit_code suit_of_code). by intros []. Defined.

(** ** Engine types ([src/engine/index.ts]) *)

Definition RANKS : list Rank := [RA; R2; R3; R4; R5; R6; R7; R8; R9; R10; RJ; RQ; RK].
Definition SUITS : list Suit := [hearts; diamonds; clubs; spades].

Record EnginePlayer := mkPlayer {
  playerId : string;
  username : string;
  seatIndex : option nat;
  stack : Z;
  entryHand : nat;
  hand : list Card;
  inHand : bool;
  hasFolded : bool;
  betThisRound : Z;
  totalBet : Z;
  comboSelection : list ComboSelection;
  comboRevealed : option (list Card);
  isDealer : bool;
  isSmallBlind : bool;
  isBigBlind : bool;
  lastAction : option string }.

Inductive EngineEvent :=
  | EvSnapshot (snapshot : TableSnapshot)
  | EvPrivate (pid : string) (state : PlayerPrivateState)
  | EvResult (result : HandResult)
  | EvError (pid : option string) (msg : string).

Definition STARTING_STACK : Z := 500.
Definition SMALL_BLIND : Z := 5.
Definition BIG_BLIND : Z := 10.
Definition RAISE_INCREMENT : Z := 10.

Record GameEngine := mkEngine {
  players : list EnginePlayer;
  seats : list (option string);
  handNumber : nat;
  deck : list Card;
  bossCards : list Card;
  bossRevealedCount : nat;
  bossVisible : bool;
  smallBlindSeat : option nat;
  phase : Phase;
  dealerSeat : option nat;
  currentBet : Z;
  minimumRaise : Z;
  pot : Z;
  sidePot : Z;
  actingSeat : option nat;
  message : string;
  actedThisRound : gset nat;
  awaitingCombo : gset string;
  comboQueue : list nat;
  comboIndex : nat;
  lastResult : option HandResult }.

(** The engine of [new GameEngine()]. *)
Definition newEngine : GameEngine :=
  {| players := []; seats := replicate SEAT_COUNT None; handNumber := 0; deck := [];
     bossCards := []; bossRevealedCount := 0; bossVisible := false;
     smallBlindSeat := None; phase := waiting; dealerSeat := None; currentBet := 0;
     minimumRaise := RAISE_INCREMENT; pot := 0; sidePot := 0; actingSeat := None;
     message := "Waiting for players"; actedThisRound := ∅; awaitingCombo := ∅;
     comboQueue := []; comboIndex := 0; lastResult := None |}.

(** *** Field assignments

    [set_f v x] is the assignment [x.f = v]. *)

Definition set_username (v : string) (p : EnginePlayer) : EnginePlayer :=
  {| playerId := playerId p; username := v; seatIndex := seatIndex p; stack := stack p;
     entryHand := entryHand p; hand := hand p; inHand := inHand p; hasFolded := hasFolded p;
     betThisRound := betThisRound p; totalBet := totalBet p; comboSelection := comboSelection p;
     comboRevealed := comboRevealed p; isDealer := isDealer p; isSmallBlind := isSmallBlind p;
     isBigBlind := isBigBlind p; lastAction := lastAction p |}.
Definition set_seatIndex (v : option nat) (p : EnginePlayer) : EnginePlayer :=
  {| playerId := playerId p; username := username p; seatIndex := v; stack := stack p; entryHand
     := entryHand p; hand := hand p; inHand := inHand p; hasFolded := hasFolded p; betThisRound
     := betThisRound p; totalBet := totalBet p; comboSelection := comboSelection p;
     comboRevealed := comboRevealed p; isDealer := isDealer p; isSmallBlind := isSmallBlind p;
     isBigBlind := isBigBlind p; lastAction := lastAction p |}.
Definition set_stack (v : Z) (p : EnginePlayer) : EnginePlayer :=
  {| playerId := playerId p; username := username p; seatIndex := seatIndex p; stack := v;
     entryHand := entryHand p; hand := hand p; inHand := inHand p; hasFolded := hasFolded p;
     betThisRound := betThisRound p; totalBet := totalBet p; comboSelection := comboSelection p;
     comboRevealed := comboRevealed p; isDealer := isDealer p; isSmallBlind := isSmallBlind p;
     isBigBlind := isBigBlind p; lastAction := lastAction p |}.
Definition set_entryHand (v : nat) (p : EnginePlayer) : EnginePlayer :=
  {| playerId := playerId p; username := username p; seatIndex := seatIndex p; stack := stack p;
     entryHand := v; hand := hand p; inHand := inHand p; hasFolded := hasFolded p; betThisRound
     := betThisRound p; totalBet := totalBet p; comboSelection := comboSelection p;
     comboRevealed := comboRevealed p; isDealer := isDealer p; isSmallBlind := isSmallBlind p;
     isBigBlind := isBigBlind p; lastAction := lastAction p |}.
Definition set_hand (v : list Card) (p : EnginePlayer) : EnginePlayer :=
  {| playerId := playerId p; username := username p; seatIndex := seatIndex p; stack := stack p;
     entryHand := entryHand p; hand := v; inHand := inHand p; hasFolded := hasFolded p;
     betThisRound := betThisRound p; totalBet := totalBet p; comboSelection := comboSelection p;
     comboRevealed := comboRevealed p; isDealer := isDealer p; isSmallBlind := isSmallBlind p;
     isBigBlind := isBigBlind p; lastAction := lastAction p |}.
Definition set_inHand (v : bool) (p : EnginePlayer) : EnginePlayer :=
  {| playerId := playerId p; username := username p; seatIndex := seatIndex p; stack := stack p;
     entryHand := entryHand p; hand := hand p; inHand := v; hasFolded := hasFolded p;
     betThisRound := betThisRound p; totalBet := totalBet p; comboSelection := comboSelection p;
     comboRevealed := comboRevealed p; isDealer := isDealer p; isSmallBlind := isSmallBlind p;
     isBigBlind := isBigBlind p; lastAction := lastAction p |}.
Definition set_hasFolded (v : bool) (p : EnginePlayer) : EnginePlayer :=
  {| playerId := playerId p; username := username p; seatIndex := seatIndex p; stack := stack p;
     entryHand := entryHand p; hand := hand p; inHand := inHand p; hasFolded := v; betThisRound
     := betThisRound p; totalBet := totalBet p; comboSelection := comboSelection p;
     comboRevealed := comboRevealed p; isDealer := isDealer p; isSmallBlind := isSmallBlind p;
     isBigBlind := isBigBlind p; lastAction := lastAction p |}.
Definition set_betThisRound (v : Z) (p : EnginePlayer) : EnginePlayer :=
  {| playerId := playerId p; username := username p; seatIndex := seatIndex p; stack := stack p;
     entryHand := entryHand p; hand := hand p; inHand := inHand p; hasFolded := hasFolded p;
     betThisRound := v; totalBet := totalBet p; comboSelection := comboSelection p;
     comboRevealed := comboRevealed p; isDealer := isDealer p; isSmallBlind := isSmallBlind p;
     isBigBlind := isBigBlind p; lastAction := lastAction p |}.
Definition set_totalBet (v : Z) (p : EnginePlayer) : EnginePlayer :=
  {| playerId := playerId p; username := username p; seatIndex := seatIndex p; stack := stack p;
     entryHand := entryHand p; hand := hand p; inHand := inHand p; hasFolded := hasFolded p;
     betThisRound := betThisRound p; totalBet := v; comboSelection := comboSelection p;
     comboRevealed := comboRevealed p; isDealer := isDealer p; isSmallBlind := isSmallBlind p;
     isBigBlind := isBigBlind p; lastAction := lastAction p |}.
Definition set_comboSelection (v : list ComboSelection) (p : EnginePlayer) : EnginePlayer :=
  {| playerId := playerId p; username := username p; seatIndex := seatIndex p; stack := stack p;
     entryHand := entryHand p; hand := hand p; inHand := inHand p; hasFolded := hasFolded p;
     betThisRound := betThisRound p; totalBet := totalBet p; comboSelection := v; comboRevealed
     := comboRevealed p; isDealer := isDealer p; isSmallBlind := isSmallBlind p; isBigBlind :=
     isBigBlind p; lastAction := lastAction p |}.
Definition set_comboRevealed (v : option (list Card)) (p : EnginePlayer) : EnginePlayer :=
  {| playerId := playerId p; username := username p; seatIndex := seatIndex p; stack := stack p;
     entryHand := entryHand p; hand := hand p; inHand := inHand p; hasFolded := hasFolded p;
     betThisRound := betThisRound p; totalBet := totalBet p; comboSelection := comboSelection p;
     comboRevealed := v; isDealer := isDealer p; isSmallBlind := isSmallBlind p; isBigBlind :=
     isBigBlind p; lastAction := lastAction p |}.
Definition set_isDealer (v : bool) (p : EnginePlayer) : EnginePlayer :=
  {| playerId := playerId p; username := username p; seatIndex := seatIndex p; stack := stack p;
     entryHand := entryHand p; hand := hand p; inHand := inHand p; hasFolded := hasFolded p;
     betThisRound := betThisRound p; totalBet := totalBet p; comboSelection := comboSelection p;
     comboRevealed := comboRevealed p; isDealer := v; isSmallBlind := isSmallBlind p; isBigBlind
     := isBigBlind p; lastAction := lastAction p |}.
Definition set_isSmallBlind (v : bool) (p : EnginePlayer) : EnginePlayer :=
  {| playerId := playerId p; username := username p; seatIndex := seatIndex p; stack := stack p;
     entryHand := entryHand p; hand := hand p; inHand := inHand p; hasFolded := hasFolded p;
     betThisRound := betThisRound p; totalBet := totalBet p; comboSelection := comboSelection p;
     comboRevealed := comboRevealed p; isDealer := isDealer p; isSmallBlind := v; isBigBlind :=
     isBigBlind p; lastAction := lastAction p |}.
Definition set_isBigBlind (v : bool) (p : EnginePlayer) : EnginePlayer :=
  {| playerId := playerId p; username := username p; seatIndex := seatIndex p; stack := stack p;
     entryHand := entryHand p; hand := hand p; inHand := inHand p; hasFolded := hasFolded p;
     betThisRound := betThisRound p; totalBet := totalBet p; comboSelection := comboSelection p;
     comboRevealed := comboRevealed p; isDealer := isDealer p; isSmallBlind := isSmallBlind p;
     isBigBlind := v; lastAction := lastAction p |}.
Definition set_lastAction (v : option string) (p : EnginePlayer) : EnginePlayer :=
  {| playerId := playerId p; username := username p; seatIndex := seatIndex p; stack := stack p;
     entryHand := entryHand p; hand := hand p; inHand := inHand p; hasFolded := hasFolded p;
     betThisRound := betThisRound p; totalBet := totalBet p; comboSelection := comboSelection p;
     comboRevealed := comboRevealed p; isDealer := isDealer p; isSmallBlind := isSmallBlind p;
     isBigBlind := isBigBlind p; lastAction := v |}.

Definition set_players (v : list EnginePlayer) (e : GameEngine) : GameEngine :=
  {| players := v; seats := seats e; handNumber := handNumber e; deck := deck e; bossCards :=
     bossCards e; bossRevealedCount := bossRevealedCount e; bossVisible := bossVisible e;
     smallBlindSeat := smallBlindSeat e; phase := phase e; dealerSeat := dealerSeat e;
     currentBet := currentBet e; minimumRaise := minimumRaise e; pot := pot e; sidePot :=
     sidePot e; actingSeat := actingSeat e; message := message e; actedThisRound :=
     actedThisRound e; awaitingCombo := awaitingCombo e; comboQueue := comboQueue e; comboIndex
     := comboIndex e; lastResult := lastResult e |}.
Definition set_seats (v : list (option string)) (e : GameEngine) : GameEngine :=
  {| players := players e; seats := v; handNumber := handNumber e; deck := deck e; bossCards :=
     bossCards e; bossRevealedCount := bossRevealedCount e; bossVisible := bossVisible e;
     smallBlindSeat := smallBlindSeat e; phase := phase e; dealerSeat := dealerSeat e;
     currentBet := currentBet e; minimumRaise := minimumRaise e; pot := pot e; sidePot :=
     sidePot e; actingSeat := actingSeat e; message := message e; actedThisRound :=
     actedThisRound e; awaitingCombo := awaitingCombo e; comboQueue := comboQueue e; comboIndex
     := comboIndex e; lastResult := lastResult e |}.
Definition set_handNumber (v : nat) (e : GameEngine) : GameEngine :=
  {| players := players e; seats := seats e; handNumber := v; deck := deck e; bossCards :=
     bossCards e; bossRevealedCount := bossRevealedCount e; bossVisible := bossVisible e;
     smallBlindSeat := smallBlindSeat e; phase := phase e; dealerSeat := dealerSeat e;
     currentBet := currentBet e; minimumRaise := minimumRaise e; pot := pot e; sidePot :=
     sidePot e; actingSeat := actingSeat e; message := message e; actedThisRound :=
     actedThisRound e; awaitingCombo := awaitingCombo e; comboQueue := comboQueue e; comboIndex
     := comboIndex e; lastResult := lastResult e |}.
Definition set_deck (v : list Card) (e : GameEngine) : GameEngine :=
  {| players := players e; seats := seats e; handNumber := handNumber e; deck := v; bossCards :=
     bossCards e; bossRevealedCount := bossRevealedCount e; bossVisible := bossVisible e;
     smallBlindSeat := smallBlindSeat e; phase := phase e; dealerSeat := dealerSeat e;
     currentBet := currentBet e; minimumRaise := minimumRaise e; pot := pot e; sidePot :=
     sidePot e; actingSeat := actingSeat e; message := message e; actedThisRound :=
     actedThisRound e; awaitingCombo := awaitingCombo e; comboQueue := comboQueue e; comboIndex
     := comboIndex e; lastResult := lastResult e |}.
Definition set_bossCards (v : list Card) (e : GameEngine) : GameEngine :=
  {| players := players e; seats := seats e; handNumber := handNumber e; deck := deck e;
     bossCards := v; bossRevealedCount := bossRevealedCount e; bossVisible := bossVisible e;
     smallBlindSeat := smallBlindSeat e; phase := phase e; dealerSeat := dealerSeat e;
     currentBet := currentBet e; minimumRaise := minimumRaise e; pot := pot e; sidePot :=
     sidePot e; actingSeat := actingSeat e; message := message e; actedThisRound :=
     actedThisRound e; awaitingCombo := awaitingCombo e; comboQueue := comboQueue e; comboIndex
     := comboIndex e; lastResult := lastResult e |}.
Definition set_bossRevealedCount (v : nat) (e : GameEngine) : GameEngine :=
  {| players := players e; seats := seats e; handNumber := handNumber e; deck := deck e;
     bossCards := bossCards e; bossRevealedCount := v; bossVisible := bossVisible e;
     smallBlindSeat := smallBlindSeat e; phase := phase e; dealerSeat := dealerSeat e;
     currentBet := currentBet e; minimumRaise := minimumRaise e; pot := pot e; sidePot :=
     sidePot e; actingSeat := actingSeat e; message := message e; actedThisRound :=
     actedThisRound e; awaitingCombo := awaitingCombo e; comboQueue := comboQueue e; comboIndex
     := comboIndex e; lastResult := lastResult e |}.
Definition set_bossVisible (v : bool) (e : GameEngine) : GameEngine :=
  {| players := players e; seats := seats e; handNumber := handNumber e; deck := deck e;
     bossCards := bossCards e; bossRevealedCount := bossRevealedCount e; bossVisible := v;
     smallBlindSeat := smallBlindSeat e; phase := phase e; dealerSeat := dealerSeat e;
     currentBet := currentBet e; minimumRaise := minimumRaise e; pot := pot e; sidePot :=
     sidePot e; actingSeat := actingSeat e; message := message e; actedThisRound :=
     actedThisRound e; awaitingCombo := awaitingCombo e; comboQueue := comboQueue e; comboIndex
     := comboIndex e; lastResult := lastResult e |}.
Definition set_smallBlindSeat (v : option nat) (e : GameEngine) : GameEngine :=
  {| players := players e; seats := seats e; handNumber := handNumber e; deck := deck e;
     bossCards := bossCards e; bossRevealedCount := bossRevealedCount e; bossVisible :=
     bossVisible e; smallBlindSeat := v; phase := phase e; dealerSeat := dealerSeat e;
     currentBet := currentBet e; minimumRaise := minimumRaise e; pot := pot e; sidePot :=
     sidePot e; actingSeat := actingSeat e; message := message e; actedThisRound :=
     actedThisRound e; awaitingCombo := awaitingCombo e; comboQueue := comboQueue e; comboIndex
     := comboIndex e; lastResult := lastResult e |}.
Definition set_phase (v : Phase) (e : GameEngine) : GameEngine :=
  {| players := players e; seats := seats e; handNumber := handNumber e; deck := deck e;
     bossCards := bossCards e; bossRevealedCount := bossRevealedCount e; bossVisible :=
     bossVisible e; smallBlindSeat := smallBlindSeat e; phase := v; dealerSeat := dealerSeat e;
     currentBet := currentBet e; minimumRaise := minimumRaise e; pot := pot e; sidePot :=
     sidePot e; actingSeat := actingSeat e; message := message e; actedThisRound :=
     actedThisRound e; awaitingCombo := awaitingCombo e; comboQueue := comboQueue e; comboIndex
     := comboIndex e; lastResult := lastResult e |}.
Definition set_dealerSeat (v : option nat) (e : GameEngine) : GameEngine :=
  {| players := players e; seats := seats e; handNumber := handNumber e; deck := deck e;
     bossCards := bossCards e; bossRevealedCount := bossRevealedCount e; bossVisible :=
     bossVisible e; smallBlindSeat := smallBlindSeat e; phase := phase e; dealerSeat := v;
     currentBet := currentBet e; minimumRaise := minimumRaise e; pot := pot e; sidePot :=
     sidePot e; actingSeat := actingSeat e; message := message e; actedThisRound :=
     actedThisRound e; awaitingCombo := awaitingCombo e; comboQueue := comboQueue e; comboIndex
     := comboIndex e; lastResult := lastResult e |}.
Definition set_currentBet (v : Z) (e : GameEngine) : GameEngine :=
  {| players := players e; seats := seats e; handNumber := handNumber e; deck := deck e;
     bossCards := bossCards e; bossRevealedCount := bossRevealedCount e; bossVisible :=
     bossVisible e; smallBlindSeat := smallBlindSeat e; phase := phase e; dealerSeat :=
     dealerSeat e; currentBet := v; minimumRaise := minimumRaise e; pot := pot e; sidePot :=
     sidePot e; actingSeat := actingSeat e; message := message e; actedThisRound :=
     actedThisRound e; awaitingCombo := awaitingCombo e; comboQueue := comboQueue e; comboIndex
     := comboIndex e; lastResult := lastResult e |}.
Definition set_minimumRaise (v : Z) (e : GameEngine) : GameEngine :=
  {| players := players e; seats := seats e; handNumber := handNumber e; deck := deck e;
     bossCards := bossCards e; bossRevealedCount := bossRevealedCount e; bossVisible :=
     bossVisible e; smallBlindSeat := smallBlindSeat e; phase := phase e; dealerSeat :=
     dealerSeat e; currentBet := currentBet e; minimumRaise := v; pot := pot e; sidePot :=
     sidePot e; actingSeat := actingSeat e; message := message e; actedThisRound :=
     actedThisRound e; awaitingCombo := awaitingCombo e; comboQueue := comboQueue e; comboIndex
     := comboIndex e; lastResult := lastResult e |}.
Definition set_pot (v : Z) (e : GameEngine) : GameEngine :=
  {| players := players e; seats := seats e; handNumber := handNumber e; deck := deck e;
     bossCards := bossCards e; bossRevealedCount := bossRevealedCount e; bossVisible :=
     bossVisible e; smallBlindSeat := smallBlindSeat e; phase := phase e; dealerSeat :=
     dealerSeat e; currentBet := currentBet e; minimumRaise := minimumRaise e; pot := v; sidePot
     := sidePot e; actingSeat := actingSeat e; message := message e; actedThisRound :=
     actedThisRound e; awaitingCombo := awaitingCombo e; comboQueue := comboQueue e; comboIndex
     := comboIndex e; lastResult := lastResult e |}.
Definition set_sidePot (v : Z) (e : GameEngine) : GameEngine :=
  {| players := players e; seats := seats e; handNumber := handNumber e; deck := deck e;
     bossCards := bossCards e; bossRevealedCount := bossRevealedCount e; bossVisible :=
     bossVisible e; smallBlindSeat := smallBlindSeat e; phase := phase e; dealerSeat :=
     dealerSeat e; currentBet := currentBet e; minimumRaise := minimumRaise e; pot := pot e;
     sidePot := v; actingSeat := actingSeat e; message := message e; actedThisRound :=
     actedThisRound e; awaitingCombo := awaitingCombo e; comboQueue := comboQueue e; comboIndex
     := comboIndex e; lastResult := lastResult e |}.
Definition set_actingSeat (v : option nat) (e : GameEngine) : GameEngine :=
  {| players := players e; seats := seats e; handNumber := handNumber e; deck := deck e;
     bossCards := bossCards e; bossRevealedCount := bossRevealedCount e; bossVisible :=
     bossVisible e; smallBlindSeat := smallBlindSeat e; phase := phase e; dealerSeat :=
     dealerSeat e; currentBet := currentBet e; minimumRaise := minimumRaise e; pot := pot e;
     sidePot := sidePot e; actingSeat := v; message := message e; actedThisRound :=
     actedThisRound e; awaitingCombo := awaitingCombo e; comboQueue := comboQueue e; comboIndex
     := comboIndex e; lastResult := lastResult e |}.
Definition set_message (v : string) (e : GameEngine) : GameEngine :=
  {| players := players e; seats := seats e; handNumber := handNumber e; deck := deck e;
     bossCards := bossCards e; bossRevealedCount := bossRevealedCount e; bossVisible :=
     bossVisible e; smallBlindSeat := smallBlindSeat e; phase := phase e; dealerSeat :=
     dealerSeat e; currentBet := currentBet e; minimumRaise := minimumRaise e; pot := pot e;
     sidePot := sidePot e; actingSeat := actingSeat e; message := v; actedThisRound :=
     actedThisRound e; awaitingCombo := awaitingCombo e; comboQueue := comboQueue e; comboIndex
     := comboIndex e; lastResult := lastResult e |}.
Definition set_actedThisRound (v : gset nat) (e : GameEngine) : GameEngine :=
  {| players := players e; seats := seats e; handNumber := handNumber e; deck := deck e;
     bossCards := bossCards e; bossRevealedCount := bossRevealedCount e; bossVisible :=
     bossVisible e; smallBlindSeat := smallBlindSeat e; phase := phase e; dealerSeat :=
     dealerSeat e; currentBet := currentBet e; minimumRaise := minimumRaise e; pot := pot e;
     sidePot := sidePot e; actingSeat := actingSeat e; message := message e; actedThisRound :=
     v; awaitingCombo := awaitingCombo e; comboQueue := comboQueue e; comboIndex := comboIndex
     e; lastResult := lastResult e |}.
Definition set_awaitingCombo (v : gset string) (e : GameEngine) : GameEngine :=
  {| players := players e; seats := seats e; handNumber := handNumber e; deck := deck e;
     bossCards := bossCards e; bossRevealedCount := bossRevealedCount e; bossVisible :=
     bossVisible e; smallBlindSeat := smallBlindSeat e; phase := phase e; dealerSeat :=
     dealerSeat e; currentBet := currentBet e; minimumRaise := minimumRaise e; pot := pot e;
     sidePot := sidePot e; actingSeat := actingSeat e; message := message e; actedThisRound :=
     actedThisRound e; awaitingCombo := v; comboQueue := comboQueue e; comboIndex := comboIndex
     e; lastResult := lastResult e |}.
Definition set_comboQueue (v : list nat) (e : GameEngine) : GameEngine :=
  {| players := players e; seats := seats e; handNumber := handNumber e; deck := deck e;
     bossCards := bossCards e; bossRevealedCount := bossRevealedCount e; bossVisible :=
     bossVisible e; smallBlindSeat := smallBlindSeat e; phase := phase e; dealerSeat :=
     dealerSeat e; currentBet := currentBet e; minimumRaise := minimumRaise e; pot := pot e;
     sidePot := sidePot e; actingSeat := actingSeat e; message := message e; actedThisRound :=
     actedThisRound e; awaitingCombo := awaitingCombo e; comboQueue := v; comboIndex :=
     comboIndex e; lastResult := lastResult e |}.
Definition set_comboIndex (v : nat) (e : GameEngine) : GameEngine :=
  {| players := players e; seats := seats e; handNumber := handNumber e; deck := deck e;
     bossCards := bossCards e; bossRevealedCount := bossRevealedCount e; bossVisible :=
     bossVisible e; smallBlindSeat := smallBlindSeat e; phase := phase e; dealerSeat :=
     dealerSeat e; currentBet := currentBet e; minimumRaise := minimumRaise e; pot := pot e;
     sidePot := sidePot e; actingSeat := actingSeat e; message := message e; actedThisRound :=
     actedThisRound e; awaitingCombo := awaitingCombo e; comboQueue := comboQueue e; comboIndex
     := v; lastResult := lastResult e |}.
Definition set_lastResult (v : option HandResult) (e : GameEngine) : GameEngine :=
  {| players := players e; seats := seats e; handNumber := handNumber e; deck := deck e;
     bossCards := bossCards e; bossRevealedCount := bossRevealedCount e; bossVisible :=
     bossVisible e; smallBlindSeat := smallBlindSeat e; phase := phase e; dealerSeat :=
     dealerSeat e; currentBet := currentBet e; minimumRaise := minimumRaise e; pot := pot e;
     sidePot := sidePot e; actingSeat := actingSeat e; message := message e; actedThisRound :=
     actedThisRound e; awaitingCombo := awaitingCombo e; comboQueue := comboQueue e; comboIndex
     := comboIndex e; lastResult := v |}.

(** ** Procedures

    A method that emits events is a [Proc]: it returns the engine it
    leaves and the events it emitted, oldest first. *)

Definition Proc : Type := GameEngine -> GameEngine * list EngineEvent.

Definition skip : Proc := fun e => (e, []).

Definition andThen (p q : Proc) : Proc :=
  fun e => let '(e1, o1) := p e in let '(e2, o2) := q e1 in (e2, o1 ++ o2).

Notation "p ;> q" := (andThen p q) (at level 62, right associativity).

(** A state change that emits nothing. *)
Definition modify (f : GameEngine -> GameEngine) : Proc := fun e => (f e, []).

Definition emit (ev : EngineEvent) : Proc := fun e => (e, [ev]).

(** ** JavaScript values

    An optional seat number is falsy when it is [undefined] or [0]; a
    seat slot is falsy when it is [null] or the empty string. *)

Definition truthy (o : option nat) : bool :=
  match o with Some (S _) => true | _ => false end.

Definition string_of_nat (n : nat) : string := NilZero.string_of_uint (Nat.to_uint n).

Definition string_of_Z (z : Z) : string := NilZero.string_of_int (Z.to_int z).

(** [Array.from(new Set(l))]: the first occurrence of each element. *)
Fixpoint uniq `{EqDecision A} (seen l : list A) : list A :=
  match l with
  | [] => []
  | x :: l' => if bool_decide (x ∈ seen) then uniq seen l' else x :: uniq (x :: seen) l'
  end.

(** ** Players and seats *)

(** [this.players.get(playerId)] *)
Definition getPlayer (pid : string) (e : GameEngine) : option EnginePlayer :=
  List.find (fun p => bool_decide (playerId p = pid)) (players e).

(** The assignments [f] to the fields of the player object with id [pid]. *)
Definition updatePlayer (pid : string) (f : EnginePlayer -> EnginePlayer)
    (e : GameEngine) : GameEngine :=
  set_players (map (fun p => if bool_decide (playerId p = pid) then f p else p) (players e)) e.

(** A loop [for (const player of this.players.values())] that assigns to
    every player. *)
Definition forAllPlayers (f : EnginePlayer -> EnginePlayer) (e : GameEngine) : GameEngine :=
  set_players (map f (players e)) e.

(** [this.seats[seatIndex - 1]], as a condition: the id in the slot, when
    the slot holds a truthy value. *)
Definition seatOccupant (seat : nat) (e : GameEngine) : option string :=
  match seat with
  | O => None
  | S k =>
      match seats e !! k with
      | Some (Some pid) => if bool_decide (pid = "") then None else Some pid
      | _ => None
      end
  end.

Definition getPlayerBySeat (seat : nat) (e : GameEngine) : option EnginePlayer :=
  match seatOccupant seat e with
  | Some pid => getPlayer pid e
  | None => None
  end.

Definition isHandActive (e : GameEngine) : bool := negb (bool_decide (phase e = waiting)).

Definition isActive (p : EnginePlayer) : bool := inHand p && negb (hasFolded p).

Definition activePlayers (e : GameEngine) : list EnginePlayer :=
  List.filter isActive (players e).

Definition getNextSeatIndex (seat : nat) : nat := (seat mod SEAT_COUNT + 1)%nat.

(** The loop of [findSeatInDirection]: [n] iterations are left. *)
Fixpoint scanSeats (predicate : option EnginePlayer -> bool) (n seat : nat)
    (e : GameEngine) : option nat :=
  match n with
  | O => None
  | S n' =>
      if predicate (getPlayerBySeat seat e) then Some seat
      else scanSeats predicate n' (getNextSeatIndex seat) e
  end.

Definition findSeatInDirection (start : option nat)
    (predicate : option EnginePlayer -> bool) (includeStart : bool)
    (e : GameEngine) : option nat :=
  match start with
  | Some (S k) =>
      scanSeats predicate SEAT_COUNT
        (if includeStart then S k else getNextSeatIndex (S k)) e
  | _ => None
  end.

Definition getNextOccupiedSeat (start : option nat) (e : GameEngine) : option nat :=
  findSeatInDirection start (fun player => bool_decide (is_Some player)) false e.

Definition canAct (player : option EnginePlayer) : bool :=
  match player with
  | Some p => inHand p && negb (hasFolded p) && bool_decide (0 < stack p)
  | None => false
  end.

Definition findNextActingSeat (start : option nat) (includeStart : bool)
    (e : GameEngine) : option nat :=
  findSeatInDirection start canAct includeStart e.

Definition getSeatLeftOfDealer (e : GameEngine) : nat :=
  if truthy (dealerSeat e) then
    match getNextOccupiedSeat (dealerSeat e) e with
    | Some (S k) => S k
    | _ => default 1%nat (dealerSeat e)
    end
  else 1%nat.

(** [current] is a seat number, at least 1, at the only call. *)
Fixpoint findNextDealerSeatFrom (current i n : nat) (e : GameEngine) : option nat :=
  match n with
  | O => None
  | S n' =>
      let seat := ((current - 1 + i + 1) mod SEAT_COUNT + 1)%nat in
      if bool_decide (is_Some (seatOccupant seat e)) then Some seat
      else findNextDealerSeatFrom current (S i) n' e
  end.

Definition findNextDealerSeat (current : nat) (e : GameEngine) : option nat :=
  findNextDealerSeatFrom current 0 SEAT_COUNT e.

(** ** Cards, combos and the Boss *)

Definition findCardInHand (p : EnginePlayer) (cid : string) : option Card :=
  List.find (fun card => bool_decide (card_id card = cid)) (hand p).

Definition getCardValue (r : Rank) : Z :=
  match r with
  | RA => 1
  | RJ => 11
  | RQ => 12
  | RK => 13
  | R2 => 2 | R3 => 3 | R4 => 4 | R5 => 5 | R6 => 6 | R7 => 7 | R8 => 8 | R9 => 9
  | R10 => 10
  end.

Definition getBossCardValue (r : Rank) : Z :=
  if bool_decide (r = RA) then 1 else getCardValue r.

Fixpoint computeComboTotalFrom (total : Z) (p : EnginePlayer)
    (selections : list ComboSelection) : Z :=
  match selections with
  | [] => total
  | selection :: rest =>
      match findCardInHand p (cardId selection) with
      | None => computeComboTotalFrom total p rest
      | Some card =>
          if bool_decide (card_rank card = RA) then
            computeComboTotalFrom
              (total + (if bool_decide (mode selection = high) then 11 else 1)) p rest
          else computeComboTotalFrom (total + getCardValue (card_rank card)) p rest
      end
  end.

Definition computeComboTotal (p : EnginePlayer) (selections : list ComboSelection) : Z :=
  computeComboTotalFrom 0 p selections.

(** [this.bossCards.slice(0, this.bossRevealedCount)] *)
Definition revealedBoss (e : GameEngine) : list Card :=
  take (bossRevealedCount e) (bossCards e).

Definition computeBossTotal (e : GameEngine) : Z :=
  foldl (fun sum card => sum + getBossCardValue (card_rank card)) 0 (revealedBoss e).

(** The first loop of [countSuitMatches]. *)
Definition tallySuits (cards : list Card) : gmap Suit nat :=
  foldl (fun counts card =>
           <[card_suit card := (default 0 (counts !! card_suit card) + 1)%nat]> counts)
        ∅ cards.

(** The second loop of [countSuitMatches]. *)
Fixpoint matchSuits (bossCounts : gmap Suit nat) (matches : nat) (cards : list Card) : nat :=
  match cards with
  | [] => matches
  | card :: rest =>
      let remaining := default 0%nat (bossCounts !! card_suit card) in
      if bool_decide (0 < remaining)%nat then
        matchSuits (<[card_suit card := (remaining - 1)%nat]> bossCounts) (matches + 1) rest
      else matchSuits bossCounts matches rest
  end.

Definition countSuitMatches (cards : list Card) (e : GameEngine) : nat :=
  matchSuits (tallySuits (revealedBoss e)) 0 cards.

Fixpoint sanitizeLoop (p : EnginePlayer) (seen : gset string)
    (selections : list ComboSelection) : list ComboSelection :=
  match selections with
  | [] => []
  | selection :: rest =>
      if bool_decide (cardId selection ∈ seen) then sanitizeLoop p seen rest
      else
        match findCardInHand p (cardId selection) with
        | None => sanitizeLoop p seen rest
        | Some card =>
            let m :=
              if bool_decide (card_rank card = RA) && bool_decide (mode selection = high)
              then high else low in
            mkSel (card_id card) m :: sanitizeLoop p ({[card_id card]} ∪ seen) rest
        end
  end.

Definition sanitizeSelections (p : EnginePlayer) (selections : list ComboSelection)
    : list ComboSelection :=
  sanitizeLoop p ∅ selections.

(** ** Views: private state, snapshot, broadcast *)

Definition getPlayerAt (seat : option nat) (e : GameEngine) : option EnginePlayer :=
  match seat with
  | Some s => getPlayerBySeat s e
  | None => None
  end.

Definition getAvailableActions (p : EnginePlayer) (e : GameEngine) : list PlayerAction :=
  if negb (inHand p) || hasFolded p then []
  else if bool_decide (phase e = combo) && bool_decide (playerId p ∈ awaitingCombo e)
          && bool_decide (seatIndex p = actingSeat e)
  then [submit_combo]
  else if negb (truthy (actingSeat e)) || negb (bool_decide (seatIndex p = actingSeat e))
  then []
  else
    uniq []
      (if bool_decide (currentBet e = betThisRound p) then [fold; check; raise]
       else if bool_decide (betThisRound p < currentBet e) then [fold; call; raise]
       else [fold; raise]).

Definition privateState (p : EnginePlayer) (pid : string) (e : GameEngine)
    : PlayerPrivateState :=
  {| pp_playerId := pid; pp_seatIndex := seatIndex p; pp_stack := stack p;
     pp_hand := hand p; pp_comboSelection := comboSelection p;
     pp_comboTotal := computeComboTotal p (comboSelection p);
     pp_actions := getAvailableActions p e |}.

(** The events of [updatePrivate(playerId)]; it changes nothing. *)
Definition privateEvents (pid : string) (e : GameEngine) : list EngineEvent :=
  match getPlayer pid e with
  | None => []
  | Some p => [EvPrivate pid (privateState p pid e)]
  end.

Definition updatePrivate (pid : string) : Proc := fun e => (e, privateEvents pid e).

Definition seatInfo (e : GameEngine) (index : nat) (slot : option string) : SeatInfo :=
  let seatIndex' := (index + 1)%nat in
  let occupant :=
    match slot with
    | Some pid => if bool_decide (pid = "") then None else Some pid
    | None => None
    end in
  let player :=
    match occupant with Some pid => getPlayer pid e | None => None end in
  {| si_seatIndex := seatIndex';
     occupied := bool_decide (is_Some occupant);
     si_player :=
       match player with
       | None => None
       | Some p =>
           Some {| ps_id := playerId p; ps_username := username p;
                   ps_seatIndex := seatIndex'; ps_stack := stack p;
                   ps_isDealer := isDealer p; ps_isSmallBlind := isSmallBlind p;
                   ps_isBigBlind := isBigBlind p; ps_inHand := inHand p;
                   ps_hasFolded := hasFolded p;
                   ps_isActing := bool_decide (actingSeat e = Some seatIndex');
                   ps_betThisRound := betThisRound p;
                   ps_comboRevealed := comboRevealed p |}
       end |}.

Definition snapshotOf (e : GameEngine) : TableSnapshot :=
  {| ts_seats := imap (seatInfo e) (seats e);
     ts_phase := phase e; ts_handNumber := handNumber e; ts_pot := pot e;
     ts_sidePot := sidePot e; ts_currentBet := currentBet e;
     ts_minimumRaise := minimumRaise e; ts_actingSeat := actingSeat e;
     ts_bossCards := if bossVisible e then revealedBoss e else [];
     ts_bossRevealedCount := if bossVisible e then bossRevealedCount e else 0%nat;
     ts_message := message e |}.

Definition broadcast : Proc :=
  fun e =>
    (e, flat_map (fun p => privateEvents (playerId p) e) (players e)
          ++ [EvSnapshot (snapshotOf e)]).

(** An intent that is rejected: one [error] event, no change. *)
Definition reject (pid : string) (msg : string) : Proc :=
  emit (EvError (Some pid) msg).

(** ** Pot and side pot *)

Definition totalPot (e : GameEngine) : Z :=
  foldl (fun total p => total + totalBet p) 0 (players e).

Definition updateSidePotValues (e : GameEngine) : GameEngine :=
  match List.filter (fun p => bool_decide (stack p = 0)) (activePlayers e) with
  | [] => set_sidePot 0 (set_pot (totalPot e) e)
  | p0 :: rest =>
      let cap := foldl Z.min (totalBet p0) (map totalBet rest) in
      let main :=
        foldl (fun main p => main + Z.min (totalBet p) cap) 0 (players e) in
      let side :=
        foldl (fun side p =>
                 if bool_decide (cap < totalBet p) then side + (totalBet p - cap) else side)
              0 (players e) in
      set_sidePot side (set_pot main e)
  end.

(** [commitAmount(player, amount)] for the player object with id [pid]. *)
Definition commitAmount (pid : string) (amount : Z) (e : GameEngine) : GameEngine :=
  let e1 :=
    updatePlayer pid
      (fun p =>
         let contribution := Z.min (stack p) amount in
         set_totalBet (totalBet p + contribution)
           (set_betThisRound (betThisRound p + contribution)
              (set_stack (stack p - contribution) p))) e in
  updateSidePotValues (set_pot (totalPot e1) e1).

Definition callContribution (p : EnginePlayer) (e : GameEngine) : GameEngine :=
  let needed := currentBet e - betThisRound p in
  if bool_decide (needed <= 0) then e else commitAmount (playerId p) needed e.

(** ** Deck *)

Definition rankLabel (r : Rank) : string :=
  match r with
  | RA => "A" | R2 => "2" | R3 => "3" | R4 => "4" | R5 => "5" | R6 => "6" | R7 => "7"
  | R8 => "8" | R9 => "9" | R10 => "10" | RJ => "J" | RQ => "Q" | RK => "K"
  end.

Definition suitLabel (s : Suit) : string :=
  match s with
  | hearts => "hearts" | diamonds => "diamonds" | clubs => "clubs" | spades => "spades"
  end.

(** The deck before the shuffle, in array order. *)
Definition orderedDeck : list Card :=
  imap (fun counter '(s, r) =>
          mkCard (rankLabel r +:+ "-" +:+ suitLabel s +:+ "-" +:+ string_of_nat counter) r s)
       (flat_map (fun s => map (fun r => (s, r)) RANKS) SUITS).

(** [[deck[i], deck[j]] = [deck[j], deck[i]]] *)
Definition swapCards (i j : nat) (d : list Card) : list Card :=
  match d !! i, d !! j with
  | Some ci, Some cj => <[j := ci]> (<[i := cj]> d)
  | _, _ => d
  end.

(** The shuffle loop, from index [i] down to 1.  [random i] stands for
    the value [Math.floor(Math.random() * (i + 1))] drawn at index [i];
    it is reduced into the range [0..i] that the expression has. *)
Fixpoint shuffleFrom (random : nat -> nat) (i : nat) (d : list Card) : list Card :=
  match i with
  | O => d
  | S i' => shuffleFrom random i' (swapCards i (random i mod (i + 1))%nat d)
  end.

(** [buildDeck()], listed from the end of the array. *)
Definition buildDeck (random : nat -> nat) : list Card :=
  reverse (shuffleFrom random (length orderedDeck - 1) orderedDeck).

(** [drawCards(count)]: the cards popped, in the order popped. *)
Definition drawCards (count : nat) (e : GameEngine) : list Card * GameEngine :=
  (take count (deck e), set_deck (drop count (deck e)) e).

(** ** Betting rounds *)

Definition haveAllRequiredPlayersActed (e : GameEngine) : bool :=
  forallb
    (fun p =>
       if negb (inHand p) || hasFolded p then true
       else if negb (truthy (seatIndex p)) then true
       else if bool_decide (stack p = 0) then true
       else bool_decide (default 0%nat (seatIndex p) ∈ actedThisRound e))
    (players e).

Definition isBettingRoundComplete (e : GameEngine) : bool :=
  let active := activePlayers e in
  if bool_decide (length active <= 1)%nat then true
  else if negb (haveAllRequiredPlayersActed e) then false
  else forallb (fun p => bool_decide (betThisRound p = currentBet e)
                         || bool_decide (stack p = 0)) active.

Definition markSeatActed (seat : option nat) (reset : bool) (e : GameEngine) : GameEngine :=
  match seat with
  | Some (S k) =>
      set_actedThisRound ({[S k]} ∪ (if reset then ∅ else actedThisRound e)) e
  | _ => e
  end.

Definition getPhaseLabel (e : GameEngine) : string :=
  match phase e with
  | rush => "The Rush"
  | charge => "The Charge"
  | stomp => "The Stomp"
  | combo => "Submit combos"
  | oxtail => "Oxtail betting"
  | _ => "Waiting for dealer"
  end.

Definition updateActionMessage (e : GameEngine) : GameEngine :=
  match (if truthy (actingSeat e) then getPlayerAt (actingSeat e) e else None) with
  | Some p =>
      let comboSuffix := if bool_decide (phase e = combo) then " – Submit combo" else "" in
      set_message ("Action to " +:+ username p +:+ comboSuffix) e
  | None => set_message (getPhaseLabel e) e
  end.

(** ** End of a hand *)

Definition rotateDealer (e : GameEngine) : GameEngine :=
  if negb (truthy (dealerSeat e)) then
    match getNextOccupiedSeat (Some 1%nat) e with
    | Some (S k) => set_dealerSeat (Some (S k)) e
    | _ => e
    end
  else
    match getNextOccupiedSeat (dealerSeat e) e with
    | Some (S k) =>
        forAllPlayers
          (fun p => set_isDealer (bool_decide (seatIndex p = Some (S k))) p)
          (set_dealerSeat (Some (S k)) e)
    | _ => e
    end.

Definition endHand : Proc :=
  modify (fun e =>
    forAllPlayers
      (fun p =>
         set_betThisRound 0
           (set_comboRevealed None
              (set_comboSelection [] (set_hasFolded false (set_inHand false p)))))
      (rotateDealer
         (set_comboIndex 0
            (set_comboQueue []
               (set_awaitingCombo ∅
                  (set_message "Waiting for dealer"
                     (set_actingSeat None
                        (set_bossVisible false
                           (set_bossRevealedCount 0
                              (set_bossCards [] (set_phase waiting e)))))))))))
  ;> broadcast.

(** [player.stack += amount] and the [result] event, shared by
    [resolveHandByFold], [splitPot] and [awardPot]. *)
Definition payAndReport (recipients : list EnginePlayer) (award : Z) (text : string) : Proc :=
  fun e =>
    let e1 :=
      foldl (fun e' r => updatePlayer (playerId r) (fun p => set_stack (stack p + award) p) e')
            e recipients in
    let result :=
      {| winners := map (fun r => mkWinner (playerId r) (username r) award) recipients;
         r_bossTotal := computeBossTotal e1;
         description := text |} in
    (set_lastResult (Some result) e1, [EvResult result]).

Definition resolveHandByFold : Proc :=
  fun e =>
    match activePlayers e with
    | recipient :: _ =>
        (payAndReport [recipient] (totalPot e) (username recipient +:+ " wins by default")
         ;> endHand) e
    | [] => endHand e
    end.

Definition splitPot (winners' : list EnginePlayer) : Proc :=
  fun e =>
    let award := totalPot e / Z.of_nat (length winners') in
    (payAndReport winners' award
       ("Split pot among " +:+ string_of_nat (length winners') +:+ " players")
     ;> endHand) e.

Definition awardPot (p : EnginePlayer) : Proc :=
  fun e =>
    let total := totalPot e in
    (payAndReport [p] total (username p +:+ " wins " +:+ string_of_Z total) ;> endHand) e.

(** ** Combo queue and evaluation *)

(** The loop of [buildComboOrder]: [n] iterations are left. *)
Fixpoint comboOrderFrom (n seat : nat) (e : GameEngine) : list nat :=
  match n with
  | O => []
  | S n' =>
      let rest := comboOrderFrom n' (getNextSeatIndex seat) e in
      match getPlayerBySeat seat e with
      | Some p => if isActive p then seat :: rest else rest
      | None => rest
      end
  end.

Definition buildComboOrder (e : GameEngine) : list nat :=
  let startSeat :=
    match smallBlindSeat e with Some s => s | None => getSeatLeftOfDealer e end in
  comboOrderFrom SEAT_COUNT startSeat e.

Definition comboEligible (seat : nat) (e : GameEngine) : bool :=
  match getPlayerBySeat seat e with
  | Some p => bool_decide (playerId p ∈ awaitingCombo e) && inHand p && negb (hasFolded p)
  | None => false
  end.

(** The loop of [setNextComboActor] over the queue from index [idx] on. *)
Fixpoint nextComboActor (idx : nat) (queue : list nat) (e : GameEngine)
    : option (nat * nat) :=
  match queue with
  | [] => None
  | seat :: rest =>
      if comboEligible seat e then Some (idx, seat) else nextComboActor (S idx) rest e
  end.

Definition setNextComboActor (startIndex : nat) (e : GameEngine) : bool * GameEngine :=
  match nextComboActor startIndex (drop startIndex (comboQueue e)) e with
  | Some (idx, seat) =>
      (true, updateActionMessage (set_actingSeat (Some seat) (set_comboIndex idx e)))
  | None =>
      (false,
       updateActionMessage
         (set_actingSeat None (set_comboIndex (length (comboQueue e)) e)))
  end.

Record Evaluated := mkEvaluated {
  ev_player : EnginePlayer; ev_total : Z; ev_diff : Z; ev_under : bool;
  ev_suitMatches : nat }.

Definition evaluatePlayer (e : GameEngine) (p : EnginePlayer) : Evaluated :=
  let cards := omap (fun selection => findCardInHand p (cardId selection)) (comboSelection p) in
  let total := computeComboTotal p (comboSelection p) in
  let bossTotal := computeBossTotal e in
  {| ev_player := p; ev_total := total; ev_diff := Z.abs (bossTotal - total);
     ev_under := bool_decide (total <= bossTotal);
     ev_suitMatches := countSuitMatches cards e |}.

(** The comparator passed to [sort]. *)
Definition compareEvaluated (a b : Evaluated) : Z :=
  if negb (bool_decide (ev_diff a = ev_diff b)) then ev_diff a - ev_diff b
  else if negb (bool_decide (ev_under a = ev_under b)) then (if ev_under a then -1 else 1)
  else if negb (bool_decide (ev_suitMatches a = ev_suitMatches b))
  then Z.of_nat (ev_suitMatches b) - Z.of_nat (ev_suitMatches a)
  else 0.

(** [Array.prototype.sort] is stable; a stable insertion sort gives the
    one order a stable sort can give. *)
Fixpoint insertEvaluated (x : Evaluated) (l : list Evaluated) : list Evaluated :=
  match l with
  | [] => [x]
  | y :: l' =>
      if bool_decide (compareEvaluated x y <= 0) then x :: y :: l'
      else y :: insertEvaluated x l'
  end.

Definition sortEvaluated (l : list Evaluated) : list Evaluated :=
  foldr insertEvaluated [] l.

Definition sameKeys (best item : Evaluated) : bool :=
  bool_decide (ev_diff item = ev_diff best)
  && bool_decide (ev_under item = ev_under best)
  && bool_decide (ev_suitMatches item = ev_suitMatches best).

(** The body of the loop of [enterComboPhase] over the active players. *)
Definition awaitCombo (oxtail' : bool) (e : GameEngine) (p : EnginePlayer) : GameEngine :=
  let e' := set_awaitingCombo ({[playerId p]} ∪ awaitingCombo e) e in
  if oxtail' then e'
  else updatePlayer (playerId p)
         (fun q => set_comboRevealed None (set_comboSelection [] q)) e'.

(** ** The cascade of a finished betting round

    [startBettingRound], [finishBettingRound], [enterComboPhase],
    [evaluateCombos] and [startOxtail] call each other.  Each is first
    given with the methods it calls as parameters; the knot is tied below
    by recursion on the number of rounds left in the hand and on the
    number of cards left in the deck, which are what end the recursion in
    the source. *)

Section Methods.
Variable finishBettingRound' : Proc.
Variable startBettingRound' : option nat -> Proc.
Variable enterComboPhase' : bool -> Proc.
Variable evaluateCombos' : Proc.

Definition startBettingRoundK (referenceSeat : option nat) : Proc :=
  fun e =>
    let startSeat :=
      match referenceSeat with
      | Some s => Some s
      | None =>
          match smallBlindSeat e with
          | Some s => Some s
          | None => Some (getSeatLeftOfDealer e)
          end
      end in
    let e1 := set_actedThisRound ∅ e in
    let e2 := set_actingSeat (findNextActingSeat startSeat true e1) e1 in
    if negb (truthy (actingSeat e2)) then finishBettingRound' e2
    else (updateActionMessage e2, []).

Definition finishBettingRoundK : Proc :=
  fun e =>
    let e1 :=
      set_minimumRaise RAISE_INCREMENT
        (set_currentBet 0
           (forAllPlayers (set_betThisRound 0)
              (set_actedThisRound ∅ (set_actingSeat None e)))) in
    if bool_decide (length (activePlayers e1) <= 1)%nat then resolveHandByFold e1
    else
      match phase e1 with
      | rush =>
          startBettingRound' (smallBlindSeat e1)
            (set_bossRevealedCount 4 (set_phase charge e1))
      | charge =>
          startBettingRound' (smallBlindSeat e1)
            (set_bossRevealedCount 5 (set_phase stomp e1))
      | stomp => enterComboPhase' false e1
      | oxtail => enterComboPhase' true e1
      | _ => (e1, [])
      end.

Definition enterComboPhaseK (oxtail' : bool) : Proc :=
  fun e =>
    let e1 := set_awaitingCombo ∅ (set_phase combo e) in
    let active := activePlayers e1 in
    let e2 := foldl (awaitCombo oxtail') e1 active in
    let e3 := set_comboIndex 0 (set_comboQueue (buildComboOrder e2) e2) in
    if bool_decide (size (awaitingCombo e3) = 0%nat) then
      evaluateCombos' (updateActionMessage (set_actingSeat None e3))
    else
      let '(found, e4) := setNextComboActor 0 e3 in
      if negb found then evaluateCombos' e4 else broadcast e4.

(** The deck is not empty where [evaluateCombos] calls [startOxtail]. *)
Definition startOxtailK : Proc :=
  fun e =>
    let e1 := set_phase oxtail e in
    let '(drawn, e2) := drawCards 1 e1 in
    let e3 := set_bossCards (bossCards e2 ++ drawn) e2 in
    let e4 := set_bossRevealedCount (bossRevealedCount e3 + 1) e3 in
    startBettingRound' (smallBlindSeat e4) e4.

Definition evaluateCombosWith (startOxtail' : Proc) : Proc :=
  fun e =>
    let contenders := List.filter (fun p => negb (hasFolded p)) (activePlayers e) in
    if bool_decide (length contenders = 0%nat) then resolveHandByFold e
    else
      let evaluated := sortEvaluated (map (evaluatePlayer e) contenders) in
      match evaluated with
      | [] => (e, [])
      | best :: _ =>
          let ties := List.filter (sameKeys best) evaluated in
          if bool_decide (1 < length ties)%nat then
            if bool_decide (length (deck e) = 0%nat) then splitPot (map ev_player ties) e
            else startOxtail' e
          else awardPot (ev_player best) e
      end.
End Methods.

(** [finishBettingRound] when at most [rounds] further betting rounds can
    follow in the same pass: two from [rush], one from [charge], none
    from the phases that enter the combo phase. *)
Fixpoint finishBettingRoundN (enterComboPhase' : bool -> Proc) (rounds : nat) : Proc :=
  finishBettingRoundK
    (startBettingRoundK
       (match rounds with
        | O => skip
        | S rounds' => finishBettingRoundN enterComboPhase' rounds'
        end))
    enterComboPhase'.

(** [evaluateCombos] when [cards] cards are left in the deck: every pass
    through [startOxtail] draws one. *)
Fixpoint evaluateCombosN (cards : nat) : Proc :=
  evaluateCombosWith
    (startOxtailK
       (startBettingRoundK
          (finishBettingRoundN
             (enterComboPhaseK
                (match cards with
                 | O => skip
                 | S cards' => evaluateCombosN cards'
                 end))
             2))).

Definition evaluateCombos : Proc := fun e => evaluateCombosN (length (deck e)) e.

Definition enterComboPhase (oxtail' : bool) : Proc := enterComboPhaseK evaluateCombos oxtail'.

Definition finishBettingRound : Proc := finishBettingRoundN enterComboPhase 2.

Definition startBettingRound (referenceSeat : option nat) : Proc :=
  startBettingRoundK finishBettingRound referenceSeat.

Definition startOxtail : Proc := startOxtailK startBettingRound.

Definition advanceTurn : Proc :=
  fun e =>
    if negb (truthy (actingSeat e)) then (e, [])
    else if isBettingRoundComplete e then finishBettingRound e
    else
      let e1 := set_actingSeat (findNextActingSeat (actingSeat e) false e) e in
      if negb (truthy (actingSeat e1)) then finishBettingRound e1
      else (updateActionMessage e1, []).

(** ** Starting a hand *)

Definition getEligibleSeatedPlayers (e : GameEngine) : list EnginePlayer :=
  omap (fun slot =>
          match slot with
          | Some pid =>
              if bool_decide (pid = "") then None
              else
                match getPlayer pid e with
                | Some p =>
                    if truthy (seatIndex p) && bool_decide (entryHand p <= handNumber e)%nat
                    then Some p else None
                | None => None
                end
          | None => None
          end)
       (seats e).

Definition resetPlayersForHand (eligible : list EnginePlayer) (e : GameEngine) : GameEngine :=
  let e1 :=
    forAllPlayers
      (fun p =>
         set_lastAction None
           (set_hand []
              (set_isBigBlind false
                 (set_isSmallBlind false
                    (set_comboRevealed None
                       (set_comboSelection []
                          (set_totalBet 0
                             (set_betThisRound 0
                                (set_hasFolded false (set_inHand false p))))))))))
      e in
  foldl (fun e' p => updatePlayer (playerId p) (set_inHand true) e') e1 eligible.

Definition dealHands (eligible : list EnginePlayer) (e : GameEngine) : GameEngine :=
  foldl (fun e' p =>
           let '(cards, e'') := drawCards 7 e' in
           updatePlayer (playerId p) (set_hand cards) e'')
        e eligible.

(** The forced contribution of a blind. *)
Definition postBlind (poster : option EnginePlayer) (blind : Z)
    (flag : EnginePlayer -> EnginePlayer) (e : GameEngine) : GameEngine :=
  match poster with
  | Some p =>
      let e1 := updatePlayer (playerId p) flag e in
      let e2 := commitAmount (playerId p) blind e1 in
      let e3 := updatePlayer (playerId p) (set_betThisRound blind) e2 in
      set_currentBet (Z.max (currentBet e3) blind) e3
  | None => e
  end.

Definition assignBlinds (eligible : list EnginePlayer) (e : GameEngine) : GameEngine :=
  let e1 :=
    if negb (truthy (dealerSeat e)) then
      match eligible with
      | p0 :: _ =>
          updatePlayer (playerId p0) (set_isDealer true) (set_dealerSeat (seatIndex p0) e)
      | [] => e
      end
    else e in
  let e2 :=
    foldl (fun e' p =>
             updatePlayer (playerId p)
               (fun q => set_isDealer (bool_decide (seatIndex q = dealerSeat e')) q) e')
          e1 eligible in
  let sbSeat :=
    if bool_decide (length eligible = 2%nat) then dealerSeat e2
    else getNextOccupiedSeat (dealerSeat e2) e2 in
  let bbSeat := getNextOccupiedSeat sbSeat e2 in
  let e3 := set_smallBlindSeat sbSeat e2 in
  let sbPlayer := getPlayerAt sbSeat e3 in
  let bbPlayer := getPlayerAt bbSeat e3 in
  postBlind bbPlayer BIG_BLIND (set_isBigBlind true)
    (postBlind sbPlayer SMALL_BLIND (set_isSmallBlind true) e3).

(** [random] supplies the draws of [Math.random] to the shuffle. *)
Definition beginHand (random : nat -> nat) (eligible : list EnginePlayer) : Proc :=
  fun e =>
    let e1 := set_handNumber (handNumber e + 1) e in
    let e2 := resetPlayersForHand eligible e1 in
    let e3 := set_deck (buildDeck random) e2 in
    let '(boss, e4) := drawCards 5 e3 in
    let e5 :=
      set_message "The Rush"
        (set_minimumRaise RAISE_INCREMENT
           (set_currentBet 0
              (set_sidePot 0
                 (set_pot 0
                    (set_phase rush
                       (set_bossVisible false
                          (set_bossRevealedCount 3 (set_bossCards boss e4)))))))) in
    let e6 := set_bossVisible true (dealHands eligible e5) in
    let e7 := assignBlinds eligible e6 in
    startBettingRound (smallBlindSeat e7) e7.

(** ** The intents *)

Definition join (pid name : string) : Proc :=
  fun e =>
    let e1 :=
      if bool_decide (is_Some (getPlayer pid e)) then updatePlayer pid (set_username name) e
      else
        set_players
          (players e ++
             [{| playerId := pid; username := name; seatIndex := None;
                 stack := STARTING_STACK;
                 entryHand := (handNumber e + (if isHandActive e then 1 else 0))%nat;
                 hand := []; inHand := false; hasFolded := false; betThisRound := 0;
                 totalBet := 0; comboSelection := []; comboRevealed := None;
                 isDealer := false; isSmallBlind := false; isBigBlind := false;
                 lastAction := None |}])
          e in
    (updatePrivate pid ;> broadcast) e1.

(** [seat] has the type [SeatIndex]: it is one of 1..6, so that
    [seatIndex - 1] is a slot of the array. *)
Definition seatTake (pid : string) (seat : nat) : Proc :=
  fun e =>
    match getPlayer pid e with
    | None => reject pid "Join first" e
    | Some player =>
        let seatSlot := (seat - 1)%nat in
        if match seatOccupant seat e with
           | Some other => negb (bool_decide (other = pid))
           | None => false
           end
        then reject pid "Seat taken" e
        else
          let e1 :=
            if truthy (seatIndex player)
            then set_seats (<[(default 0 (seatIndex player) - 1)%nat := None]> (seats e)) e
            else e in
          let e2 := set_seats (<[seatSlot := Some pid]> (seats e1)) e1 in
          let e3 :=
            updatePlayer pid
              (fun p =>
                 set_entryHand (handNumber e2 + (if isHandActive e2 then 1 else 0))%nat
                   (set_seatIndex (Some seat) p))
              e2 in
          let e4 :=
            if negb (truthy (dealerSeat e3))
            then updatePlayer pid (set_isDealer true) (set_dealerSeat (Some seat) e3)
            else e3 in
          broadcast e4
    end.

Definition seatLeave (pid : string) : Proc :=
  fun e =>
    match getPlayer pid e with
    | None => (e, [])
    | Some player =>
        let e1 :=
          if truthy (seatIndex player) then
            let own := default 0%nat (seatIndex player) in
            let e' :=
              if bool_decide (dealerSeat e = seatIndex player)
                 && bool_decide (phase e = waiting)
              then set_dealerSeat (findNextDealerSeat own e) e
              else e in
            set_seats (<[(own - 1)%nat := None]> (seats e')) e'
          else e in
        let e2 :=
          if inHand player
          then updatePlayer pid (fun p => set_inHand false (set_hasFolded true p)) e1
          else e1 in
        let leftSeat := seatIndex player in
        let e3 := updatePlayer pid (set_seatIndex None) e2 in
        let rest : Proc :=
          if bool_decide (phase e3 = combo) && bool_decide (pid ∈ awaitingCombo e3) then
            fun _ =>
              let e4 := set_awaitingCombo (awaitingCombo e3 ∖ {[pid]}) e3 in
              if bool_decide (leftSeat = actingSeat e4) then
                if bool_decide (size (awaitingCombo e4) = 0%nat) then
                  evaluateCombos (updateActionMessage (set_actingSeat None e4))
                else
                  let '(found, e5) := setNextComboActor (comboIndex e4 + 1) e4 in
                  if negb found then evaluateCombos e5 else (e5, [])
              else (e4, [])
          else if truthy leftSeat && bool_decide (leftSeat = actingSeat e3) then advanceTurn
          else skip in
        (rest ;> broadcast) e3
    end.

Definition startHand (pid : string) (random : nat -> nat) : Proc :=
  fun e =>
    match getPlayer pid e with
    | None => reject pid "Only dealer can start" e
    | Some player =>
        if negb (isDealer player) then reject pid "Only dealer can start" e
        else if isHandActive e then reject pid "Hand already running" e
        else
          let seated := getEligibleSeatedPlayers e in
          if bool_decide (length seated < 2)%nat
          then reject pid "Need at least two players" e
          else (beginHand random seated ;> broadcast) e
    end.

(** The [raise] case of [betAction], up to its [break]: [inr] is the
    reason of a rejection. *)
Definition raiseBy (player : EnginePlayer) (amount' : option Z) (e : GameEngine)
    : GameEngine + string :=
  if bool_decide (stack player <= 0) then inr "No chips"
  else
    let desiredRaise := default RAISE_INCREMENT amount' in
    if bool_decide (desiredRaise < RAISE_INCREMENT)
       || negb (bool_decide (Z.rem desiredRaise RAISE_INCREMENT = 0))
    then inr "Invalid raise amount"
    else
      let callNeeded := Z.max 0 (currentBet e - betThisRound player) in
      if bool_decide (stack player <= callNeeded) then inr "Not enough chips to raise"
      else
        let availableRaise :=
          Z.min desiredRaise
            ((stack player - callNeeded) / RAISE_INCREMENT * RAISE_INCREMENT) in
        if bool_decide (availableRaise < RAISE_INCREMENT) then inr "Raise below minimum"
        else
          let needed := callNeeded + availableRaise in
          let e1 := commitAmount (playerId player) needed e in
          let e2 :=
            set_currentBet
              (from_option betThisRound 0 (getPlayer (playerId player) e1)) e1 in
          let e3 := set_minimumRaise (Z.max RAISE_INCREMENT availableRaise) e2 in
          inl (updatePlayer (playerId player) (set_lastAction (Some "Raise")) e3).

Definition betAction (pid : string) (msg : BetActionMessage) : Proc :=
  fun e =>
    match getPlayer pid e with
    | None => reject pid "Invalid action" e
    | Some player =>
        if negb (inHand player) || hasFolded player then reject pid "Invalid action" e
        else if negb (truthy (actingSeat e))
                || negb (bool_decide (seatIndex player = actingSeat e))
        then reject pid "Not your turn" e
        else if negb (truthy (seatIndex player)) then reject pid "Invalid seat" e
        else
          let after (resetActed : bool) (e' : GameEngine) :=
            ((fun e'' => advanceTurn (markSeatActed (seatIndex player) resetActed e''))
             ;> broadcast) e' in
          match action msg with
          | BetFold =>
              after false
                (updatePlayer pid
                   (fun p =>
                      set_lastAction (Some "Fold") (set_inHand false (set_hasFolded true p)))
                   e)
          | BetCheck =>
              if bool_decide (betThisRound player < currentBet e)
              then reject pid "Cannot check" e
              else after false (updatePlayer pid (set_lastAction (Some "Check")) e)
          | BetCall =>
              after false
                (updatePlayer pid (set_lastAction (Some "Call")) (callContribution player e))
          | BetRaise =>
              match raiseBy player (amount msg) e with
              | inr reason => reject pid reason e
              | inl e' => after true e'
              end
          end
    end.

Definition comboUpdate (pid : string) (selections : list ComboSelection) : Proc :=
  fun e =>
    match getPlayer pid e with
    | None => (e, [])
    | Some player =>
        if bool_decide (length (hand player) = 0%nat) then (e, [])
        else
          updatePrivate pid
            (updatePlayer pid
               (set_comboSelection (sanitizeSelections player selections)) e)
    end.

Definition comboSubmit (pid : string) (selections' : list ComboSelection) : Proc :=
  fun e =>
    match getPlayer pid e with
    | None => (e, [])
    | Some player =>
        if negb (inHand player) || hasFolded player then (e, [])
        else if negb (bool_decide (phase e = combo)) then reject pid "Not combo phase" e
        else if negb (bool_decide (pid ∈ awaitingCombo e)) then (e, [])
        else if negb (truthy (seatIndex player))
                || negb (bool_decide (seatIndex player = actingSeat e))
        then reject pid "Not your turn" e
        else
          let selections := sanitizeSelections player selections' in
          let total := computeComboTotal player selections in
          let bossTotal := computeBossTotal e in
          if bool_decide (bossTotal < total) then reject pid "Combo exceeds Boss total" e
          else
            let e1 :=
              updatePlayer pid
                (fun p =>
                   set_comboRevealed
                     (Some (omap (fun selection => findCardInHand player (cardId selection))
                              selections))
                     (set_comboSelection selections p))
                e in
            let e2 := set_awaitingCombo (awaitingCombo e1 ∖ {[pid]}) e1 in
            if bool_decide (size (awaitingCombo e2) = 0%nat) then
              evaluateCombos (updateActionMessage (set_actingSeat None e2))
            else
              let '(found, e3) := setNextComboActor (comboIndex e2 + 1) e2 in
              if negb found then evaluateCombos e3 else broadcast e3
    end.

Definition restartTable : Proc :=
  modify (fun e =>
    {| players :=
         map (fun p =>
                set_isBigBlind false
                  (set_isSmallBlind false
                     (set_isDealer false
                        (set_comboRevealed None
                           (set_comboSelection []
                              (set_totalBet 0
                                 (set_betThisRound 0
                                    (set_hasFolded false
                                       (set_inHand false
                                          (set_hand []
                                             (set_entryHand 0%nat
                                                (set_seatIndex None
                                                   (set_stack STARTING_STACK p)))))))))))))
             (players e);
       seats := replicate SEAT_COUNT None; handNumber := 0; deck := []; bossCards := [];
       bossRevealedCount := 0; bossVisible := false; smallBlindSeat := None;
       phase := waiting; dealerSeat := None; currentBet := 0;
       minimumRaise := RAISE_INCREMENT; pot := 0; sidePot := 0; actingSeat := None;
       message := "Waiting for players"; actedThisRound := ∅; awaitingCombo := ∅;
       comboQueue := []; comboIndex := 0; lastResult := None |})
  ;> broadcast.

(** ** Runs of the engine

    The engine is driven by one intent at a time.  A seat number in an
    intent has the type [SeatIndex]. *)

Inductive Intent :=
  | Join (pid name : string)
  | SeatTake (pid : string) (seat : nat)
  | SeatLeave (pid : string)
  | StartHand (pid : string) (random : nat -> nat)
  | Bet (pid : string) (msg : BetActionMessage)
  | ComboUpdate (pid : string) (selections : list ComboSelection)
  | ComboSubmit (pid : string) (selections : list ComboSelection)
  | RestartTable.

Definition wellTyped (i : Intent) : Prop :=
  match i with
  | SeatTake _ seat => (1 <= seat <= SEAT_COUNT)%nat
  | _ => True
  end.

Definition perform (i : Intent) : Proc :=
  match i with
  | Join pid name => join pid name
  | SeatTake pid seat => seatTake pid seat
  | SeatLeave pid => seatLeave pid
  | StartHand pid random => startHand pid random
  | Bet pid msg => betAction pid msg
  | ComboUpdate pid selections => comboUpdate pid selections
  | ComboSubmit pid selections => comboSubmit pid selections
  | RestartTable => restartTable
  end.

(** The engine after a run of intents, oldest first. *)
Definition run (intents : list Intent) (e : GameEngine) : GameEngine :=
  foldl (fun e' i => fst (perform i e')) e intents.

Inductive reachable : GameEngine -> Prop :=
  | reachable_new : reachable newEngine
  | reachable_step e i : reachable e -> wellTyped i -> reachable (fst (perform i e)).

(** ** Vocabulary of the specification

    The definitions below follow the words of the specification; the
    theorems compare the engine with them. *)

Definition sumZ (l : list Z) : Z := foldr Z.add 0 l.

Arguments sumZ : simpl never.

(** "Ace = 1 if low, 11 if high; J/Q/K = 11/12/13; numeric ranks = face
    value". *)
Definition comboCardValue (r : Rank) (m : ComboMode) : Z :=
  match r with
  | RA => match m with low => 1 | high => 11 end
  | RJ => 11 | RQ => 12 | RK => 13
  | R2 => 2 | R3 => 3 | R4 => 4 | R5 => 5 | R6 => 6 | R7 => 7 | R8 => 8 | R9 => 9
  | R10 => 10
  end.

(** What one selection adds to a combo: the value of the card it names,
    nothing when the player does not hold that card. *)
Definition selectionValue (p : EnginePlayer) (s : ComboSelection) : Z :=
  match findCardInHand p (cardId s) with
  | Some card => comboCardValue (card_rank card) (mode s)
  | None => 0
  end.

(** The player of [runCourtValueTest] in [src/engine/tests/simulations.ts]. *)
Definition courtHolder : EnginePlayer :=
  {| playerId := "p1"; username := "Dealer"; seatIndex := Some 1%nat; stack := 500;
     entryHand := 0;
     hand := [mkCard "c-j" RJ clubs; mkCard "d-q" RQ diamonds; mkCard "h-k" RK hearts];
     inHand := false; hasFolded := false; betThisRound := 0; totalBet := 0;
     comboSelection := []; comboRevealed := None; isDealer := true;
     isSmallBlind := false; isBigBlind := false; lastAction := None |}.

(** The number of cards of suit [s] among [cards]. *)
Definition suitCount (s : Suit) (cards : list Card) : nat :=
  length (List.filter (fun card => bool_decide (card_suit card = s)) cards).

Definition sumSuits (f : Suit -> nat) : nat :=
  (f hearts + f diamonds + f clubs + f spades)%nat.

(** A one-to-one matching of selected cards with revealed Boss cards of
    the same suit credits, in each suit, as many cards as both sides have. *)
Definition suitMatchesOf (s : Suit) (cards boss : list Card) : nat :=
  Nat.min (suitCount s cards) (suitCount s boss).

(** The Boss and the selection of [runSuitMatchUniquenessTest] in
    [src/engine/tests/simulations.ts]. *)
Definition suitTestEngine : GameEngine :=
  set_bossRevealedCount 4
    (set_bossCards
       [mkCard "b1" R2 hearts; mkCard "b2" R3 clubs; mkCard "b3" R4 clubs;
        mkCard "b4" R5 diamonds] newEngine).

Definition suitTestCards : list Card :=
  [mkCard "p1" R6 hearts; mkCard "p2" R7 hearts; mkCard "p3" R8 clubs;
   mkCard "p4" R9 spades].

(** Two hearts revealed by the Boss, three hearts selected. *)
Definition twoHeartsEngine : GameEngine :=
  set_bossRevealedCount 3
    (set_bossCards
       [mkCard "b1" R2 hearts; mkCard "b2" R3 hearts; mkCard "b3" R4 clubs;
        mkCard "b4" R5 hearts; mkCard "b5" R6 hearts] newEngine).

Definition threeHearts : list Card :=
  [mkCard "h1" R6 hearts; mkCard "h2" R7 hearts; mkCard "h3" R8 hearts].

(** "De-duplicated by card id": the first selection of each card id is
    kept.  [seen] lists the ids already met. *)
Fixpoint firstPerCard (seen : list string) (l : list ComboSelection) : list ComboSelection :=
  match l with
  | [] => []
  | s :: rest =>
      if bool_decide (cardId s ∈ seen) then firstPerCard seen rest
      else s :: firstPerCard (cardId s :: seen) rest
  end.

(** The selection names a card of the hand. *)
Definition held (p : EnginePlayer) (s : ComboSelection) : bool :=
  bool_decide (is_Some (findCardInHand p (cardId s))).

(** "Mode forced to low for every card except an Ace explicitly marked
    high". *)
Definition forcedMode (p : EnginePlayer) (s : ComboSelection) : ComboMode :=
  match findCardInHand p (cardId s) with
  | Some card =>
      match card_rank card, mode s with
      | RA, high => high
      | _, _ => low
      end
  | None => low
  end.

Definition sanitized (p : EnginePlayer) (selections : list ComboSelection)
    : list ComboSelection :=
  map (fun s => mkSel (cardId s) (forcedMode p s))
      (firstPerCard [] (List.filter (held p) selections)).

Definition isError (ev : EngineEvent) : bool :=
  match ev with EvError _ _ => true | _ => false end.

(** No event of the list is an [error] event. *)
Definition noError (evs : list EngineEvent) : Prop := forallb (fun ev => negb (isError ev)) evs = true.

(** ** Runs used as examples *)

Definition firstIndex : nat -> nat := fun _ => 0%nat.

(** Three players take seats 1 to 3 and the dealer starts the first hand. *)
Definition threeSeated : list Intent :=
  [Join "p1" "Dealer"; Join "p2" "Left"; Join "p3" "Right";
   SeatTake "p1" 1; SeatTake "p2" 2; SeatTake "p3" 3; StartHand "p1" firstIndex].

(** In the first betting round the small blind folds and leaves the seat. *)
Definition foldedLeaver : GameEngine :=
  run (threeSeated ++ [Bet "p2" (mkBet BetFold None); SeatLeave "p2"]) newEngine.

Definition leaverSelections : list ComboSelection :=
  [mkSel "A-spades-39" high; mkSel "K-clubs-38" high; mkSel "A-spades-39" low;
   mkSel "no-such-card" low].

(** ** Pot accounting *)

Definition sumTotalBets (e : GameEngine) : Z := sumZ (map totalBet (players e)).

(** The active players whose stack is zero. *)
Definition allInPlayers (e : GameEngine) : list EnginePlayer :=
  List.filter (fun p => bool_decide (stack p = 0)) (activePlayers e).

Definition isMinimumOf (cap : Z) (l : list Z) : Prop :=
  cap ∈ l /\ forall x, x ∈ l -> cap <= x.

(** What the specification says of [pot] and [sidePot] after a commitment. *)
Definition potAccounted (e : GameEngine) : Prop :=
  pot e + sidePot e = sumTotalBets e
  /\ (allInPlayers e = [] -> sidePot e = 0 /\ pot e = sumTotalBets e)
  /\ (allInPlayers e <> [] ->
      exists cap,
        isMinimumOf cap (map totalBet (allInPlayers e))
        /\ pot e = sumZ (map (fun p => Z.min (totalBet p) cap) (players e))
        /\ sidePot e = sumZ (map (fun p => Z.max 0 (totalBet p - cap)) (players e))).

(** What of a player the accounting reads. *)
Definition stakeOf (p : EnginePlayer) : Z * Z * bool * bool :=
  (stack p, totalBet p, inHand p, hasFolded p).

(** The engine right after the blinds of the first hand of [threeSeated]. *)
Definition afterBlinds : GameEngine := run threeSeated newEngine.

(** ** Betting rounds *)

(** The betting rounds that can still follow the one of phase [ph]
    before the combo phase. *)
Definition phaseRank (ph : Phase) : nat :=
  match ph with rush => 2 | charge => 1 | _ => 0 end.

(** What the cascade of a finished betting round may do to a player: it
    keeps the identity, the seat, the cards and the chips committed to the
    hand; it never brings a player into the hand; it leaves the bet of the
    round alone or clears it. *)
Definition evolved (p p' : EnginePlayer) : Prop :=
  playerId p' = playerId p
  /\ username p' = username p
  /\ seatIndex p' = seatIndex p
  /\ entryHand p' = entryHand p
  /\ hand p' = hand p
  /\ totalBet p' = totalBet p
  /\ (isActive p' = true -> isActive p = true)
  /\ (betThisRound p' = betThisRound p \/ betThisRound p' = 0).

(** ... and to the table. *)
Definition settled (e e' : GameEngine) : Prop :=
  Forall2 evolved (players e) (players e')
  /\ seats e' = seats e
  /\ handNumber e' = handNumber e
  /\ smallBlindSeat e' = smallBlindSeat e
  /\ pot e' = pot e
  /\ sidePot e' = sidePot e
  /\ (currentBet e' = currentBet e \/ currentBet e' = 0)
  /\ (minimumRaise e' = minimumRaise e \/ minimumRaise e' = RAISE_INCREMENT).

(** A procedure of the cascade: it does no more than the above and
    rejects nothing. *)
Definition calm (F : Proc) : Prop :=
  forall e, settled e (fst (F e)) /\ noError (snd (F e)).

(** A player in the hand sits at a seat. *)
Definition seatedIfActive (p : EnginePlayer) : Prop :=
  isActive p = true -> truthy (seatIndex p) = true.

(** The players of the map have distinct ids and those in the hand are
    seated: both hold of every engine a run can reach. *)
Definition wellFormed (e : GameEngine) : Prop :=
  NoDup (map playerId (players e)) /\ Forall seatedIfActive (players e).

(** A change of a player that keeps the identity and does not unseat a
    player who is in the hand. *)
Definition kept (p p' : EnginePlayer) : Prop :=
  playerId p' = playerId p /\ (seatedIfActive p -> seatedIfActive p').

Definition tame (e e' : GameEngine) : Prop := Forall2 kept (players e) (players e').

(** The players named by [rs] are seated in [e]. *)
Definition seatedIn (rs : list EnginePlayer) (e : GameEngine) : Prop :=
  forall r q, r ∈ rs -> q ∈ players e -> playerId q = playerId r ->
              truthy (seatIndex q) = true.

(** The engine's own record of who has acted: the seat where the player
    sits now is in [actedThisRound], the set of seats that the engine has
    marked since the last raise.  The record is kept by seat, not by
    player. *)
Definition seatMarked (e : GameEngine) (p : EnginePlayer) : Prop :=
  exists s, seatIndex p = Some s /\ s ∈ actedThisRound e.

(** The test of the engine: at most one active player remains, or every
    active player with a non-zero stack sits at a marked seat and has
    [betThisRound == currentBet]. *)
Definition roundCompleteBySeat (e : GameEngine) : Prop :=
  (length (activePlayers e) <= 1)%nat
  \/ (forall p, p ∈ activePlayers e -> stack p <> 0 ->
                seatMarked e p /\ betThisRound p = currentBet e).

(** "Has acted since the last raise", by what the players did.  [acted]
    lists the players whose betting action the engine has carried out in
    the betting round that is running, from its last raise on;
    [actedAfter] is that list after one more intent.  A betting round is
    over when the phase changes; an action that is answered with an error
    is not carried out. *)
Definition actedAfter (acted : list string) (i : Intent) (e : GameEngine) : list string :=
  if negb (bool_decide (phase (fst (perform i e)) = phase e)) then []
  else
    match i with
    | Bet pid msg =>
        if existsb isError (snd (perform i e)) then acted
        else
          match action msg with
          | BetRaise => [pid]
          | _ => pid :: acted
          end
    | _ => acted
    end.

(** The players who have acted since the last raise after a run of
    intents, oldest first. *)
Fixpoint actedSinceRaise (acted : list string) (intents : list Intent) (e : GameEngine)
    : list string :=
  match intents with
  | [] => acted
  | i :: rest => actedSinceRaise (actedAfter acted i e) rest (fst (perform i e))
  end.

(** "A betting round is complete when at most one active player remains,
    or every active player with a non-zero stack has both acted since the
    last raise and has [betThisRound == currentBet]", where [acted] are
    the players who have acted since the last raise. *)
Definition roundComplete (acted : list string) (e : GameEngine) : Prop :=
  (length (activePlayers e) <= 1)%nat
  \/ (forall p, p ∈ activePlayers e -> stack p <> 0 ->
                playerId p ∈ acted /\ betThisRound p = currentBet e).

(** The figures of a betting round are reset. *)
Definition roundReset (e : GameEngine) : Prop :=
  Forall (fun p => betThisRound p = 0) (players e)
  /\ currentBet e = 0
  /\ minimumRaise e = RAISE_INCREMENT.

(** The resets at the head of [finishBettingRound] ... *)
Definition resetRound (e : GameEngine) : GameEngine :=
  set_minimumRaise RAISE_INCREMENT
    (set_currentBet 0
       (forAllPlayers (set_betThisRound 0)
          (set_actedThisRound ∅ (set_actingSeat None e)))).

(** ... and the advance of the phase that follows them. *)
Definition advancePhase : Proc :=
  fun e =>
    if bool_decide (length (activePlayers e) <= 1)%nat then resolveHandByFold e
    else
      match phase e with
      | rush =>
          startBettingRound (smallBlindSeat e)
            (set_bossRevealedCount 4 (set_phase charge e))
      | charge =>
          startBettingRound (smallBlindSeat e)
            (set_bossRevealedCount 5 (set_phase stomp e))
      | stomp => enterComboPhase false e
      | oxtail => enterComboPhase true e
      | _ => (e, [])
      end.

(** [wellTyped], decided. *)
Definition wellTypedb (i : Intent) : bool :=
  match i with
  | SeatTake _ seat => bool_decide (1 <= seat <= SEAT_COUNT)%nat
  | _ => true
  end.

(** The small blind of [afterBlinds], the player to act. *)
Definition smallBlindPlayer : EnginePlayer :=
  default courtHolder (getPlayer "p2" afterBlinds).

(** ** The combo queue *)

(** Seat [seat], at index [i] of the queue, is the next one from index
    [start] on whose player is still waiting and in the hand. *)
Definition isNextWaiting (e : GameEngine) (start i seat : nat) : Prop :=
  (start <= i)%nat
  /\ comboQueue e !! i = Some seat
  /\ comboEligible seat e = true
  /\ forall j s, (start <= j < i)%nat -> comboQueue e !! j = Some s ->
                 comboEligible s e = false.

(** No seat of the queue from index [start] on has such a player. *)
Definition noneWaiting (e : GameEngine) (start : nat) : Prop :=
  forall j s, (start <= j)%nat -> comboQueue e !! j = Some s -> comboEligible s e = false.

(** The selection of [player] locked and revealed, and the player out of
    the waiting set. *)
Definition lockCombo (pid : string) (player : EnginePlayer)
    (selections : list ComboSelection) (e : GameEngine) : GameEngine :=
  set_awaitingCombo (awaitingCombo e ∖ {[pid]})
    (updatePlayer pid
       (fun p =>
          set_comboRevealed
            (Some (omap (fun selection => findCardInHand player (cardId selection))
                     selections))
            (set_comboSelection selections p))
       e).

Definition callAround : list Intent :=
  [Bet "p2" (mkBet BetCall None); Bet "p3" (mkBet BetCheck None);
   Bet "p1" (mkBet BetCall None)].

Definition checkAround : list Intent :=
  [Bet "p2" (mkBet BetCheck None); Bet "p3" (mkBet BetCheck None);
   Bet "p1" (mkBet BetCheck None)].

(** The first hand of [threeSeated] once the three betting rounds are
    over: the combo phase, the small blind to submit, a Boss total of 47. *)
Definition comboTable : GameEngine :=
  run (threeSeated ++ callAround ++ checkAround ++ checkAround) newEngine.

Definition firstToSubmit : EnginePlayer := default courtHolder (getPlayer "p2" comboTable).

(** A selection of 57 and a selection of 46. *)
Definition greedySelection : list ComboSelection :=
  [mkSel "K-clubs-38" low; mkSel "Q-clubs-37" low; mkSel "J-clubs-36" low;
   mkSel "10-clubs-35" low; mkSel "A-spades-39" high].

Definition modestSelection : list ComboSelection :=
  [mkSel "K-clubs-38" low; mkSel "Q-clubs-37" low; mkSel "J-clubs-36" low;
   mkSel "10-clubs-35" low].

(** ** Ranking of the combos *)

(** "Primary key [diff] (smaller wins), tie-break [under] (true beats
    false), tie-break [suitMatches] (larger wins)": [a] ranks strictly
    better than [b]. *)
Definition betterThan (a b : Evaluated) : bool :=
  bool_decide (ev_diff a < ev_diff b)
  || (bool_decide (ev_diff a = ev_diff b)
      && ((ev_under a && negb (ev_under b))
          || (bool_decide (ev_under a = ev_under b)
              && bool_decide (ev_suitMatches b < ev_suitMatches a)%nat))).

(** The best-ranked among [evaluated]: those that none ranks better than. *)
Definition bestRanked (evaluated : list Evaluated) : list Evaluated :=
  List.filter (fun x => forallb (fun y => negb (betterThan y x)) evaluated) evaluated.

(** The engine at the head of a sudden-death round: the phase is
    [oxtail] and one more card, drawn from the deck, is revealed. *)
Definition oxtailDrawn (card : Card) (rest : list Card) (e : GameEngine) : GameEngine :=
  set_bossRevealedCount (bossRevealedCount e + 1)
    (set_bossCards (bossCards e ++ [card]) (set_deck rest (set_phase oxtail e))).

(** The seat a betting round is anchored at. *)
Definition anchorSeat (e : GameEngine) : option nat :=
  match smallBlindSeat e with
  | Some s => Some s
  | None => Some (getSeatLeftOfDealer e)
  end.

(** The identity and the stack of a player. *)
Definition idStack (p : EnginePlayer) : string * Z := (playerId p, stack p).

(** Two players; the small blind raises all-in and the big blind calls,
    so that no betting round has anyone to act: the hand runs to the combo
    phase at once. *)
Definition headsUpAllIn : list Intent :=
  [Join "a" "Ann"; Join "b" "Bob"; SeatTake "a" 1; SeatTake "b" 2;
   StartHand "a" firstIndex; Bet "a" (mkBet BetRaise (Some 490));
   Bet "b" (mkBet BetCall None)].

(** Both players submit the empty combo: a tie. *)
Definition bothEmpty : list Intent := [ComboSubmit "a" []; ComboSubmit "b" []].

Fixpoint times {A} (n : nat) (l : list A) : list A :=
  match n with
  | O => []
  | S k => l ++ times k l
  end.

(** The first player has submitted the empty combo; the second is about
    to.  33 cards are left in the deck. *)
Definition firstTie : GameEngine := run (headsUpAllIn ++ [ComboSubmit "a" []]) newEngine.

(** The same after 33 ties: no card is left. *)
Definition lastCardTie : GameEngine :=
  run (headsUpAllIn ++ times 33 bothEmpty ++ [ComboSubmit "a" []]) newEngine.

(** The engine after two ties. *)
Definition twoTies : GameEngine := run (headsUpAllIn ++ times 2 bothEmpty) newEngine.

(** ** The revealed Boss cards *)

(** The revealed count by phase: none between hands, 3, 4 and 5 in the
    three betting phases, and from the combo phase on at least 5, one more
    for every sudden-death round, each of which takes a card from the deck
    of at most 33 cards that the deal leaves. *)
Definition bossBound (e : GameEngine) : Prop :=
  match phase e with
  | waiting => bossRevealedCount e = 0%nat
  | rush => bossRevealedCount e = 3%nat /\ (length (deck e) <= 33)%nat
  | charge => bossRevealedCount e = 4%nat /\ (length (deck e) <= 33)%nat
  | stomp => bossRevealedCount e = 5%nat /\ (length (deck e) <= 33)%nat
  | combo | oxtail =>
      (5 <= bossRevealedCount e)%nat
      /\ (bossRevealedCount e + length (deck e) <= 38)%nat
  | _ => False
  end.

(** The phase, the revealed count and the deck are the same. *)
Definition sameBoss (e e' : GameEngine) : Prop :=
  phase e' = phase e
  /\ bossRevealedCount e' = bossRevealedCount e
  /\ deck e' = deck e.

(** ** Players who arrive during a hand *)

(** Hand 1 between two players. *)
Definition handOne : GameEngine :=
  run [Join "a" "Ann"; Join "b" "Bob"; SeatTake "a" 1; SeatTake "b" 2;
       StartHand "a" firstIndex] newEngine.

(** A third player joins and sits down while hand 1 is running. *)
Definition lateSeated : GameEngine := run [Join "c" "Cy"; SeatTake "c" 3] handOne.

(** Hand 1 ends by a fold: three players are seated and the table waits for
    the dealer, now in seat 2. *)
Definition threeWaiting : GameEngine := run [Bet "a" (mkBet BetFold None)] lateSeated.

(** The same table after the first player has left the seat: the dealer and
    the late joiner remain. *)
Definition lateJoiner : GameEngine := run [SeatLeave "a"] threeWaiting.

(** ** A seat change during a betting round *)

(** The first betting round of [threeSeated]: the small blind calls, the
    big blind checks, the small blind moves from seat 2 to the free seat
    5, and the dealer calls.  Every player has then acted, nobody has
    raised, and every bet of the round is the current bet of 10. *)
Definition movedRun : list Intent :=
  threeSeated
  ++ [Bet "p2" (mkBet BetCall None); Bet "p3" (mkBet BetCheck None);
      SeatTake "p2" 5; Bet "p1" (mkBet BetCall None)].

Definition moved : GameEngine := run movedRun newEngine.

(** ** A selection sent after the submission *)

(** At [comboTable] the first two players of the queue submit the empty
    combo; the first of them then sends a selection of 57, above the Boss
    total of 47, with [comboUpdate].  The third player has still to
    submit. *)
Definition swappedRun : list Intent :=
  threeSeated ++ callAround ++ checkAround ++ checkAround
  ++ [ComboSubmit "p2" []; ComboSubmit "p3" []; ComboUpdate "p2" greedySelection].

Definition swapped : GameEngine := run swappedRun newEngine.

(** The same run without the [comboUpdate], when the third player has
    submitted the empty combo too. *)
Definition allEmpty : GameEngine :=
  run (threeSeated ++ callAround ++ checkAround ++ checkAround
       ++ [ComboSubmit "p2" []; ComboSubmit "p3" []; ComboSubmit "p1" []])
    newEngine.

(** ** A tie over a side pot *)

(** The first player folds the first hand and starts the second with 495
    chips against 505.  In the second hand the dealer, who is the small
    blind, raises by 490 and the other calls all-in: the commitments are
    500 and 495, the pot is 990 and the side pot 5.  The dealer checks
    through the betting rounds, and both players submit the empty combo
    in every combo phase until no card is left in the deck; the dealer
    has then submitted once more and the other player is about to. *)
Definition sideTieRun : list Intent :=
  [Join "a" "Ann"; Join "b" "Bob"; SeatTake "a" 1; SeatTake "b" 2;
   StartHand "a" firstIndex; Bet "a" (mkBet BetFold None);
   StartHand "b" firstIndex;
   Bet "b" (mkBet BetRaise (Some 490)); Bet "a" (mkBet BetCall None);
   Bet "b" (mkBet BetCheck None); Bet "b" (mkBet BetCheck None);
   ComboSubmit "b" []; ComboSubmit "a" []]
  ++ times 32 [Bet "b" (mkBet BetCheck None); ComboSubmit "b" []; ComboSubmit "a" []]
  ++ [Bet "b" (mkBet BetCheck None); ComboSubmit "b" []].

Definition sideTie : GameEngine := run sideTieRun newEngine.

(** ** Vocabulary of the further properties *)

(** The seat [k] steps clockwise from seat [s]. *)
Definition seatAfter (s k : nat) : nat := Nat.iter k getNextSeatIndex s.

(** Seat [t] is the first seat, going clockwise from [s0] and within one
    turn of the table, whose player satisfies [predicate]. *)
Definition firstSeatFrom (predicate : option EnginePlayer -> bool) (s0 : nat)
    (e : GameEngine) (t : nat) : Prop :=
  exists k, (k < SEAT_COUNT)%nat
    /\ t = seatAfter s0 k
    /\ predicate (getPlayerBySeat t e) = true
    /\ forall j, (j < k)%nat -> predicate (getPlayerBySeat (seatAfter s0 j) e) = false.

(** A seat number of the table. *)
Definition isSeat (s : nat) : Prop := (1 <= s <= SEAT_COUNT)%nat.

(** The rank and the suit of a card. *)
Definition faceOf (card : Card) : Rank * Suit := (card_rank card, card_suit card).

(** No string occurs twice in the list, decided by comparison. *)
Fixpoint distinctb (l : list string) : bool :=
  match l with
  | [] => true
  | x :: l' => negb (existsb (String.eqb x) l') && distinctb l'
  end.

(** The player who sends an intent; [restartTable] has no sender. *)
Definition caller (i : Intent) : option string :=
  match i with
  | Join pid _ | SeatTake pid _ | SeatLeave pid | StartHand pid _ | Bet pid _
  | ComboUpdate pid _ | ComboSubmit pid _ => Some pid
  | RestartTable => None
  end.

(** The outcome of an intent of the player [pid] that is rejected: the
    engine is as before and the one event is an error addressed to
    [pid]. *)
Definition rejected (pid : string) (e : GameEngine)
    (outcome : GameEngine * list EngineEvent) : Prop :=
  fst outcome = e /\ exists msg, snd outcome = [EvError (Some pid) msg].

(** ** What the invariants of the engine read

    The invariants below are about seats, cards and chips.  They read, of
    a player, the identity, the seat, the chips, the cards and the place in
    the hand; of the table, the seats, the deck, the Boss cards, the phase
    and the amounts.  Names, flags, messages, the combo selections and the
    bookkeeping of turns are left aside. *)

Definition core (p : EnginePlayer)
    : string * option nat * Z * nat * list Card * bool * bool * Z * Z :=
  (playerId p, seatIndex p, stack p, entryHand p, hand p, inHand p, hasFolded p,
   betThisRound p, totalBet p).

Definition sameCore (e e' : GameEngine) : Prop :=
  map core (players e') = map core (players e)
  /\ seats e' = seats e
  /\ handNumber e' = handNumber e
  /\ deck e' = deck e
  /\ bossCards e' = bossCards e
  /\ bossRevealedCount e' = bossRevealedCount e
  /\ phase e' = phase e
  /\ currentBet e' = currentBet e
  /\ minimumRaise e' = minimumRaise e
  /\ pot e' = pot e
  /\ sidePot e' = sidePot e.

(** *** The steps of the engine that change what the invariants read *)

(** [join] of a new player. *)
Definition newcomer (pid name : string) (e : GameEngine) : EnginePlayer :=
  {| playerId := pid; username := name; seatIndex := None;
     stack := STARTING_STACK;
     entryHand := (handNumber e + (if isHandActive e then 1 else 0))%nat;
     hand := []; inHand := false; hasFolded := false; betThisRound := 0;
     totalBet := 0; comboSelection := []; comboRevealed := None;
     isDealer := false; isSmallBlind := false; isBigBlind := false;
     lastAction := None |}.

Definition joined (pid name : string) (e : GameEngine) : GameEngine :=
  set_players (players e ++ [newcomer pid name e]) e.

(** [seatTake], up to the choice of the first dealer. *)
Definition seated (pid : string) (seat : nat) (player : EnginePlayer) (e : GameEngine)
    : GameEngine :=
  let e1 :=
    if truthy (seatIndex player)
    then set_seats (<[(default 0 (seatIndex player) - 1)%nat := None]> (seats e)) e
    else e in
  let e2 := set_seats (<[(seat - 1)%nat := Some pid]> (seats e1)) e1 in
  updatePlayer pid
    (fun p =>
       set_entryHand (handNumber e2 + (if isHandActive e2 then 1 else 0))%nat
         (set_seatIndex (Some seat) p))
    e2.

(** [seatLeave], up to the turn it may pass on. *)
Definition unseated (pid : string) (player : EnginePlayer) (e : GameEngine) : GameEngine :=
  let e1 :=
    if truthy (seatIndex player)
    then set_seats (<[(default 0%nat (seatIndex player) - 1)%nat := None]> (seats e)) e
    else e in
  let e2 :=
    if inHand player
    then updatePlayer pid (fun p => set_inHand false (set_hasFolded true p)) e1
    else e1 in
  updatePlayer pid (set_seatIndex None) e2.

(** [beginHand], up to the deal of the Boss cards. *)
Definition opened (random : nat -> nat) (eligible : list EnginePlayer) (e : GameEngine)
    : GameEngine :=
  let e1 := set_handNumber (handNumber e + 1) e in
  let e2 := resetPlayersForHand eligible e1 in
  let e3 := set_deck (buildDeck random) e2 in
  let '(boss, e4) := drawCards 5 e3 in
  set_message "The Rush"
    (set_minimumRaise RAISE_INCREMENT
       (set_currentBet 0
          (set_sidePot 0
             (set_pot 0
                (set_phase rush
                   (set_bossVisible false
                      (set_bossRevealedCount 3 (set_bossCards boss e4)))))))).

(** One pass of the loop of [dealHands]. *)
Definition dealtTo (e : GameEngine) (p : EnginePlayer) : GameEngine :=
  let '(cards, e') := drawCards 7 e in
  updatePlayer (playerId p) (set_hand cards) e'.

(** A fold, in [betAction]. *)
Definition folded (pid : string) (e : GameEngine) : GameEngine :=
  updatePlayer pid (fun p => set_inHand false (set_hasFolded true p)) e.

(** [player.stack += award] for every recipient. *)
Definition paid (recipients : list EnginePlayer) (award : Z) (e : GameEngine) : GameEngine :=
  foldl (fun e' r => updatePlayer (playerId r) (fun p => set_stack (stack p + award) p) e')
        e recipients.

(** [endHand], but for the dealer. *)
Definition handOver (e : GameEngine) : GameEngine :=
  forAllPlayers
    (fun p => set_betThisRound 0 (set_hasFolded false (set_inHand false p)))
    (set_bossRevealedCount 0 (set_bossCards [] (set_phase waiting e))).

(** Who is paid what at the end of a hand: nobody; one player still in
    the hand, the whole pot; several players still in the hand, equal
    shares of the pot, rounded down. *)
Inductive payCase (e : GameEngine) : list EnginePlayer -> Z -> Prop :=
  | pay_none : payCase e [] 0
  | pay_one r : r ∈ activePlayers e -> payCase e [r] (totalPot e)
  | pay_split (chosen : EnginePlayer -> bool) :
      (1 < length (List.filter chosen (activePlayers e)))%nat ->
      payCase e (List.filter chosen (activePlayers e))
        (totalPot e / Z.of_nat (length (List.filter chosen (activePlayers e)))).

(** [Inv] is kept by every step of the engine; [K] is what is known
    besides of the engine before the step. *)
Record preserved (K Inv : GameEngine -> Prop) : Prop := {
  pr_same e e' : K e -> Inv e -> sameCore e e' -> Inv e';
  pr_join e pid name : K e -> Inv e -> getPlayer pid e = None -> Inv (joined pid name e);
  pr_seatTake e pid seat player :
    K e -> Inv e -> isSeat seat -> getPlayer pid e = Some player ->
    seatOccupant seat e = None \/ seatOccupant seat e = Some pid ->
    Inv (seated pid seat player e);
  pr_seatLeave e pid player :
    K e -> Inv e -> getPlayer pid e = Some player -> Inv (unseated pid player e);
  pr_open e random :
    K e -> Inv e -> phase e = waiting ->
    Inv (opened random (getEligibleSeatedPlayers e) e);
  pr_deal e p : K e -> Inv e -> Inv (dealtTo e p);
  pr_blind e p blind flag :
    K e -> Inv e -> (forall q, core (flag q) = core q) -> 0 <= blind ->
    Inv (postBlind (Some p) blind flag e);
  pr_fold e pid : K e -> Inv e -> Inv (folded pid e);
  pr_call e p :
    K e -> Inv e -> getPlayer (playerId p) e = Some p -> Inv (callContribution p e);
  pr_raise e p amount' e' :
    K e -> Inv e -> getPlayer (playerId p) e = Some p -> raiseBy p amount' e = inl e' ->
    Inv e';
  pr_restart e : K e -> Inv e -> Inv (fst (restartTable e));
  pr_reset e : K e -> Inv e -> Inv (resetRound e);
  pr_charge e :
    K e -> Inv e -> phase e = rush -> Inv (set_bossRevealedCount 4 (set_phase charge e));
  pr_stomp e :
    K e -> Inv e -> phase e = charge -> Inv (set_bossRevealedCount 5 (set_phase stomp e));
  pr_combo e :
    K e -> Inv e -> phase e = stomp \/ phase e = oxtail -> Inv (set_phase combo e);
  pr_oxtail e card rest :
    K e -> Inv e -> phase e = combo -> deck e = card :: rest ->
    Inv (oxtailDrawn card rest e);
  pr_settle e recipients award :
    K e -> Inv e -> payCase e recipients award -> Inv (handOver (paid recipients award e))
}.

Definition anyEngine (e : GameEngine) : Prop := True.

(** What [g] reads of the players is the same in [e'] as in [e]. *)
Definition keeps {A} (g : EnginePlayer -> A) (e e' : GameEngine) : Prop :=
  map g (players e') = map g (players e).

(** The assignments of [resetPlayersForHand] and of [restartTable] to a
    player. *)
Definition clearedForHand (p : EnginePlayer) : EnginePlayer :=
  set_lastAction None
    (set_hand []
       (set_isBigBlind false
          (set_isSmallBlind false
             (set_comboRevealed None
                (set_comboSelection []
                   (set_totalBet 0
                      (set_betThisRound 0
                         (set_hasFolded false (set_inHand false p))))))))).

Definition clearedForTable (p : EnginePlayer) : EnginePlayer :=
  set_isBigBlind false
    (set_isSmallBlind false
       (set_isDealer false
          (set_comboRevealed None
             (set_comboSelection []
                (set_totalBet 0
                   (set_betThisRound 0
                      (set_hasFolded false
                         (set_inHand false
                            (set_hand []
                               (set_entryHand 0%nat
                                  (set_seatIndex None
                                     (set_stack STARTING_STACK p)))))))))))).

(** The ids of the players are distinct. *)
Definition distinctIds (e : GameEngine) : Prop := NoDup (map playerId (players e)).

(** ** Cards *)

(** The cards of the table: the deck, the Boss cards and the hands. *)
Definition allCards (e : GameEngine) : list Card :=
  deck e ++ bossCards e ++ concat (map hand (players e)).

(** Every card of the table is a card of the ordered deck, and none is
    there twice. *)
Definition cardsFromDeck (e : GameEngine) : Prop := allCards e ⊆+ orderedDeck.

(** The field that [h] reads is not the one that [set] assigns. *)
Definition assigned_elsewhere {A B} (h : GameEngine -> A)
    (set : B -> GameEngine -> GameEngine) : Prop :=
  forall x e, h (set x e) = h e.

(** ** Chips *)

Definition sumStacks (e : GameEngine) : Z := sumZ (map stack (players e)).

(** The chips of a player: in the stack or committed to the hand. *)
Definition chipsOf (p : EnginePlayer) : Z := stack p + totalBet p.

(** No stack and no commitment is negative. *)
Definition nonNegative (e : GameEngine) : Prop :=
  Forall (fun p => 0 <= stack p) (players e)
  /\ Forall (fun p => 0 <= totalBet p) (players e).

(** Between hands nobody is in the hand. *)
Definition quietBetweenHands (e : GameEngine) : Prop :=
  phase e = waiting -> Forall (fun p => inHand p = false) (players e).

(** The pot and the side pot are the commitments of the players. *)
Definition potIsBets (e : GameEngine) : Prop := pot e + sidePot e = sumTotalBets e.

(** The chips at the table are at most the starting stacks of the players:
    during a hand the stacks and the commitments, between hands the
    stacks. *)
Definition chipsBounded (e : GameEngine) : Prop :=
  sumStacks e + (if bool_decide (phase e = waiting) then 0 else sumTotalBets e)
  <= STARTING_STACK * Z.of_nat (length (players e)).

(** ** Seats *)

(** No player has the empty string as id. *)
Definition noEmptyId (e : GameEngine) : Prop := "" ∉ map playerId (players e).

(** The seat array and the seat numbers of the players agree: the array
    has six slots, a player with a seat number is the one in that slot,
    and a slot holds the id of a player with that seat number. *)
Definition seatsAgree (e : GameEngine) : Prop :=
  length (seats e) = SEAT_COUNT
  /\ (forall p s, p ∈ players e -> seatIndex p = Some s ->
        isSeat s /\ seats e !! (s - 1)%nat = Some (Some (playerId p)))
  /\ (forall k pid, seats e !! k = Some (Some pid) ->
        exists p, p ∈ players e /\ playerId p = pid /\ seatIndex p = Some (S k)).

Definition seatingSound (e : GameEngine) : Prop := noEmptyId e -> seatsAgree e.

(** The identity and the seat of a player. *)
Definition idSeat (p : EnginePlayer) : string * option nat := (playerId p, seatIndex p).

(** ** The end of a hand *)

(** The hand has ended with the one winner [w], paid [amount]: the engine
    waits for the next hand, the winner has the stack of before and the
    amount, every other player the stack of before, and the first event is
    the result that names the winner and the amount. *)
Definition wonBy (w : EnginePlayer) (amount : Z) (e : GameEngine)
    (outcome : GameEngine * list EngineEvent) : Prop :=
  phase (fst outcome) = waiting
  /\ stack <$> getPlayer (playerId w) (fst outcome) = Some (stack w + amount)
  /\ (forall pid, pid <> playerId w ->
        stack <$> getPlayer pid (fst outcome) = stack <$> getPlayer pid e)
  /\ (exists result rest,
        snd outcome = EvResult result :: rest
        /\ winners result = [mkWinner (playerId w) (username w) amount])
  /\ noError (snd outcome).

(** The first hand of [threeSeated] when two players have submitted, the
    small blind a combo of 46 against a Boss total of 47 ... *)
Definition twoSubmitted : GameEngine :=
  run [ComboSubmit "p2" modestSelection; ComboSubmit "p3" []] comboTable.

(** ... and the engine in which [evaluateCombos] runs when the third
    submits the empty combo. *)
Definition lateShowdown : GameEngine :=
  updateActionMessage
    (set_actingSeat None
       (lockCombo "p1" (default courtHolder (getPlayer "p1" twoSubmitted)) []
          twoSubmitted)).

(** ** What the players are shown *)

(** The engine [e] with other cards where nobody at the table can look:
    the deck [d], the Boss cards [hidden] behind the disclosed ones, and
    for every player the hand and the provisional selection that [secret]
    gives. *)
Definition withOtherCards (d hidden : list Card)
    (secret : EnginePlayer -> list Card * list ComboSelection) (e : GameEngine)
    : GameEngine :=
  set_deck d
    (set_bossCards (revealedBoss e ++ hidden)
       (forAllPlayers
          (fun p => set_comboSelection (snd (secret p)) (set_hand (fst (secret p)) p))
          e)).

(** ** The combo queue *)

(** The seat where [buildComboOrder] starts. *)
Definition comboStartSeat (e : GameEngine) : nat :=
  match smallBlindSeat e with Some s => s | None => getSeatLeftOfDealer e end.

(** The player in seat [seat] is in the hand and has not folded. *)
Definition activeAt (e : GameEngine) (seat : nat) : bool :=
  match getPlayerBySeat seat e with
  | Some p => isActive p
  | None => false
  end.

(** ** The Boss cards *)

(** The Boss cards by phase: none between hands; five during the three
    betting rounds, of which three, four and five are disclosed; from the
    combo phase on all of them are disclosed, five or more.  The phases
    [showdown] and [hand_end] of the type are not phases of the engine. *)
Definition bossOnTable (e : GameEngine) : Prop :=
  match phase e with
  | waiting => bossCards e = [] /\ bossRevealedCount e = 0%nat
  | rush => length (bossCards e) = 5%nat /\ bossRevealedCount e = 3%nat
  | charge => length (bossCards e) = 5%nat /\ bossRevealedCount e = 4%nat
  | stomp => length (bossCards e) = 5%nat /\ bossRevealedCount e = 5%nat
  | combo | oxtail =>
      (5 <= bossRevealedCount e)%nat /\ bossRevealedCount e = length (bossCards e)
  | showdown | hand_end => False
  end.

(** ** Entry to the hands *)

(** The hand from which a player may be dealt in is at most the one after
    the next. *)
Definition entryBound (e : GameEngine) : Prop :=
  Forall (fun p => (entryHand p <= handNumber e + 1)%nat) (players e).

(** The identity and the cards of a player. *)
Definition idHand (p : EnginePlayer) : string * list Card := (playerId p, hand p).

(** ** The dealer *)

(** A seat with a player, as [getNextOccupiedSeat] tests it. *)
Definition occupiedSeat (player : option EnginePlayer) : bool := bool_decide (is_Some player).

(** * Properties *)

(** The fields of the records, for [cbn]. *)
Ltac engine_fields :=
  cbn [players seats handNumber deck bossCards bossRevealedCount bossVisible
         smallBlindSeat phase dealerSeat currentBet minimumRaise pot sidePot actingSeat
         message actedThisRound awaitingCombo comboQueue comboIndex lastResult
         set_players set_seats set_handNumber set_deck set_bossCards
         set_bossRevealedCount set_bossVisible set_smallBlindSeat set_phase
         set_dealerSeat set_currentBet set_minimumRaise set_pot set_sidePot
         set_actingSeat set_message set_actedThisRound set_awaitingCombo
         set_comboQueue set_comboIndex set_lastResult].

Ltac player_fields :=
  cbn [playerId username seatIndex stack entryHand hand inHand hasFolded betThisRound
         totalBet comboSelection comboRevealed isDealer isSmallBlind isBigBlind
         lastAction set_username set_seatIndex set_stack set_entryHand set_hand
         set_inHand set_hasFolded set_betThisRound set_totalBet set_comboSelection
         set_comboRevealed set_isDealer set_isSmallBlind set_isBigBlind set_lastAction].

(** ** Card values and totals *)

Lemma sumZ_cons x l : sumZ (x :: l) = x + sumZ l.
Proof. reflexivity. Qed.

Lemma sumZ_nil : sumZ [] = 0.
Proof. reflexivity. Qed.

Lemma computeComboTotalFrom_sum p selections total :
  computeComboTotalFrom total p selections = total + sumZ (map (selectionValue p) selections).
Proof.
  revert total. induction selections as [|s rest IH]; intros total.
  - cbn [computeComboTotalFrom map]. rewrite sumZ_nil. lia.
  - cbn [computeComboTotalFrom map]. rewrite sumZ_cons. unfold selectionValue at 1.
    destruct (findCardInHand p (cardId s)) as [card|]; [|rewrite IH; lia].
    destruct (card_rank card), (mode s); repeat case_bool_decide; try congruence;
      rewrite IH; cbn -[sumZ]; lia.
Qed.

Lemma foldl_boss_sum (cards : list Card) (acc : Z) :
  foldl (fun sum card => sum + getBossCardValue (card_rank card)) acc cards
  = acc + sumZ (map (fun card => comboCardValue (card_rank card) low) cards).
Proof.
  revert acc. induction cards as [|c rest IH]; intros acc.
  - cbn [foldl map]. rewrite sumZ_nil. lia.
  - cbn [foldl map]. rewrite sumZ_cons, IH. unfold getBossCardValue.
    destruct (card_rank c); case_bool_decide; try congruence; cbn -[sumZ]; lia.
Qed.

(** C7.  The combo total is the sum, over the selections that name a card
    of the hand, of the card's value: an Ace 1 in low mode and 11 in high
    mode, J 11, Q 12, K 13, a numeric rank its face value; J, Q and K in
    low mode total 36.  The Boss total is the sum of the same values over
    the revealed prefix of the Boss cards, an Ace always 1. *)
Theorem combo_and_boss_totals :
  (forall p selections,
      computeComboTotal p selections = sumZ (map (selectionValue p) selections))
  /\ (forall e,
      computeBossTotal e
      = sumZ (map (fun card => comboCardValue (card_rank card) low) (revealedBoss e)))
  /\ computeComboTotal courtHolder [mkSel "c-j" low; mkSel "d-q" low; mkSel "h-k" low] = 36.
Proof.
  split; [|split].
  - intros p selections. unfold computeComboTotal.
    rewrite computeComboTotalFrom_sum. lia.
  - intros e. unfold computeBossTotal. rewrite foldl_boss_sum. lia.
  - reflexivity.
Qed.

(** ** Suit matches *)

Lemma suitCount_cons s card cards :
  suitCount s (card :: cards)
  = ((if bool_decide (card_suit card = s) then 1 else 0) + suitCount s cards)%nat.
Proof. unfold suitCount. cbn [List.filter]. by case_bool_decide. Qed.

Lemma suitCount_nil s : suitCount s [] = 0%nat.
Proof. reflexivity. Qed.

Lemma lookup_count_insert (counts : gmap Suit nat) s0 v s :
  default 0%nat (<[s0 := v]> counts !! s)
  = if bool_decide (s0 = s) then v else default 0%nat (counts !! s).
Proof.
  case_bool_decide as H.
  - subst. by rewrite lookup_insert_eq.
  - by rewrite lookup_insert_ne.
Qed.

Lemma tallySuits_from (cards : list Card) (counts : gmap Suit nat) s :
  default 0%nat
    (foldl (fun counts card =>
              <[card_suit card := (default 0 (counts !! card_suit card) + 1)%nat]> counts)
           counts cards !! s)
  = (default 0 (counts !! s) + suitCount s cards)%nat.
Proof.
  revert counts. induction cards as [|card rest IH]; intros counts.
  - cbn [foldl]. rewrite suitCount_nil. lia.
  - cbn [foldl]. rewrite IH, lookup_count_insert, suitCount_cons.
    case_bool_decide; subst; lia.
Qed.

Lemma tallySuits_count cards s : default 0%nat (tallySuits cards !! s) = suitCount s cards.
Proof. unfold tallySuits. rewrite tallySuits_from, lookup_empty. reflexivity. Qed.

Lemma matchSuits_sum (cards : list Card) (bossCounts : gmap Suit nat) (matches : nat) :
  matchSuits bossCounts matches cards
  = (matches
     + sumSuits (fun s => Nat.min (suitCount s cards) (default 0 (bossCounts !! s))))%nat.
Proof.
  revert bossCounts matches.
  induction cards as [|card rest IH]; intros bossCounts matches.
  - cbn [matchSuits]. unfold sumSuits. rewrite !suitCount_nil. lia.
  - cbn [matchSuits]. unfold sumSuits. rewrite !suitCount_cons.
    case_bool_decide as Hpos; rewrite IH; unfold sumSuits.
    + rewrite !lookup_count_insert.
      destruct (card_suit card); repeat case_bool_decide; try congruence; lia.
    + destruct (card_suit card); repeat case_bool_decide; try congruence; lia.
Qed.

(** C9.  The suit-match count is the size of a one-to-one matching of the
    selected cards with the revealed Boss cards of the same suit: it is the
    sum, over the four suits, of the smaller of the two counts, so that the
    matches credited in a suit never exceed the revealed Boss cards of that
    suit; two revealed hearts credit two of three selected hearts. *)
Theorem suit_matches_one_to_one :
  (forall cards e,
      countSuitMatches cards e
      = sumSuits (fun s => suitMatchesOf s cards (revealedBoss e)))
  /\ (forall s cards e,
      let ofSuit := List.filter (fun card => bool_decide (card_suit card = s)) cards in
      countSuitMatches ofSuit e = suitMatchesOf s cards (revealedBoss e)
      /\ (countSuitMatches ofSuit e <= suitCount s (revealedBoss e))%nat)
  /\ countSuitMatches suitTestCards suitTestEngine = 2%nat
  /\ (suitCount hearts (revealedBoss twoHeartsEngine) = 2%nat
      /\ suitCount hearts threeHearts = 3%nat
      /\ countSuitMatches threeHearts twoHeartsEngine = 2%nat).
Proof.
  assert (Hall : forall cards e,
             countSuitMatches cards e
             = sumSuits (fun s => suitMatchesOf s cards (revealedBoss e))).
  { intros cards e. unfold countSuitMatches. rewrite matchSuits_sum.
    unfold sumSuits, suitMatchesOf. rewrite !tallySuits_count. lia. }
  split; [exact Hall|]. split; [|split; [|repeat split]]; try by vm_compute.
  intros s cards e ofSuit.
  assert (Hsame : forall s', suitCount s' ofSuit
                             = if bool_decide (s' = s) then suitCount s cards else 0%nat).
  { intros s'. subst ofSuit. unfold suitCount.
    induction cards as [|card rest IH]; [by case_bool_decide|].
    cbn [List.filter]. repeat case_bool_decide; subst; cbn [List.filter length];
      repeat case_bool_decide; try congruence; cbn [length]; rewrite ?IH;
      try case_bool_decide; try congruence; reflexivity. }
  assert (Heq : countSuitMatches ofSuit e = suitMatchesOf s cards (revealedBoss e)).
  { rewrite Hall. unfold sumSuits, suitMatchesOf. rewrite !Hsame.
    destruct s; repeat case_bool_decide; try congruence; lia. }
  split; [exact Heq|]. rewrite Heq. unfold suitMatchesOf. lia.
Qed.

(** ** Players of the map *)

Lemma find_id_map (f : EnginePlayer -> EnginePlayer) pid ps :
  (forall p, playerId (f p) = playerId p) ->
  List.find (fun p => bool_decide (playerId p = pid)) (map f ps)
  = f <$> List.find (fun p => bool_decide (playerId p = pid)) ps.
Proof.
  intros Hid. induction ps as [|p ps IH]; [reflexivity|].
  cbn [map List.find]. rewrite Hid. by case_bool_decide.
Qed.

Lemma getPlayer_updatePlayer pid f e :
  (forall p, playerId (f p) = playerId p) ->
  getPlayer pid (updatePlayer pid f e) = f <$> getPlayer pid e.
Proof.
  intros Hid. unfold getPlayer, updatePlayer. cbn [players set_players].
  induction (players e) as [|p ps IH]; [reflexivity|].
  cbn [map List.find]. destruct (bool_decide (playerId p = pid)) eqn:Hp.
  - rewrite Hid, Hp. reflexivity.
  - rewrite Hp. exact IH.
Qed.

Lemma getPlayer_updatePlayer_ne pid pid' f e :
  pid <> pid' ->
  (forall p, playerId (f p) = playerId p) ->
  getPlayer pid' (updatePlayer pid f e) = getPlayer pid' e.
Proof.
  intros Hne Hid. unfold getPlayer, updatePlayer. cbn [players set_players].
  induction (players e) as [|p ps IH]; [reflexivity|].
  cbn [map List.find]. destruct (bool_decide (playerId p = pid)) eqn:Hp.
  - rewrite Hid. apply bool_decide_eq_true_1 in Hp. subst pid.
    rewrite !bool_decide_eq_false_2 by congruence. exact IH.
  - destruct (bool_decide (playerId p = pid')); [reflexivity|exact IH].
Qed.

Lemma getPlayer_id pid e p : getPlayer pid e = Some p -> playerId p = pid.
Proof.
  unfold getPlayer. intros H. apply List.find_some in H as [_ H].
  by apply bool_decide_eq_true_1 in H.
Qed.

Lemma findCardInHand_id p cid card : findCardInHand p cid = Some card -> card_id card = cid.
Proof.
  unfold findCardInHand. intros H. apply List.find_some in H as [_ H].
  by apply bool_decide_eq_true_1 in H.
Qed.

(** ** Sanitized selections *)

Lemma sanitizeLoop_sanitized p (seen : gset string) (seen' : list string) selections :
  (forall cid, cid ∈ seen <-> cid ∈ seen') ->
  sanitizeLoop p seen selections
  = map (fun s => mkSel (cardId s) (forcedMode p s))
        (firstPerCard seen' (List.filter (held p) selections)).
Proof.
  revert seen seen'. induction selections as [|s rest IH]; intros seen seen' Hseen.
  - reflexivity.
  - cbn [sanitizeLoop List.filter]. unfold held at 1.
    destruct (findCardInHand p (cardId s)) as [card|] eqn:Hcard.
    + rewrite (bool_decide_eq_true_2 (is_Some (Some card))) by eauto. cbn [firstPerCard].
      pose proof (findCardInHand_id _ _ _ Hcard) as Hid.
      destruct (decide (cardId s ∈ seen)) as [Hin|Hin].
      * rewrite (bool_decide_eq_true_2 (cardId s ∈ seen)) by done.
        rewrite (bool_decide_eq_true_2 (cardId s ∈ seen')) by (by apply Hseen).
        by apply IH.
      * rewrite (bool_decide_eq_false_2 (cardId s ∈ seen)) by done.
        rewrite (bool_decide_eq_false_2 (cardId s ∈ seen'))
          by (intros Hbad; apply Hin, Hseen; exact Hbad).
        cbn [map]. f_equal.
        -- unfold forcedMode. rewrite Hcard, Hid. f_equal.
           destruct (card_rank card), (mode s);
             repeat case_bool_decide; try congruence; reflexivity.
        -- rewrite Hid. apply IH. intros cid.
           rewrite elem_of_union, elem_of_singleton, elem_of_cons. by rewrite Hseen.
    + rewrite (bool_decide_eq_false_2 (is_Some None)) by (by intros [? ?]).
      destruct (bool_decide (cardId s ∈ seen)); by apply IH.
Qed.

Lemma firstPerCard_fresh seen l :
  NoDup (map cardId (firstPerCard seen l))
  /\ (forall s, s ∈ firstPerCard seen l -> (cardId s ∉ seen) /\ (s ∈ l)).
Proof.
  revert seen. induction l as [|s rest IH]; intros seen.
  - split; [constructor|]. intros s Hs. by apply elem_of_nil in Hs.
  - cbn [firstPerCard]. case_bool_decide as Hin.
    + destruct (IH seen) as [Hnd Hsub]. split; [exact Hnd|].
      intros s' Hs'. destruct (Hsub s' Hs'). split; [done|]. by apply elem_of_cons; right.
    + destruct (IH (cardId s :: seen)) as [Hnd Hsub]. split.
      * cbn [map]. constructor; [|exact Hnd].
        intros Hdup. apply list_elem_of_fmap in Hdup as [s' [Heq Hs']].
        destruct (Hsub s' Hs') as [Hfresh _]. apply Hfresh. rewrite <- Heq. by left.
      * intros s' Hs'. apply elem_of_cons in Hs' as [->|Hs'].
        -- split; [done|by left].
        -- destruct (Hsub s' Hs') as [Hfresh Hl]. split.
           ++ intros Hbad. apply Hfresh. by right.
           ++ by right.
Qed.

(** ** Events *)

Lemma noError_app evs evs' : noError (evs ++ evs') <-> noError evs /\ noError evs'.
Proof. unfold noError. rewrite forallb_app. apply andb_true_iff. Qed.

Lemma noError_nil : noError [].
Proof. reflexivity. Qed.

Lemma noError_private pid e : noError (privateEvents pid e).
Proof. unfold privateEvents. by destruct (getPlayer pid e). Qed.

Lemma noError_broadcast e : noError (snd (broadcast e)).
Proof.
  unfold broadcast. cbn [snd]. apply noError_app. split; [|reflexivity].
  induction (players e) as [|p ps IH]; [reflexivity|].
  cbn [flat_map]. apply noError_app. split; [apply noError_private|exact IH].
Qed.

(** ** comboUpdate *)

Lemma sanitizeSelections_sanitized p selections :
  sanitizeSelections p selections = sanitized p selections.
Proof.
  unfold sanitizeSelections, sanitized. apply sanitizeLoop_sanitized.
  intros cid. split; intros H; [by apply elem_of_empty in H|by apply elem_of_nil in H].
Qed.

Lemma sanitized_held p selections s :
  s ∈ sanitized p selections -> is_Some (findCardInHand p (cardId s)).
Proof.
  unfold sanitized. intros Hs. apply list_elem_of_fmap in Hs as [s' [-> Hs']].
  apply firstPerCard_fresh in Hs' as [_ Hs']. cbn [cardId].
  apply list_elem_of_In, List.filter_In in Hs' as [_ Hheld].
  by apply bool_decide_eq_true_1 in Hheld.
Qed.

Lemma sanitized_NoDup p selections : NoDup (map cardId (sanitized p selections)).
Proof.
  unfold sanitized. rewrite map_map. cbn [cardId].
  apply firstPerCard_fresh.
Qed.

(** C10.  [comboUpdate] never emits an error event, and for a joined
    player whose hand is not empty it succeeds whatever the phase, the
    turn, the seat and the fold status are: its one effect on the engine
    is to replace the player's selection with the sanitized one, which
    keeps the first selection of each card id, drops the cards not in the
    hand and forces the mode to low except for an Ace marked high. *)
Theorem comboUpdate_ungated pid selections e :
  noError (snd (comboUpdate pid selections e))
  /\ (forall player,
        getPlayer pid e = Some player ->
        hand player <> [] ->
        let chosen := sanitizeSelections player selections in
        chosen = sanitized player selections
        /\ NoDup (map cardId chosen)
        /\ (forall s, s ∈ chosen -> is_Some (findCardInHand player (cardId s)))
        /\ fst (comboUpdate pid selections e)
           = updatePlayer pid (set_comboSelection chosen) e
        /\ comboSelection <$> getPlayer pid (fst (comboUpdate pid selections e))
           = Some chosen
        /\ exists state,
            snd (comboUpdate pid selections e) = [EvPrivate pid state]
            /\ pp_comboSelection state = chosen).
Proof.
  split.
  - unfold comboUpdate. destruct (getPlayer pid e) as [player|]; [|reflexivity].
    case_bool_decide; [reflexivity|]. apply noError_private.
  - intros player Hplayer Hhand chosen.
    assert (Hrun : comboUpdate pid selections e
                   = updatePrivate pid (updatePlayer pid (set_comboSelection chosen) e)).
    { unfold comboUpdate. rewrite Hplayer.
      rewrite bool_decide_eq_false_2; [reflexivity|].
      intros Hlen. by apply nil_length_inv in Hlen. }
    assert (Hget : getPlayer pid (updatePlayer pid (set_comboSelection chosen) e)
                   = Some (set_comboSelection chosen player)).
    { rewrite getPlayer_updatePlayer by reflexivity. by rewrite Hplayer. }
    subst chosen. rewrite sanitizeSelections_sanitized in *.
    split; [reflexivity|]. split; [apply sanitized_NoDup|].
    split; [apply sanitized_held|]. rewrite Hrun. unfold updatePrivate. cbn [fst snd].
    split; [reflexivity|]. split; [by rewrite Hget|].
    unfold privateEvents. rewrite Hget. eexists. split; reflexivity.
Qed.


Lemma comboUpdate_ungated_witness :
  phase foldedLeaver = rush
  /\ actingSeat foldedLeaver = Some 3%nat
  /\ (fun p => (seatIndex p, inHand p, hasFolded p)) <$> getPlayer "p2" foldedLeaver
     = Some (None, false, true)
  /\ comboSelection
       <$> getPlayer "p2" (fst (comboUpdate "p2" leaverSelections foldedLeaver))
     = Some [mkSel "A-spades-39" high; mkSel "K-clubs-38" low].
Proof.
  split; [vm_compute; reflexivity|]. split; [vm_compute; reflexivity|].
  split; [vm_compute; reflexivity|].
  destruct (comboUpdate_ungated "p2" leaverSelections foldedLeaver) as [_ H].
  specialize (H (default courtHolder (getPlayer "p2" foldedLeaver))).
  destruct H as (_ & _ & _ & _ & H & _).
  - vm_compute. reflexivity.
  - vm_compute. discriminate.
  - rewrite H. vm_compute. reflexivity.
Defined.

(** ** Pot and side pot *)

Lemma foldl_add_sum {A} (g : A -> Z) (l : list A) (acc : Z) :
  foldl (fun total x => total + g x) acc l = acc + sumZ (map g l).
Proof.
  revert acc. induction l as [|x l IH]; intros acc.
  - cbn [foldl map]. rewrite sumZ_nil. lia.
  - cbn [foldl map]. rewrite IH, sumZ_cons. lia.
Qed.

Lemma totalPot_sum e : totalPot e = sumTotalBets e.
Proof. unfold totalPot, sumTotalBets. rewrite foldl_add_sum. lia. Qed.

Lemma foldl_min_least (l : list Z) (x0 : Z) : isMinimumOf (foldl Z.min x0 l) (x0 :: l).
Proof.
  revert x0. induction l as [|x l IH]; intros x0.
  - cbn [foldl]. split; [by left|]. intros y Hy. apply list_elem_of_singleton in Hy. lia.
  - cbn [foldl]. destruct (IH (Z.min x0 x)) as [Hin Hle]. split.
    + apply elem_of_cons in Hin as [Heq|Hin].
      * rewrite Heq. destruct (Z.min_spec x0 x) as [[_ ->]|[_ ->]];
          [by left|by right; left].
      * by right; right.
    + intros y Hy.
      assert (Hmin : foldl Z.min (Z.min x0 x) l <= Z.min x0 x) by (apply Hle; by left).
      apply elem_of_cons in Hy as [->|Hy]; [lia|].
      apply elem_of_cons in Hy as [->|Hy]; [lia|].
      apply Hle. by right.
Qed.

Lemma sumZ_split {A} (g h k : A -> Z) (l : list A) :
  (forall x, g x + h x = k x) ->
  sumZ (map g l) + sumZ (map h l) = sumZ (map k l).
Proof.
  intros Hpt. induction l as [|x l IH].
  - cbn [map]. rewrite sumZ_nil. lia.
  - cbn [map]. rewrite !sumZ_cons. specialize (Hpt x). lia.
Qed.

Lemma foldl_side_sum (cap : Z) (ps : list EnginePlayer) (acc : Z) :
  foldl (fun side p =>
           if bool_decide (cap < totalBet p) then side + (totalBet p - cap) else side)
        acc ps
  = acc + sumZ (map (fun p => Z.max 0 (totalBet p - cap)) ps).
Proof.
  revert acc. induction ps as [|p ps IH]; intros acc.
  - cbn [foldl map]. rewrite sumZ_nil. lia.
  - cbn [foldl map]. rewrite IH, sumZ_cons. case_bool_decide; lia.
Qed.

Lemma updateSidePotValues_accounted e : potAccounted (updateSidePotValues e).
Proof.
  unfold updateSidePotValues. fold (allInPlayers e).
  destruct (allInPlayers e) as [|p0 rest] eqn:Hall.
  - unfold potAccounted.
    change (allInPlayers (set_sidePot 0 (set_pot (totalPot e) e))) with (allInPlayers e).
    change (sumTotalBets (set_sidePot 0 (set_pot (totalPot e) e))) with (sumTotalBets e).
    cbn [pot sidePot set_pot set_sidePot]. rewrite !totalPot_sum.
    split; [lia|]. split; [intros _; split; reflexivity|].
    intros Hne. exfalso. apply Hne. exact Hall.
  - rewrite (foldl_add_sum (fun p => Z.min (totalBet p) _)), foldl_side_sum.
    set (cap := foldl Z.min (totalBet p0) (map totalBet rest)).
    set (main := 0 + sumZ (map (fun p => Z.min (totalBet p) cap) (players e))).
    set (side := 0 + sumZ (map (fun p => Z.max 0 (totalBet p - cap)) (players e))).
    unfold potAccounted.
    change (allInPlayers (set_sidePot side (set_pot main e))) with (allInPlayers e).
    change (sumTotalBets (set_sidePot side (set_pot main e))) with (sumTotalBets e).
    change (players (set_sidePot side (set_pot main e))) with (players e).
    cbn [pot sidePot set_pot set_sidePot].
    assert (Hcap : isMinimumOf cap (map totalBet (allInPlayers e))).
    { rewrite Hall. subst cap. cbn [map]. apply foldl_min_least. }
    split; [|split].
    + subst main side. unfold sumTotalBets.
      rewrite <- (sumZ_split (fun p => Z.min (totalBet p) cap)
                    (fun p => Z.max 0 (totalBet p - cap)) totalBet (players e)); [lia|].
      intros p. lia.
    + intros Hnil. exfalso. change (allInPlayers e = []) in Hnil. congruence.
    + intros _. exists cap. split; [exact Hcap|]. subst main side. split; lia.
Qed.

Lemma commitAmount_accounted pid amount e : potAccounted (commitAmount pid amount e).
Proof. unfold commitAmount. apply updateSidePotValues_accounted. Qed.

Lemma allIn_totals_stakes (ps ps' : list EnginePlayer) :
  map stakeOf ps' = map stakeOf ps ->
  map totalBet (List.filter (fun p => bool_decide (stack p = 0)) (List.filter isActive ps'))
  = map totalBet (List.filter (fun p => bool_decide (stack p = 0)) (List.filter isActive ps)).
Proof.
  revert ps'. induction ps as [|p ps IH]; intros [|p' ps'] Hst; try discriminate Hst.
  - reflexivity.
  - cbn [map] in Hst. unfold stakeOf at 1 2 in Hst.
    injection Hst as Hstack Htotal Hin Hfold Hps.
    assert (Hact : isActive p' = isActive p) by (unfold isActive; by rewrite Hin, Hfold).
    cbn [List.filter]. rewrite Hact.
    destruct (isActive p); [|by apply IH].
    cbn [List.filter]. rewrite Hstack.
    case_bool_decide; [|by apply IH]. cbn [map]. rewrite Htotal. f_equal. by apply IH.
Qed.

Lemma map_totalBet_stakes (ps ps' : list EnginePlayer) (g : Z -> Z) :
  map stakeOf ps' = map stakeOf ps ->
  map (fun p => g (totalBet p)) ps' = map (fun p => g (totalBet p)) ps.
Proof.
  revert ps'. induction ps as [|p ps IH]; intros [|p' ps'] Hst; try discriminate Hst.
  - reflexivity.
  - cbn [map] in *. unfold stakeOf at 1 2 in Hst.
    injection Hst as _ Htotal _ _ Hps. rewrite Htotal. f_equal. by apply IH.
Qed.

(** The accounting reads the pots and the stakes of the players only. *)
Lemma potAccounted_stakes e e' :
  pot e' = pot e -> sidePot e' = sidePot e ->
  map stakeOf (players e') = map stakeOf (players e) ->
  potAccounted e -> potAccounted e'.
Proof.
  intros Hpot Hside Hst (Hsum & Hnone & Hsome).
  assert (Htot : sumTotalBets e' = sumTotalBets e).
  { unfold sumTotalBets. f_equal.
    exact (map_totalBet_stakes (players e) (players e') (fun x => x) Hst). }
  assert (Hall : map totalBet (allInPlayers e') = map totalBet (allInPlayers e)).
  { unfold allInPlayers, activePlayers. by apply allIn_totals_stakes. }
  unfold potAccounted. rewrite Hpot, Hside, Htot, Hall.
  split; [exact Hsum|]. split.
  - intros Hnil. apply Hnone. apply (f_equal (map totalBet)) in Hnil.
    rewrite Hall in Hnil. by apply map_eq_nil in Hnil.
  - intros Hne. destruct Hsome as (cap & Hmin & Hmain & Hrest).
    + intros Hnil. apply Hne. apply (f_equal (map totalBet)) in Hnil.
      rewrite <- Hall in Hnil. by apply map_eq_nil in Hnil.
    + exists cap. split; [exact Hmin|].
      pose proof (map_totalBet_stakes (players e) (players e') (fun x => Z.min x cap) Hst)
        as Hmin'.
      pose proof (map_totalBet_stakes (players e) (players e')
                    (fun x => Z.max 0 (x - cap)) Hst) as Hmax'.
      cbn beta in Hmin', Hmax'. rewrite Hmin', Hmax'. by split.
Qed.

Lemma stakes_updatePlayer pid f e :
  (forall p, stakeOf (f p) = stakeOf p) ->
  map stakeOf (players (updatePlayer pid f e)) = map stakeOf (players e).
Proof.
  intros Hf. unfold updatePlayer. cbn [players set_players].
  induction (players e) as [|p ps IH]; [reflexivity|].
  cbn [map]. rewrite IH. f_equal. by destruct (bool_decide (playerId p = pid)).
Qed.

Lemma postBlind_accounted poster blind flag e :
  potAccounted (postBlind (Some poster) blind flag e).
Proof.
  unfold postBlind.
  set (e2 := commitAmount (playerId poster) blind (updatePlayer (playerId poster) flag e)).
  set (e3 := updatePlayer (playerId poster) (set_betThisRound blind) e2).
  apply (potAccounted_stakes e3); [reflexivity|reflexivity|reflexivity|].
  apply (potAccounted_stakes e2); [reflexivity|reflexivity| |apply commitAmount_accounted].
  by apply stakes_updatePlayer.
Qed.

Lemma raiseBy_accounted player amount' e e' :
  raiseBy player amount' e = inl e' -> potAccounted e'.
Proof.
  unfold raiseBy. repeat (case_match; try discriminate). intros [= <-].
  match goal with
  | |- potAccounted (updatePlayer _ _ (set_minimumRaise _ (set_currentBet _ ?e2))) =>
      apply (potAccounted_stakes e2);
        [reflexivity|reflexivity| |apply commitAmount_accounted];
      by rewrite stakes_updatePlayer
  end.
Qed.

(** C1.  After a commitment of chips (a blind, a call, a raise, all made
    by [commitAmount]) [pot + sidePot] is the sum of every player's
    [totalBet]; with no active player at a zero stack the side pot is 0 and
    the pot the whole sum; otherwise the pot is the sum of
    [min(totalBet, cap)] and the side pot the sum of
    [max(0, totalBet - cap)], [cap] the least [totalBet] of the active
    players at a zero stack. *)
Theorem commitment_pot_accounting :
  (forall pid amount e, potAccounted (commitAmount pid amount e))
  /\ (forall poster e,
        potAccounted (postBlind (Some poster) SMALL_BLIND (set_isSmallBlind true) e)
        /\ potAccounted (postBlind (Some poster) BIG_BLIND (set_isBigBlind true) e))
  /\ (forall p e, betThisRound p < currentBet e -> potAccounted (callContribution p e))
  /\ (forall p amount' e e', raiseBy p amount' e = inl e' -> potAccounted e').
Proof.
  split; [exact commitAmount_accounted|].
  split; [intros poster e; split; apply postBlind_accounted|].
  split; [|exact raiseBy_accounted].
  intros p e Hbehind. unfold callContribution.
  rewrite bool_decide_eq_false_2 by lia. apply commitAmount_accounted.
Qed.

Lemma commitment_pot_accounting_witness :
  potAccounted
    (callContribution (default courtHolder (getPlayer "p2" afterBlinds)) afterBlinds)
  /\ (exists e',
         raiseBy (default courtHolder (getPlayer "p2" afterBlinds)) (Some 20) afterBlinds
         = inl e'
         /\ pot e' = 40 /\ potAccounted e').
Proof.
  destruct commitment_pot_accounting as (_ & _ & Hcall & Hraise). split.
  - apply Hcall. vm_compute. reflexivity.
  - destruct (raiseBy (default courtHolder (getPlayer "p2" afterBlinds)) (Some 20)
                afterBlinds) as [e'|reason] eqn:Hrun.
    + exists e'. split; [reflexivity|]. split.
      * vm_compute in Hrun. injection Hrun as <-. reflexivity.
      * by apply (Hraise _ _ _ _ Hrun).
    + vm_compute in Hrun. discriminate Hrun.
Defined.

(** ** The cascade: what each step leaves alone *)

Lemma updateActionMessage_message e : exists m, updateActionMessage e = set_message m e.
Proof. unfold updateActionMessage. case_match; eauto. Qed.

Lemma setNextComboActor_fields i e :
  exists idx seat m,
    snd (setNextComboActor i e) = set_message m (set_actingSeat seat (set_comboIndex idx e)).
Proof.
  unfold setNextComboActor. destruct (nextComboActor _ _ _) as [[idx seat]|]; cbn [snd].
  - destruct (updateActionMessage_message
                (set_actingSeat (Some seat) (set_comboIndex idx e))) as [m ->]. eauto.
  - destruct (updateActionMessage_message
                (set_actingSeat None (set_comboIndex (length (comboQueue e)) e)))
      as [m ->]. eauto.
Qed.

Lemma comboEntryLoop_fields oxtail' active e :
  exists ps waitingSet,
    foldl (awaitCombo oxtail') e active = set_awaitingCombo waitingSet (set_players ps e).
Proof.
  revert e. induction active as [|p active IH]; intros e.
  - exists (players e), (awaitingCombo e). by destruct e.
  - cbn [foldl]. destruct (IH (awaitCombo oxtail' e p)) as (ps & w & ->).
    unfold awaitCombo. destruct oxtail'; eauto.
Qed.

Lemma startBettingRoundK_ext fin fin' ref e :
  (forall e2, phase e2 = phase e -> deck e2 = deck e -> fin e2 = fin' e2) ->
  startBettingRoundK fin ref e = startBettingRoundK fin' ref e.
Proof.
  intros Hfin. unfold startBettingRoundK. case_match; [|reflexivity].
  by apply Hfin.
Qed.

Lemma finishBettingRoundK_ext start start' enter enter' e :
  (forall ref e2, (phaseRank (phase e2) < phaseRank (phase e))%nat -> deck e2 = deck e ->
                  start ref e2 = start' ref e2) ->
  (forall ox e2, deck e2 = deck e -> enter ox e2 = enter' ox e2) ->
  finishBettingRoundK start enter e = finishBettingRoundK start' enter' e.
Proof.
  intros Hstart Henter. unfold finishBettingRoundK.
  case_match; [reflexivity|].
  cbn [phase set_minimumRaise set_currentBet forAllPlayers set_players set_actedThisRound
         set_actingSeat].
  destruct (phase e) eqn:Hph; try reflexivity.
  - apply Hstart; [cbn; lia|reflexivity].
  - apply Hstart; [cbn; lia|reflexivity].
  - by apply Henter.
  - by apply Henter.
Qed.

Lemma finishBettingRoundN_S enter n :
  finishBettingRoundN enter (S n)
  = finishBettingRoundK (startBettingRoundK (finishBettingRoundN enter n)) enter.
Proof. reflexivity. Qed.

Lemma finishBettingRoundN_O enter :
  finishBettingRoundN enter 0 = finishBettingRoundK (startBettingRoundK skip) enter.
Proof. reflexivity. Qed.

Lemma finishBettingRoundN_ext enter enter' n e :
  (forall ox e2, deck e2 = deck e -> enter ox e2 = enter' ox e2) ->
  finishBettingRoundN enter n e = finishBettingRoundN enter' n e.
Proof.
  revert e. induction n as [|n IH]; intros e Henter.
  - rewrite !finishBettingRoundN_O. apply finishBettingRoundK_ext; [|exact Henter].
    intros ref e2 _ Hdeck. apply startBettingRoundK_ext. reflexivity.
  - rewrite !finishBettingRoundN_S. apply finishBettingRoundK_ext; [|exact Henter].
    intros ref e2 _ Hdeck. apply startBettingRoundK_ext. intros e3 _ Hdeck3.
    apply IH. intros ox e4 Hdeck4. apply Henter. congruence.
Qed.

Lemma finishBettingRoundN_rank enter n m e :
  (phaseRank (phase e) <= n)%nat -> (phaseRank (phase e) <= m)%nat ->
  finishBettingRoundN enter n e = finishBettingRoundN enter m e.
Proof.
  revert m e. induction n as [|n IH]; intros m e Hn Hm.
  - destruct m as [|m]; [reflexivity|].
    rewrite finishBettingRoundN_O, finishBettingRoundN_S.
    apply finishBettingRoundK_ext; [|reflexivity]. intros ref e2 Hlt _. lia.
  - destruct m as [|m]; rewrite ?finishBettingRoundN_O, !finishBettingRoundN_S.
    + apply finishBettingRoundK_ext; [|reflexivity]. intros ref e2 Hlt _. lia.
    + apply finishBettingRoundK_ext; [|reflexivity]. intros ref e2 Hlt _.
      apply startBettingRoundK_ext. intros e3 Hph _. apply IH; rewrite Hph; lia.
Qed.

(** [finishBettingRound] satisfies the equation of the source. *)
Lemma finishBettingRound_eq e :
  finishBettingRound e = finishBettingRoundK startBettingRound enterComboPhase e.
Proof.
  unfold finishBettingRound at 1. rewrite finishBettingRoundN_S.
  apply finishBettingRoundK_ext; [|reflexivity]. intros ref e2 Hlt _.
  unfold startBettingRound. apply startBettingRoundK_ext. intros e3 Hph _.
  unfold finishBettingRound. apply finishBettingRoundN_rank; rewrite Hph.
  - destruct (phase e); cbn in Hlt |- *; lia.
  - destruct (phase e2); cbn; lia.
Qed.

Lemma enterComboPhaseK_ext ev ev' ox e :
  (forall e2, deck e2 = deck e -> ev e2 = ev' e2) ->
  enterComboPhaseK ev ox e = enterComboPhaseK ev' ox e.
Proof.
  intros Hev. unfold enterComboPhaseK.
  destruct (comboEntryLoop_fields ox
              (activePlayers (set_awaitingCombo ∅ (set_phase combo e)))
              (set_awaitingCombo ∅ (set_phase combo e))) as (ps & w & Hloop).
  rewrite Hloop. clear Hloop.
  case_bool_decide.
  - apply Hev.
    match goal with
    | |- context [updateActionMessage ?x] =>
        destruct (updateActionMessage_message x) as [m ->]
    end.
    engine_fields. reflexivity.
  - match goal with
    | |- context [setNextComboActor 0 ?x] =>
        destruct (setNextComboActor_fields 0 x) as (idx & seat & m & Hnext);
        destruct (setNextComboActor 0 x) as [found e4]
    end.
    cbn [snd] in Hnext. subst e4.
    destruct found; [reflexivity|]. cbn [negb]. apply Hev. engine_fields. reflexivity.
Qed.

Lemma startOxtailK_ext start start' e :
  (forall ref e2, deck e2 = drop 1 (deck e) -> start ref e2 = start' ref e2) ->
  startOxtailK start e = startOxtailK start' e.
Proof. intros Hstart. unfold startOxtailK, drawCards. by apply Hstart. Qed.

Lemma evaluateCombosWith_ext so so' e :
  (deck e <> [] -> so e = so' e) ->
  evaluateCombosWith so e = evaluateCombosWith so' e.
Proof.
  intros Hso. unfold evaluateCombosWith. case_bool_decide; [reflexivity|].
  destruct (sortEvaluated _) as [|best rest]; [reflexivity|].
  case_bool_decide; [|reflexivity]. case_bool_decide as Hdeck; [reflexivity|].
  apply Hso. intros Hnil. apply Hdeck. by rewrite Hnil.
Qed.

Lemma evaluateCombosN_unfold n :
  evaluateCombosN n
  = evaluateCombosWith
      (startOxtailK
         (startBettingRoundK
            (finishBettingRoundN
               (enterComboPhaseK
                  (match n with O => skip | S n' => evaluateCombosN n' end)) 2))).
Proof. by destruct n. Qed.

(** [evaluateCombos] satisfies the equation of the source. *)
Lemma evaluateCombos_eq e : evaluateCombos e = evaluateCombosWith startOxtail e.
Proof.
  unfold evaluateCombos at 1. rewrite evaluateCombosN_unfold.
  apply evaluateCombosWith_ext. intros Hdeck.
  unfold startOxtail. apply startOxtailK_ext. intros ref e2 Hdeck2.
  unfold startBettingRound. apply startBettingRoundK_ext. intros e3 _ Hdeck3.
  unfold finishBettingRound. apply finishBettingRoundN_ext. intros ox e4 Hdeck4.
  unfold enterComboPhase. apply enterComboPhaseK_ext. intros e5 Hdeck5.
  unfold evaluateCombos.
  assert (Hlen : length (deck e) = S (length (deck e5))).
  { rewrite Hdeck5, Hdeck4, Hdeck3, Hdeck2. destruct (deck e); [done|].
    cbn [drop length]. by rewrite drop_0. }
  by rewrite Hlen.
Qed.

Lemma startBettingRound_eq ref e :
  startBettingRound ref e = startBettingRoundK finishBettingRound ref e.
Proof. reflexivity. Qed.

Lemma enterComboPhase_eq ox e : enterComboPhase ox e = enterComboPhaseK evaluateCombos ox e.
Proof. reflexivity. Qed.

Lemma startOxtail_eq e : startOxtail e = startOxtailK startBettingRound e.
Proof. reflexivity. Qed.

(** ** What the cascade leaves alone *)

Lemma evolved_refl p : evolved p p.
Proof. unfold evolved. repeat split; auto. Qed.

Lemma evolved_trans p q r : evolved p q -> evolved q r -> evolved p r.
Proof.
  unfold evolved. intros (?&?&?&?&?&?&?&Hb) (?&?&?&?&?&?&?&Hb').
  repeat split; try congruence; [tauto|].
  destruct Hb as [Hb|Hb], Hb' as [Hb'|Hb']; [left|right|right|right]; congruence.
Qed.

Lemma Forall2_evolved_refl ps : Forall2 evolved ps ps.
Proof. induction ps; constructor; [apply evolved_refl|assumption]. Qed.

Lemma Forall2_evolved_trans ps qs rs :
  Forall2 evolved ps qs -> Forall2 evolved qs rs -> Forall2 evolved ps rs.
Proof.
  intros H. revert rs. induction H as [|p q ps qs Hpq _ IH]; intros rs Hqr.
  - inversion Hqr. constructor.
  - inversion Hqr as [|q' r qs' rs' Hqr1 Hqr2]; subst. constructor.
    + by eapply evolved_trans.
    + by apply IH.
Qed.

Lemma Forall2_evolved_map f ps :
  (forall p, evolved p (f p)) -> Forall2 evolved ps (map f ps).
Proof. intros Hf. induction ps; cbn [map]; constructor; [apply Hf|assumption]. Qed.

Lemma settled_refl e : settled e e.
Proof. unfold settled. repeat split; auto. apply Forall2_evolved_refl. Qed.

Lemma settled_trans e1 e2 e3 : settled e1 e2 -> settled e2 e3 -> settled e1 e3.
Proof.
  unfold settled. intros (Hp&?&?&?&?&?&Hc&Hm) (Hp'&?&?&?&?&?&Hc'&Hm').
  split; [by eapply Forall2_evolved_trans|].
  repeat split; try congruence.
  - destruct Hc as [Hc|Hc], Hc' as [Hc'|Hc']; [left|right|right|right]; congruence.
  - destruct Hm as [Hm|Hm], Hm' as [Hm'|Hm']; [left|right|right|right]; congruence.
Qed.

(** A change of the fields that [settled] does not mention. *)
Lemma settled_same e e' :
  players e' = players e -> seats e' = seats e -> handNumber e' = handNumber e ->
  smallBlindSeat e' = smallBlindSeat e -> pot e' = pot e -> sidePot e' = sidePot e ->
  currentBet e' = currentBet e -> minimumRaise e' = minimumRaise e ->
  settled e e'.
Proof.
  intros Hp ? ? ? ? ? ? ?. unfold settled. rewrite Hp.
  repeat split; auto. apply Forall2_evolved_refl.
Qed.

Ltac settled_fields := apply settled_same; engine_fields; reflexivity.

Lemma settled_forAllPlayers f e :
  (forall p, evolved p (f p)) -> settled e (forAllPlayers f e).
Proof.
  intros Hf. unfold settled, forAllPlayers. engine_fields.
  repeat split; auto. by apply Forall2_evolved_map.
Qed.

Lemma settled_updatePlayer pid f e :
  (forall p, evolved p (f p)) -> settled e (updatePlayer pid f e).
Proof.
  intros Hf. unfold settled, updatePlayer. engine_fields.
  repeat split; auto. apply Forall2_evolved_map.
  intros p. destruct (bool_decide (playerId p = pid)); [apply Hf|apply evolved_refl].
Qed.

Lemma settled_updateActionMessage e : settled e (updateActionMessage e).
Proof. destruct (updateActionMessage_message e) as [m ->]. settled_fields. Qed.

Lemma settled_setNextComboActor i e : settled e (snd (setNextComboActor i e)).
Proof. destruct (setNextComboActor_fields i e) as (idx & seat & m & ->). settled_fields. Qed.

Lemma calm_skip : calm skip.
Proof. intros e. split; [apply settled_refl|reflexivity]. Qed.

Lemma calm_andThen p q : calm p -> calm q -> calm (p ;> q).
Proof.
  intros Hp Hq e. unfold andThen. destruct (Hp e) as [Hs He].
  destruct (p e) as [e1 o1]. destruct (Hq e1) as [Hs' He'].
  destruct (q e1) as [e2 o2]. cbn [fst snd] in *. split.
  - by eapply settled_trans.
  - by apply noError_app.
Qed.

Lemma calm_modify f : (forall e, settled e (f e)) -> calm (modify f).
Proof. intros Hf e. split; [apply Hf|reflexivity]. Qed.

Lemma calm_broadcast : calm broadcast.
Proof. intros e. split; [apply settled_refl|apply noError_broadcast]. Qed.

Lemma settled_rotateDealer e : settled e (rotateDealer e).
Proof.
  unfold rotateDealer. repeat case_match; try apply settled_refl; try settled_fields.
  eapply settled_trans; [|apply settled_forAllPlayers].
  - settled_fields.
  - intros p. unfold evolved. player_fields. repeat split; auto.
Qed.

Lemma calm_endHand : calm endHand.
Proof.
  apply calm_andThen; [|apply calm_broadcast]. apply calm_modify. intros e.
  eapply settled_trans; [|apply settled_forAllPlayers].
  - eapply settled_trans; [|apply settled_rotateDealer]. settled_fields.
  - intros p. unfold evolved, isActive. player_fields. repeat split; auto; discriminate.
Qed.

Lemma settled_pay recipients award e :
  settled e
    (foldl (fun e' r => updatePlayer (playerId r) (fun p => set_stack (stack p + award) p) e')
       e recipients).
Proof.
  revert e. induction recipients as [|r rs IH]; intros e; [apply settled_refl|].
  cbn [foldl]. eapply settled_trans; [|apply IH]. apply settled_updatePlayer.
  intros p. unfold evolved, isActive. player_fields. repeat split; auto.
Qed.

Lemma calm_payAndReport recipients award text : calm (payAndReport recipients award text).
Proof.
  intros e. unfold payAndReport. cbn [fst snd]. split; [|reflexivity].
  eapply settled_trans; [apply (settled_pay recipients award)|]. settled_fields.
Qed.

Lemma calm_resolveHandByFold : calm resolveHandByFold.
Proof.
  intros e. unfold resolveHandByFold. destruct (activePlayers e) as [|recipient rest].
  - apply calm_endHand.
  - apply calm_andThen; [apply calm_payAndReport|apply calm_endHand].
Qed.

Lemma calm_splitPot ws : calm (splitPot ws).
Proof.
  intros e. unfold splitPot.
  apply calm_andThen; [apply calm_payAndReport|apply calm_endHand].
Qed.

Lemma calm_awardPot p : calm (awardPot p).
Proof.
  intros e. unfold awardPot.
  apply calm_andThen; [apply calm_payAndReport|apply calm_endHand].
Qed.

Lemma calm_startBettingRoundK fin ref : calm fin -> calm (startBettingRoundK fin ref).
Proof.
  intros Hfin e. unfold startBettingRoundK. case_match.
  - destruct (Hfin (set_actingSeat
                      (findNextActingSeat
                         match ref with
                         | Some s => Some s
                         | None =>
                             match smallBlindSeat e with
                             | Some s => Some s
                             | None => Some (getSeatLeftOfDealer e)
                             end
                         end true (set_actedThisRound ∅ e)) (set_actedThisRound ∅ e)))
      as [Hs He].
    split; [|exact He]. eapply settled_trans; [|exact Hs]. settled_fields.
  - cbn [fst snd]. split; [|reflexivity].
    eapply settled_trans; [|apply settled_updateActionMessage]. settled_fields.
Qed.

Lemma settled_roundReset e :
  settled e
    (set_minimumRaise RAISE_INCREMENT
       (set_currentBet 0
          (forAllPlayers (set_betThisRound 0)
             (set_actedThisRound ∅ (set_actingSeat None e))))).
Proof.
  unfold settled, forAllPlayers. engine_fields. repeat split; auto.
  apply Forall2_evolved_map. intros p. unfold evolved, isActive. player_fields.
  repeat split; auto.
Qed.

Lemma calm_finishBettingRoundK start enter :
  (forall ref, calm (start ref)) -> (forall ox, calm (enter ox)) ->
  calm (finishBettingRoundK start enter).
Proof.
  intros Hstart Henter e. unfold finishBettingRoundK.
  pose proof (settled_roundReset e) as Hreset. revert Hreset.
  generalize (set_minimumRaise RAISE_INCREMENT
       (set_currentBet 0
          (forAllPlayers (set_betThisRound 0)
             (set_actedThisRound ∅ (set_actingSeat None e))))).
  intros e1 Hreset.
  assert (Hvia : forall (F : Proc) e2, calm F -> settled e1 e2 ->
                   settled e (fst (F e2)) /\ noError (snd (F e2))).
  { intros F e2 HF H12. destruct (HF e2) as [Hs He]. split; [|exact He].
    eapply settled_trans; [exact Hreset|]. by eapply settled_trans. }
  case_match; [apply Hvia; [apply calm_resolveHandByFold|apply settled_refl]|].
  destruct (phase e1).
  all: try (cbn [fst snd]; split; [exact Hreset|reflexivity]).
  - apply Hvia; [apply Hstart|settled_fields].
  - apply Hvia; [apply Hstart|settled_fields].
  - apply Hvia; [apply Henter|apply settled_refl].
  - apply Hvia; [apply Henter|apply settled_refl].
Qed.

Lemma calm_finishBettingRoundN enter n :
  (forall ox, calm (enter ox)) -> calm (finishBettingRoundN enter n).
Proof.
  intros Henter. induction n as [|n IH].
  - rewrite finishBettingRoundN_O. apply calm_finishBettingRoundK; [|exact Henter].
    intros ref. apply calm_startBettingRoundK, calm_skip.
  - rewrite finishBettingRoundN_S. apply calm_finishBettingRoundK; [|exact Henter].
    intros ref. by apply calm_startBettingRoundK.
Qed.

Lemma settled_awaitCombo ox e active : settled e (foldl (awaitCombo ox) e active).
Proof.
  revert e. induction active as [|p active IH]; intros e; [apply settled_refl|].
  cbn [foldl]. eapply settled_trans; [|apply IH]. unfold awaitCombo.
  destruct ox; [settled_fields|].
  eapply settled_trans; [|apply settled_updatePlayer].
  - settled_fields.
  - intros q. unfold evolved, isActive. player_fields. repeat split; auto.
Qed.

Lemma calm_enterComboPhaseK ev ox : calm ev -> calm (enterComboPhaseK ev ox).
Proof.
  intros Hev e. unfold enterComboPhaseK.
  pose proof (settled_awaitCombo ox (set_awaitingCombo ∅ (set_phase combo e))
                (activePlayers (set_awaitingCombo ∅ (set_phase combo e)))) as Hloop.
  revert Hloop. generalize (foldl (awaitCombo ox) (set_awaitingCombo ∅ (set_phase combo e))
                  (activePlayers (set_awaitingCombo ∅ (set_phase combo e)))).
  intros e2 Hloop.
  assert (H2 : settled e e2).
  { eapply settled_trans; [|exact Hloop]. settled_fields. }
  assert (H3 : settled e (set_comboIndex 0 (set_comboQueue (buildComboOrder e2) e2))).
  { eapply settled_trans; [exact H2|]. settled_fields. }
  revert H3. generalize (set_comboIndex 0 (set_comboQueue (buildComboOrder e2) e2)).
  intros e3 H3. case_bool_decide.
  - destruct (Hev (updateActionMessage (set_actingSeat None e3))) as [Hs He].
    split; [|exact He]. eapply settled_trans; [exact H3|].
    eapply settled_trans; [|exact Hs].
    eapply settled_trans; [|apply settled_updateActionMessage]. settled_fields.
  - pose proof (settled_setNextComboActor 0 e3) as Hnext.
    destruct (setNextComboActor 0 e3) as [found e4]. cbn [snd] in Hnext.
    assert (H4 : settled e e4) by (by eapply settled_trans).
    destruct found; cbn [negb].
    + destruct (calm_broadcast e4) as [Hs He]. split; [|exact He].
      by eapply settled_trans.
    + destruct (Hev e4) as [Hs He]. split; [|exact He]. by eapply settled_trans.
Qed.

Lemma calm_startOxtailK start : (forall ref, calm (start ref)) -> calm (startOxtailK start).
Proof.
  intros Hstart e. unfold startOxtailK, drawCards.
  match goal with
  | |- context [start ?ref ?e4] => destruct (Hstart ref e4) as [Hs He]
  end.
  split; [|exact He]. eapply settled_trans; [|exact Hs]. settled_fields.
Qed.

Lemma calm_evaluateCombosWith so : calm so -> calm (evaluateCombosWith so).
Proof.
  intros Hso e. unfold evaluateCombosWith.
  case_bool_decide; [apply calm_resolveHandByFold|].
  destruct (sortEvaluated _) as [|best rest]; [apply calm_skip|].
  case_bool_decide; [|apply calm_awardPot].
  case_bool_decide; [apply calm_splitPot|apply Hso].
Qed.

Lemma calm_evaluateCombosN n : calm (evaluateCombosN n).
Proof.
  induction n as [|n IH]; rewrite evaluateCombosN_unfold.
  - apply calm_evaluateCombosWith, calm_startOxtailK. intros ref.
    apply calm_startBettingRoundK, calm_finishBettingRoundN. intros ox.
    apply calm_enterComboPhaseK, calm_skip.
  - apply calm_evaluateCombosWith, calm_startOxtailK. intros ref.
    apply calm_startBettingRoundK, calm_finishBettingRoundN. intros ox.
    by apply calm_enterComboPhaseK.
Qed.

Lemma calm_evaluateCombos : calm evaluateCombos.
Proof. intros e. apply calm_evaluateCombosN. Qed.

Lemma calm_enterComboPhase ox : calm (enterComboPhase ox).
Proof. apply calm_enterComboPhaseK, calm_evaluateCombos. Qed.

Lemma calm_finishBettingRound : calm finishBettingRound.
Proof. apply calm_finishBettingRoundN, calm_enterComboPhase. Qed.

Lemma calm_startBettingRound ref : calm (startBettingRound ref).
Proof. apply calm_startBettingRoundK, calm_finishBettingRound. Qed.

Lemma calm_advanceTurn : calm advanceTurn.
Proof.
  intros e. unfold advanceTurn. case_match; [apply calm_skip|].
  case_match; [apply calm_finishBettingRound|]. case_match.
  - destruct (calm_finishBettingRound
                (set_actingSeat (findNextActingSeat (actingSeat e) false e) e)) as [Hs He].
    split; [|exact He]. eapply settled_trans; [|exact Hs]. settled_fields.
  - cbn [fst snd]. split; [|reflexivity].
    eapply settled_trans; [|apply settled_updateActionMessage]. settled_fields.
Qed.

(** ** Engines that a run can reach *)

Lemma kept_refl p : kept p p.
Proof. by split. Qed.

Lemma tame_refl e : tame e e.
Proof. unfold tame. induction (players e); constructor; [apply kept_refl|assumption]. Qed.

Lemma tame_trans e1 e2 e3 : tame e1 e2 -> tame e2 e3 -> tame e1 e3.
Proof.
  unfold tame. generalize (players e1) (players e2) (players e3). clear.
  intros ps qs rs H. revert rs. induction H as [|p q ps qs [Hid Hs] _ IH]; intros rs Hqr.
  - inversion Hqr. constructor.
  - inversion Hqr as [|q' r qs' rs' [Hid' Hs'] Hqr2]; subst. constructor.
    + split; [congruence|tauto].
    + by apply IH.
Qed.

Lemma tame_same e e' : players e' = players e -> tame e e'.
Proof. unfold tame. intros ->. apply tame_refl. Qed.

Ltac tame_fields := apply tame_same; engine_fields; reflexivity.

Lemma evolved_kept p p' : evolved p p' -> kept p p'.
Proof.
  intros (Hid&_&Hseat&_&_&_&Hact&_). split; [exact Hid|].
  unfold seatedIfActive. rewrite Hseat. tauto.
Qed.

Lemma settled_tame e e' : settled e e' -> tame e e'.
Proof.
  intros [H _]. unfold tame. induction H; constructor; [by apply evolved_kept|assumption].
Qed.

Lemma tame_wellFormed e e' : tame e e' -> wellFormed e -> wellFormed e'.
Proof.
  unfold tame, wellFormed. generalize (players e) (players e'). clear.
  intros ps qs H [Hnd Hall].
  assert (Hids : map playerId qs = map playerId ps).
  { induction H as [|p q ps qs [Hid _] _ IH]; [reflexivity|]. cbn [map].
    rewrite Hid. f_equal. apply IH.
    - by inversion Hnd.
    - by inversion Hall. }
  split; [by rewrite Hids|]. clear Hnd Hids.
  induction H as [|p q ps qs [_ Hs] _ IH]; [constructor|].
  inversion Hall; subst. constructor; [tauto|by apply IH].
Qed.

(** An update of the players with id [pid] that is harmless for each of
    them as it stands in the map. *)
Lemma tame_updatePlayer pid f e :
  (forall p, p ∈ players e -> playerId p = pid -> kept p (f p)) ->
  tame e (updatePlayer pid f e).
Proof.
  unfold tame, updatePlayer. engine_fields. intros Hf.
  induction (players e) as [|p ps IH]; [constructor|]. cbn [map]. constructor.
  - case_bool_decide; [apply Hf; [by left|assumption]|apply kept_refl].
  - apply IH. intros q Hq. apply Hf. by right.
Qed.

Lemma tame_forAllPlayers f e : (forall p, kept p (f p)) -> tame e (forAllPlayers f e).
Proof.
  unfold tame, forAllPlayers. engine_fields. intros Hf.
  induction (players e) as [|p ps IH]; cbn [map]; constructor; [apply Hf|assumption].
Qed.

Lemma getPlayer_unique pid e p q :
  NoDup (map playerId (players e)) ->
  getPlayer pid e = Some p -> q ∈ players e -> playerId q = pid -> q = p.
Proof.
  unfold getPlayer. induction (players e) as [|r ps IH]; intros Hnd Hfind Hq Hid.
  - by apply elem_of_nil in Hq.
  - cbn [map] in Hnd. apply NoDup_cons in Hnd as [Hfresh Hnd].
    cbn [List.find] in Hfind. case_bool_decide as Hr.
    + injection Hfind as <-. apply elem_of_cons in Hq as [->|Hq]; [reflexivity|].
      exfalso. apply Hfresh. apply list_elem_of_fmap. exists q. split; [congruence|done].
    + apply elem_of_cons in Hq as [->|Hq]; [congruence|]. by apply IH.
Qed.

Lemma getPlayer_elem pid e p : getPlayer pid e = Some p -> p ∈ players e.
Proof.
  unfold getPlayer. intros H. apply List.find_some in H as [H _]. by apply list_elem_of_In.
Qed.

Lemma getPlayer_None_fresh pid e :
  getPlayer pid e = None -> pid ∉ map playerId (players e).
Proof.
  unfold getPlayer. intros Hnone Hin. apply list_elem_of_fmap in Hin as [p [-> Hp]].
  apply list_elem_of_In in Hp.
  pose proof (List.find_none _ _ Hnone p Hp) as Hbad. cbn beta in Hbad.
  by rewrite bool_decide_eq_true_2 in Hbad.
Qed.

Lemma fst_andThen (p q : Proc) e : fst ((p ;> q) e) = fst (q (fst (p e))).
Proof. unfold andThen. destruct (p e) as [e1 o1]. cbn [fst]. by destruct (q e1). Qed.

Lemma snd_andThen (p q : Proc) e :
  snd ((p ;> q) e) = snd (p e) ++ snd (q (fst (p e))).
Proof. unfold andThen. destruct (p e) as [e1 o1]. cbn [fst snd]. by destruct (q e1). Qed.

Lemma fst_broadcast e : fst (broadcast e) = e.
Proof. reflexivity. Qed.

Lemma fst_reject pid msg e : fst (reject pid msg e) = e.
Proof. reflexivity. Qed.

Lemma wellFormed_join pid name e : wellFormed e -> wellFormed (fst (join pid name e)).
Proof.
  intros Hwf. unfold join. rewrite fst_andThen, fst_broadcast. unfold updatePrivate.
  cbn [fst]. case_bool_decide as Hknown.
  - eapply tame_wellFormed; [|exact Hwf]. apply tame_updatePlayer.
    intros p _ _. by split.
  - destruct Hwf as [Hnd Hall]. unfold wellFormed. engine_fields.
    assert (Hnone : getPlayer pid e = None).
    { destruct (getPlayer pid e); [|reflexivity]. exfalso. apply Hknown. eauto. }
    split.
    + rewrite map_app. cbn [map]. player_fields. apply NoDup_app. split; [exact Hnd|].
      split; [|apply NoDup_singleton].
      intros x Hx Hx'. apply list_elem_of_singleton in Hx'. subst x.
      by apply (getPlayer_None_fresh pid e).
    + apply Forall_app. split; [exact Hall|]. constructor; [|constructor].
      unfold seatedIfActive, isActive. player_fields. discriminate.
Qed.

Lemma tame_if e (b : bool) x y : tame e x -> tame e y -> tame e (if b then x else y).
Proof. by destruct b. Qed.

Lemma tame_set_seats e v e0 : tame e e0 -> tame e (set_seats v e0).
Proof. intros H. eapply tame_trans; [exact H|]. tame_fields. Qed.

Lemma tame_set_dealerSeat e v e0 : tame e e0 -> tame e (set_dealerSeat v e0).
Proof. intros H. eapply tame_trans; [exact H|]. tame_fields. Qed.

Lemma wellFormed_seatTake pid seat e :
  (1 <= seat)%nat -> wellFormed e -> wellFormed (fst (seatTake pid seat e)).
Proof.
  intros Hseat Hwf. unfold seatTake. destruct (getPlayer pid e) as [player|]; [|exact Hwf].
  match goal with |- context [if ?c then reject _ _ _ else _] => destruct c end;
    [exact Hwf|].
  rewrite fst_broadcast. eapply tame_wellFormed; [|exact Hwf].
  assert (Htake : forall e0, tame e0
            (updatePlayer pid
               (fun p =>
                  set_entryHand (handNumber e0 + (if isHandActive e0 then 1 else 0))%nat
                    (set_seatIndex (Some seat) p)) e0)).
  { intros e0. apply tame_updatePlayer. intros p _ _. split; [reflexivity|].
    intros _. unfold seatedIfActive. player_fields. intros _.
    destruct seat; [lia|reflexivity]. }
  assert (Hdealer : forall e0, tame e0 (updatePlayer pid (set_isDealer true) e0)).
  { intros e0. apply tame_updatePlayer. intros p _ _. by split. }
  apply tame_if.
  - eapply tame_trans; [|apply Hdealer]. apply tame_set_dealerSeat.
    eapply tame_trans; [|apply Htake]. apply tame_set_seats.
    apply tame_if; [apply tame_set_seats|]; apply tame_refl.
  - eapply tame_trans; [|apply Htake]. apply tame_set_seats.
    apply tame_if; [apply tame_set_seats|]; apply tame_refl.
Qed.

Lemma wellFormed_comboUpdate pid selections e :
  wellFormed e -> wellFormed (fst (comboUpdate pid selections e)).
Proof.
  intros Hwf. unfold comboUpdate. destruct (getPlayer pid e) as [player|]; [|exact Hwf].
  case_bool_decide; [exact Hwf|]. unfold updatePrivate. cbn [fst].
  eapply tame_wellFormed; [|exact Hwf]. apply tame_updatePlayer. intros p _ _. by split.
Qed.

Lemma wellFormed_restartTable e : wellFormed e -> wellFormed (fst (restartTable e)).
Proof.
  intros Hwf. unfold restartTable. rewrite fst_andThen, fst_broadcast. unfold modify.
  cbn [fst]. eapply tame_wellFormed; [|exact Hwf]. unfold tame. engine_fields.
  induction (players e) as [|p ps IH]; cbn [map]; constructor.
  - split; [reflexivity|]. intros _. unfold seatedIfActive, isActive. player_fields.
    discriminate.
  - apply IH.
Qed.

Lemma kept_same p p' :
  playerId p' = playerId p -> seatIndex p' = seatIndex p -> isActive p' = isActive p ->
  kept p p'.
Proof.
  intros Hid Hseat Hact. split; [exact Hid|]. unfold seatedIfActive.
  by rewrite Hseat, Hact.
Qed.

Lemma kept_inactive p p' : playerId p' = playerId p -> isActive p' = false -> kept p p'.
Proof.
  intros Hid Hact. split; [exact Hid|]. intros _. unfold seatedIfActive. by rewrite Hact.
Qed.

Lemma tame_update_same pid f e :
  (forall p, playerId (f p) = playerId p /\ seatIndex (f p) = seatIndex p
             /\ isActive (f p) = isActive p) ->
  tame e (updatePlayer pid f e).
Proof.
  intros Hf. apply tame_updatePlayer. intros p _ _. destruct (Hf p) as (?&?&?).
  by apply kept_same.
Qed.

Ltac tame_update := apply tame_update_same; intros ?; repeat split; reflexivity.

Lemma players_updateSidePotValues e : players (updateSidePotValues e) = players e.
Proof. unfold updateSidePotValues. by case_match. Qed.

Lemma tame_commitAmount pid amount e : tame e (commitAmount pid amount e).
Proof.
  unfold commitAmount. eapply tame_trans; [|apply tame_same, players_updateSidePotValues].
  eapply tame_trans; [|tame_fields]. tame_update.
Qed.

Lemma tame_callContribution p e : tame e (callContribution p e).
Proof.
  unfold callContribution. case_bool_decide; [apply tame_refl|apply tame_commitAmount].
Qed.

Lemma tame_raiseBy p amount' e e' : raiseBy p amount' e = inl e' -> tame e e'.
Proof.
  unfold raiseBy. repeat (case_match; try discriminate). intros [= <-].
  eapply tame_trans; [|tame_update].
  eapply tame_trans; [apply tame_commitAmount|]. tame_fields.
Qed.

Lemma tame_markSeatActed seat reset e : tame e (markSeatActed seat reset e).
Proof. unfold markSeatActed. repeat case_match; try apply tame_refl; tame_fields. Qed.

Lemma tame_calm F e : calm F -> tame e (fst (F e)).
Proof. intros HF. apply settled_tame, HF. Qed.

Lemma wellFormed_betAction pid msg e :
  wellFormed e -> wellFormed (fst (betAction pid msg e)).
Proof.
  intros Hwf. unfold betAction. destruct (getPlayer pid e) as [player|]; [|exact Hwf].
  do 3 (match goal with |- context [if ?c then reject _ _ _ else _] => destruct c end;
        [exact Hwf|]).
  assert (Hafter : forall reset e',
            tame e e' ->
            wellFormed
              (fst (((fun e'' => advanceTurn (markSeatActed (seatIndex player) reset e''))
                     ;> broadcast) e'))).
  { intros reset e' He'. rewrite fst_andThen, fst_broadcast.
    eapply tame_wellFormed; [|exact Hwf]. eapply tame_trans; [exact He'|].
    eapply tame_trans; [apply tame_markSeatActed|]. apply tame_calm, calm_advanceTurn. }
  destruct (action msg).
  - apply Hafter. apply tame_updatePlayer. intros p _ _.
    apply kept_inactive; [reflexivity|]. unfold isActive. player_fields.
    by rewrite andb_false_r.
  - case_bool_decide; [exact Hwf|]. apply Hafter. tame_update.
  - apply Hafter. eapply tame_trans; [apply tame_callContribution|]. tame_update.
  - destruct (raiseBy player (amount msg) e) as [e'|reason] eqn:Hraise; [|exact Hwf].
    apply Hafter. by eapply tame_raiseBy.
Qed.

Lemma tame_setNextComboActor i e : tame e (snd (setNextComboActor i e)).
Proof. apply settled_tame, settled_setNextComboActor. Qed.

Lemma tame_updateActionMessage e : tame e (updateActionMessage e).
Proof. apply settled_tame, settled_updateActionMessage. Qed.

Lemma wellFormed_comboSubmit pid selections e :
  wellFormed e -> wellFormed (fst (comboSubmit pid selections e)).
Proof.
  intros Hwf. unfold comboSubmit. destruct (getPlayer pid e) as [player|]; [|exact Hwf].
  do 5 (match goal with |- context [if ?c then _ else _] => destruct c end; [exact Hwf|]).
  eapply tame_wellFormed; [|exact Hwf].
  match goal with
  | |- context [set_awaitingCombo ?w (updatePlayer pid ?f e)] =>
      assert (H2 : tame e (set_awaitingCombo w (updatePlayer pid f e)));
      [eapply tame_trans; [|tame_fields]; tame_update|];
      revert H2; generalize (set_awaitingCombo w (updatePlayer pid f e))
  end.
  intros e2 H2. case_bool_decide.
  - eapply tame_trans; [exact H2|].
    eapply tame_trans; [|apply tame_calm, calm_evaluateCombos].
    eapply tame_trans; [|apply tame_updateActionMessage]. tame_fields.
  - pose proof (tame_setNextComboActor (comboIndex e2 + 1) e2) as Hnext.
    destruct (setNextComboActor (comboIndex e2 + 1) e2) as [found e3]. cbn [snd] in Hnext.
    eapply tame_trans; [exact H2|]. eapply tame_trans; [exact Hnext|].
    destruct found; cbn [negb]; [apply tame_refl|apply tame_calm, calm_evaluateCombos].
Qed.

Lemma wellFormed_seatLeave pid e : wellFormed e -> wellFormed (fst (seatLeave pid e)).
Proof.
  intros Hwf. unfold seatLeave. destruct (getPlayer pid e) as [player|] eqn:Hplayer;
    [|exact Hwf].
  rewrite fst_andThen, fst_broadcast.
  match goal with
  | |- context [updatePlayer pid (set_seatIndex None) ?x] =>
      assert (H1 : tame e x /\ forall p, p ∈ players x -> playerId p = pid ->
                                         isActive p = false)
  end.
  { match goal with
    | |- context [if inHand player then updatePlayer pid ?f ?x else _] =>
        assert (H0 : players x = players e) by (by repeat case_match);
        revert H0; generalize x
    end.
    intros e1 H0. destruct (inHand player) eqn:Hin.
    - split.
      + eapply tame_trans; [apply tame_same, H0|]. apply tame_updatePlayer.
        intros p _ _. apply kept_inactive; [reflexivity|]. unfold isActive.
        player_fields. reflexivity.
      + unfold updatePlayer. engine_fields. intros p Hp Hid.
        apply list_elem_of_fmap in Hp as [q [-> Hq]].
        case_bool_decide as Hq'; unfold isActive; [by player_fields|].
        exfalso. apply Hq'. exact Hid.
    - split; [by apply tame_same|]. rewrite H0. intros p Hp Hid.
      rewrite (getPlayer_unique pid e player p); try done; [|apply Hwf].
      unfold isActive. by rewrite Hin. }
  destruct H1 as [H1 Hidle]. revert H1 Hidle.
  match goal with
  | |- context [updatePlayer pid (set_seatIndex None) ?x] => generalize x
  end.
  intros e2 H2 Hidle.
  assert (H3 : tame e (updatePlayer pid (set_seatIndex None) e2)).
  { eapply tame_trans; [exact H2|]. apply tame_updatePlayer. intros p Hp Hid.
    apply kept_inactive; [reflexivity|]. unfold isActive. player_fields.
    by apply Hidle. }
  revert H3. generalize (updatePlayer pid (set_seatIndex None) e2). intros e3 H3.
  eapply tame_wellFormed; [|exact Hwf]. eapply tame_trans; [exact H3|].
  repeat case_match; subst;
    try apply tame_refl; try (apply tame_calm, calm_advanceTurn);
    try (match goal with
         | H : setNextComboActor ?i ?x = (_, ?y) |- _ =>
             let Hn := fresh in
             pose proof (tame_setNextComboActor i x) as Hn; rewrite H in Hn;
             cbn [snd] in Hn
         end);
    repeat first
      [ eassumption
      | apply tame_refl
      | tame_fields
      | eapply tame_trans; [|apply tame_calm, calm_evaluateCombos]
      | eapply tame_trans; [|apply tame_updateActionMessage] ].
Qed.

Lemma eligible_seated e r q :
  NoDup (map playerId (players e)) ->
  r ∈ getEligibleSeatedPlayers e -> q ∈ players e -> playerId q = playerId r ->
  truthy (seatIndex q) = true.
Proof.
  intros Hnd Hr Hq Hid. unfold getEligibleSeatedPlayers in Hr.
  apply list_elem_of_omap in Hr as [slot [_ Hslot]].
  destruct slot as [pid|]; [|discriminate]. case_bool_decide; [discriminate|].
  destruct (getPlayer pid e) as [p|] eqn:Hp; [|discriminate].
  destruct (truthy (seatIndex p)) eqn:Hseat; cbn [andb] in Hslot; [|discriminate].
  case_bool_decide; [|discriminate]. injection Hslot as <-.
  rewrite (getPlayer_unique pid e p q Hnd Hp Hq); [exact Hseat|].
  rewrite Hid. by eapply getPlayer_id.
Qed.

Lemma tame_bringIn rs e :
  seatedIn rs e ->
  tame e (foldl (fun e' p => updatePlayer (playerId p) (set_inHand true) e') e rs).
Proof.
  revert e. induction rs as [|r rs IH]; intros e Hseated; [apply tame_refl|].
  cbn [foldl]. eapply tame_trans; [|apply IH].
  - apply tame_updatePlayer. intros p Hp Hid. split; [reflexivity|]. intros _ _.
    player_fields. apply (Hseated r p); [by left|exact Hp|exact Hid].
  - intros r' q Hr' Hq Hid. unfold updatePlayer in Hq. engine_fields.
    apply list_elem_of_fmap in Hq as [q0 [-> Hq0]].
    assert (Hsame : playerId (if bool_decide (playerId q0 = playerId r)
                              then set_inHand true q0 else q0) = playerId q0
                    /\ seatIndex (if bool_decide (playerId q0 = playerId r)
                                  then set_inHand true q0 else q0) = seatIndex q0).
    { by case_bool_decide. }
    destruct Hsame as [Hsid Hsseat]. rewrite Hsseat. rewrite Hsid in Hid.
    apply (Hseated r' q0); [by right|exact Hq0|exact Hid].
Qed.

Lemma tame_resetPlayersForHand rs e :
  seatedIn rs e -> tame e (resetPlayersForHand rs e).
Proof.
  intros Hseated. unfold resetPlayersForHand.
  eapply tame_trans; [|apply tame_bringIn].
  - apply tame_forAllPlayers. intros p. apply kept_inactive; reflexivity.
  - intros r q Hr Hq Hid. unfold forAllPlayers in Hq. engine_fields.
    apply list_elem_of_fmap in Hq as [q0 [-> Hq0]]. player_fields.
    by apply (Hseated r q0).
Qed.

Lemma tame_dealHands rs e : tame e (dealHands rs e).
Proof.
  unfold dealHands. revert e. induction rs as [|r rs IH]; intros e; [apply tame_refl|].
  cbn [foldl]. eapply tame_trans; [|apply IH]. unfold drawCards.
  eapply tame_trans; [|tame_update]. tame_fields.
Qed.

Lemma tame_postBlind poster blind flag e :
  (forall p, playerId (flag p) = playerId p /\ seatIndex (flag p) = seatIndex p
             /\ isActive (flag p) = isActive p) ->
  tame e (postBlind poster blind flag e).
Proof.
  intros Hflag. unfold postBlind. destruct poster as [p|]; [|apply tame_refl].
  eapply tame_trans; [|tame_fields]. eapply tame_trans; [|tame_update].
  eapply tame_trans; [|apply tame_commitAmount]. by apply tame_update_same.
Qed.

Lemma tame_markDealers rs e :
  tame e
    (foldl (fun e' p =>
              updatePlayer (playerId p)
                (fun q => set_isDealer (bool_decide (seatIndex q = dealerSeat e')) q) e')
       e rs).
Proof.
  revert e. induction rs as [|r rs IH]; intros e; [apply tame_refl|].
  cbn [foldl]. eapply tame_trans; [|apply IH]. tame_update.
Qed.

Lemma tame_assignBlinds rs e : tame e (assignBlinds rs e).
Proof.
  unfold assignBlinds.
  match goal with
  | |- context [foldl ?f ?x rs] =>
      assert (H1 : tame e x);
      [|pose proof (tame_markDealers rs x) as H2; revert H1 H2; generalize x;
        generalize (foldl f x rs)]
  end.
  { repeat case_match; try apply tame_refl.
    eapply tame_trans; [|tame_update]. tame_fields. }
  intros e2 e1 H1 H2.
  eapply tame_trans; [exact H1|]. eapply tame_trans; [exact H2|].
  eapply tame_trans; [|apply tame_postBlind; intros ?; repeat split; reflexivity].
  eapply tame_trans; [|apply tame_postBlind; intros ?; repeat split; reflexivity].
  tame_fields.
Qed.

Lemma tame_beginHand random rs e :
  seatedIn rs e -> tame e (fst (beginHand random rs e)).
Proof.
  intros Hseated. unfold beginHand, drawCards.
  pose proof (tame_resetPlayersForHand rs (set_handNumber (handNumber e + 1) e))
    as Hreset.
  revert Hreset. generalize (resetPlayersForHand rs (set_handNumber (handNumber e + 1) e)).
  intros e2 H2.
  assert (H2' : tame e e2).
  { eapply tame_trans; [|apply H2; exact Hseated]. tame_fields. }
  clear H2.
  eapply tame_trans; [|apply tame_calm, calm_startBettingRound].
  eapply tame_trans; [|apply tame_assignBlinds].
  eapply tame_trans; [|tame_fields].
  eapply tame_trans; [|apply tame_dealHands].
  eapply tame_trans; [exact H2'|]. tame_fields.
Qed.

Lemma wellFormed_startHand pid random e :
  wellFormed e -> wellFormed (fst (startHand pid random e)).
Proof.
  intros Hwf. unfold startHand. destruct (getPlayer pid e) as [player|]; [|exact Hwf].
  do 3 (match goal with |- context [if ?c then reject _ _ _ else _] => destruct c end;
        [exact Hwf|]).
  rewrite fst_andThen, fst_broadcast. eapply tame_wellFormed; [|exact Hwf].
  apply tame_beginHand. intros r q Hr Hq Hid. eapply eligible_seated; try eassumption.
  apply Hwf.
Qed.

Lemma wellFormed_newEngine : wellFormed newEngine.
Proof. split; [constructor|constructor]. Qed.

Lemma reachable_wellFormed e : reachable e -> wellFormed e.
Proof.
  induction 1 as [|e i _ IH Htyped]; [apply wellFormed_newEngine|].
  destruct i; cbn [perform].
  - by apply wellFormed_join.
  - apply wellFormed_seatTake; [apply Htyped|exact IH].
  - by apply wellFormed_seatLeave.
  - by apply wellFormed_startHand.
  - by apply wellFormed_betAction.
  - by apply wellFormed_comboUpdate.
  - by apply wellFormed_comboSubmit.
  - by apply wellFormed_restartTable.
Qed.

(** ** The end of a betting round *)

Lemma elem_of_activePlayers p e : p ∈ activePlayers e <-> p ∈ players e /\ isActive p = true.
Proof. unfold activePlayers. rewrite !list_elem_of_In. apply List.filter_In. Qed.

Lemma isBettingRoundComplete_spec e :
  Forall seatedIfActive (players e) ->
  isBettingRoundComplete e = true <-> roundCompleteBySeat e.
Proof.
  intros Hseated. rewrite Forall_forall in Hseated.
  unfold isBettingRoundComplete, roundCompleteBySeat. case_bool_decide as Hfew.
  - split; [by left|reflexivity].
  - unfold haveAllRequiredPlayersActed. split.
    + intros Hdone. right. intros p Hp Hstack.
      apply elem_of_activePlayers in Hp as Hp'. destruct Hp' as [Hin Hact].
      destruct (forallb _ (players e)) eqn:Hall; [|discriminate]. cbn [negb] in Hdone.
      rewrite forallb_forall in Hall, Hdone.
      specialize (Hall p ltac:(by apply list_elem_of_In)).
      specialize (Hdone p ltac:(by apply list_elem_of_In)). cbn beta in Hall, Hdone.
      pose proof (Hseated p Hin Hact) as Htruthy.
      unfold isActive in Hact. apply andb_true_iff in Hact as [Hhand Hfold].
      apply negb_true_iff in Hfold.
      rewrite Hhand, Hfold, Htruthy in Hall. cbn [negb orb] in Hall.
      rewrite (bool_decide_eq_false_2 (stack p = 0)) in Hall, Hdone by done.
      apply bool_decide_eq_true_1 in Hall. rewrite orb_false_r in Hdone.
      apply bool_decide_eq_true_1 in Hdone. split; [|exact Hdone].
      unfold seatMarked. destruct (seatIndex p) as [s|]; [|discriminate Htruthy].
      exists s. split; [reflexivity|exact Hall].
    + intros [Hle|Hall]; [lia|].
      assert (Hacted : forallb
                (fun p =>
                   if negb (inHand p) || hasFolded p then true
                   else if negb (truthy (seatIndex p)) then true
                   else if bool_decide (stack p = 0) then true
                   else bool_decide (default 0%nat (seatIndex p) ∈ actedThisRound e))
                (players e) = true).
      { apply forallb_forall. intros p Hp. apply list_elem_of_In in Hp.
        destruct (negb (inHand p) || hasFolded p) eqn:Hidle; [reflexivity|].
        destruct (negb (truthy (seatIndex p))); [reflexivity|].
        case_bool_decide as Hstack; [reflexivity|]. apply bool_decide_eq_true_2.
        destruct (Hall p) as [(s & Hs & Hin) _]; [|exact Hstack|by rewrite Hs].
        apply elem_of_activePlayers. split; [exact Hp|]. unfold isActive.
        destruct (inHand p), (hasFolded p); done. }
      rewrite Hacted. cbn [negb]. apply forallb_forall. intros p Hp.
      apply list_elem_of_In in Hp. destruct (decide (stack p = 0)) as [Hz|Hnz].
      * by rewrite (bool_decide_eq_true_2 (stack p = 0)), orb_true_r.
      * destruct (Hall p Hp Hnz) as [_ Hbet]. by rewrite bool_decide_eq_true_2.
Qed.

Lemma roundReset_resetRound e : roundReset (resetRound e).
Proof.
  unfold roundReset, resetRound, forAllPlayers. engine_fields.
  split; [|split; reflexivity]. apply Forall_forall. intros p Hp.
  apply list_elem_of_fmap in Hp as [q [-> _]]. reflexivity.
Qed.

Lemma roundReset_settled e e' : settled e e' -> roundReset e -> roundReset e'.
Proof.
  intros (Hp&_&_&_&_&_&Hc&Hm) (Hbets&Hcur&Hmin). unfold roundReset.
  split; [|split].
  - clear -Hp Hbets. induction Hp as [|p q ps qs Hpq _ IH]; [constructor|].
    inversion Hbets; subst. constructor; [|by apply IH].
    destruct Hpq as (_&_&_&_&_&_&_&[Hb|Hb]); congruence.
  - destruct Hc; congruence.
  - destruct Hm; congruence.
Qed.

Lemma finishBettingRound_advance e : finishBettingRound e = advancePhase (resetRound e).
Proof.
  rewrite finishBettingRound_eq. unfold finishBettingRoundK, advancePhase, resetRound.
  cbv zeta. reflexivity.
Qed.

Lemma calm_advancePhase : calm advancePhase.
Proof.
  intros e. unfold advancePhase. case_bool_decide; [apply calm_resolveHandByFold|].
  destruct (phase e); try apply calm_skip;
    try apply calm_enterComboPhase.
  - destruct (calm_startBettingRound (smallBlindSeat e)
                (set_bossRevealedCount 4 (set_phase charge e))) as [Hs He].
    split; [|exact He]. eapply settled_trans; [|exact Hs]. settled_fields.
  - destruct (calm_startBettingRound (smallBlindSeat e)
                (set_bossRevealedCount 5 (set_phase stomp e))) as [Hs He].
    split; [|exact He]. eapply settled_trans; [|exact Hs]. settled_fields.
Qed.

(** What holds of the end of a betting round whoever has acted.  A round
    that the engine marks complete has at most one active player or has
    every active player with a non-zero stack at the current bet; in an
    engine that a run can reach the test of the engine is the one by
    marked seats.  Completing the round first resets every [betThisRound]
    and [currentBet] to 0 and [minimumRaise] to the increment, then
    advances the phase; the figures are still reset when the round has
    been completed. *)
Lemma round_completion_resets :
  (forall e, reachable e -> (isBettingRoundComplete e = true <-> roundCompleteBySeat e))
  /\ (forall e, reachable e -> isBettingRoundComplete e = true ->
        (length (activePlayers e) <= 1)%nat
        \/ forall p, p ∈ activePlayers e -> stack p <> 0 ->
                     betThisRound p = currentBet e)
  /\ (forall e,
        roundReset (resetRound e)
        /\ phase (resetRound e) = phase e
        /\ finishBettingRound e = advancePhase (resetRound e)
        /\ roundReset (fst (finishBettingRound e))).
Proof.
  split; [|split].
  - intros e Hreach. apply isBettingRoundComplete_spec.
    by apply reachable_wellFormed.
  - intros e Hreach Hdone.
    apply (isBettingRoundComplete_spec e) in Hdone; [|by apply reachable_wellFormed].
    destruct Hdone as [Hfew|Hall]; [by left|right].
    intros p Hp Hstack. by apply (Hall p Hp Hstack).
  - intros e. split; [apply roundReset_resetRound|]. split; [reflexivity|].
    split; [apply finishBettingRound_advance|].
    rewrite finishBettingRound_advance.
    eapply roundReset_settled; [apply calm_advancePhase|apply roundReset_resetRound].
Qed.

Lemma wellTypedb_sound i : wellTypedb i = true -> wellTyped i.
Proof. destruct i; cbn [wellTypedb wellTyped]; try done. apply bool_decide_eq_true_1. Qed.

Lemma reachable_run intents e :
  forallb wellTypedb intents = true -> reachable e -> reachable (run intents e).
Proof.
  unfold run. revert e. induction intents as [|i intents IH]; intros e Htyped Hreach.
  - exact Hreach.
  - cbn [forallb] in Htyped. apply andb_true_iff in Htyped as [Hi Htyped].
    cbn [foldl]. apply IH; [exact Htyped|].
    apply reachable_step; [exact Hreach|by apply wellTypedb_sound].
Qed.

Lemma elem_of_existsb (x : string) (l : list string) :
  existsb (String.eqb x) l = true -> x ∈ l.
Proof.
  intros Hx. apply existsb_exists in Hx as (y & Hy & Heq).
  apply String.eqb_eq in Heq. subst y. by apply list_elem_of_In.
Qed.

(** C2 fails in the engine.  The engine keeps its record of who has acted
    by seat, and a player who takes another seat during a betting round
    leaves the mark behind.  In the first betting round of [movedRun] the
    small blind calls, the big blind checks, the small blind moves from
    seat 2 to seat 5 and the dealer calls: every active player has then
    acted since the last raise, by what the players did, and has
    [betThisRound] equal to [currentBet], so that the round is complete as
    the claim has it.  The engine does not mark it complete: the phase is
    still [rush] and the turn goes to the big blind once more, where the
    same actions without the change of seat end the round and open the
    phase [charge]. *)
Theorem reseated_round_stays_open :
  reachable moved
  /\ actedSinceRaise [] movedRun newEngine = ["p1"; "p3"; "p2"]
  /\ roundComplete (actedSinceRaise [] movedRun newEngine) moved
  /\ (1 < length (activePlayers moved))%nat
  /\ isBettingRoundComplete moved = false
  /\ phase moved = rush
  /\ actingSeat moved = Some 3%nat
  /\ phase (run (threeSeated ++ callAround) newEngine) = charge.
Proof.
  assert (Hacted : actedSinceRaise [] movedRun newEngine = ["p1"; "p3"; "p2"])
    by (vm_compute; reflexivity).
  split; [|split; [exact Hacted|split]].
  - apply reachable_run; [vm_compute; reflexivity|apply reachable_new].
  - right. rewrite Hacted.
    assert (Hall : forallb
                     (fun p => existsb (String.eqb (playerId p)) ["p1"; "p3"; "p2"]
                               && bool_decide (betThisRound p = currentBet moved))
                     (activePlayers moved) = true) by (vm_compute; reflexivity).
    rewrite forallb_forall in Hall. intros p Hp _.
    apply list_elem_of_In, Hall, andb_true_iff in Hp as [Hid Hbet].
    split; [by apply elem_of_existsb|by apply bool_decide_eq_true_1 in Hbet].
  - split; [vm_compute; lia|]. repeat split; vm_compute; reflexivity.
Qed.

(** ** Raises *)

Lemma getPlayer_players pid e e' : players e' = players e -> getPlayer pid e' = getPlayer pid e.
Proof. unfold getPlayer. by intros ->. Qed.

Lemma getPlayer_commitAmount pid amount e player :
  getPlayer pid e = Some player ->
  getPlayer pid (commitAmount pid amount e)
  = Some (set_totalBet (totalBet player + Z.min (stack player) amount)
            (set_betThisRound (betThisRound player + Z.min (stack player) amount)
               (set_stack (stack player - Z.min (stack player) amount) player))).
Proof.
  intros Hplayer. unfold commitAmount.
  rewrite (getPlayer_players pid _ _ (players_updateSidePotValues _)).
  rewrite (getPlayer_players pid (updatePlayer pid _ e)) by reflexivity.
  rewrite getPlayer_updatePlayer by reflexivity. by rewrite Hplayer.
Qed.

Lemma noError_betAction_after seat reset e :
  noError
    (snd (((fun e' => advanceTurn (markSeatActed seat reset e')) ;> broadcast) e)).
Proof.
  rewrite snd_andThen. apply noError_app. split; [|apply noError_broadcast].
  apply calm_advanceTurn.
Qed.

(** C3, as the engine has it.  A request of 25, like every request that is
    not a positive multiple of the increment of 10, is rejected as an
    invalid raise amount and changes nothing.  A request that is a positive
    multiple of 10, from the acting player whose stack exceeds the call
    amount by at least 10, is accepted: the effective raise is the smaller
    of the request and the largest multiple of 10 that the player can
    afford beyond the call amount, and the player commits the call amount
    plus that raise. *)
Theorem raise_sizing pid e player request :
  getPlayer pid e = Some player ->
  inHand player = true -> hasFolded player = false ->
  truthy (actingSeat e) = true -> seatIndex player = actingSeat e ->
  let callNeeded := Z.max 0 (currentBet e - betThisRound player) in
  callNeeded + RAISE_INCREMENT <= stack player ->
  (request < RAISE_INCREMENT \/ Z.rem request RAISE_INCREMENT <> 0 ->
   betAction pid (mkBet BetRaise (Some request)) e
   = (e, [EvError (Some pid) "Invalid raise amount"]))
  /\ (RAISE_INCREMENT <= request -> Z.rem request RAISE_INCREMENT = 0 ->
      let affordable := (stack player - callNeeded) / RAISE_INCREMENT * RAISE_INCREMENT in
      let effective := Z.min request affordable in
      (affordable mod RAISE_INCREMENT = 0
       /\ affordable <= stack player - callNeeded < affordable + RAISE_INCREMENT)
      /\ RAISE_INCREMENT <= effective
      /\ exists e',
          raiseBy player (Some request) e = inl e'
          /\ (fun p => (stack p, betThisRound p, totalBet p)) <$> getPlayer pid e'
             = Some (stack player - (callNeeded + effective),
                     betThisRound player + (callNeeded + effective),
                     totalBet player + (callNeeded + effective))
          /\ currentBet e' = betThisRound player + (callNeeded + effective)
          /\ minimumRaise e' = Z.max RAISE_INCREMENT effective
          /\ betAction pid (mkBet BetRaise (Some request)) e
             = ((fun e'' => advanceTurn (markSeatActed (seatIndex player) true e''))
                ;> broadcast) e'
          /\ noError (snd (betAction pid (mkBet BetRaise (Some request)) e))).
Proof.
  intros Hplayer Hin Hfold Hacting Hseat callNeeded Hstack.
  pose proof (getPlayer_id _ _ _ Hplayer) as Hid.
  assert (Hturn : truthy (seatIndex player) = true) by (by rewrite Hseat).
  assert (Hbet : forall msg,
             betAction pid msg e
             = match action msg with
               | BetRaise =>
                   match raiseBy player (amount msg) e with
                   | inr reason => reject pid reason e
                   | inl e' =>
                       ((fun e'' => advanceTurn (markSeatActed (seatIndex player) true e''))
                        ;> broadcast) e'
                   end
               | _ => betAction pid msg e
               end).
  { intros msg. destruct (action msg) eqn:Hact; try reflexivity.
    unfold betAction. rewrite Hplayer, Hin, Hfold, Hacting, Hturn, Hact.
    rewrite (bool_decide_eq_true_2 (seatIndex player = actingSeat e)) by done.
    reflexivity. }
  unfold RAISE_INCREMENT in *. split.
  - intros Hbad. rewrite Hbet. cbn [action amount]. unfold raiseBy.
    rewrite bool_decide_eq_false_2 by lia. cbn [default]. unfold RAISE_INCREMENT.
    destruct Hbad as [Hlow|Hrem].
    + by rewrite (bool_decide_eq_true_2 (request < 10)).
    + rewrite (bool_decide_eq_false_2 (Z.rem request 10 = 0)) by done.
      by rewrite orb_true_r.
  - intros Hmin Hmult. cbv zeta.
    set (affordable := (stack player - callNeeded) / 10 * 10).
    set (effective := Z.min request affordable).
    assert (Haff : affordable mod 10 = 0
                   /\ affordable <= stack player - callNeeded < affordable + 10).
    { subst affordable. split; [apply Z_mod_mult|].
      pose proof (Z.mul_div_le (stack player - callNeeded) 10 ltac:(lia)).
      pose proof (Z.mul_succ_div_gt (stack player - callNeeded) 10 ltac:(lia)). lia. }
    assert (Heff : 10 <= effective).
    { subst effective. destruct Haff as [Hmod Hrange].
      assert (10 <= affordable); [|lia].
      subst affordable.
      assert (1 <= (stack player - callNeeded) / 10); [|lia].
      apply Z.div_le_lower_bound; lia. }
    split; [exact Haff|]. split; [exact Heff|].
    set (needed := callNeeded + effective).
    assert (Hcontribution : Z.min (stack player) needed = needed) by lia.
    set (e1 := commitAmount (playerId player) needed e).
    assert (Hraise : raiseBy player (Some request) e
              = inl (updatePlayer (playerId player) (set_lastAction (Some "Raise"))
                       (set_minimumRaise (Z.max 10 effective)
                          (set_currentBet
                             (from_option betThisRound 0 (getPlayer (playerId player) e1))
                             e1)))).
    { unfold raiseBy. rewrite bool_decide_eq_false_2 by lia. cbn [default].
      unfold RAISE_INCREMENT.
      rewrite (bool_decide_eq_false_2 (request < 10)) by lia.
      rewrite (bool_decide_eq_true_2 (Z.rem request 10 = 0)) by done. cbn [negb orb].
      fold callNeeded. rewrite (bool_decide_eq_false_2 (stack player <= callNeeded)) by lia.
      fold affordable. fold effective.
      rewrite (bool_decide_eq_false_2 (effective < 10)) by lia. reflexivity. }
    eexists. split; [exact Hraise|].
    assert (Hget1 : getPlayer pid e1
                    = Some (set_totalBet (totalBet player + needed)
                              (set_betThisRound (betThisRound player + needed)
                                 (set_stack (stack player - needed) player)))).
    { subst e1. rewrite Hid, (getPlayer_commitAmount pid needed e player Hplayer).
      by rewrite Hcontribution. }
    rewrite Hid. split; [|split; [|split; [|split]]].
    + rewrite getPlayer_updatePlayer by reflexivity.
      rewrite (getPlayer_players pid e1 (set_minimumRaise _ _)) by reflexivity.
      rewrite Hget1. reflexivity.
    + engine_fields. unfold updatePlayer. engine_fields. rewrite Hget1. reflexivity.
    + reflexivity.
    + rewrite Hbet. cbn [action amount]. by rewrite Hraise, Hid.
    + rewrite Hbet. cbn [action amount]. rewrite Hraise.
      apply noError_betAction_after.
Qed.

Lemma raise_sizing_witness :
  betAction "p2" (mkBet BetRaise (Some 25)) afterBlinds
  = (afterBlinds, [EvError (Some "p2") "Invalid raise amount"])
  /\ noError (snd (betAction "p2" (mkBet BetRaise (Some 20)) afterBlinds))
  /\ exists e',
      raiseBy smallBlindPlayer (Some 20) afterBlinds = inl e'
      /\ currentBet e' = 30.
Proof.
  assert (Hplayer : getPlayer "p2" afterBlinds = Some smallBlindPlayer)
    by (vm_compute; reflexivity).
  assert (Hin : inHand smallBlindPlayer = true) by (vm_compute; reflexivity).
  assert (Hfold : hasFolded smallBlindPlayer = false) by (vm_compute; reflexivity).
  assert (Hacting : truthy (actingSeat afterBlinds) = true) by (vm_compute; reflexivity).
  assert (Hseat : seatIndex smallBlindPlayer = actingSeat afterBlinds)
    by (vm_compute; reflexivity).
  assert (Hstack : Z.max 0 (currentBet afterBlinds - betThisRound smallBlindPlayer)
                   + RAISE_INCREMENT <= stack smallBlindPlayer)
    by (vm_compute; discriminate).
  split; [|split].
  - apply (raise_sizing "p2" afterBlinds smallBlindPlayer 25 Hplayer Hin Hfold Hacting
             Hseat Hstack).
    right. vm_compute. discriminate.
  - destruct (raise_sizing "p2" afterBlinds smallBlindPlayer 20 Hplayer Hin Hfold Hacting
                Hseat Hstack) as [_ H].
    destruct H as (_ & _ & e' & _ & _ & _ & _ & _ & H);
      [vm_compute; discriminate|reflexivity|exact H].
  - destruct (raise_sizing "p2" afterBlinds smallBlindPlayer 20 Hplayer Hin Hfold Hacting
                Hseat Hstack) as [_ H].
    destruct H as (_ & _ & e' & Hraise & _ & Hcur & _);
      [vm_compute; discriminate|reflexivity|].
    exists e'. split; [exact Hraise|]. rewrite Hcur. vm_compute. reflexivity.
Defined.

(** C3, as stated, fails: the acting player of [afterBlinds] has 490 chips
    beyond the call amount of 5, and a raise of 25 is rejected. *)
Lemma raise_of_25_is_rejected :
  getPlayer "p2" afterBlinds = Some smallBlindPlayer
  /\ seatIndex smallBlindPlayer = actingSeat afterBlinds
  /\ stack smallBlindPlayer
     - Z.max 0 (currentBet afterBlinds - betThisRound smallBlindPlayer) = 490
  /\ betAction "p2" (mkBet BetRaise (Some 25)) afterBlinds
     = (afterBlinds, [EvError (Some "p2") "Invalid raise amount"])
  /\ ~ noError (snd (betAction "p2" (mkBet BetRaise (Some 25)) afterBlinds)).
Proof.
  split; [vm_compute; reflexivity|]. split; [vm_compute; reflexivity|].
  split; [vm_compute; reflexivity|]. split; [vm_compute; reflexivity|].
  vm_compute. discriminate.
Qed.

(** ** The combo queue *)

Lemma nextComboActor_found idx queue e i seat :
  nextComboActor idx queue e = Some (i, seat) ->
  exists k, i = (idx + k)%nat
            /\ queue !! k = Some seat
            /\ comboEligible seat e = true
            /\ forall j s, (j < k)%nat -> queue !! j = Some s -> comboEligible s e = false.
Proof.
  revert idx. induction queue as [|s0 queue IH]; intros idx Hnext; [discriminate|].
  cbn [nextComboActor] in Hnext. destruct (comboEligible s0 e) eqn:Hs0.
  - injection Hnext as <- <-. exists 0%nat. split; [lia|]. split; [reflexivity|].
    split; [exact Hs0|]. intros j s Hj. lia.
  - destruct (IH _ Hnext) as (k & -> & Hk & Hseat & Hbefore). exists (S k).
    split; [lia|]. split; [exact Hk|]. split; [exact Hseat|].
    intros [|j] s Hj Hjs; [by injection Hjs as <-|].
    apply (Hbefore j); [lia|exact Hjs].
Qed.

Lemma nextComboActor_none idx queue e :
  nextComboActor idx queue e = None ->
  forall j s, queue !! j = Some s -> comboEligible s e = false.
Proof.
  revert idx. induction queue as [|s0 queue IH]; intros idx Hnext j s Hjs;
    [by rewrite lookup_nil in Hjs|].
  cbn [nextComboActor] in Hnext. destruct (comboEligible s0 e) eqn:Hs0; [discriminate|].
  destruct j as [|j]; [by injection Hjs as <-|]. by apply (IH _ Hnext j).
Qed.

Lemma setNextComboActor_spec start e :
  match setNextComboActor start e with
  | (true, e') =>
      exists i seat,
        isNextWaiting e start i seat
        /\ e' = updateActionMessage (set_actingSeat (Some seat) (set_comboIndex i e))
  | (false, e') =>
      noneWaiting e start
      /\ e' = updateActionMessage
                (set_actingSeat None (set_comboIndex (length (comboQueue e)) e))
  end.
Proof.
  unfold setNextComboActor.
  destruct (nextComboActor start (drop start (comboQueue e)) e) as [[i seat]|] eqn:Hnext.
  - exists i, seat. split; [|reflexivity].
    destruct (nextComboActor_found _ _ _ _ _ Hnext) as (k & -> & Hk & Hseat & Hbefore).
    rewrite lookup_drop in Hk. split; [lia|]. split; [exact Hk|]. split; [exact Hseat|].
    intros j s Hj Hjs. apply (Hbefore (j - start)%nat); [lia|].
    rewrite lookup_drop. by replace (start + (j - start))%nat with j by lia.
  - split; [|reflexivity]. intros j s Hj Hjs.
    apply (nextComboActor_none _ _ _ Hnext (j - start)%nat).
    rewrite lookup_drop. by replace (start + (j - start))%nat with j by lia.
Qed.

(** What [comboSubmit] does with a submission from the player whose turn
    it is in the combo phase.  It is rejected with an error, the engine
    unchanged, when the sanitized selection totals more than the Boss
    total.  Otherwise the selection is stored as the selection of the
    player and revealed, and the player leaves the waiting set; then, if
    nobody is waiting, the combos are evaluated at once; else the turn
    passes to the next seat of the queue whose player is still waiting, and
    the combos are evaluated at once if there is no such seat. *)
Lemma comboSubmit_turn pid selections' e player :
  phase e = combo ->
  getPlayer pid e = Some player ->
  inHand player = true -> hasFolded player = false ->
  pid ∈ awaitingCombo e ->
  truthy (seatIndex player) = true -> seatIndex player = actingSeat e ->
  let selections := sanitizeSelections player selections' in
  let total := computeComboTotal player selections in
  (computeBossTotal e < total ->
   comboSubmit pid selections' e = (e, [EvError (Some pid) "Combo exceeds Boss total"]))
  /\ (total <= computeBossTotal e ->
      let e2 := lockCombo pid player selections e in
      (fun p => (comboSelection p, comboRevealed p)) <$> getPlayer pid e2
      = Some (selections,
              Some (omap (fun selection => findCardInHand player (cardId selection))
                      selections))
      /\ (pid ∉ awaitingCombo e2)
      /\ ((size (awaitingCombo e2) = 0%nat
           /\ comboSubmit pid selections' e
              = evaluateCombos (updateActionMessage (set_actingSeat None e2)))
          \/ (size (awaitingCombo e2) <> 0%nat
              /\ exists i seat,
                  isNextWaiting e2 (comboIndex e + 1) i seat
                  /\ comboSubmit pid selections' e
                     = broadcast
                         (updateActionMessage
                            (set_actingSeat (Some seat) (set_comboIndex i e2))))
          \/ (size (awaitingCombo e2) <> 0%nat
              /\ noneWaiting e2 (comboIndex e + 1)
              /\ comboSubmit pid selections' e
                 = evaluateCombos
                     (updateActionMessage
                        (set_actingSeat None
                           (set_comboIndex (length (comboQueue e)) e2)))))).
Proof.
  intros Hphase Hplayer Hin Hfold Hwaiting Htruthy Hseat selections total.
  assert (Hrun : comboSubmit pid selections' e
            = if bool_decide (computeBossTotal e < total)
              then reject pid "Combo exceeds Boss total" e
              else
                let e2 := lockCombo pid player selections e in
                if bool_decide (size (awaitingCombo e2) = 0%nat)
                then evaluateCombos (updateActionMessage (set_actingSeat None e2))
                else
                  let '(found, e3) := setNextComboActor (comboIndex e2 + 1) e2 in
                  if negb found then evaluateCombos e3 else broadcast e3).
  { unfold comboSubmit. rewrite Hplayer, Hin, Hfold, Htruthy.
    rewrite (bool_decide_eq_true_2 (phase e = combo)) by done.
    rewrite (bool_decide_eq_true_2 (pid ∈ awaitingCombo e)) by done.
    rewrite (bool_decide_eq_true_2 (seatIndex player = actingSeat e)) by done.
    reflexivity. }
  split.
  - intros Hover. rewrite Hrun. by rewrite bool_decide_eq_true_2.
  - intros Hfits e2. rewrite Hrun.
    rewrite (bool_decide_eq_false_2 (computeBossTotal e < total)) by lia. cbv zeta.
    clear Hrun.
    fold e2. split; [|split].
    + subst e2. unfold lockCombo.
      rewrite (getPlayer_players pid (updatePlayer pid _ e)) by reflexivity.
      rewrite getPlayer_updatePlayer by reflexivity. by rewrite Hplayer.
    + subst e2. unfold lockCombo. engine_fields.
      rewrite elem_of_difference, elem_of_singleton. tauto.
    + case_bool_decide as Hnone; [left; split; [exact Hnone|reflexivity]|right].
      pose proof (setNextComboActor_spec (comboIndex e2 + 1) e2) as Hnext.
      destruct (setNextComboActor (comboIndex e2 + 1) e2) as [[|] e3].
      * left. split; [exact Hnone|]. destruct Hnext as (i & seat & Hnext & ->).
        exists i, seat. split; [exact Hnext|reflexivity].
      * right. split; [exact Hnone|]. destruct Hnext as [Hnext ->].
        split; [exact Hnext|reflexivity].
Qed.

Lemma comboSubmit_turn_witness :
  comboSubmit "p2" greedySelection comboTable
  = (comboTable, [EvError (Some "p2") "Combo exceeds Boss total"])
  /\ ("p2" ∉ awaitingCombo
              (lockCombo "p2" firstToSubmit
                 (sanitizeSelections firstToSubmit modestSelection) comboTable))
  /\ actingSeat (fst (comboSubmit "p2" modestSelection comboTable)) = Some 3%nat.
Proof.
  assert (Hphase : phase comboTable = combo) by (vm_compute; reflexivity).
  assert (Hplayer : getPlayer "p2" comboTable = Some firstToSubmit)
    by (vm_compute; reflexivity).
  assert (Hin : inHand firstToSubmit = true) by (vm_compute; reflexivity).
  assert (Hfold : hasFolded firstToSubmit = false) by (vm_compute; reflexivity).
  assert (Hwaiting : "p2" ∈ awaitingCombo comboTable).
  { assert (Hdec : bool_decide ("p2" ∈ awaitingCombo comboTable) = true)
      by (vm_compute; reflexivity).
    by apply bool_decide_eq_true_1 in Hdec. }
  assert (Htruthy : truthy (seatIndex firstToSubmit) = true) by (vm_compute; reflexivity).
  assert (Hseat : seatIndex firstToSubmit = actingSeat comboTable)
    by (vm_compute; reflexivity).
  split; [|split].
  - apply (comboSubmit_turn "p2" greedySelection comboTable firstToSubmit Hphase Hplayer
             Hin Hfold Hwaiting Htruthy Hseat).
    vm_compute. reflexivity.
  - apply (comboSubmit_turn "p2" modestSelection comboTable firstToSubmit Hphase Hplayer
             Hin Hfold Hwaiting Htruthy Hseat).
    vm_compute. discriminate.
  - vm_compute. reflexivity.
Defined.

(** C6 fails in the engine.  The selection that a player has submitted is
    not locked.  At [swapped] two players have submitted the empty combo,
    which is what they have revealed, and are out of the waiting set; the
    first of them has then sent a selection of 57 with [comboUpdate].
    [comboSubmit] rejects that selection, which is above the Boss total of
    47, when it is submitted; here it has replaced the submitted one, and
    when the third player submits the empty combo the evaluation pays the
    pot of 30 to the player who sent it.  With the submitted selections
    the three players tie and a sudden-death round follows. *)
Theorem submitted_combo_is_not_locked :
  reachable swapped
  /\ phase swapped = combo
  /\ elements (awaitingCombo swapped) = ["p1"]
  /\ computeBossTotal swapped = 47
  /\ (fun p => (comboRevealed p, computeComboTotal p (comboSelection p)))
       <$> getPlayer "p2" swapped = Some (Some [], 57)
  /\ comboSubmit "p2" greedySelection comboTable
     = (comboTable, [EvError (Some "p2") "Combo exceeds Boss total"])
  /\ (exists result rest,
        snd (comboSubmit "p1" [] swapped) = EvResult result :: rest
        /\ winners result = [mkWinner "p2" "Left" 30])
  /\ phase (fst (comboSubmit "p1" [] swapped)) = waiting
  /\ phase allEmpty = oxtail.
Proof.
  split; [apply reachable_run; [vm_compute; reflexivity|apply reachable_new]|].
  do 5 (split; [vm_compute; reflexivity|]).
  split; [|split; vm_compute; reflexivity].
  destruct (snd (comboSubmit "p1" [] swapped)) as [|[s|pid st|result|pid msg] rest] eqn:Hev;
    try (exfalso; apply (f_equal (fun l => match l with
                                            | EvResult _ :: _ => true
                                            | _ => false
                                            end)) in Hev;
         vm_compute in Hev; discriminate).
  exists result, rest. split; [reflexivity|].
  apply (f_equal (fun l => match l with
                           | EvResult r :: _ => winners r
                           | _ => []
                           end)) in Hev.
  vm_compute in Hev. symmetry. exact Hev.
Qed.


(** ** The ranking of the combos *)

Lemma compareEvaluated_better a b : betterThan a b = true <-> compareEvaluated a b < 0.
Proof.
  unfold betterThan, compareEvaluated.
  destruct (ev_under a), (ev_under b);
    repeat (case_bool_decide; cbn [negb andb orb]); split; intros; try lia;
    try discriminate; try congruence.
Qed.

Lemma compareEvaluated_same a b :
  sameKeys a b = true <-> compareEvaluated a b = 0.
Proof.
  unfold sameKeys, compareEvaluated.
  destruct (ev_under a), (ev_under b);
    repeat (case_bool_decide; cbn [negb andb orb]); split; intros; try lia;
    try discriminate; try congruence.
Qed.

Lemma compareEvaluated_flip a b : compareEvaluated a b <= 0 <-> ~ compareEvaluated b a < 0.
Proof.
  unfold compareEvaluated.
  destruct (ev_under a), (ev_under b);
    repeat (case_bool_decide; cbn [negb andb orb]); split; intros; try lia;
    try discriminate; try congruence.
Qed.

Lemma compareEvaluated_trans a b c :
  compareEvaluated a b <= 0 -> compareEvaluated b c <= 0 -> compareEvaluated a c <= 0.
Proof.
  unfold compareEvaluated.
  destruct (ev_under a), (ev_under b), (ev_under c);
    repeat (case_bool_decide; cbn [negb andb orb]); intros; try lia;
    try discriminate; try congruence.
Qed.

Lemma compareEvaluated_zero_trans a b c :
  compareEvaluated a b = 0 -> compareEvaluated b c = 0 -> compareEvaluated a c = 0.
Proof.
  rewrite <- !compareEvaluated_same. unfold sameKeys.
  repeat (case_bool_decide; cbn [andb]); intros; try discriminate; try congruence.
Qed.

Lemma elem_of_insertEvaluated x y l : x ∈ insertEvaluated y l <-> x = y \/ x ∈ l.
Proof.
  induction l as [|z l IH]; cbn [insertEvaluated].
  - rewrite list_elem_of_singleton. split; [by left|]. intros [H|H]; [done|].
    by apply elem_of_nil in H.
  - case_bool_decide; rewrite !elem_of_cons; [tauto|]. rewrite IH. tauto.
Qed.

Lemma elem_of_sortEvaluated x l : x ∈ sortEvaluated l <-> x ∈ l.
Proof.
  unfold sortEvaluated. induction l as [|y l IH]; cbn [foldr]; [reflexivity|].
  rewrite elem_of_insertEvaluated, elem_of_cons, IH. tauto.
Qed.

(** Inserting moves an element past strictly better ones only, so the
    entries with the keys of [k] keep their order. *)
Lemma filter_insertEvaluated k x l :
  List.filter (sameKeys k) (insertEvaluated x l) = List.filter (sameKeys k) (x :: l).
Proof.
  induction l as [|y l IH]; [reflexivity|]. cbn [insertEvaluated].
  case_bool_decide as Hle; [reflexivity|].
  cbn [List.filter] in *. rewrite IH.
  destruct (sameKeys k x) eqn:Hx; [|reflexivity].
  destruct (sameKeys k y) eqn:Hy; [|reflexivity].
  exfalso. apply Hle. apply compareEvaluated_same in Hx, Hy.
  assert (Hkx : compareEvaluated x k = 0).
  { apply Z.le_antisymm.
    - apply compareEvaluated_flip. lia.
    - assert (~ compareEvaluated x k < 0); [|lia]. apply compareEvaluated_flip. lia. }
  pose proof (compareEvaluated_zero_trans x k y Hkx Hy). lia.
Qed.

Lemma filter_sortEvaluated k l :
  List.filter (sameKeys k) (sortEvaluated l) = List.filter (sameKeys k) l.
Proof.
  unfold sortEvaluated. induction l as [|x l IH]; [reflexivity|]. cbn [foldr].
  rewrite filter_insertEvaluated. cbn [List.filter]. by rewrite IH.
Qed.

Lemma head_insertEvaluated x l best rest :
  insertEvaluated x l = best :: rest ->
  (forall h t, l = h :: t -> forall y, y ∈ l -> compareEvaluated h y <= 0) ->
  forall y, y ∈ x :: l -> compareEvaluated best y <= 0.
Proof.
  destruct l as [|h t]; cbn [insertEvaluated].
  - intros [= <- <-] _ y Hy. apply list_elem_of_singleton in Hy as ->.
    assert (Hrefl : compareEvaluated x x = 0); [|lia].
    apply compareEvaluated_same. unfold sameKeys. by rewrite !bool_decide_eq_true_2.
  - intros Hins Hmin y Hy. specialize (Hmin h t eq_refl).
    assert (Hrefl : forall z, compareEvaluated z z <= 0).
    { intros z. assert (compareEvaluated z z = 0); [|lia].
      apply compareEvaluated_same. unfold sameKeys. by rewrite !bool_decide_eq_true_2. }
    case_bool_decide as Hle.
    + injection Hins as <- <-. apply elem_of_cons in Hy as [->|Hy]; [apply Hrefl|].
      eapply compareEvaluated_trans; [exact Hle|]. by apply Hmin.
    + injection Hins as <- <-. apply elem_of_cons in Hy as [->|Hy]; [|by apply Hmin].
      apply compareEvaluated_flip. intros Hlt. apply Hle. lia.
Qed.

(** The head of the sorted list is ranked at least as well as every entry. *)
Lemma head_sortEvaluated l best rest :
  sortEvaluated l = best :: rest -> forall y, y ∈ l -> compareEvaluated best y <= 0.
Proof.
  unfold sortEvaluated. revert best rest. induction l as [|x l IH]; intros best rest Hsort.
  - discriminate.
  - cbn [foldr] in Hsort. intros y Hy.
    apply (head_insertEvaluated x (foldr insertEvaluated [] l) best rest Hsort).
    + intros h t Hl z Hz. apply (IH h t Hl). by apply elem_of_sortEvaluated.
    + apply elem_of_cons in Hy as [->|Hy]; [by left|right].
      by apply elem_of_sortEvaluated.
Qed.

(** The entries that [evaluateCombos] keeps as ties are the best-ranked
    ones, in the order of the players. *)
Lemma ties_bestRanked l best rest :
  sortEvaluated l = best :: rest ->
  List.filter (sameKeys best) (sortEvaluated l) = bestRanked l.
Proof.
  intros Hsort. rewrite filter_sortEvaluated. unfold bestRanked.
  pose proof (head_sortEvaluated l best rest Hsort) as Hmin.
  assert (Hbest : best ∈ l).
  { apply elem_of_sortEvaluated. rewrite Hsort. by left. }
  apply List.filter_ext_in. intros x Hx. apply list_elem_of_In in Hx.
  destruct (forallb (fun y => negb (betterThan y x)) l) eqn:Hall.
  - apply compareEvaluated_same. rewrite forallb_forall in Hall.
    specialize (Hall best ltac:(by apply list_elem_of_In)). cbn beta in Hall.
    apply negb_true_iff in Hall.
    assert (Hnb : ~ compareEvaluated best x < 0).
    { intros Hlt. apply compareEvaluated_better in Hlt. congruence. }
    specialize (Hmin x Hx). lia.
  - destruct (sameKeys best x) eqn:Hsame; [|reflexivity]. exfalso.
    apply compareEvaluated_same in Hsame.
    assert (Hall' : forallb (fun y => negb (betterThan y x)) l = true); [|congruence].
    apply forallb_forall. intros y Hy. apply list_elem_of_In in Hy.
    apply negb_true_iff. destruct (betterThan y x) eqn:Hb; [|reflexivity]. exfalso.
    apply compareEvaluated_better in Hb. specialize (Hmin y Hy).
    assert (Hxb : compareEvaluated x best <= 0).
    { apply compareEvaluated_flip. lia. }
    assert (Hxy : compareEvaluated x y <= 0) by (by eapply compareEvaluated_trans).
    apply compareEvaluated_flip in Hxy. lia.
Qed.

(** ** Ties *)

Lemma filter_notFolded_active e :
  List.filter (fun p => negb (hasFolded p)) (activePlayers e) = activePlayers e.
Proof.
  unfold activePlayers. induction (players e) as [|p ps IH]; [reflexivity|].
  cbn [List.filter]. destruct (isActive p) eqn:Hact; [|exact IH].
  cbn [List.filter]. unfold isActive in Hact. apply andb_true_iff in Hact as [_ ->].
  by rewrite IH.
Qed.

Lemma length_sortEvaluated l : length (sortEvaluated l) = length l.
Proof.
  unfold sortEvaluated. induction l as [|x l IH]; [reflexivity|]. cbn [foldr length].
  rewrite <- IH. generalize (foldr insertEvaluated [] l). intros s.
  induction s as [|y s IHs]; [reflexivity|]. cbn [insertEvaluated].
  case_bool_decide; cbn [length]; [reflexivity|]. by rewrite IHs.
Qed.

Lemma evaluateCombos_tied e :
  (1 < length (bestRanked (map (evaluatePlayer e) (activePlayers e))))%nat ->
  evaluateCombos e
  = if bool_decide (length (deck e) = 0%nat)
    then splitPot (map ev_player (bestRanked (map (evaluatePlayer e) (activePlayers e)))) e
    else startOxtail e.
Proof.
  intros Hties. rewrite evaluateCombos_eq. unfold evaluateCombosWith.
  rewrite filter_notFolded_active.
  destruct (sortEvaluated (map (evaluatePlayer e) (activePlayers e)))
    as [|best rest] eqn:Hsort.
  - exfalso. apply (f_equal length) in Hsort. rewrite length_sortEvaluated in Hsort.
    destruct (map (evaluatePlayer e) (activePlayers e)); [|discriminate].
    cbn in Hties. lia.
  - rewrite <- Hsort. rewrite (ties_bestRanked _ best rest Hsort).
    rewrite bool_decide_eq_false_2.
    + by rewrite (bool_decide_eq_true_2 _ Hties).
    + intros Hlen. destruct (activePlayers e); [|discriminate]. cbn in Hties. lia.
Qed.

Lemma evaluateCombos_single e best :
  bestRanked (map (evaluatePlayer e) (activePlayers e)) = [best] ->
  evaluateCombos e = awardPot (ev_player best) e.
Proof.
  intros Hone. rewrite evaluateCombos_eq. unfold evaluateCombosWith.
  rewrite filter_notFolded_active.
  destruct (sortEvaluated (map (evaluatePlayer e) (activePlayers e)))
    as [|first rest] eqn:Hsort.
  - exfalso. apply (f_equal length) in Hsort. rewrite length_sortEvaluated in Hsort.
    destruct (map (evaluatePlayer e) (activePlayers e)); discriminate.
  - pose proof (ties_bestRanked _ first rest Hsort) as Hties. rewrite Hone in Hties.
    rewrite <- Hsort, Hties.
    assert (Hfirst : first = best).
    { assert (Hin : first ∈ List.filter (sameKeys first)
                                (sortEvaluated (map (evaluatePlayer e) (activePlayers e)))).
      { apply list_elem_of_In, List.filter_In. split.
        - apply list_elem_of_In. rewrite Hsort. by left.
        - unfold sameKeys. by rewrite !bool_decide_eq_true_2. }
      rewrite Hties in Hin. by apply list_elem_of_singleton in Hin. }
    subst first. rewrite bool_decide_eq_false_2.
    + rewrite bool_decide_eq_false_2; [reflexivity|]. cbn. lia.
    + intros Hlen. apply (f_equal length) in Hsort.
      rewrite length_sortEvaluated, length_map, Hlen in Hsort. discriminate.
Qed.

Lemma phase_rotateDealer e : phase (rotateDealer e) = phase e.
Proof. unfold rotateDealer. by repeat case_match. Qed.

Lemma phase_forAllPlayers f e : phase (forAllPlayers f e) = phase e.
Proof. reflexivity. Qed.

Lemma players_forAllPlayers f e : players (forAllPlayers f e) = map f (players e).
Proof. reflexivity. Qed.

Lemma fst_modify f e : fst (modify f e) = f e.
Proof. reflexivity. Qed.

Lemma phase_endHand e : phase (fst (endHand e)) = waiting.
Proof.
  unfold endHand. rewrite fst_andThen, fst_broadcast, fst_modify.
  rewrite phase_forAllPlayers, phase_rotateDealer. reflexivity.
Qed.

Lemma idStack_rotateDealer e :
  map idStack (players (rotateDealer e)) = map idStack (players e).
Proof.
  unfold rotateDealer, forAllPlayers. repeat case_match; try reflexivity.
  engine_fields. by rewrite map_map.
Qed.

Lemma idStack_endHand e : map idStack (players (fst (endHand e))) = map idStack (players e).
Proof.
  unfold endHand. rewrite fst_andThen, fst_broadcast, fst_modify.
  rewrite players_forAllPlayers, map_map.
  etransitivity; [apply map_ext; intros p; reflexivity|].
  fold idStack. rewrite idStack_rotateDealer. reflexivity.
Qed.

Lemma stack_getPlayer_idStack pid e e' :
  map idStack (players e') = map idStack (players e) ->
  stack <$> getPlayer pid e' = stack <$> getPlayer pid e.
Proof.
  unfold getPlayer. generalize (players e') (players e). clear.
  intros ps. induction ps as [|p ps IH]; intros [|q qs] Heq; try discriminate.
  - reflexivity.
  - cbn [map] in Heq. unfold idStack at 1 3 in Heq. injection Heq as Hid Hst Hrest.
    cbn [List.find]. rewrite Hid. case_bool_decide; [|by apply IH].
    cbn [fmap option_fmap option_map]. by rewrite Hst.
Qed.

Lemma stack_paid award ws e pid :
  stack
    <$> getPlayer pid
          (foldl (fun e' r =>
                    updatePlayer (playerId r) (fun p => set_stack (stack p + award) p) e')
             e ws)
  = (fun s =>
       s + award
           * Z.of_nat (length (List.filter (fun r => bool_decide (playerId r = pid)) ws)))
      <$> (stack <$> getPlayer pid e).
Proof.
  revert e. induction ws as [|w ws IH]; intros e.
  - cbn [foldl List.filter length]. destruct (getPlayer pid e); cbn; [f_equal; lia|done].
  - cbn [foldl List.filter]. rewrite IH. case_bool_decide as Hw.
    + subst pid. rewrite getPlayer_updatePlayer by reflexivity.
      destruct (getPlayer (playerId w) e); cbn; [f_equal; lia|done].
    + by rewrite getPlayer_updatePlayer_ne.
Qed.

Lemma getPlayer_of_elem e w :
  NoDup (map playerId (players e)) -> w ∈ players e -> getPlayer (playerId w) e = Some w.
Proof.
  intros Hnd Hw. destruct (getPlayer (playerId w) e) as [p|] eqn:Hp.
  - f_equal. symmetry. by apply (getPlayer_unique (playerId w) e p w).
  - exfalso. apply (getPlayer_None_fresh _ _ Hp). apply list_elem_of_fmap. by exists w.
Qed.

Lemma NoDup_ids_filter (P : EnginePlayer -> bool) ps :
  NoDup (map playerId ps) -> NoDup (map playerId (List.filter P ps)).
Proof.
  induction ps as [|p ps IH]; [done|]. cbn [map List.filter]. intros Hnd.
  apply NoDup_cons in Hnd as [Hfresh Hnd]. destruct (P p); [|by apply IH].
  cbn [map]. apply NoDup_cons. split; [|by apply IH].
  intros Hin. apply Hfresh. apply list_elem_of_fmap in Hin as [q [-> Hq]].
  apply list_elem_of_fmap. exists q. split; [reflexivity|].
  apply list_elem_of_In in Hq. apply List.filter_In in Hq as [Hq _].
  by apply list_elem_of_In.
Qed.

Lemma players_bestRanked e :
  map ev_player (bestRanked (map (evaluatePlayer e) (activePlayers e)))
  = List.filter
      (fun p =>
         forallb (fun y => negb (betterThan y (evaluatePlayer e p)))
           (map (evaluatePlayer e) (activePlayers e)))
      (activePlayers e).
Proof.
  unfold bestRanked. generalize (map (evaluatePlayer e) (activePlayers e)) at 1 3.
  intros all. induction (activePlayers e) as [|p ps IH]; [reflexivity|].
  cbn [map List.filter]. case_match; cbn [map]; by rewrite IH.
Qed.

Lemma filter_none {A} (f : A -> bool) (l : list A) :
  (forall x, x ∈ l -> f x = false) -> List.filter f l = [].
Proof.
  induction l as [|x l IH]; intros Hf; [reflexivity|]. cbn [List.filter].
  rewrite (Hf x) by (by left). apply IH. intros y Hy. apply Hf. by right.
Qed.

Lemma count_id_once (l : list EnginePlayer) w :
  NoDup (map playerId l) -> w ∈ l ->
  length (List.filter (fun r => bool_decide (playerId r = playerId w)) l) = 1%nat.
Proof.
  induction l as [|r l IH]; intros Hnd Hw; [by apply elem_of_nil in Hw|].
  cbn [map] in Hnd. apply NoDup_cons in Hnd as [Hfresh Hnd]. cbn [List.filter].
  apply elem_of_cons in Hw as [->|Hw].
  - rewrite bool_decide_eq_true_2 by done. cbn [length]. f_equal.
    rewrite filter_none; [reflexivity|]. intros q Hq. apply bool_decide_eq_false_2.
    intros Hid. apply Hfresh. rewrite <- Hid. apply list_elem_of_fmap.
    exists q. split; [reflexivity|exact Hq].
  - rewrite bool_decide_eq_false_2; [by apply IH|].
    intros Hid. apply Hfresh. rewrite Hid. apply list_elem_of_fmap. by exists w.
Qed.

Lemma getPlayerBySeat_ext seat e e' :
  players e' = players e -> seats e' = seats e ->
  getPlayerBySeat seat e' = getPlayerBySeat seat e.
Proof.
  intros Hp Hs. unfold getPlayerBySeat, seatOccupant, getPlayer. by rewrite Hp, Hs.
Qed.

Lemma scanSeats_ext predicate n seat e e' :
  players e' = players e -> seats e' = seats e ->
  scanSeats predicate n seat e' = scanSeats predicate n seat e.
Proof.
  intros Hp Hs. revert seat. induction n as [|n IH]; intros seat; [reflexivity|].
  cbn [scanSeats]. rewrite (getPlayerBySeat_ext seat e e' Hp Hs). by rewrite IH.
Qed.

Lemma findNextActingSeat_ext start includeStart e e' :
  players e' = players e -> seats e' = seats e ->
  findNextActingSeat start includeStart e' = findNextActingSeat start includeStart e.
Proof.
  intros Hp Hs. unfold findNextActingSeat, findSeatInDirection.
  destruct start as [[|k]|]; try reflexivity. by apply scanSeats_ext.
Qed.

Lemma scanSeats_truthy predicate n seat e found :
  scanSeats predicate n seat e = Some found -> (1 <= seat)%nat -> truthy (Some found) = true.
Proof.
  revert seat. induction n as [|n IH]; intros seat Hscan Hpos; [discriminate|].
  cbn [scanSeats] in Hscan. destruct (predicate (getPlayerBySeat seat e)).
  - injection Hscan as <-. destruct seat; [lia|reflexivity].
  - apply (IH _ Hscan). unfold getNextSeatIndex. lia.
Qed.

Lemma findSeatInDirection_truthy start predicate includeStart e found :
  findSeatInDirection start predicate includeStart e = Some found ->
  truthy (Some found) = true.
Proof.
  unfold findSeatInDirection. destruct start as [[|k]|]; try discriminate.
  intros Hscan. apply (scanSeats_truthy _ _ _ _ _ Hscan).
  destruct includeStart; unfold getNextSeatIndex; lia.
Qed.

Lemma startOxtail_drawn e card rest :
  deck e = card :: rest ->
  startOxtail e = startBettingRound (smallBlindSeat e) (oxtailDrawn card rest e).
Proof.
  intros Hdeck. unfold startOxtail, startOxtailK, drawCards, oxtailDrawn.
  engine_fields. rewrite Hdeck. reflexivity.
Qed.

Lemma startBettingRound_found ref e seat :
  findNextActingSeat
    (match ref with Some s => Some s | None => anchorSeat e end) true e = Some seat ->
  startBettingRound ref e
  = (updateActionMessage (set_actingSeat (Some seat) (set_actedThisRound ∅ e)), []).
Proof.
  intros Hfind. unfold startBettingRound, startBettingRoundK.
  change (match ref with
          | Some s => Some s
          | None =>
              match smallBlindSeat e with
              | Some s => Some s
              | None => Some (getSeatLeftOfDealer e)
              end
          end) with (match ref with Some s => Some s | None => anchorSeat e end).
  rewrite (findNextActingSeat_ext _ true e (set_actedThisRound ∅ e)) by reflexivity.
  rewrite Hfind. engine_fields.
  by rewrite (findSeatInDirection_truthy _ _ _ _ _ Hfind).
Qed.

Lemma activePlayers_same (h : EnginePlayer -> EnginePlayer) ps :
  (forall p, isActive (h p) = isActive p) ->
  List.filter isActive (map h ps) = map h (List.filter isActive ps).
Proof.
  intros Hact. induction ps as [|p ps IH]; [reflexivity|].
  cbn [map List.filter]. rewrite Hact, IH. by destruct (isActive p).
Qed.

Lemma startBettingRound_nobody ref e :
  findNextActingSeat
    (match ref with Some s => Some s | None => anchorSeat e end) true e = None ->
  startBettingRound ref e
  = finishBettingRound (set_actingSeat None (set_actedThisRound ∅ e)).
Proof.
  intros Hfind. unfold startBettingRound, startBettingRoundK.
  change (match ref with
          | Some s => Some s
          | None =>
              match smallBlindSeat e with
              | Some s => Some s
              | None => Some (getSeatLeftOfDealer e)
              end
          end) with (match ref with Some s => Some s | None => anchorSeat e end).
  rewrite (findNextActingSeat_ext _ true e (set_actedThisRound ∅ e)) by reflexivity.
  rewrite Hfind. reflexivity.
Qed.

(** C8, as the engine has it.  When more than one player is best-ranked
    under the three ordered keys: with an empty deck each of them receives
    [totalPot], the sum of the commitments of all players and so the pot
    and the side pot together, divided by their number and rounded down,
    and the hand ends; with cards left in the deck the phase is set to
    [oxtail], one more Boss card is drawn and revealed, and a betting
    round is started from the small-blind seat.  The first player from
    that seat who can act gets the turn; when nobody can act, the round is
    over at once: its figures are reset and the combo phase is entered
    again. *)
Theorem tie_resolution e :
  let tied := map ev_player (bestRanked (map (evaluatePlayer e) (activePlayers e))) in
  (1 < length tied)%nat ->
  (deck e = [] ->
   let award := totalPot e / Z.of_nat (length tied) in
   totalPot e = sumTotalBets e
   /\ (pot e + sidePot e = sumTotalBets e -> totalPot e = pot e + sidePot e)
   /\ evaluateCombos e = splitPot tied e
   /\ phase (fst (evaluateCombos e)) = waiting
   /\ (exists result rest,
          snd (evaluateCombos e) = EvResult result :: rest
          /\ winners result
             = map (fun w => mkWinner (playerId w) (username w) award) tied)
   /\ (NoDup (map playerId (players e)) ->
       forall w, w ∈ tied ->
         stack <$> getPlayer (playerId w) (fst (evaluateCombos e))
         = Some (stack w + award)))
  /\ (forall card rest,
        deck e = card :: rest ->
        let e4 := oxtailDrawn card rest e in
        evaluateCombos e = startBettingRound (smallBlindSeat e) e4
        /\ phase e4 = oxtail
        /\ bossRevealedCount e4 = (bossRevealedCount e + 1)%nat
        /\ bossCards e4 = bossCards e ++ [card]
        /\ deck e4 = rest
        /\ (forall seat,
              findNextActingSeat (anchorSeat e) true e = Some seat ->
              evaluateCombos e
              = (updateActionMessage
                   (set_actingSeat (Some seat) (set_actedThisRound ∅ e4)), []))
        /\ (findNextActingSeat (anchorSeat e) true e = None ->
            evaluateCombos e
            = enterComboPhase true
                (resetRound (set_actingSeat None (set_actedThisRound ∅ e4))))).
Proof.
  intros tied Htied.
  assert (Heval : evaluateCombos e
            = if bool_decide (length (deck e) = 0%nat) then splitPot tied e
              else startOxtail e).
  { apply evaluateCombos_tied. subst tied. by rewrite length_map in Htied. }
  assert (Hsub : tied = List.filter
                          (fun p =>
                             forallb (fun y => negb (betterThan y (evaluatePlayer e p)))
                               (map (evaluatePlayer e) (activePlayers e)))
                          (activePlayers e)) by apply players_bestRanked.
  split.
  - intros Hdeck award. rewrite Heval, Hdeck. cbn [length].
    rewrite bool_decide_eq_true_2 by done.
    split; [apply totalPot_sum|].
    split; [intros Hpot; rewrite Hpot; apply totalPot_sum|].
    split; [reflexivity|]. unfold splitPot. fold award.
    set (text := "Split pot among " +:+ string_of_nat (length tied) +:+ " players").
    split; [|split].
    + rewrite fst_andThen. apply phase_endHand.
    + rewrite snd_andThen. unfold payAndReport at 1. cbn [snd app].
      eexists _, _. split; reflexivity.
    + intros Hnd w Hw. rewrite fst_andThen.
      rewrite (stack_getPlayer_idStack _ _ _ (idStack_endHand _)).
      unfold payAndReport. cbn [fst].
      match goal with
      | |- context [getPlayer ?pid (set_lastResult ?r ?x)] =>
          rewrite (getPlayer_players pid x (set_lastResult r x) eq_refl)
      end.
      rewrite stack_paid.
      assert (Hw' : w ∈ players e).
      { rewrite Hsub in Hw. apply list_elem_of_In, List.filter_In in Hw as [Hw _].
        apply list_elem_of_In in Hw. by apply elem_of_activePlayers in Hw as [Hw _]. }
      rewrite (getPlayer_of_elem e w Hnd Hw'). rewrite count_id_once; [|..|exact Hw].
      * cbn. f_equal. lia.
      * rewrite Hsub. unfold activePlayers. by do 2 apply NoDup_ids_filter.
  - intros card rest Hdeck e4. rewrite Heval, Hdeck. cbn [length].
    rewrite bool_decide_eq_false_2 by done.
    rewrite (startOxtail_drawn e card rest Hdeck). fold e4.
    split; [reflexivity|]. split; [reflexivity|]. split; [reflexivity|].
    split; [reflexivity|]. split; [reflexivity|].
    assert (Hanchor : match smallBlindSeat e with
                      | Some s => Some s
                      | None => anchorSeat e4
                      end = anchorSeat e).
    { unfold anchorSeat. change (smallBlindSeat e4) with (smallBlindSeat e).
      by destruct (smallBlindSeat e). }
    split.
    + intros seat Hseat. apply startBettingRound_found.
      rewrite (findNextActingSeat_ext _ true e e4) by reflexivity.
      by rewrite Hanchor.
    + intros Hnone. rewrite startBettingRound_nobody.
      * rewrite finishBettingRound_advance.
        set (e5 := resetRound (set_actingSeat None (set_actedThisRound ∅ e4))).
        unfold advancePhase.
        assert (Hactive : activePlayers e5 = map (set_betThisRound 0) (activePlayers e)).
        { unfold activePlayers, e5, resetRound, forAllPlayers. engine_fields.
          by apply activePlayers_same. }
        rewrite Hactive, length_map. rewrite bool_decide_eq_false_2; [reflexivity|].
        pose proof (List.filter_length_le
                      (fun p =>
                         forallb (fun y => negb (betterThan y (evaluatePlayer e p)))
                           (map (evaluatePlayer e) (activePlayers e)))
                      (activePlayers e)) as Hle.
        rewrite <- Hsub in Hle. lia.
      * rewrite (findNextActingSeat_ext _ true e e4) by reflexivity.
        by rewrite Hanchor.
Qed.

Lemma tie_resolution_witness :
  (pot sideTie = 990 /\ sidePot sideTie = 5
   /\ phase (fst (evaluateCombos sideTie)) = waiting
   /\ stack <$> getPlayer "a" (fst (evaluateCombos sideTie)) = Some 497)
  /\ (exists card rest,
         deck firstTie = card :: rest
         /\ evaluateCombos firstTie
            = startBettingRound (smallBlindSeat firstTie) (oxtailDrawn card rest firstTie)
         /\ evaluateCombos firstTie
            = enterComboPhase true
                (resetRound
                   (set_actingSeat None
                      (set_actedThisRound ∅ (oxtailDrawn card rest firstTie))))).
Proof.
  split.
  - assert (Hlen : (1 < length (map ev_player
                                   (bestRanked (map (evaluatePlayer sideTie)
                                                  (activePlayers sideTie)))))%nat).
    { vm_compute. lia. }
    destruct (tie_resolution sideTie Hlen) as [Hsplit _].
    destruct Hsplit as (_ & _ & _ & Hphase & _ & Hstack); [vm_compute; reflexivity|].
    split; [vm_compute; reflexivity|]. split; [vm_compute; reflexivity|].
    split; [exact Hphase|].
    assert (Hnd : NoDup (map playerId (players sideTie))).
    { assert (Hdec : bool_decide (NoDup (map playerId (players sideTie))) = true)
        by (vm_compute; reflexivity).
      by apply bool_decide_eq_true_1 in Hdec. }
    specialize (Hstack Hnd (default courtHolder (getPlayer "a" sideTie))).
    etransitivity; [apply Hstack|].
    + vm_compute. apply list_elem_of_here.
    + vm_compute. reflexivity.
  - assert (Hlen : (1 < length (map ev_player
                                   (bestRanked (map (evaluatePlayer firstTie)
                                                  (activePlayers firstTie)))))%nat).
    { vm_compute. lia. }
    destruct (tie_resolution firstTie Hlen) as [_ Hoxtail].
    destruct (deck firstTie) as [|card rest] eqn:Hdeck.
    + exfalso. apply (f_equal length) in Hdeck. vm_compute in Hdeck. discriminate.
    + exists card, rest. split; [reflexivity|].
      destruct (Hoxtail card rest eq_refl) as (Hstart & _ & _ & _ & _ & _ & Hnobody).
      split; [exact Hstart|]. apply Hnobody. vm_compute. reflexivity.
Defined.

(** C8, as stated, fails.  At [sideTie] the deck is empty, the pot is 990
    and the side pot 5; when the second player submits the empty combo the
    two players tie and each is paid 497, half of the pot and the side pot
    together, where half of the pot is 495.  At [firstTie], where cards
    are left and both players are all-in, the tie leaves the engine in the
    phase [combo]: the betting round of the sudden death has nobody to act
    and is over within the same call. *)
Lemma split_counts_the_side_pot :
  reachable sideTie
  /\ deck sideTie = []
  /\ pot sideTie = 990
  /\ sidePot sideTie = 5
  /\ (exists result rest,
        snd (comboSubmit "a" [] sideTie) = EvResult result :: rest
        /\ winners result = [mkWinner "a" "Ann" 497; mkWinner "b" "Bob" 497])
  /\ pot sideTie / 2 = 495
  /\ reachable firstTie
  /\ deck firstTie <> []
  /\ phase (fst (comboSubmit "b" [] firstTie)) = combo
  /\ bossRevealedCount (fst (comboSubmit "b" [] firstTie))
     = (bossRevealedCount firstTie + 1)%nat.
Proof.
  split; [apply reachable_run; [vm_compute; reflexivity|apply reachable_new]|].
  do 3 (split; [vm_compute; reflexivity|]).
  split.
  { destruct (snd (comboSubmit "a" [] sideTie)) as [|[s|pid st|result|pid msg] rest] eqn:Hev;
      try (exfalso; apply (f_equal (fun l => match l with
                                              | EvResult _ :: _ => true
                                              | _ => false
                                              end)) in Hev;
           vm_compute in Hev; discriminate).
    exists result, rest. split; [reflexivity|].
    apply (f_equal (fun l => match l with
                             | EvResult r :: _ => winners r
                             | _ => []
                             end)) in Hev.
    vm_compute in Hev. symmetry. exact Hev. }
  split; [vm_compute; reflexivity|].
  split; [apply reachable_run; [vm_compute; reflexivity|apply reachable_new]|].
  split; [vm_compute; discriminate|].
  split; vm_compute; reflexivity.
Qed.

(** ** The revealed Boss cards *)

Lemma sameBoss_refl e : sameBoss e e.
Proof. by split. Qed.

Lemma sameBoss_trans e1 e2 e3 : sameBoss e1 e2 -> sameBoss e2 e3 -> sameBoss e1 e3.
Proof. unfold sameBoss. intros (?&?&?) (?&?&?). repeat split; congruence. Qed.

Lemma bossBound_same e e' : sameBoss e e' -> bossBound e -> bossBound e'.
Proof. unfold sameBoss, bossBound. intros (-> & -> & ->). done. Qed.

Ltac boss_fields := split; [|split]; engine_fields; reflexivity.

Lemma sameBoss_updatePlayer pid f e : sameBoss e (updatePlayer pid f e).
Proof. boss_fields. Qed.

Lemma sameBoss_forAllPlayers f e : sameBoss e (forAllPlayers f e).
Proof. boss_fields. Qed.

Lemma sameBoss_updateActionMessage e : sameBoss e (updateActionMessage e).
Proof. destruct (updateActionMessage_message e) as [m ->]. boss_fields. Qed.

Lemma sameBoss_setNextComboActor i e : sameBoss e (snd (setNextComboActor i e)).
Proof. destruct (setNextComboActor_fields i e) as (idx & seat & m & ->). boss_fields. Qed.

Lemma sameBoss_awaitCombo ox active e : sameBoss e (foldl (awaitCombo ox) e active).
Proof. destruct (comboEntryLoop_fields ox active e) as (ps & w & ->). boss_fields. Qed.

Lemma sameBoss_updateSidePotValues e : sameBoss e (updateSidePotValues e).
Proof. unfold updateSidePotValues. case_match; boss_fields. Qed.

Lemma sameBoss_commitAmount pid amount e : sameBoss e (commitAmount pid amount e).
Proof.
  unfold commitAmount. eapply sameBoss_trans; [|apply sameBoss_updateSidePotValues].
  boss_fields.
Qed.

Lemma sameBoss_callContribution p e : sameBoss e (callContribution p e).
Proof.
  unfold callContribution. case_bool_decide; [apply sameBoss_refl|].
  apply sameBoss_commitAmount.
Qed.

Lemma sameBoss_raiseBy p amount' e e' : raiseBy p amount' e = inl e' -> sameBoss e e'.
Proof.
  unfold raiseBy. repeat (case_match; try discriminate). intros [= <-].
  eapply sameBoss_trans; [apply sameBoss_commitAmount|]. boss_fields.
Qed.

Lemma sameBoss_markSeatActed seat reset e : sameBoss e (markSeatActed seat reset e).
Proof. unfold markSeatActed. repeat case_match; boss_fields. Qed.

Lemma bossBound_endHand e : bossBound (fst (endHand e)).
Proof.
  unfold endHand. rewrite fst_andThen, fst_broadcast, fst_modify.
  eapply bossBound_same; [apply sameBoss_forAllPlayers|].
  unfold bossBound. rewrite phase_rotateDealer. engine_fields.
  unfold rotateDealer. by repeat case_match.
Qed.

Lemma bossBound_ends (p : Proc) e : bossBound (fst ((p ;> endHand) e)).
Proof. rewrite fst_andThen. apply bossBound_endHand. Qed.

Lemma bossBound_resolveHandByFold e : bossBound (fst (resolveHandByFold e)).
Proof.
  unfold resolveHandByFold. destruct (activePlayers e);
    [apply bossBound_endHand|apply bossBound_ends].
Qed.

Lemma bossBound_startBettingRoundK fin ref :
  (forall e, bossBound e -> bossBound (fst (fin e))) ->
  forall e, bossBound e -> bossBound (fst (startBettingRoundK fin ref e)).
Proof.
  intros Hfin e He. unfold startBettingRoundK. case_match.
  - apply Hfin. eapply bossBound_same; [|exact He]. boss_fields.
  - cbn [fst]. eapply bossBound_same; [|exact He].
    eapply sameBoss_trans; [|apply sameBoss_updateActionMessage]. boss_fields.
Qed.

Lemma bossBound_finishBettingRoundK start enter :
  (forall ref e, bossBound e -> bossBound (fst (start ref e))) ->
  (forall ox e, bossBound e -> phase e = stomp \/ phase e = oxtail ->
                bossBound (fst (enter ox e))) ->
  forall e, bossBound e -> bossBound (fst (finishBettingRoundK start enter e)).
Proof.
  intros Hstart Henter e He. unfold finishBettingRoundK.
  assert (Hreset : sameBoss e (resetRound e)) by boss_fields.
  fold (resetRound e). revert Hreset. generalize (resetRound e). intros e1 (Hph & Hcount & Hdeck).
  case_match; [apply bossBound_resolveHandByFold|].
  assert (H1 : bossBound e1) by (by apply (bossBound_same e); [split|]).
  destruct (phase e1) eqn:Hph1; try (cbn [fst]; exact H1).
  - apply Hstart. unfold bossBound in *. engine_fields. rewrite Hph1 in H1. lia.
  - apply Hstart. unfold bossBound in *. engine_fields. rewrite Hph1 in H1. lia.
  - apply Henter; [exact H1|by left].
  - apply Henter; [exact H1|by right].
Qed.

Lemma bossBound_finishBettingRoundN enter n :
  (forall ox e, bossBound e -> phase e = stomp \/ phase e = oxtail ->
                bossBound (fst (enter ox e))) ->
  forall e, bossBound e -> bossBound (fst (finishBettingRoundN enter n e)).
Proof.
  intros Henter. induction n as [|n IH].
  - rewrite finishBettingRoundN_O. apply bossBound_finishBettingRoundK; [|exact Henter].
    intros ref. apply bossBound_startBettingRoundK. intros e He. exact He.
  - rewrite finishBettingRoundN_S. apply bossBound_finishBettingRoundK; [|exact Henter].
    intros ref. by apply bossBound_startBettingRoundK.
Qed.

Lemma bossBound_enterComboPhaseK ev ox :
  (forall e, bossBound e -> phase e = combo -> bossBound (fst (ev e))) ->
  forall e, bossBound e -> phase e = stomp \/ phase e = oxtail ->
            bossBound (fst (enterComboPhaseK ev ox e)).
Proof.
  intros Hev e He Hph. unfold enterComboPhaseK.
  assert (H1 : bossBound (set_awaitingCombo ∅ (set_phase combo e))
               /\ phase (set_awaitingCombo ∅ (set_phase combo e)) = combo).
  { split; [|reflexivity]. unfold bossBound in *. engine_fields.
    destruct Hph as [Hph|Hph]; rewrite Hph in He; lia. }
  revert H1. generalize (set_awaitingCombo ∅ (set_phase combo e)). intros e1 [H1 Hph1].
  pose proof (sameBoss_awaitCombo ox (activePlayers e1) e1) as Hloop.
  revert Hloop. generalize (foldl (awaitCombo ox) e1 (activePlayers e1)).
  intros e2 Hloop.
  assert (H3 : sameBoss e1 (set_comboIndex 0 (set_comboQueue (buildComboOrder e2) e2))).
  { eapply sameBoss_trans; [exact Hloop|]. boss_fields. }
  revert H3. generalize (set_comboIndex 0 (set_comboQueue (buildComboOrder e2) e2)).
  intros e3 H3. case_bool_decide.
  - assert (H4 : sameBoss e1 (updateActionMessage (set_actingSeat None e3))).
    { eapply sameBoss_trans; [exact H3|].
      eapply sameBoss_trans; [|apply sameBoss_updateActionMessage]. boss_fields. }
    apply Hev; [by eapply bossBound_same|]. destruct H4 as [-> _]. exact Hph1.
  - pose proof (sameBoss_setNextComboActor 0 e3) as Hnext.
    destruct (setNextComboActor 0 e3) as [found e4]. cbn [snd] in Hnext.
    assert (H4 : sameBoss e1 e4) by (by eapply sameBoss_trans).
    destruct found; cbn [negb].
    + rewrite fst_broadcast. by eapply bossBound_same.
    + apply Hev; [by eapply bossBound_same|]. destruct H4 as [-> _]. exact Hph1.
Qed.

Lemma bossBound_startOxtailK start :
  (forall ref e, bossBound e -> bossBound (fst (start ref e))) ->
  forall e, bossBound e -> phase e = combo -> deck e <> [] ->
            bossBound (fst (startOxtailK start e)).
Proof.
  intros Hstart e He Hph Hdeck. unfold startOxtailK, drawCards. apply Hstart.
  unfold bossBound in *. engine_fields. rewrite Hph in He.
  destruct (deck e) as [|card rest]; [done|]. cbn [drop length] in *.
  rewrite drop_0. lia.
Qed.

Lemma bossBound_evaluateCombosWith so :
  (forall e, bossBound e -> phase e = combo -> deck e <> [] -> bossBound (fst (so e))) ->
  forall e, bossBound e -> phase e = combo -> bossBound (fst (evaluateCombosWith so e)).
Proof.
  intros Hso e He Hph. unfold evaluateCombosWith.
  case_bool_decide; [apply bossBound_resolveHandByFold|].
  destruct (sortEvaluated _) as [|best rest]; [exact He|].
  case_bool_decide; [|apply bossBound_ends].
  case_bool_decide as Hdeck; [apply bossBound_ends|].
  apply Hso; try done. intros Hnil. apply Hdeck. by rewrite Hnil.
Qed.

Lemma bossBound_evaluateCombosN n e :
  bossBound e -> phase e = combo -> bossBound (fst (evaluateCombosN n e)).
Proof.
  revert e. induction n as [|n IH]; intros e; rewrite evaluateCombosN_unfold.
  - apply bossBound_evaluateCombosWith. apply bossBound_startOxtailK. intros ref.
    apply bossBound_startBettingRoundK, bossBound_finishBettingRoundN. intros ox.
    apply bossBound_enterComboPhaseK. intros e' He' _. exact He'.
  - apply bossBound_evaluateCombosWith. apply bossBound_startOxtailK. intros ref.
    apply bossBound_startBettingRoundK, bossBound_finishBettingRoundN. intros ox.
    apply bossBound_enterComboPhaseK. exact IH.
Qed.

Lemma bossBound_evaluateCombos e :
  bossBound e -> phase e = combo -> bossBound (fst (evaluateCombos e)).
Proof. apply bossBound_evaluateCombosN. Qed.

Lemma bossBound_finishBettingRound e : bossBound e -> bossBound (fst (finishBettingRound e)).
Proof.
  apply bossBound_finishBettingRoundN. intros ox.
  apply bossBound_enterComboPhaseK. exact bossBound_evaluateCombos.
Qed.

Lemma bossBound_startBettingRound ref e :
  bossBound e -> bossBound (fst (startBettingRound ref e)).
Proof. apply bossBound_startBettingRoundK. exact bossBound_finishBettingRound. Qed.

Lemma bossBound_advanceTurn e : bossBound e -> bossBound (fst (advanceTurn e)).
Proof.
  intros He. unfold advanceTurn. case_match; [exact He|].
  case_match; [by apply bossBound_finishBettingRound|]. case_match.
  - apply bossBound_finishBettingRound. eapply bossBound_same; [|exact He]. boss_fields.
  - cbn [fst]. eapply bossBound_same; [|exact He].
    eapply sameBoss_trans; [|apply sameBoss_updateActionMessage]. boss_fields.
Qed.

Lemma length_swapCards i j d : length (swapCards i j d) = length d.
Proof. unfold swapCards. repeat case_match; by rewrite ?length_insert. Qed.

Lemma length_shuffleFrom random i d : length (shuffleFrom random i d) = length d.
Proof.
  revert d. induction i as [|i IH]; intros d; [reflexivity|].
  cbn [shuffleFrom]. by rewrite IH, length_swapCards.
Qed.

Lemma length_orderedDeck : length orderedDeck = 52%nat.
Proof. vm_compute. reflexivity. Qed.

Lemma length_buildDeck random : length (buildDeck random) = 52%nat.
Proof.
  unfold buildDeck. by rewrite length_reverse, length_shuffleFrom, length_orderedDeck.
Qed.

Lemma dealHands_boss rs e :
  phase (dealHands rs e) = phase e
  /\ bossRevealedCount (dealHands rs e) = bossRevealedCount e
  /\ length (deck (dealHands rs e)) = (length (deck e) - 7 * length rs)%nat.
Proof.
  unfold dealHands. revert e. induction rs as [|r rs IH]; intros e.
  - cbn [foldl length]. repeat split. lia.
  - cbn [foldl length].
    match goal with |- context [foldl ?f ?x rs] => destruct (IH x) as (-> & -> & ->) end.
    unfold drawCards.
    match goal with
    | |- context [updatePlayer ?i ?f ?x] =>
        destruct (sameBoss_updatePlayer i f x) as (-> & -> & ->)
    end.
    engine_fields. rewrite length_drop. repeat split. lia.
Qed.

Lemma sameBoss_postBlind poster blind flag e : sameBoss e (postBlind poster blind flag e).
Proof.
  unfold postBlind. destruct poster as [p|]; [|apply sameBoss_refl].
  eapply sameBoss_trans; [|boss_fields].
  eapply sameBoss_trans; [|apply sameBoss_updatePlayer].
  eapply sameBoss_trans; [|apply sameBoss_commitAmount]. apply sameBoss_updatePlayer.
Qed.

Lemma sameBoss_foldl_update {A} (g : GameEngine -> A -> GameEngine) (l : list A) e :
  (forall e' x, sameBoss e' (g e' x)) -> sameBoss e (foldl g e l).
Proof.
  intros Hg. revert e. induction l as [|x l IH]; intros e; [apply sameBoss_refl|].
  cbn [foldl]. eapply sameBoss_trans; [apply Hg|apply IH].
Qed.

Lemma sameBoss_assignBlinds rs e : sameBoss e (assignBlinds rs e).
Proof.
  unfold assignBlinds.
  match goal with
  | |- context [foldl ?f ?x rs] =>
      assert (H1 : sameBoss e x);
      [|assert (H2 : sameBoss x (foldl f x rs));
        [|revert H1 H2; generalize x; generalize (foldl f x rs)]]
  end.
  { repeat case_match; try apply sameBoss_refl. boss_fields. }
  { apply sameBoss_foldl_update. intros e' p. apply sameBoss_updatePlayer. }
  intros e2 e1 H1 H2.
  eapply sameBoss_trans; [exact H1|]. eapply sameBoss_trans; [exact H2|].
  eapply sameBoss_trans; [|apply sameBoss_postBlind].
  eapply sameBoss_trans; [|apply sameBoss_postBlind]. boss_fields.
Qed.

Lemma sameBoss_resetPlayersForHand rs e : sameBoss e (resetPlayersForHand rs e).
Proof.
  unfold resetPlayersForHand.
  eapply sameBoss_trans; [apply sameBoss_forAllPlayers|].
  apply sameBoss_foldl_update. intros e' p. apply sameBoss_updatePlayer.
Qed.

Lemma bossBound_beginHand random rs e :
  (2 <= length rs)%nat -> bossBound (fst (beginHand random rs e)).
Proof.
  intros Hrs. unfold beginHand, drawCards. apply bossBound_startBettingRound.
  eapply bossBound_same; [apply sameBoss_assignBlinds|].
  pose proof (sameBoss_resetPlayersForHand rs (set_handNumber (handNumber e + 1) e))
    as Hreset.
  revert Hreset. generalize (resetPlayersForHand rs (set_handNumber (handNumber e + 1) e)).
  intros e2 _.
  match goal with
  | |- bossBound (set_bossVisible true (dealHands rs ?x)) =>
      destruct (dealHands_boss rs x) as (Hph & Hcount & Hdeck);
      revert Hph Hcount Hdeck; generalize (dealHands rs x)
  end.
  engine_fields. rewrite length_drop, length_buildDeck.
  intros e6 Hph Hcount Hdeck. unfold bossBound. engine_fields.
  rewrite Hph, Hcount. split; [reflexivity|]. lia.
Qed.

Lemma length_getEligible_ge e :
  ~ (length (getEligibleSeatedPlayers e) < 2)%nat ->
  (2 <= length (getEligibleSeatedPlayers e))%nat.
Proof. lia. Qed.

Lemma bossBound_startHand pid random e :
  bossBound e -> bossBound (fst (startHand pid random e)).
Proof.
  intros He. unfold startHand. destruct (getPlayer pid e) as [player|]; [|exact He].
  do 2 (match goal with |- context [if ?c then reject _ _ _ else _] => destruct c end;
        [exact He|]).
  case_bool_decide as Hfew; [exact He|].
  rewrite fst_andThen, fst_broadcast. apply bossBound_beginHand. lia.
Qed.

Lemma sameBoss_join pid name e : sameBoss e (fst (join pid name e)).
Proof.
  unfold join. rewrite fst_andThen, fst_broadcast. unfold updatePrivate. cbn [fst].
  case_bool_decide; boss_fields.
Qed.

Lemma sameBoss_if e (b : bool) x y : sameBoss e x -> sameBoss e y ->
  sameBoss e (if b then x else y).
Proof. by destruct b. Qed.

Lemma sameBoss_set_seats e v e0 : sameBoss e e0 -> sameBoss e (set_seats v e0).
Proof. intros H. eapply sameBoss_trans; [exact H|]. boss_fields. Qed.

Lemma sameBoss_set_dealerSeat e v e0 : sameBoss e e0 -> sameBoss e (set_dealerSeat v e0).
Proof. intros H. eapply sameBoss_trans; [exact H|]. boss_fields. Qed.

Lemma sameBoss_after_update e pid f e0 : sameBoss e e0 -> sameBoss e (updatePlayer pid f e0).
Proof. intros H. eapply sameBoss_trans; [exact H|]. apply sameBoss_updatePlayer. Qed.

Lemma sameBoss_seatTake pid seat e : sameBoss e (fst (seatTake pid seat e)).
Proof.
  unfold seatTake. destruct (getPlayer pid e) as [player|]; [|apply sameBoss_refl].
  match goal with |- context [if ?c then reject _ _ _ else _] => destruct c end;
    [apply sameBoss_refl|].
  rewrite fst_broadcast.
  apply sameBoss_if.
  - apply sameBoss_after_update, sameBoss_set_dealerSeat, sameBoss_after_update,
      sameBoss_set_seats.
    apply sameBoss_if; [apply sameBoss_set_seats|]; apply sameBoss_refl.
  - apply sameBoss_after_update, sameBoss_set_seats.
    apply sameBoss_if; [apply sameBoss_set_seats|]; apply sameBoss_refl.
Qed.

Lemma sameBoss_comboUpdate pid selections e : sameBoss e (fst (comboUpdate pid selections e)).
Proof.
  unfold comboUpdate. destruct (getPlayer pid e) as [player|]; [|apply sameBoss_refl].
  case_bool_decide; [apply sameBoss_refl|]. unfold updatePrivate. cbn [fst].
  apply sameBoss_updatePlayer.
Qed.

Lemma bossBound_restartTable e : bossBound (fst (restartTable e)).
Proof. unfold restartTable. rewrite fst_andThen, fst_broadcast, fst_modify. reflexivity. Qed.

Lemma bossBound_betAction pid msg e : bossBound e -> bossBound (fst (betAction pid msg e)).
Proof.
  intros He. unfold betAction. destruct (getPlayer pid e) as [player|]; [|exact He].
  do 3 (match goal with |- context [if ?c then reject _ _ _ else _] => destruct c end;
        [exact He|]).
  assert (Hafter : forall reset e',
            sameBoss e e' ->
            bossBound
              (fst (((fun e'' => advanceTurn (markSeatActed (seatIndex player) reset e''))
                     ;> broadcast) e'))).
  { intros reset e' He'. rewrite fst_andThen, fst_broadcast.
    apply bossBound_advanceTurn. eapply bossBound_same; [|exact He].
    eapply sameBoss_trans; [exact He'|apply sameBoss_markSeatActed]. }
  destruct (action msg).
  - apply Hafter, sameBoss_updatePlayer.
  - case_bool_decide; [exact He|]. apply Hafter, sameBoss_updatePlayer.
  - apply Hafter, sameBoss_after_update, sameBoss_callContribution.
  - destruct (raiseBy player (amount msg) e) as [e'|reason] eqn:Hraise; [|exact He].
    apply Hafter. by eapply sameBoss_raiseBy.
Qed.

Lemma bossBound_comboSubmit pid selections e :
  bossBound e -> bossBound (fst (comboSubmit pid selections e)).
Proof.
  intros He. unfold comboSubmit. destruct (getPlayer pid e) as [player|]; [|exact He].
  match goal with |- context [if ?c then _ else _] => destruct c end; [exact He|].
  case_bool_decide as Hph; cbn [negb]; [|exact He].
  do 3 (match goal with |- context [if ?c then _ else _] => destruct c end; [exact He|]).
  match goal with
  | |- context [set_awaitingCombo ?w (updatePlayer pid ?f e)] =>
      assert (H2 : sameBoss e (set_awaitingCombo w (updatePlayer pid f e)))
        by boss_fields;
      revert H2; generalize (set_awaitingCombo w (updatePlayer pid f e))
  end.
  intros e2 H2. case_bool_decide.
  - assert (H3 : sameBoss e (updateActionMessage (set_actingSeat None e2))).
    { eapply sameBoss_trans; [exact H2|].
      eapply sameBoss_trans; [|apply sameBoss_updateActionMessage]. boss_fields. }
    apply bossBound_evaluateCombos; [by eapply bossBound_same|].
    destruct H3 as [-> _]. exact Hph.
  - pose proof (sameBoss_setNextComboActor (comboIndex e2 + 1) e2) as Hnext.
    destruct (setNextComboActor (comboIndex e2 + 1) e2) as [found e3]. cbn [snd] in Hnext.
    assert (H3 : sameBoss e e3) by (by eapply sameBoss_trans).
    destruct found; cbn [negb].
    + rewrite fst_broadcast. by eapply bossBound_same.
    + apply bossBound_evaluateCombos; [by eapply bossBound_same|].
      destruct H3 as [-> _]. exact Hph.
Qed.

Lemma bossBound_seatLeave pid e : bossBound e -> bossBound (fst (seatLeave pid e)).
Proof.
  intros He. unfold seatLeave. destruct (getPlayer pid e) as [player|]; [|exact He].
  rewrite fst_andThen, fst_broadcast.
  match goal with
  | |- context [updatePlayer pid (set_seatIndex None) ?x] =>
      assert (H3 : sameBoss e (updatePlayer pid (set_seatIndex None) x))
  end.
  { apply sameBoss_after_update, sameBoss_if; [apply sameBoss_after_update|];
      (apply sameBoss_if; [|apply sameBoss_refl]);
      apply sameBoss_set_seats;
      (apply sameBoss_if; [apply sameBoss_set_dealerSeat|]); apply sameBoss_refl. }
  revert H3.
  match goal with
  | |- context [updatePlayer pid (set_seatIndex None) ?x] =>
      generalize (updatePlayer pid (set_seatIndex None) x)
  end.
  intros e3 H3. pose proof (bossBound_same _ _ H3 He) as He3.
  destruct (bool_decide (phase e3 = combo)) eqn:Hph; cbn [andb].
  - apply bool_decide_eq_true_1 in Hph.
    destruct (bool_decide (pid ∈ awaitingCombo e3)).
    + assert (H4 : sameBoss e3 (set_awaitingCombo (awaitingCombo e3 ∖ {[pid]}) e3))
        by boss_fields.
      revert H4. generalize (set_awaitingCombo (awaitingCombo e3 ∖ {[pid]}) e3).
      intros e4 H4. pose proof (bossBound_same _ _ H4 He3) as He4.
      assert (Hph4 : phase e4 = combo) by (destruct H4 as [-> _]; exact Hph).
      case_bool_decide; [|exact He4].
      case_bool_decide.
      * assert (H5 : sameBoss e4 (updateActionMessage (set_actingSeat None e4))).
        { eapply sameBoss_trans; [|apply sameBoss_updateActionMessage]. boss_fields. }
        apply bossBound_evaluateCombos; [by eapply bossBound_same|].
        destruct H5 as [-> _]. exact Hph4.
      * pose proof (sameBoss_setNextComboActor (comboIndex e4 + 1) e4) as Hnext.
        destruct (setNextComboActor (comboIndex e4 + 1) e4) as [found e5].
        cbn [snd] in Hnext. pose proof (bossBound_same _ _ Hnext He4) as He5.
        destruct found; cbn [negb fst]; [exact He5|].
        apply bossBound_evaluateCombos; [exact He5|].
        destruct Hnext as [-> _]. exact Hph4.
    + match goal with |- context [if ?c then advanceTurn else skip] => destruct c end;
        [by apply bossBound_advanceTurn|exact He3].
  - match goal with |- context [if ?c then advanceTurn else skip] => destruct c end;
      [by apply bossBound_advanceTurn|exact He3].
Qed.

Lemma bossBound_newEngine : bossBound newEngine.
Proof. reflexivity. Qed.

Lemma reachable_bossBound e : reachable e -> bossBound e.
Proof.
  induction 1 as [|e i _ IH Htyped]; [apply bossBound_newEngine|].
  destruct i; cbn [perform].
  - eapply bossBound_same; [apply sameBoss_join|exact IH].
  - eapply bossBound_same; [apply sameBoss_seatTake|exact IH].
  - by apply bossBound_seatLeave.
  - by apply bossBound_startHand.
  - by apply bossBound_betAction.
  - eapply bossBound_same; [apply sameBoss_comboUpdate|exact IH].
  - by apply bossBound_comboSubmit.
  - apply bossBound_restartTable.
Qed.

(** C5, as the engine has it.  In every engine that a run can reach the
    revealed count follows the phase: 0 between hands, 3 in the rush, 4 in
    the charge, 5 in the stomp, and at least 5 from the combo phase on,
    where every sudden-death round has added one.  Nothing stops the count
    at 6: a round takes its card from the deck, of which at most 33 cards
    are left after the deal, so that the count plus the deck is at most
    38, and so is the count. *)
Theorem boss_reveal_bound e :
  reachable e -> bossBound e /\ (bossRevealedCount e <= 38)%nat.
Proof.
  intros Hreach. pose proof (reachable_bossBound e Hreach) as Hbound.
  split; [exact Hbound|]. unfold bossBound in Hbound.
  destruct (phase e); lia.
Qed.

Lemma boss_reveal_bound_witness :
  reachable lastCardTie
  /\ bossRevealedCount lastCardTie = 38%nat
  /\ (bossBound lastCardTie /\ (bossRevealedCount lastCardTie <= 38)%nat).
Proof.
  assert (Hreach : reachable lastCardTie).
  { unfold lastCardTie. apply reachable_run; [vm_compute; reflexivity|].
    apply reachable_new. }
  split; [exact Hreach|]. split; [vm_compute; reflexivity|].
  exact (boss_reveal_bound lastCardTie Hreach).
Defined.

(** C5, as stated, fails: after two ties in a row the engine is in its
    combo phase with 7 revealed Boss cards. *)
Lemma two_ties_reveal_seven :
  reachable twoTies
  /\ phase twoTies = combo
  /\ bossRevealedCount twoTies = 7%nat
  /\ ~ (bossRevealedCount twoTies <= 6)%nat.
Proof.
  split.
  { unfold twoTies. apply reachable_run; [vm_compute; reflexivity|].
    apply reachable_new. }
  split; [vm_compute; reflexivity|].
  assert (Hcount : bossRevealedCount twoTies = 7%nat) by (vm_compute; reflexivity).
  split; [exact Hcount|]. rewrite Hcount. lia.
Qed.

(** ** Players who arrive during a hand *)

Lemma find_app_fresh {A} (f : A -> bool) (l : list A) (x : A) :
  List.find f l = None -> List.find f (l ++ [x]) = List.find f [x].
Proof.
  induction l as [|y l IH]; [reflexivity|]. cbn [List.find app].
  destruct (f y); [discriminate|exact IH].
Qed.

Lemma isHandActive_running e : phase e <> waiting -> isHandActive e = true.
Proof. intros Hph. unfold isHandActive. by rewrite bool_decide_eq_false_2. Qed.

(** A player who joins during hand N gets [entryHand] N + 1. *)
Lemma join_entryHand pid name e :
  phase e <> waiting -> getPlayer pid e = None ->
  entryHand <$> getPlayer pid (fst (join pid name e)) = Some (handNumber e + 1)%nat.
Proof.
  intros Hph Hnew. unfold join. rewrite fst_andThen, fst_broadcast.
  unfold updatePrivate. cbn [fst]. rewrite Hnew.
  rewrite bool_decide_eq_false_2 by (intros [p Hp]; discriminate).
  rewrite isHandActive_running by exact Hph.
  unfold getPlayer in *. engine_fields. rewrite find_app_fresh by exact Hnew.
  cbn [List.find playerId]. rewrite bool_decide_eq_true_2 by reflexivity. reflexivity.
Qed.

(** A player who takes a free seat during hand N gets [entryHand] N + 1. *)
Lemma seatTake_entryHand pid seat e player :
  phase e <> waiting -> getPlayer pid e = Some player -> seatOccupant seat e = None ->
  (entryHand <$> getPlayer pid (fst (seatTake pid seat e)) = Some (handNumber e + 1)%nat)
  /\ (seatIndex <$> getPlayer pid (fst (seatTake pid seat e)) = Some (Some seat)).
Proof.
  intros Hph Hplayer Hfree. unfold seatTake. rewrite Hplayer, Hfree.
  rewrite fst_broadcast.
  match goal with
  | |- context [updatePlayer pid ?f (set_seats ?s ?x)] =>
      assert (H2 : players (set_seats s x) = players e
                   /\ handNumber (set_seats s x) = handNumber e
                   /\ phase (set_seats s x) = phase e)
        by (by destruct (truthy (seatIndex player)));
      revert H2; generalize (set_seats s x)
  end.
  intros e2 (Hplayers & Hhand & Hphase).
  assert (Hrun : isHandActive e2 = true)
    by (apply isHandActive_running; by rewrite Hphase).
  rewrite Hrun, Hhand.
  assert (H3 : getPlayer pid
                 (updatePlayer pid
                    (fun p => set_entryHand (handNumber e + 1)
                                (set_seatIndex (Some seat) p)) e2)
               = Some (set_entryHand (handNumber e + 1)
                         (set_seatIndex (Some seat) player))).
  { rewrite getPlayer_updatePlayer by reflexivity.
    by rewrite (getPlayer_players pid e e2 Hplayers), Hplayer. }
  revert H3.
  generalize (updatePlayer pid
                (fun p => set_entryHand (handNumber e + 1)
                            (set_seatIndex (Some seat) p)) e2).
  intros e3 H3. destruct (negb (truthy (dealerSeat e3))).
  - rewrite getPlayer_updatePlayer by reflexivity.
    rewrite (getPlayer_players pid e3 (set_dealerSeat (Some seat) e3)) by reflexivity.
    rewrite H3. split; reflexivity.
  - rewrite H3. split; reflexivity.
Qed.

(** The players whom [startHand] counts and deals in have an [entryHand]
    that is at most the number of the hand before. *)
Lemma eligible_entryHand e p :
  p ∈ getEligibleSeatedPlayers e -> (entryHand p <= handNumber e)%nat.
Proof.
  unfold getEligibleSeatedPlayers. intros Hp.
  apply list_elem_of_omap in Hp as [slot [_ Hslot]].
  destruct slot as [pid|]; [|discriminate].
  case_bool_decide; [discriminate|].
  destruct (getPlayer pid e) as [q|]; [|discriminate].
  destruct (truthy (seatIndex q)); [|discriminate]. cbn [andb] in Hslot.
  case_bool_decide as Hentry; [|discriminate].
  injection Hslot as <-. exact Hentry.
Qed.

Lemma late_not_eligible e p :
  (handNumber e < entryHand p)%nat -> p ∉ getEligibleSeatedPlayers e.
Proof. intros Hlate Hp. apply eligible_entryHand in Hp. lia. Qed.

(** C4 fails in the engine.  A player who joins and sits down during hand 1
    gets [entryHand] 2, and [startHand] compares it with the number of the
    hand before it: with three players seated, hand 2 is dealt to the two
    others only, and the late player, who holds no cards, pays the big
    blind; with the dealer and the late player alone, [startHand] is
    rejected for want of two players. *)
Theorem late_joiner_sits_out :
  (phase handOne = rush /\ handNumber handOne = 1%nat
   /\ getPlayer "c" handOne = None
   /\ entryHand <$> getPlayer "c" lateSeated = Some 2%nat
   /\ seatIndex <$> getPlayer "c" lateSeated = Some (Some 3%nat))
  /\ (reachable threeWaiting
      /\ phase threeWaiting = waiting /\ handNumber threeWaiting = 1%nat
      /\ dealerSeat threeWaiting = Some 2%nat
      /\ map playerId (getEligibleSeatedPlayers threeWaiting) = ["a"; "b"]
      /\ phase (fst (startHand "b" firstIndex threeWaiting)) = rush
      /\ handNumber (fst (startHand "b" firstIndex threeWaiting)) = 2%nat
      /\ idStack <$> getPlayer "c" (fst (startHand "b" firstIndex threeWaiting))
         = Some ("c", 490)
      /\ inHand <$> getPlayer "c" (fst (startHand "b" firstIndex threeWaiting))
         = Some false
      /\ hand <$> getPlayer "c" (fst (startHand "b" firstIndex threeWaiting))
         = Some [])
  /\ (reachable lateJoiner
      /\ phase lateJoiner = waiting /\ handNumber lateJoiner = 1%nat
      /\ seats lateJoiner = [None; Some "b"; Some "c"; None; None; None]
      /\ isDealer <$> getPlayer "b" lateJoiner = Some true
      /\ entryHand <$> getPlayer "c" lateJoiner = Some 2%nat
      /\ map playerId (getEligibleSeatedPlayers lateJoiner) = ["b"]
      /\ forall random,
           startHand "b" random lateJoiner
           = (lateJoiner, [EvError (Some "b") "Need at least two players"])).
Proof.
  assert (Hthree : reachable threeWaiting).
  { unfold threeWaiting, lateSeated, handOne.
    do 3 (apply reachable_run; [vm_compute; reflexivity|]). apply reachable_new. }
  split; [|split].
  - split; [vm_compute; reflexivity|]. split; [vm_compute; reflexivity|].
    split; [vm_compute; reflexivity|]. split; vm_compute; reflexivity.
  - split; [exact Hthree|].
    split; [vm_compute; reflexivity|]. split; [vm_compute; reflexivity|].
    split; [vm_compute; reflexivity|]. split; [vm_compute; reflexivity|].
    split; [vm_compute; reflexivity|]. split; [vm_compute; reflexivity|].
    split; [vm_compute; reflexivity|]. split; vm_compute; reflexivity.
  - split.
    { unfold lateJoiner. apply reachable_run; [vm_compute; reflexivity|exact Hthree]. }
    split; [vm_compute; reflexivity|]. split; [vm_compute; reflexivity|].
    split; [vm_compute; reflexivity|]. split; [vm_compute; reflexivity|].
    split; [vm_compute; reflexivity|]. split; [vm_compute; reflexivity|].
    intros random. vm_compute. reflexivity.
Qed.

(** * Further properties of the engine *)

(** ** Seats around the table *)

Lemma seatAfter_S s k : seatAfter s (S k) = seatAfter (getNextSeatIndex s) k.
Proof. unfold seatAfter. apply Nat.iter_succ_r. Qed.

Lemma getNextSeatIndex_isSeat s : isSeat (getNextSeatIndex s).
Proof.
  unfold isSeat, getNextSeatIndex, SEAT_COUNT.
  pose proof (Nat.mod_upper_bound s 6). lia.
Qed.

Lemma seatAfter_isSeat s k : isSeat s -> isSeat (seatAfter s k).
Proof.
  intros Hs. destruct k as [|k]; [exact Hs|]. unfold seatAfter. cbn [Nat.iter].
  apply getNextSeatIndex_isSeat.
Qed.

Lemma scanSeats_spec predicate n s e :
  match scanSeats predicate n s e with
  | Some t =>
      exists k, (k < n)%nat
        /\ t = seatAfter s k
        /\ predicate (getPlayerBySeat t e) = true
        /\ forall j, (j < k)%nat -> predicate (getPlayerBySeat (seatAfter s j) e) = false
  | None =>
      forall k, (k < n)%nat -> predicate (getPlayerBySeat (seatAfter s k) e) = false
  end.
Proof.
  revert s. induction n as [|n IH]; intros s; cbn [scanSeats].
  - intros k Hk. lia.
  - destruct (predicate (getPlayerBySeat s e)) eqn:Hs.
    + exists 0%nat. split; [lia|]. split; [reflexivity|]. split; [exact Hs|].
      intros j Hj. lia.
    + specialize (IH (getNextSeatIndex s)).
      destruct (scanSeats predicate n (getNextSeatIndex s) e) as [t|].
      * destruct IH as (k & Hk & Ht & Hpt & Hbefore). exists (S k).
        split; [lia|]. split; [by rewrite seatAfter_S|]. split; [exact Hpt|].
        intros [|j] Hj; [exact Hs|]. rewrite seatAfter_S. apply Hbefore. lia.
      * intros [|k] Hk; [exact Hs|]. rewrite seatAfter_S. apply IH. lia.
Qed.

(** One turn of the table from any seat passes every seat. *)
Lemma seatAfter_covers s t :
  isSeat s -> isSeat t -> exists k, (k < SEAT_COUNT)%nat /\ t = seatAfter s k.
Proof.
  unfold isSeat, SEAT_COUNT. intros Hs Ht.
  assert (Hs' : (s = 1 \/ s = 2 \/ s = 3 \/ s = 4 \/ s = 5 \/ s = 6)%nat) by lia.
  assert (Ht' : (t = 1 \/ t = 2 \/ t = 3 \/ t = 4 \/ t = 5 \/ t = 6)%nat) by lia.
  clear Hs Ht.
  repeat (destruct Hs' as [->|Hs']); try subst s;
    repeat (destruct Ht' as [->|Ht']); try subst t;
    first [ exists 0%nat; split; [lia|reflexivity]
          | exists 1%nat; split; [lia|reflexivity]
          | exists 2%nat; split; [lia|reflexivity]
          | exists 3%nat; split; [lia|reflexivity]
          | exists 4%nat; split; [lia|reflexivity]
          | exists 5%nat; split; [lia|reflexivity] ].
Qed.

(** X1.  [findSeatInDirection] from a seat of the table looks at the six
    seats clockwise, from the start seat itself or from the one after it:
    it returns the first seat whose player satisfies the predicate, a
    seat of the table, and returns nothing exactly when no seat of the
    table has such a player.  Without a start seat it returns nothing. *)
Theorem findSeatInDirection_search predicate includeStart e :
  findSeatInDirection None predicate includeStart e = None
  /\ findSeatInDirection (Some 0%nat) predicate includeStart e = None
  /\ forall s, isSeat s ->
       match findSeatInDirection (Some s) predicate includeStart e with
       | Some t =>
           isSeat t
           /\ firstSeatFrom predicate
                (if includeStart then s else getNextSeatIndex s) e t
       | None => forall t, isSeat t -> predicate (getPlayerBySeat t e) = false
       end.
Proof.
  split; [reflexivity|]. split; [reflexivity|]. intros s Hs.
  unfold findSeatInDirection. destruct s as [|s']; [unfold isSeat in Hs; lia|].
  set (s0 := if includeStart then S s' else getNextSeatIndex (S s')).
  assert (Hs0 : isSeat s0).
  { unfold s0. destruct includeStart; [exact Hs|apply getNextSeatIndex_isSeat]. }
  pose proof (scanSeats_spec predicate SEAT_COUNT s0 e) as Hscan.
  destruct (scanSeats predicate SEAT_COUNT s0 e) as [t|].
  - destruct Hscan as (k & Hk & Ht & Hpt & Hbefore). split.
    + rewrite Ht. by apply seatAfter_isSeat.
    + exists k. repeat split; assumption.
  - intros t Ht. destruct (seatAfter_covers s0 t Hs0 Ht) as (k & Hk & ->).
    by apply Hscan.
Qed.

Lemma findSeatInDirection_search_witness :
  isSeat 3
  /\ findSeatInDirection (Some 3%nat) canAct false afterBlinds = Some 1%nat
  /\ isSeat 1
  /\ firstSeatFrom canAct (getNextSeatIndex 3) afterBlinds 1.
Proof.
  assert (Hs : isSeat 3) by (unfold isSeat, SEAT_COUNT; lia).
  assert (Hfind : findSeatInDirection (Some 3%nat) canAct false afterBlinds = Some 1%nat)
    by (vm_compute; reflexivity).
  destruct (findSeatInDirection_search canAct false afterBlinds) as (_ & _ & Hsearch).
  specialize (Hsearch 3%nat Hs). rewrite Hfind in Hsearch.
  split; [exact Hs|]. split; [exact Hfind|]. exact Hsearch.
Defined.

(** ** The deck *)

Lemma insert_moves {A} (d : list A) j x y :
  d !! j = Some y -> y :: <[j := x]> d ≡ₚ x :: d.
Proof.
  revert j. induction d as [|z d IH]; intros [|j] Hj; try discriminate.
  - cbn in Hj. injection Hj as ->. cbn [insert list_insert]. apply Permutation_swap.
  - cbn in Hj. cbn [insert list_insert].
    etransitivity; [apply Permutation_swap|].
    etransitivity; [apply Permutation_skip, (IH j Hj)|]. apply Permutation_swap.
Qed.

Lemma swap_Permutation {A} (d : list A) i j x y :
  d !! i = Some x -> d !! j = Some y -> <[j := x]> (<[i := y]> d) ≡ₚ d.
Proof.
  revert i j. induction d as [|z d IH]; intros [|i] [|j] Hi Hj; try discriminate.
  - cbn in Hi, Hj. injection Hi as ->. injection Hj as ->. reflexivity.
  - cbn in Hi, Hj. injection Hi as ->. cbn [insert list_insert].
    by apply insert_moves.
  - cbn in Hi, Hj. injection Hj as ->. cbn [insert list_insert].
    by apply insert_moves.
  - cbn in Hi, Hj. cbn [insert list_insert]. f_equiv. by apply IH.
Qed.

Lemma swapCards_Permutation i j d : swapCards i j d ≡ₚ d.
Proof.
  unfold swapCards. destruct (d !! i) as [ci|] eqn:Hi; [|reflexivity].
  destruct (d !! j) as [cj|] eqn:Hj; [|reflexivity]. by apply swap_Permutation.
Qed.

Lemma shuffleFrom_Permutation random i d : shuffleFrom random i d ≡ₚ d.
Proof.
  revert d. induction i as [|i IH]; intros d; [reflexivity|].
  cbn [shuffleFrom]. rewrite IH. apply swapCards_Permutation.
Qed.

Lemma buildDeck_Permutation random : buildDeck random ≡ₚ orderedDeck.
Proof.
  unfold buildDeck. etransitivity; [apply reverse_Permutation|].
  apply shuffleFrom_Permutation.
Qed.

Lemma distinctb_NoDup (l : list string) : distinctb l = true -> NoDup l.
Proof.
  induction l as [|x l IH]; intros Hl; [constructor|]. cbn [distinctb] in Hl.
  apply andb_true_iff in Hl as [Hx Hl]. apply NoDup_cons. split; [|by apply IH].
  intros Hin. apply negb_true_iff in Hx. apply not_true_iff_false in Hx. apply Hx.
  apply existsb_exists. exists x. split; [by apply list_elem_of_In|].
  apply String.eqb_refl.
Qed.

Lemma NoDup_orderedDeck_ids : NoDup (map card_id orderedDeck).
Proof. apply distinctb_NoDup. vm_compute. reflexivity. Qed.

Lemma NoDup_ids_Permutation (l l' : list Card) :
  l ≡ₚ l' -> NoDup (map card_id l') -> NoDup (map card_id l).
Proof. intros Hp. by rewrite Hp. Qed.

Lemma NoDup_buildDeck_ids random : NoDup (map card_id (buildDeck random)).
Proof.
  exact (NoDup_ids_Permutation _ _ (buildDeck_Permutation random) NoDup_orderedDeck_ids).
Qed.

Lemma faces_orderedDeck r s :
  length (List.filter (fun card => bool_decide (faceOf card = (r, s))) orderedDeck) = 1%nat.
Proof. destruct r, s; vm_compute; reflexivity. Qed.

Lemma filter_length_Permutation {A} (f : A -> bool) (l l' : list A) :
  l ≡ₚ l' -> length (List.filter f l) = length (List.filter f l').
Proof.
  induction 1 as [|x l l' _ IH|x y l|l l' l'' _ IH1 _ IH2]; cbn [List.filter].
  - reflexivity.
  - destruct (f x); cbn [length]; by rewrite IH.
  - by destruct (f x), (f y).
  - by rewrite IH1.
Qed.

(** X2.  Whatever the random draws of the shuffle are, [buildDeck] returns
    the 52 cards of the ordered deck in some order: 52 cards with distinct
    ids, exactly one of every rank and suit. *)
Theorem buildDeck_full_deck random :
  buildDeck random ≡ₚ orderedDeck
  /\ length (buildDeck random) = 52%nat
  /\ NoDup (map card_id (buildDeck random))
  /\ forall r s,
       length (List.filter (fun card => bool_decide (faceOf card = (r, s)))
                 (buildDeck random)) = 1%nat.
Proof.
  split; [apply buildDeck_Permutation|]. split; [apply length_buildDeck|].
  split; [apply NoDup_buildDeck_ids|]. intros r s.
  etransitivity; [apply filter_length_Permutation, buildDeck_Permutation|].
  apply faces_orderedDeck.
Qed.

(** ** Rejections *)

Lemma rejected_reject pid msg e : rejected pid e (reject pid msg e).
Proof. split; [reflexivity|]. by exists msg. Qed.

Lemma noError_then_broadcast (F : Proc) e :
  noError (snd (F e)) -> noError (snd ((F ;> broadcast) e)).
Proof.
  intros HF. rewrite snd_andThen. apply noError_app. split; [exact HF|].
  apply noError_broadcast.
Qed.

Lemma noError_join pid name e : noError (snd (join pid name e)).
Proof.
  unfold join. apply noError_then_broadcast. unfold updatePrivate. cbn [snd].
  apply noError_private.
Qed.

Lemma outcome_seatTake pid seat e :
  noError (snd (seatTake pid seat e)) \/ rejected pid e (seatTake pid seat e).
Proof.
  unfold seatTake. destruct (getPlayer pid e) as [player|];
    [|right; apply rejected_reject].
  match goal with |- context [if ?c then reject _ _ _ else _] => destruct c end;
    [right; apply rejected_reject|].
  left. apply noError_broadcast.
Qed.

Lemma noError_seatLeave pid e : noError (snd (seatLeave pid e)).
Proof.
  unfold seatLeave. destruct (getPlayer pid e) as [player|]; [|reflexivity].
  apply noError_then_broadcast.
  match goal with
  | |- context [updatePlayer pid (set_seatIndex None) ?x] =>
      generalize (updatePlayer pid (set_seatIndex None) x)
  end.
  intros e3.
  destruct (bool_decide (phase e3 = combo) && bool_decide (pid ∈ awaitingCombo e3)).
  - case_bool_decide; [|reflexivity]. case_bool_decide; [apply calm_evaluateCombos|].
    destruct (setNextComboActor _ _) as [found e5].
    destruct found; cbn [negb]; [reflexivity|apply calm_evaluateCombos].
  - match goal with |- context [if ?c then advanceTurn else skip] => destruct c end;
      [apply calm_advanceTurn|reflexivity].
Qed.

Lemma outcome_startHand pid random e :
  noError (snd (startHand pid random e)) \/ rejected pid e (startHand pid random e).
Proof.
  unfold startHand. destruct (getPlayer pid e) as [player|];
    [|right; apply rejected_reject].
  do 3 (match goal with |- context [if ?c then reject _ _ _ else _] => destruct c end;
        [right; apply rejected_reject|]).
  left. apply noError_then_broadcast. unfold beginHand, drawCards.
  apply calm_startBettingRound.
Qed.

Lemma outcome_betAction pid msg e :
  noError (snd (betAction pid msg e)) \/ rejected pid e (betAction pid msg e).
Proof.
  unfold betAction. destruct (getPlayer pid e) as [player|];
    [|right; apply rejected_reject].
  do 3 (match goal with |- context [if ?c then reject _ _ _ else _] => destruct c end;
        [right; apply rejected_reject|]).
  destruct (action msg).
  - left. apply noError_betAction_after.
  - case_bool_decide; [right; apply rejected_reject|left; apply noError_betAction_after].
  - left. apply noError_betAction_after.
  - destruct (raiseBy player (amount msg) e) as [e'|reason];
      [left; apply noError_betAction_after|right; apply rejected_reject].
Qed.

Lemma noError_comboUpdate pid selections e : noError (snd (comboUpdate pid selections e)).
Proof.
  unfold comboUpdate. destruct (getPlayer pid e) as [player|]; [|reflexivity].
  case_bool_decide; [reflexivity|]. unfold updatePrivate. cbn [snd].
  apply noError_private.
Qed.

Lemma outcome_comboSubmit pid selections e :
  noError (snd (comboSubmit pid selections e)) \/ rejected pid e (comboSubmit pid selections e).
Proof.
  unfold comboSubmit. destruct (getPlayer pid e) as [player|]; [|by left].
  match goal with |- context [if ?c then _ else _] => destruct c end; [by left|].
  match goal with |- context [if ?c then reject _ _ _ else _] => destruct c end;
    [right; apply rejected_reject|].
  match goal with |- context [if ?c then _ else _] => destruct c end; [by left|].
  do 2 (match goal with |- context [if ?c then reject _ _ _ else _] => destruct c end;
        [right; apply rejected_reject|]).
  left. case_bool_decide; [apply calm_evaluateCombos|].
  destruct (setNextComboActor _ _) as [found e3].
  destruct found; cbn [negb]; [apply noError_broadcast|apply calm_evaluateCombos].
Qed.

(** X3.  Every intent either is rejected, with one error event addressed
    to the player who sent it and the engine left exactly as it was, or
    emits no error event at all: no intent is carried out in part and then
    refused.  [restartTable], which has no sender, is never rejected. *)
Theorem rejection_changes_nothing i e :
  noError (snd (perform i e))
  \/ exists pid, caller i = Some pid /\ rejected pid e (perform i e).
Proof.
  destruct i as [pid name|pid seat|pid|pid random|pid msg|pid sel|pid sel|];
    cbn [perform caller].
  - left. apply noError_join.
  - destruct (outcome_seatTake pid seat e) as [Hok|Hrej]; [by left|right; by exists pid].
  - left. apply noError_seatLeave.
  - destruct (outcome_startHand pid random e) as [Hok|Hrej];
      [by left|right; by exists pid].
  - destruct (outcome_betAction pid msg e) as [Hok|Hrej]; [by left|right; by exists pid].
  - left. apply noError_comboUpdate.
  - destruct (outcome_comboSubmit pid sel e) as [Hok|Hrej];
      [by left|right; by exists pid].
  - left. unfold restartTable. apply noError_then_broadcast. reflexivity.
Qed.

(** ** Invariants, step by step *)

Lemma sameCore_refl e : sameCore e e.
Proof. unfold sameCore. repeat split. Qed.

Lemma sameCore_sym e e' : sameCore e e' -> sameCore e' e.
Proof. unfold sameCore. intros (?&?&?&?&?&?&?&?&?&?&?). repeat split; congruence. Qed.

Lemma sameCore_trans e1 e2 e3 : sameCore e1 e2 -> sameCore e2 e3 -> sameCore e1 e3.
Proof.
  unfold sameCore. intros (?&?&?&?&?&?&?&?&?&?&?) (?&?&?&?&?&?&?&?&?&?&?).
  repeat split; congruence.
Qed.

Lemma map_core_congr (F G : EnginePlayer -> EnginePlayer) ps qs :
  (forall p q, core p = core q -> core (F p) = core (G q)) ->
  map core ps = map core qs -> map core (map F ps) = map core (map G qs).
Proof.
  intros HFG. revert qs. induction ps as [|p ps IH]; intros [|q qs] Heq; try discriminate.
  - reflexivity.
  - cbn [map] in *.
    pose proof (f_equal (fun l => match l with x :: _ => x | [] => core p end) Heq) as Hpq.
    pose proof (f_equal (fun l => match l with _ :: t => t | [] => [] end) Heq) as Hrest.
    cbn beta iota in Hpq, Hrest. f_equal; [by apply HFG|by apply IH].
Qed.

Lemma map_core_same (F : EnginePlayer -> EnginePlayer) ps :
  (forall p, core (F p) = core p) -> map core (map F ps) = map core ps.
Proof.
  intros HF. induction ps as [|p ps IH]; [reflexivity|]. cbn [map]. by rewrite HF, IH.
Qed.

Lemma sameCore_players ps e :
  map core ps = map core (players e) -> sameCore e (set_players ps e).
Proof. intros Hps. unfold sameCore. engine_fields. repeat split. exact Hps. Qed.

Lemma sameCore_forAllPlayers f e :
  (forall p, core (f p) = core p) -> sameCore e (forAllPlayers f e).
Proof. intros Hf. apply sameCore_players. by apply map_core_same. Qed.

Lemma sameCore_updatePlayer pid f e :
  (forall p, core (f p) = core p) -> sameCore e (updatePlayer pid f e).
Proof.
  intros Hf. apply sameCore_players. apply map_core_same. intros p.
  by case_bool_decide.
Qed.

Ltac core_fields := unfold sameCore; engine_fields; repeat split; reflexivity.

Ltac core_update := apply sameCore_updatePlayer; intros ?; reflexivity.

Lemma sameCore_updateActionMessage e : sameCore e (updateActionMessage e).
Proof. destruct (updateActionMessage_message e) as [m ->]. core_fields. Qed.

Lemma sameCore_setNextComboActor i e : sameCore e (snd (setNextComboActor i e)).
Proof. destruct (setNextComboActor_fields i e) as (idx & seat & m & ->). core_fields. Qed.

Lemma sameCore_awaitCombo ox active e : sameCore e (foldl (awaitCombo ox) e active).
Proof.
  revert e. induction active as [|p active IH]; intros e; [apply sameCore_refl|].
  cbn [foldl]. eapply sameCore_trans; [|apply IH]. unfold awaitCombo.
  destruct ox; [core_fields|].
  eapply sameCore_trans; [|core_update]. core_fields.
Qed.

Lemma sameCore_rotateDealer e : sameCore e (rotateDealer e).
Proof.
  unfold rotateDealer. repeat case_match; try apply sameCore_refl; try core_fields.
  eapply sameCore_trans; [|apply sameCore_forAllPlayers; intros ?; reflexivity].
  core_fields.
Qed.

Lemma sameCore_markSeatActed seat reset e : sameCore e (markSeatActed seat reset e).
Proof. unfold markSeatActed. repeat case_match; core_fields. Qed.

Lemma sameCore_foldl_update {A} (g : GameEngine -> A -> GameEngine) (l : list A) e :
  (forall e' x, sameCore e' (g e' x)) -> sameCore e (foldl g e l).
Proof.
  intros Hg. revert e. induction l as [|x l IH]; intros e; [apply sameCore_refl|].
  cbn [foldl]. eapply sameCore_trans; [apply Hg|apply IH].
Qed.

(** [handOver] is what [endHand] does to what the invariants read. *)
Lemma sameCore_endHand e0 e : sameCore e0 e -> sameCore (handOver e0) (fst (endHand e)).
Proof.
  intros Hsame. unfold endHand. rewrite fst_andThen, fst_broadcast, fst_modify.
  match goal with
  | |- context [rotateDealer ?x] =>
      pose proof (sameCore_rotateDealer x) as Hrot;
      assert (Hx : map core (players x) = map core (players e0)
                   /\ seats x = seats e0 /\ handNumber x = handNumber e0
                   /\ deck x = deck e0 /\ currentBet x = currentBet e0
                   /\ minimumRaise x = minimumRaise e0 /\ pot x = pot e0
                   /\ sidePot x = sidePot e0
                   /\ bossCards x = [] /\ bossRevealedCount x = 0%nat
                   /\ phase x = waiting)
        by (destruct Hsame as (?&?&?&?&?&?&?&?&?&?&?); engine_fields;
            repeat split; assumption);
      revert Hrot Hx; generalize (rotateDealer x); generalize x
  end.
  intros x y Hrot Hx. destruct Hrot as (Hp&?&?&?&?&?&?&?&?&?&?).
  destruct Hx as (Hq&?&?&?&?&?&?&?&?&?&?).
  unfold sameCore, handOver, forAllPlayers. engine_fields.
  repeat split; try congruence.
  apply map_core_congr; [|congruence].
  intros p q Hpq. unfold core in *. player_fields. congruence.
Qed.

Lemma fst_payAndReport rs award text e :
  exists result, fst (payAndReport rs award text e) = set_lastResult result (paid rs award e).
Proof. unfold payAndReport, paid. cbn [fst]. eauto. Qed.

Section Steps.
Variable Inv : GameEngine -> Prop.
Hypothesis steps : preserved anyEngine Inv.

Lemma inv_same e e' : Inv e -> sameCore e e' -> Inv e'.
Proof. intros He. by apply (pr_same _ _ steps). Qed.

Lemma inv_settle rs award text e :
  Inv e -> payCase e rs award -> Inv (fst ((payAndReport rs award text ;> endHand) e)).
Proof.
  intros He Hpay. rewrite fst_andThen.
  destruct (fst_payAndReport rs award text e) as [result ->].
  apply (inv_same (handOver (paid rs award e))).
  - by apply (pr_settle _ _ steps).
  - apply sameCore_endHand. core_fields.
Qed.

Lemma inv_endHand e : Inv e -> Inv (fst (endHand e)).
Proof.
  intros He. apply (inv_same (handOver (paid [] 0 e))).
  - apply (pr_settle _ _ steps); [done|exact He|constructor].
  - apply sameCore_endHand. apply sameCore_refl.
Qed.

Lemma inv_resolveHandByFold e : Inv e -> Inv (fst (resolveHandByFold e)).
Proof.
  intros He. unfold resolveHandByFold.
  destruct (activePlayers e) as [|recipient rest] eqn:Hactive; [by apply inv_endHand|].
  apply inv_settle; [exact He|]. apply pay_one. rewrite Hactive. by left.
Qed.

Lemma inv_startBettingRoundK fin ref :
  (forall e, Inv e -> Inv (fst (fin e))) ->
  forall e, Inv e -> Inv (fst (startBettingRoundK fin ref e)).
Proof.
  intros Hfin e He. unfold startBettingRoundK. case_match.
  - apply Hfin. apply (inv_same e); [exact He|]. core_fields.
  - cbn [fst]. apply (inv_same e); [exact He|].
    eapply sameCore_trans; [|apply sameCore_updateActionMessage]. core_fields.
Qed.

Lemma inv_finishBettingRoundK start enter :
  (forall ref e, Inv e -> Inv (fst (start ref e))) ->
  (forall ox e, Inv e -> phase e = stomp \/ phase e = oxtail -> Inv (fst (enter ox e))) ->
  forall e, Inv e -> Inv (fst (finishBettingRoundK start enter e)).
Proof.
  intros Hstart Henter e He. unfold finishBettingRoundK.
  assert (H1 : Inv (resetRound e)) by (by apply (pr_reset _ _ steps)).
  fold (resetRound e). revert H1. generalize (resetRound e). intros e1 H1.
  case_match; [by apply inv_resolveHandByFold|].
  destruct (phase e1) eqn:Hph1; try (cbn [fst]; exact H1).
  - apply Hstart. by apply (pr_charge _ _ steps).
  - apply Hstart. by apply (pr_stomp _ _ steps).
  - apply Henter; [exact H1|by left].
  - apply Henter; [exact H1|by right].
Qed.

Lemma inv_finishBettingRoundN enter n :
  (forall ox e, Inv e -> phase e = stomp \/ phase e = oxtail -> Inv (fst (enter ox e))) ->
  forall e, Inv e -> Inv (fst (finishBettingRoundN enter n e)).
Proof.
  intros Henter. induction n as [|n IH].
  - rewrite finishBettingRoundN_O. apply inv_finishBettingRoundK; [|exact Henter].
    intros ref. apply inv_startBettingRoundK. intros e He. exact He.
  - rewrite finishBettingRoundN_S. apply inv_finishBettingRoundK; [|exact Henter].
    intros ref. by apply inv_startBettingRoundK.
Qed.

Lemma inv_enterComboPhaseK ev ox :
  (forall e, Inv e -> phase e = combo -> Inv (fst (ev e))) ->
  forall e, Inv e -> phase e = stomp \/ phase e = oxtail ->
            Inv (fst (enterComboPhaseK ev ox e)).
Proof.
  intros Hev e He Hph. unfold enterComboPhaseK.
  assert (H1 : Inv (set_awaitingCombo ∅ (set_phase combo e))
               /\ phase (set_awaitingCombo ∅ (set_phase combo e)) = combo).
  { split; [|reflexivity]. apply (inv_same (set_phase combo e)); [|core_fields].
    by apply (pr_combo _ _ steps). }
  revert H1. generalize (set_awaitingCombo ∅ (set_phase combo e)). intros e1 [H1 Hph1].
  pose proof (sameCore_awaitCombo ox (activePlayers e1) e1) as Hloop.
  revert Hloop. generalize (foldl (awaitCombo ox) e1 (activePlayers e1)).
  intros e2 Hloop.
  assert (H3 : sameCore e1 (set_comboIndex 0 (set_comboQueue (buildComboOrder e2) e2))).
  { eapply sameCore_trans; [exact Hloop|]. core_fields. }
  revert H3. generalize (set_comboIndex 0 (set_comboQueue (buildComboOrder e2) e2)).
  intros e3 H3. case_bool_decide.
  - assert (H4 : sameCore e1 (updateActionMessage (set_actingSeat None e3))).
    { eapply sameCore_trans; [exact H3|].
      eapply sameCore_trans; [|apply sameCore_updateActionMessage]. core_fields. }
    apply Hev; [by eapply inv_same|].
    destruct H4 as (_&_&_&_&_&_&->&_). exact Hph1.
  - pose proof (sameCore_setNextComboActor 0 e3) as Hnext.
    destruct (setNextComboActor 0 e3) as [found e4]. cbn [snd] in Hnext.
    assert (H4 : sameCore e1 e4) by (by eapply sameCore_trans).
    destruct found; cbn [negb].
    + rewrite fst_broadcast. by eapply inv_same.
    + apply Hev; [by eapply inv_same|].
      destruct H4 as (_&_&_&_&_&_&->&_). exact Hph1.
Qed.

Lemma inv_startOxtailK start :
  (forall ref e, Inv e -> Inv (fst (start ref e))) ->
  forall e, Inv e -> phase e = combo -> deck e <> [] -> Inv (fst (startOxtailK start e)).
Proof.
  intros Hstart e He Hph Hdeck. unfold startOxtailK, drawCards. apply Hstart.
  destruct (deck e) as [|card rest] eqn:Hcards; [done|].
  apply (inv_same (oxtailDrawn card rest e)).
  - by apply (pr_oxtail _ _ steps).
  - unfold sameCore, oxtailDrawn. engine_fields. rewrite Hcards.
    cbn [take drop]. rewrite take_0, drop_0. repeat split.
Qed.

Lemma inv_evaluateCombosWith so :
  (forall e, Inv e -> phase e = combo -> deck e <> [] -> Inv (fst (so e))) ->
  forall e, Inv e -> phase e = combo -> Inv (fst (evaluateCombosWith so e)).
Proof.
  intros Hso e He Hph. unfold evaluateCombosWith.
  case_bool_decide; [by apply inv_resolveHandByFold|].
  rewrite filter_notFolded_active.
  destruct (sortEvaluated (map (evaluatePlayer e) (activePlayers e)))
    as [|best rest] eqn:Hsort; [exact He|].
  rewrite <- Hsort. rewrite (ties_bestRanked _ best rest Hsort).
  case_bool_decide as Hties.
  - case_bool_decide as Hdeck.
    + rewrite players_bestRanked. unfold splitPot. apply inv_settle; [exact He|].
      apply pay_split. rewrite <- players_bestRanked. by rewrite length_map.
    + apply Hso; try done. intros Hnil. apply Hdeck. by rewrite Hnil.
  - unfold awardPot. apply inv_settle; [exact He|]. apply pay_one.
    assert (Hbest : best ∈ map (evaluatePlayer e) (activePlayers e)).
    { apply elem_of_sortEvaluated. rewrite Hsort. by left. }
    apply list_elem_of_fmap in Hbest as [p [-> Hp]]. exact Hp.
Qed.

Lemma inv_evaluateCombosN n e :
  Inv e -> phase e = combo -> Inv (fst (evaluateCombosN n e)).
Proof.
  revert e. induction n as [|n IH]; intros e; rewrite evaluateCombosN_unfold.
  - apply inv_evaluateCombosWith. apply inv_startOxtailK. intros ref.
    apply inv_startBettingRoundK, inv_finishBettingRoundN. intros ox.
    apply inv_enterComboPhaseK. intros e' He' _. exact He'.
  - apply inv_evaluateCombosWith. apply inv_startOxtailK. intros ref.
    apply inv_startBettingRoundK, inv_finishBettingRoundN. intros ox.
    apply inv_enterComboPhaseK. exact IH.
Qed.

Lemma inv_evaluateCombos e : Inv e -> phase e = combo -> Inv (fst (evaluateCombos e)).
Proof. apply inv_evaluateCombosN. Qed.

Lemma inv_finishBettingRound e : Inv e -> Inv (fst (finishBettingRound e)).
Proof.
  apply inv_finishBettingRoundN. intros ox.
  apply inv_enterComboPhaseK. exact inv_evaluateCombos.
Qed.

Lemma inv_startBettingRound ref e : Inv e -> Inv (fst (startBettingRound ref e)).
Proof. apply inv_startBettingRoundK. exact inv_finishBettingRound. Qed.

Lemma inv_advanceTurn e : Inv e -> Inv (fst (advanceTurn e)).
Proof.
  intros He. unfold advanceTurn. case_match; [exact He|].
  case_match; [by apply inv_finishBettingRound|]. case_match.
  - apply inv_finishBettingRound. apply (inv_same e); [exact He|]. core_fields.
  - cbn [fst]. apply (inv_same e); [exact He|].
    eapply sameCore_trans; [|apply sameCore_updateActionMessage]. core_fields.
Qed.

End Steps.

Lemma sameCore_firstDealer pid seat (b : bool) e :
  sameCore e
    (if b then updatePlayer pid (set_isDealer true) (set_dealerSeat seat e) else e).
Proof.
  destruct b; [|apply sameCore_refl]. eapply sameCore_trans; [|core_update]. core_fields.
Qed.

Section Intents.
Variable Inv : GameEngine -> Prop.
Hypothesis steps : preserved anyEngine Inv.

Lemma inv_join pid name e : Inv e -> Inv (fst (join pid name e)).
Proof.
  intros He. unfold join. rewrite fst_andThen, fst_broadcast. unfold updatePrivate.
  cbn [fst]. case_bool_decide as Hknown.
  - apply (inv_same Inv steps e); [exact He|]. core_update.
  - apply (pr_join _ _ steps); [done|exact He|].
    destruct (getPlayer pid e) eqn:Hp; [|reflexivity]. exfalso. apply Hknown. eauto.
Qed.

Lemma inv_seatTake pid seat e : isSeat seat -> Inv e -> Inv (fst (seatTake pid seat e)).
Proof.
  intros Hseat He. unfold seatTake.
  destruct (getPlayer pid e) as [player|] eqn:Hplayer; [|exact He].
  destruct (seatOccupant seat e) as [other|] eqn:Hocc.
  - case_bool_decide as Hother; cbn [negb]; [|exact He]. subst other.
    rewrite fst_broadcast.
    apply (inv_same Inv steps (seated pid seat player e)).
    + apply (pr_seatTake _ _ steps); try done. by right.
    + unfold seated. apply sameCore_firstDealer.
  - rewrite fst_broadcast.
    apply (inv_same Inv steps (seated pid seat player e)).
    + apply (pr_seatTake _ _ steps); try done. by left.
    + unfold seated. apply sameCore_firstDealer.
Qed.

Lemma inv_restartTable e : Inv e -> Inv (fst (restartTable e)).
Proof. intros He. by apply (pr_restart _ _ steps). Qed.

Lemma inv_comboUpdate pid selections e : Inv e -> Inv (fst (comboUpdate pid selections e)).
Proof.
  intros He. unfold comboUpdate. destruct (getPlayer pid e) as [player|]; [|exact He].
  case_bool_decide; [exact He|]. unfold updatePrivate. cbn [fst].
  apply (inv_same Inv steps e); [exact He|]. core_update.
Qed.

Lemma inv_betAction pid msg e : Inv e -> Inv (fst (betAction pid msg e)).
Proof.
  intros He. unfold betAction.
  destruct (getPlayer pid e) as [player|] eqn:Hplayer; [|exact He].
  pose proof (getPlayer_id _ _ _ Hplayer) as Hid.
  do 3 (match goal with |- context [if ?c then reject _ _ _ else _] => destruct c end;
        [exact He|]).
  assert (Hafter : forall reset e',
            Inv e' ->
            Inv (fst (((fun e'' => advanceTurn (markSeatActed (seatIndex player) reset e''))
                       ;> broadcast) e'))).
  { intros reset e' He'. rewrite fst_andThen, fst_broadcast.
    apply (inv_advanceTurn Inv steps). apply (inv_same Inv steps e'); [exact He'|].
    apply sameCore_markSeatActed. }
  destruct (action msg).
  - apply Hafter. apply (inv_same Inv steps (folded pid e)).
    + by apply (pr_fold _ _ steps).
    + unfold folded, updatePlayer, sameCore. engine_fields. repeat split.
      apply map_core_congr; [|reflexivity]. intros p q Hpq.
      unfold core in Hpq.
      pose proof (f_equal (fun t => fst (fst (fst (fst (fst (fst (fst (fst t)))))))) Hpq)
        as Hids.
      cbn [fst] in Hids. rewrite Hids. case_bool_decide; [|exact Hpq].
      unfold core in *. player_fields. congruence.
  - case_bool_decide; [exact He|]. apply Hafter.
    apply (inv_same Inv steps e); [exact He|]. core_update.
  - apply Hafter. apply (inv_same Inv steps (callContribution player e)).
    + apply (pr_call _ _ steps); try done. by rewrite Hid.
    + core_update.
  - destruct (raiseBy player (amount msg) e) as [e'|reason] eqn:Hraise; [|exact He].
    apply Hafter. apply (pr_raise _ _ steps e player (amount msg) e'); try done.
    by rewrite Hid.
Qed.

Lemma inv_comboSubmit pid selections e : Inv e -> Inv (fst (comboSubmit pid selections e)).
Proof.
  intros He. unfold comboSubmit. destruct (getPlayer pid e) as [player|]; [|exact He].
  match goal with |- context [if ?c then _ else _] => destruct c end; [exact He|].
  case_bool_decide as Hph; cbn [negb]; [|exact He].
  do 3 (match goal with |- context [if ?c then _ else _] => destruct c end; [exact He|]).
  match goal with
  | |- context [set_awaitingCombo ?w (updatePlayer pid ?f e)] =>
      assert (H2 : sameCore e (set_awaitingCombo w (updatePlayer pid f e)))
        by (eapply sameCore_trans; [|core_fields]; core_update);
      revert H2; generalize (set_awaitingCombo w (updatePlayer pid f e))
  end.
  intros e2 H2. case_bool_decide.
  - assert (H3 : sameCore e (updateActionMessage (set_actingSeat None e2))).
    { eapply sameCore_trans; [exact H2|].
      eapply sameCore_trans; [|apply sameCore_updateActionMessage]. core_fields. }
    apply (inv_evaluateCombos Inv steps); [by eapply inv_same|].
    destruct H3 as (_&_&_&_&_&_&->&_). exact Hph.
  - pose proof (sameCore_setNextComboActor (comboIndex e2 + 1) e2) as Hnext.
    destruct (setNextComboActor (comboIndex e2 + 1) e2) as [found e3]. cbn [snd] in Hnext.
    assert (H3 : sameCore e e3) by (by eapply sameCore_trans).
    destruct found; cbn [negb].
    + rewrite fst_broadcast. by eapply inv_same.
    + apply (inv_evaluateCombos Inv steps); [by eapply inv_same|].
      destruct H3 as (_&_&_&_&_&_&->&_). exact Hph.
Qed.

Lemma inv_seatLeave pid e : Inv e -> Inv (fst (seatLeave pid e)).
Proof.
  intros He. unfold seatLeave.
  destruct (getPlayer pid e) as [player|] eqn:Hplayer; [|exact He].
  rewrite fst_andThen, fst_broadcast.
  match goal with
  | |- context [updatePlayer pid (set_seatIndex None) ?x] =>
      assert (H3 : Inv (updatePlayer pid (set_seatIndex None) x))
  end.
  { apply (inv_same Inv steps (unseated pid player e)).
    - by apply (pr_seatLeave _ _ steps).
    - unfold unseated.
      destruct (truthy (seatIndex player)), (inHand player);
        try destruct (bool_decide (dealerSeat e = seatIndex player)
                      && bool_decide (phase e = waiting));
        core_fields. }
  revert H3.
  match goal with
  | |- context [updatePlayer pid (set_seatIndex None) ?x] =>
      generalize (updatePlayer pid (set_seatIndex None) x)
  end.
  intros e3 He3.
  destruct (bool_decide (phase e3 = combo)) eqn:Hph; cbn [andb].
  - apply bool_decide_eq_true_1 in Hph.
    destruct (bool_decide (pid ∈ awaitingCombo e3)).
    + assert (H4 : sameCore e3 (set_awaitingCombo (awaitingCombo e3 ∖ {[pid]}) e3))
        by core_fields.
      revert H4. generalize (set_awaitingCombo (awaitingCombo e3 ∖ {[pid]}) e3).
      intros e4 H4. pose proof (inv_same Inv steps _ _ He3 H4) as He4.
      assert (Hph4 : phase e4 = combo)
        by (destruct H4 as (_&_&_&_&_&_&->&_); exact Hph).
      case_bool_decide; [|exact He4].
      case_bool_decide.
      * assert (H5 : sameCore e4 (updateActionMessage (set_actingSeat None e4))).
        { eapply sameCore_trans; [|apply sameCore_updateActionMessage]. core_fields. }
        apply (inv_evaluateCombos Inv steps); [by eapply inv_same|].
        destruct H5 as (_&_&_&_&_&_&->&_). exact Hph4.
      * pose proof (sameCore_setNextComboActor (comboIndex e4 + 1) e4) as Hnext.
        destruct (setNextComboActor (comboIndex e4 + 1) e4) as [found e5].
        cbn [snd] in Hnext. pose proof (inv_same Inv steps _ _ He4 Hnext) as He5.
        destruct found; cbn [negb fst]; [exact He5|].
        apply (inv_evaluateCombos Inv steps); [exact He5|].
        destruct Hnext as (_&_&_&_&_&_&->&_). exact Hph4.
    + match goal with |- context [if ?c then advanceTurn else skip] => destruct c end;
        [by apply (inv_advanceTurn Inv steps)|exact He3].
  - match goal with |- context [if ?c then advanceTurn else skip] => destruct c end;
      [by apply (inv_advanceTurn Inv steps)|exact He3].
Qed.

Lemma inv_postBlind poster blind flag e :
  (forall q, core (flag q) = core q) -> 0 <= blind ->
  Inv e -> Inv (postBlind poster blind flag e).
Proof.
  intros Hflag Hblind He. destruct poster as [p|]; [|exact He].
  by apply (pr_blind _ _ steps).
Qed.

Lemma inv_dealHands eligible e : Inv e -> Inv (dealHands eligible e).
Proof.
  unfold dealHands. revert e. induction eligible as [|p ps IH]; intros e He; [exact He|].
  cbn [foldl]. apply IH. by apply (pr_deal _ _ steps e p).
Qed.

Lemma sameCore_markDealers eligible e :
  sameCore e
    (foldl (fun e' p =>
              updatePlayer (playerId p)
                (fun q => set_isDealer (bool_decide (seatIndex q = dealerSeat e')) q) e')
       e eligible).
Proof. apply sameCore_foldl_update. intros e' p. core_update. Qed.

Lemma inv_assignBlinds eligible e : Inv e -> Inv (assignBlinds eligible e).
Proof.
  intros He. unfold assignBlinds.
  match goal with
  | |- context [foldl ?f ?x eligible] =>
      assert (H1 : sameCore e x);
      [|pose proof (sameCore_markDealers eligible x) as H2; cbv beta in H2;
        revert H1 H2; generalize (foldl f x eligible); generalize x]
  end.
  { repeat case_match; try apply sameCore_refl.
    eapply sameCore_trans; [|core_update]. core_fields. }
  intros e1 e2 H1 H2.
  assert (He2 : Inv e2).
  { apply (inv_same Inv steps e); [exact He|]. by eapply sameCore_trans. }
  apply inv_postBlind; [intros q; reflexivity|unfold BIG_BLIND; lia|].
  apply inv_postBlind; [intros q; reflexivity|unfold SMALL_BLIND; lia|].
  apply (inv_same Inv steps e2); [exact He2|]. core_fields.
Qed.

Lemma beginHand_opened random eligible e :
  beginHand random eligible e
  = startBettingRound
      (smallBlindSeat
         (assignBlinds eligible
            (set_bossVisible true (dealHands eligible (opened random eligible e)))))
      (assignBlinds eligible
         (set_bossVisible true (dealHands eligible (opened random eligible e)))).
Proof. reflexivity. Qed.

Lemma inv_startHand pid random e : Inv e -> Inv (fst (startHand pid random e)).
Proof.
  intros He. unfold startHand. destruct (getPlayer pid e) as [player|]; [|exact He].
  match goal with |- context [if ?c then reject _ _ _ else _] => destruct c end;
    [exact He|].
  destruct (isHandActive e) eqn:Hactive; [exact He|].
  match goal with |- context [if ?c then reject _ _ _ else _] => destruct c end;
    [exact He|].
  rewrite fst_andThen, fst_broadcast, beginHand_opened.
  apply (inv_startBettingRound Inv steps), inv_assignBlinds.
  match goal with
  | |- Inv (set_bossVisible true ?x) => apply (inv_same Inv steps x); [|core_fields]
  end.
  apply inv_dealHands. apply (pr_open _ _ steps); [done|exact He|].
  unfold isHandActive in Hactive. apply negb_false_iff in Hactive.
  by apply bool_decide_eq_true_1 in Hactive.
Qed.

(** An invariant that holds of the new engine and is kept by every step
    holds of every engine that a run can reach. *)
Lemma reachable_preserved e : Inv newEngine -> reachable e -> Inv e.
Proof.
  intros Hnew. induction 1 as [|e i _ IH Htyped]; [exact Hnew|].
  destruct i; cbn [perform].
  - by apply inv_join.
  - apply inv_seatTake; [exact Htyped|exact IH].
  - by apply inv_seatLeave.
  - by apply inv_startHand.
  - by apply inv_betAction.
  - by apply inv_comboUpdate.
  - by apply inv_comboSubmit.
  - by apply inv_restartTable.
Qed.

End Intents.

(** Invariants can be established one after the other. *)
Lemma preserved_and (K Inv : GameEngine -> Prop) :
  preserved anyEngine K -> preserved K Inv ->
  preserved anyEngine (fun e => K e /\ Inv e).
Proof.
  intros HK HI.
  split; intros;
    repeat match goal with H : _ /\ _ |- _ => destruct H end.
  - split; [eapply (pr_same _ _ HK)|eapply (pr_same _ _ HI)]; first [eassumption|exact I].
  - split; [eapply (pr_join _ _ HK)|eapply (pr_join _ _ HI)]; first [eassumption|exact I].
  - split; [eapply (pr_seatTake _ _ HK)|eapply (pr_seatTake _ _ HI)];
      first [eassumption|exact I].
  - split; [eapply (pr_seatLeave _ _ HK)|eapply (pr_seatLeave _ _ HI)];
      first [eassumption|exact I].
  - split; [eapply (pr_open _ _ HK)|eapply (pr_open _ _ HI)]; first [eassumption|exact I].
  - split; [eapply (pr_deal _ _ HK)|eapply (pr_deal _ _ HI)]; first [eassumption|exact I].
  - split; [eapply (pr_blind _ _ HK)|eapply (pr_blind _ _ HI)];
      first [eassumption|exact I].
  - split; [eapply (pr_fold _ _ HK)|eapply (pr_fold _ _ HI)]; first [eassumption|exact I].
  - split; [eapply (pr_call _ _ HK)|eapply (pr_call _ _ HI)]; first [eassumption|exact I].
  - split; [eapply (pr_raise _ _ HK)|eapply (pr_raise _ _ HI)];
      first [eassumption|exact I].
  - split; [eapply (pr_restart _ _ HK)|eapply (pr_restart _ _ HI)];
      first [eassumption|exact I].
  - split; [eapply (pr_reset _ _ HK)|eapply (pr_reset _ _ HI)];
      first [eassumption|exact I].
  - split; [eapply (pr_charge _ _ HK)|eapply (pr_charge _ _ HI)];
      first [eassumption|exact I].
  - split; [eapply (pr_stomp _ _ HK)|eapply (pr_stomp _ _ HI)];
      first [eassumption|exact I].
  - split; [eapply (pr_combo _ _ HK)|eapply (pr_combo _ _ HI)];
      first [eassumption|exact I].
  - split; [eapply (pr_oxtail _ _ HK)|eapply (pr_oxtail _ _ HI)];
      first [eassumption|exact I].
  - split; [eapply (pr_settle _ _ HK)|eapply (pr_settle _ _ HI)];
      first [eassumption|exact I].
Qed.

(** ** What a step keeps of the players *)

Lemma keeps_refl {A} (g : EnginePlayer -> A) e : keeps g e e.
Proof. reflexivity. Qed.

Lemma keeps_trans {A} (g : EnginePlayer -> A) e1 e2 e3 :
  keeps g e1 e2 -> keeps g e2 e3 -> keeps g e1 e3.
Proof. unfold keeps. congruence. Qed.

Lemma keeps_players {A} (g : EnginePlayer -> A) e e' :
  players e' = players e -> keeps g e e'.
Proof. unfold keeps. by intros ->. Qed.

Lemma keeps_forAllPlayers {A} (g : EnginePlayer -> A) f e :
  (forall p, g (f p) = g p) -> keeps g e (forAllPlayers f e).
Proof.
  intros Hf. unfold keeps, forAllPlayers. engine_fields. rewrite map_map.
  apply map_ext. exact Hf.
Qed.

Lemma keeps_updatePlayer {A} (g : EnginePlayer -> A) pid f e :
  (forall p, g (f p) = g p) -> keeps g e (updatePlayer pid f e).
Proof.
  intros Hf. unfold keeps, updatePlayer. engine_fields. rewrite map_map.
  apply map_ext. intros p. by case_bool_decide.
Qed.

Lemma keeps_foldl {A B} (g : EnginePlayer -> A) (h : GameEngine -> B -> GameEngine)
    (l : list B) e :
  (forall e' x, keeps g e' (h e' x)) -> keeps g e (foldl h e l).
Proof.
  intros Hh. revert e. induction l as [|x l IH]; intros e; [apply keeps_refl|].
  cbn [foldl]. eapply keeps_trans; [apply Hh|apply IH].
Qed.

Lemma keeps_sameCore {A} (g : EnginePlayer -> A) e e' :
  (forall p q, core p = core q -> g p = g q) -> sameCore e e' -> keeps g e e'.
Proof.
  intros Hg [Hcore _]. unfold keeps. revert Hcore.
  generalize (players e) (players e'). intros ps qs. revert ps.
  induction qs as [|q qs IH]; intros [|p ps] Heq; try discriminate; [reflexivity|].
  cbn [map] in *.
  pose proof (f_equal (fun l => match l with x :: _ => x | [] => core p end) Heq) as Hpq.
  pose proof (f_equal (fun l => match l with _ :: t => t | [] => [] end) Heq) as Hrest.
  cbn beta iota in Hpq, Hrest. f_equal; [by apply Hg|by apply IH].
Qed.

Lemma keeps_commitAmount {A} (g : EnginePlayer -> A) pid amount e :
  (forall p s b t, g (set_totalBet t (set_betThisRound b (set_stack s p))) = g p) ->
  keeps g e (commitAmount pid amount e).
Proof.
  intros Hg. unfold commitAmount.
  eapply keeps_trans; [|apply keeps_players, players_updateSidePotValues].
  eapply keeps_trans; [|apply keeps_players; reflexivity].
  apply keeps_updatePlayer. intros p. apply Hg.
Qed.

Lemma keeps_callContribution {A} (g : EnginePlayer -> A) p e :
  (forall p s b t, g (set_totalBet t (set_betThisRound b (set_stack s p))) = g p) ->
  keeps g e (callContribution p e).
Proof.
  intros Hg. unfold callContribution. case_bool_decide; [apply keeps_refl|].
  by apply keeps_commitAmount.
Qed.

Lemma keeps_raiseBy {A} (g : EnginePlayer -> A) p amount' e e' :
  (forall p s b t, g (set_totalBet t (set_betThisRound b (set_stack s p))) = g p) ->
  (forall p a, g (set_lastAction a p) = g p) ->
  raiseBy p amount' e = inl e' -> keeps g e e'.
Proof.
  intros Hg Hlast. unfold raiseBy. repeat (case_match; try discriminate). intros [= <-].
  eapply keeps_trans; [|apply keeps_updatePlayer; intros q; apply Hlast].
  eapply keeps_trans; [|apply keeps_players; reflexivity].
  by apply keeps_commitAmount.
Qed.

Lemma keeps_postBlind {A} (g : EnginePlayer -> A) poster blind flag e :
  (forall p, g (flag p) = g p) ->
  (forall p s b t, g (set_totalBet t (set_betThisRound b (set_stack s p))) = g p) ->
  (forall p b, g (set_betThisRound b p) = g p) ->
  keeps g e (postBlind poster blind flag e).
Proof.
  intros Hflag Hg Hbet. unfold postBlind. destruct poster as [p|]; [|apply keeps_refl].
  eapply keeps_trans; [|apply keeps_players; reflexivity].
  eapply keeps_trans; [|apply keeps_updatePlayer; intros q; apply Hbet].
  eapply keeps_trans; [|by apply keeps_commitAmount].
  by apply keeps_updatePlayer.
Qed.

Lemma keeps_seated {A} (g : EnginePlayer -> A) pid seat player e :
  (forall p s n, g (set_entryHand n (set_seatIndex s p)) = g p) ->
  keeps g e (seated pid seat player e).
Proof.
  intros Hg. unfold seated.
  eapply keeps_trans; [|apply keeps_updatePlayer; intros q; apply Hg].
  apply keeps_players. by case_match.
Qed.

Lemma keeps_unseated {A} (g : EnginePlayer -> A) pid player e :
  (forall p, g (set_inHand false (set_hasFolded true p)) = g p) ->
  (forall p, g (set_seatIndex None p) = g p) ->
  keeps g e (unseated pid player e).
Proof.
  intros Hfold Hseat. unfold unseated.
  eapply keeps_trans; [|apply keeps_updatePlayer; intros q; apply Hseat].
  destruct (inHand player).
  - eapply keeps_trans; [|apply keeps_updatePlayer; intros q; apply Hfold].
    apply keeps_players. by case_match.
  - apply keeps_players. by case_match.
Qed.

Lemma keeps_folded {A} (g : EnginePlayer -> A) pid e :
  (forall p, g (set_inHand false (set_hasFolded true p)) = g p) ->
  keeps g e (folded pid e).
Proof. intros Hg. by apply keeps_updatePlayer. Qed.

Lemma keeps_dealtTo {A} (g : EnginePlayer -> A) e p :
  (forall q cards, g (set_hand cards q) = g q) -> keeps g e (dealtTo e p).
Proof.
  intros Hg. unfold dealtTo, drawCards.
  eapply keeps_trans; [|apply keeps_updatePlayer; intros q; apply Hg].
  by apply keeps_players.
Qed.

Lemma keeps_resetPlayersForHand {A} (g : EnginePlayer -> A) eligible e :
  (forall p, g (clearedForHand p) = g p) ->
  (forall p, g (set_inHand true p) = g p) ->
  keeps g e (resetPlayersForHand eligible e).
Proof.
  intros Hclear Hin. unfold resetPlayersForHand.
  eapply keeps_trans; [apply keeps_forAllPlayers; exact Hclear|].
  apply keeps_foldl. intros e' p. by apply keeps_updatePlayer.
Qed.

Lemma keeps_opened {A} (g : EnginePlayer -> A) random eligible e :
  (forall p, g (clearedForHand p) = g p) ->
  (forall p, g (set_inHand true p) = g p) ->
  keeps g e (opened random eligible e).
Proof.
  intros Hclear Hin. unfold opened, drawCards.
  eapply keeps_trans; [|apply keeps_players; reflexivity].
  eapply keeps_trans; [|by apply keeps_resetPlayersForHand].
  by apply keeps_players.
Qed.

Lemma keeps_resetRound {A} (g : EnginePlayer -> A) e :
  (forall p, g (set_betThisRound 0 p) = g p) -> keeps g e (resetRound e).
Proof.
  intros Hg. unfold resetRound.
  eapply keeps_trans; [|apply keeps_players; reflexivity].
  eapply keeps_trans; [|apply keeps_forAllPlayers; exact Hg].
  by apply keeps_players.
Qed.

Lemma keeps_paid {A} (g : EnginePlayer -> A) rs award e :
  (forall p s, g (set_stack s p) = g p) -> keeps g e (paid rs award e).
Proof.
  intros Hg. unfold paid. apply keeps_foldl. intros e' r.
  apply keeps_updatePlayer. intros p. apply Hg.
Qed.

Lemma keeps_handOver {A} (g : EnginePlayer -> A) e :
  (forall p, g (set_betThisRound 0 (set_hasFolded false (set_inHand false p))) = g p) ->
  keeps g e (handOver e).
Proof.
  intros Hg. unfold handOver.
  eapply keeps_trans; [|apply keeps_forAllPlayers; exact Hg]. by apply keeps_players.
Qed.

Lemma players_restartTable e :
  players (fst (restartTable e)) = map clearedForTable (players e).
Proof. reflexivity. Qed.

Lemma keeps_restartTable {A} (g : EnginePlayer -> A) e :
  (forall p, g (clearedForTable p) = g p) -> keeps g e (fst (restartTable e)).
Proof.
  intros Hg. unfold keeps. rewrite players_restartTable, map_map. by apply map_ext.
Qed.

(** ** Distinct ids *)

Lemma distinctIds_keeps e e' : keeps playerId e e' -> distinctIds e -> distinctIds e'.
Proof. unfold keeps, distinctIds. by intros ->. Qed.

Lemma preserved_distinctIds : preserved anyEngine distinctIds.
Proof.
  split; intros ? *; intros _ Hids; intros.
  - eapply distinctIds_keeps; [|exact Hids]. apply keeps_sameCore; [|done].
    intros p q Hpq. unfold core in Hpq. congruence.
  - unfold distinctIds, joined. engine_fields. rewrite map_app. cbn [map newcomer playerId].
    apply NoDup_app. split; [exact Hids|]. split; [|apply NoDup_singleton].
    intros x Hx Hnew. apply list_elem_of_singleton in Hnew. subst x.
    by apply (getPlayer_None_fresh pid e).
  - eapply distinctIds_keeps; [|exact Hids]. by apply keeps_seated.
  - eapply distinctIds_keeps; [|exact Hids]. by apply keeps_unseated.
  - eapply distinctIds_keeps; [|exact Hids]. by apply keeps_opened.
  - eapply distinctIds_keeps; [|exact Hids]. by apply keeps_dealtTo.
  - eapply distinctIds_keeps; [|exact Hids]. apply keeps_postBlind; try done.
    intros q. match goal with H : forall q, core (flag q) = core q |- _ =>
      pose proof (H q) as Hq end. unfold core in Hq. congruence.
  - eapply distinctIds_keeps; [|exact Hids]. by apply keeps_folded.
  - eapply distinctIds_keeps; [|exact Hids]. by apply keeps_callContribution.
  - eapply distinctIds_keeps; [|exact Hids]. by eapply keeps_raiseBy.
  - eapply distinctIds_keeps; [|exact Hids]. by apply keeps_restartTable.
  - eapply distinctIds_keeps; [|exact Hids]. by apply keeps_resetRound.
  - exact Hids.
  - exact Hids.
  - exact Hids.
  - exact Hids.
  - eapply distinctIds_keeps; [|exact Hids].
    eapply keeps_trans; [by apply keeps_paid|]. by apply keeps_handOver.
Qed.

(** ** What a step keeps of the table

    [h] reads a field of the engine that the step does not assign. *)

Section Fields.
Context {A : Type} (h : GameEngine -> A).


Lemma field_updatePlayer pid f e :
  assigned_elsewhere h set_players -> h (updatePlayer pid f e) = h e.
Proof. intros Hp. apply Hp. Qed.

Lemma field_forAllPlayers f e : assigned_elsewhere h set_players -> h (forAllPlayers f e) = h e.
Proof. intros Hp. apply Hp. Qed.

Lemma field_foldl {B} (g : GameEngine -> B -> GameEngine) (l : list B) e :
  (forall e' x, h (g e' x) = h e') -> h (foldl g e l) = h e.
Proof.
  intros Hg. revert e. induction l as [|x l IH]; intros e; [reflexivity|].
  cbn [foldl]. by rewrite IH, Hg.
Qed.

Lemma field_updateSidePotValues e :
  assigned_elsewhere h set_pot -> assigned_elsewhere h set_sidePot -> h (updateSidePotValues e) = h e.
Proof.
  intros Hpot Hside. unfold updateSidePotValues. case_match; by rewrite Hside, Hpot.
Qed.

Lemma field_commitAmount pid amount e :
  assigned_elsewhere h set_players -> assigned_elsewhere h set_pot -> assigned_elsewhere h set_sidePot ->
  h (commitAmount pid amount e) = h e.
Proof.
  intros Hp Hpot Hside. unfold commitAmount.
  rewrite field_updateSidePotValues by done. rewrite Hpot. apply Hp.
Qed.

Lemma field_callContribution p e :
  assigned_elsewhere h set_players -> assigned_elsewhere h set_pot -> assigned_elsewhere h set_sidePot ->
  h (callContribution p e) = h e.
Proof.
  intros Hp Hpot Hside. unfold callContribution. case_bool_decide; [reflexivity|].
  by apply field_commitAmount.
Qed.

Lemma field_raiseBy p amount' e e' :
  assigned_elsewhere h set_players -> assigned_elsewhere h set_pot -> assigned_elsewhere h set_sidePot ->
  assigned_elsewhere h set_currentBet -> assigned_elsewhere h set_minimumRaise ->
  raiseBy p amount' e = inl e' -> h e' = h e.
Proof.
  intros Hp Hpot Hside Hcur Hmin. unfold raiseBy.
  repeat (case_match; try discriminate). intros [= <-].
  rewrite field_updatePlayer by done. rewrite Hmin, Hcur. by apply field_commitAmount.
Qed.

Lemma field_postBlind poster blind flag e :
  assigned_elsewhere h set_players -> assigned_elsewhere h set_pot -> assigned_elsewhere h set_sidePot ->
  assigned_elsewhere h set_currentBet ->
  h (postBlind poster blind flag e) = h e.
Proof.
  intros Hp Hpot Hside Hcur. unfold postBlind. destruct poster as [p|]; [|reflexivity].
  rewrite Hcur, field_updatePlayer by done. rewrite field_commitAmount by done.
  by apply field_updatePlayer.
Qed.

Lemma field_unseated pid player e :
  assigned_elsewhere h set_players -> assigned_elsewhere h set_seats -> h (unseated pid player e) = h e.
Proof.
  intros Hp Hseats. unfold unseated. rewrite field_updatePlayer by done.
  destruct (inHand player); rewrite ?field_updatePlayer by done;
    case_match; by rewrite ?Hseats.
Qed.

Lemma field_seated pid seat player e :
  assigned_elsewhere h set_players -> assigned_elsewhere h set_seats -> h (seated pid seat player e) = h e.
Proof.
  intros Hp Hseats. unfold seated. rewrite field_updatePlayer by done.
  rewrite Hseats. case_match; by rewrite ?Hseats.
Qed.

Lemma field_resetRound e :
  assigned_elsewhere h set_players -> assigned_elsewhere h set_currentBet -> assigned_elsewhere h set_minimumRaise ->
  assigned_elsewhere h set_actingSeat -> assigned_elsewhere h set_actedThisRound ->
  h (resetRound e) = h e.
Proof.
  intros Hp Hcur Hmin Hacting Hacted. unfold resetRound.
  rewrite Hmin, Hcur, field_forAllPlayers by done. by rewrite Hacted, Hacting.
Qed.

Lemma field_paid rs award e : assigned_elsewhere h set_players -> h (paid rs award e) = h e.
Proof.
  intros Hp. unfold paid. apply field_foldl. intros e' r. by apply field_updatePlayer.
Qed.

Lemma field_resetPlayersForHand eligible e :
  assigned_elsewhere h set_players -> h (resetPlayersForHand eligible e) = h e.
Proof.
  intros Hp. unfold resetPlayersForHand. rewrite field_foldl.
  - by apply field_forAllPlayers.
  - intros e' p. by apply field_updatePlayer.
Qed.

End Fields.

Lemma seats_opened random eligible e : seats (opened random eligible e) = seats e.
Proof.
  unfold opened, drawCards. engine_fields. by rewrite field_resetPlayersForHand.
Qed.

(** ** Cards *)

Lemma hands_keeps e e' :
  keeps hand e e' -> deck e' = deck e -> bossCards e' = bossCards e ->
  allCards e' = allCards e.
Proof. unfold keeps, allCards. by intros -> -> ->. Qed.

Lemma cardsFromDeck_keeps e e' :
  keeps hand e e' -> deck e' = deck e -> bossCards e' = bossCards e ->
  cardsFromDeck e -> cardsFromDeck e'.
Proof. intros Hh Hd Hb. unfold cardsFromDeck. by rewrite (hands_keeps e e'). Qed.

(** The hands after [cards] are given to the player with id [pid]. *)
Lemma hands_dealt pid cards ps :
  NoDup (map playerId ps) ->
  concat (map hand
            (map (fun p => if bool_decide (playerId p = pid) then set_hand cards p else p)
               ps))
  ⊆+ cards ++ concat (map hand ps).
Proof.
  induction ps as [|p ps IH]; intros Hnd; cbn [map concat].
  - rewrite app_nil_r. apply submseteq_nil_l.
  - cbn [map] in Hnd. apply NoDup_cons in Hnd as [Hfresh Hnd]. case_bool_decide as Hp.
    + player_fields.
      assert (Hrest : map (fun q => if bool_decide (playerId q = pid)
                                    then set_hand cards q else q) ps = ps).
      { rewrite <- (map_id ps) at 2. apply map_ext_in. intros q Hq.
        rewrite bool_decide_eq_false_2; [reflexivity|]. intros Hid. apply Hfresh.
        rewrite Hp, <- Hid. apply list_elem_of_fmap. exists q.
        split; [reflexivity|by apply list_elem_of_In]. }
      rewrite Hrest. apply submseteq_app; [reflexivity|].
      apply submseteq_inserts_l. reflexivity.
    + etransitivity; [apply submseteq_app; [reflexivity|by apply IH]|].
      rewrite !(assoc app). apply submseteq_app; [|reflexivity].
      by rewrite (comm app).
Qed.

Lemma concat_empty_hands (f : EnginePlayer -> EnginePlayer) ps :
  (forall p, hand (f p) = []) -> concat (map hand (map f ps)) = [].
Proof.
  intros Hf. induction ps as [|p ps IH]; [reflexivity|]. cbn [map concat].
  by rewrite Hf, IH.
Qed.

Lemma hands_opened random eligible e :
  concat (map hand (players (opened random eligible e))) = [].
Proof.
  assert (Hkeeps : keeps hand
                     (forAllPlayers clearedForHand (set_handNumber (handNumber e + 1) e))
                     (opened random eligible e)).
  { unfold opened, drawCards, resetPlayersForHand.
    eapply keeps_trans; [|apply keeps_players; reflexivity].
    apply keeps_foldl. intros e' p. by apply keeps_updatePlayer. }
  unfold keeps in Hkeeps. rewrite Hkeeps. unfold forAllPlayers. engine_fields.
  by apply concat_empty_hands.
Qed.

Lemma cards_opened random eligible e :
  deck (opened random eligible e) = drop 5 (buildDeck random)
  /\ bossCards (opened random eligible e) = take 5 (buildDeck random).
Proof. split; reflexivity. Qed.

Lemma drop_take_submseteq {A} n (d l : list A) : d ≡ₚ l -> drop n d ++ take n d ⊆+ l.
Proof.
  intros Hd. apply Permutation_submseteq. etransitivity; [|exact Hd].
  etransitivity; [apply Permutation_app_comm|]. by rewrite take_drop.
Qed.

Lemma dealt_Permutation {A} n (d b hs : list A) :
  drop n d ++ b ++ take n d ++ hs ≡ₚ d ++ b ++ hs.
Proof.
  rewrite <- (take_drop n d) at 3. generalize (take n d) (drop n d). intros t r.
  etransitivity; [apply Permutation_app_head, Permutation_app_swap_app|].
  etransitivity; [apply Permutation_app_swap_app|]. by rewrite (assoc app).
Qed.

Lemma preserved_cardsFromDeck : preserved distinctIds cardsFromDeck.
Proof.
  split; intros ? *; intros Hids Hcards; intros.
  - destruct H as (Hcore&?&?&?&?&?). eapply cardsFromDeck_keeps; try eassumption.
    apply keeps_sameCore; [|done]. intros p q Hpq. unfold core in Hpq. congruence.
  - unfold cardsFromDeck, allCards, joined in *. engine_fields.
    rewrite map_app, concat_app. cbn [map newcomer hand concat].
    by rewrite !app_nil_r.
  - eapply cardsFromDeck_keeps; [| | |exact Hcards];
      [by apply keeps_seated|by apply field_seated..].
  - eapply cardsFromDeck_keeps; [| | |exact Hcards];
      [by apply keeps_unseated|by apply field_unseated..].
  - unfold cardsFromDeck, allCards. rewrite hands_opened, app_nil_r.
    destruct (cards_opened random (getEligibleSeatedPlayers e) e) as [-> ->].
    apply drop_take_submseteq, buildDeck_Permutation.
  - unfold cardsFromDeck, allCards, dealtTo, drawCards, updatePlayer in *.
    engine_fields. etransitivity; [|exact Hcards].
    etransitivity;
      [apply submseteq_app; [reflexivity|];
       apply submseteq_app; [reflexivity|];
       apply (hands_dealt (playerId p) (take 7 (deck e)) (players e) Hids)|].
    apply Permutation_submseteq, dealt_Permutation.
  - eapply cardsFromDeck_keeps; [| | |exact Hcards];
      [|by apply field_postBlind..].
    apply keeps_postBlind; try done. intros q. pose proof (H q) as Hq.
    unfold core in Hq. congruence.
  - eapply cardsFromDeck_keeps; [| | |exact Hcards]; [by apply keeps_folded|done..].
  - eapply cardsFromDeck_keeps; [| | |exact Hcards];
      [by apply keeps_callContribution|by apply field_callContribution..].
  - eapply cardsFromDeck_keeps; [| | |exact Hcards];
      [by eapply keeps_raiseBy|by eapply field_raiseBy..].
  - unfold cardsFromDeck, allCards. rewrite players_restartTable.
    rewrite concat_empty_hands by reflexivity. apply submseteq_nil_l.
  - eapply cardsFromDeck_keeps; [| | |exact Hcards];
      [by apply keeps_resetRound|by apply field_resetRound..].
  - exact Hcards.
  - exact Hcards.
  - exact Hcards.
  - unfold cardsFromDeck, allCards, oxtailDrawn in *. engine_fields.
    etransitivity; [|exact Hcards]. apply Permutation_submseteq. rewrite H0.
    generalize (bossCards e) (concat (map hand (players e))). intros b hs.
    rewrite <- !(assoc app). cbn [app].
    transitivity ((rest ++ b) ++ card :: hs); [by rewrite <- (assoc app)|]. symmetry.
    transitivity (card :: (rest ++ b) ++ hs);
      [by rewrite <- (assoc app)|apply Permutation_middle].
  - unfold cardsFromDeck, allCards in *. etransitivity; [|exact Hcards].
    assert (Hhands : keeps hand e (handOver (paid recipients award e))).
    { eapply keeps_trans; [by apply keeps_paid|]. by apply keeps_handOver. }
    unfold keeps in Hhands. rewrite Hhands.
    assert (Hdeck : deck (handOver (paid recipients award e)) = deck e).
    { unfold handOver. engine_fields. by apply field_paid. }
    rewrite Hdeck. apply submseteq_app; [reflexivity|].
    cbn [handOver forAllPlayers]. engine_fields. cbn [app].
    apply submseteq_inserts_l. reflexivity.
Qed.

Lemma NoDup_within {A} (l k : list A) : l ⊆+ k -> NoDup k -> NoDup l.
Proof.
  induction 1 as [|x l k Hlk IH|x y l|x l k Hlk IH|l k m _ IH1 _ IH2]; intros Hnd.
  - constructor.
  - apply NoDup_cons in Hnd as [Hx Hnd]. apply NoDup_cons. split; [|by apply IH].
    intros Hin. apply Hx. by apply (elem_of_submseteq l k).
  - by rewrite (Permutation_swap x y l).
  - apply NoDup_cons in Hnd as [_ Hnd]. by apply IH.
  - by apply IH1, IH2.
Qed.

Lemma preserved_ids_cards :
  preserved anyEngine (fun e => distinctIds e /\ cardsFromDeck e).
Proof. apply preserved_and; [apply preserved_distinctIds|apply preserved_cardsFromDeck]. Qed.

(** X4.  In every engine that a run can reach, the cards of the deck, of
    the Boss and of the players' hands, taken together, are cards of the
    52-card deck with none of them twice: a card is in one place only, and
    there are never more than 52. *)
Theorem cards_in_one_place e :
  reachable e ->
  allCards e ⊆+ orderedDeck
  /\ NoDup (map card_id (allCards e))
  /\ (length (allCards e) <= 52)%nat.
Proof.
  intros Hreach.
  assert (Hcards : cardsFromDeck e).
  { apply (reachable_preserved _ preserved_ids_cards e); [|exact Hreach].
    split; [constructor|]. apply submseteq_nil_l. }
  split; [exact Hcards|]. split.
  - eapply NoDup_within; [|apply NoDup_orderedDeck_ids].
    by apply fmap_submseteq.
  - rewrite <- length_orderedDeck. by apply submseteq_length.
Qed.

Lemma cards_in_one_place_witness :
  reachable comboTable
  /\ length (allCards comboTable) = 52%nat
  /\ NoDup (map card_id (allCards comboTable)).
Proof.
  assert (Hreach : reachable comboTable).
  { unfold comboTable. apply reachable_run; [vm_compute; reflexivity|].
    apply reachable_new. }
  split; [exact Hreach|]. split; [vm_compute; reflexivity|].
  exact (proj1 (proj2 (cards_in_one_place comboTable Hreach))).
Defined.

(** ** Chips *)

Lemma Forall_keeps {A} (g : EnginePlayer -> A) (P : A -> Prop) e e' :
  keeps g e e' ->
  Forall (fun p => P (g p)) (players e) -> Forall (fun p => P (g p)) (players e').
Proof.
  unfold keeps. intros Hg Hall.
  apply List.Forall_map. rewrite Hg. by apply List.Forall_map.
Qed.

Lemma nonNegative_keeps e e' :
  keeps stack e e' -> keeps totalBet e e' -> nonNegative e -> nonNegative e'.
Proof.
  intros Hs Ht [Hstack Hbet]. split.
  - by apply (Forall_keeps stack (fun s => 0 <= s) e e').
  - by apply (Forall_keeps totalBet (fun t => 0 <= t) e e').
Qed.

Lemma players_commitAmount pid amount e :
  players (commitAmount pid amount e)
  = map (fun p =>
           if bool_decide (playerId p = pid)
           then set_totalBet (totalBet p + Z.min (stack p) amount)
                  (set_betThisRound (betThisRound p + Z.min (stack p) amount)
                     (set_stack (stack p - Z.min (stack p) amount) p))
           else p)
      (players e).
Proof. unfold commitAmount. by rewrite players_updateSidePotValues. Qed.

Lemma Forall_both {A} (P Q : A -> Prop) l :
  Forall P l -> Forall Q l -> Forall (fun x => P x /\ Q x) l.
Proof. intros HP HQ. apply Forall_and. by split. Qed.

Lemma nonNegative_commitAmount pid amount e :
  0 <= amount -> nonNegative e -> nonNegative (commitAmount pid amount e).
Proof.
  intros Hamount [Hstack Hbet]. pose proof (Forall_both _ _ _ Hstack Hbet) as Hboth.
  unfold nonNegative. rewrite players_commitAmount.
  split; apply List.Forall_map; (eapply Forall_impl; [exact Hboth|]);
    intros p [Hs Ht]; cbn beta; case_bool_decide; player_fields; lia.
Qed.

Lemma nonNegative_players e e' : players e' = players e -> nonNegative e -> nonNegative e'.
Proof. unfold nonNegative. by intros ->. Qed.

Lemma sumZ_nonneg l : Forall (fun x => 0 <= x) l -> 0 <= sumZ l.
Proof.
  induction 1 as [|x l Hx _ IH]; [by rewrite sumZ_nil|]. rewrite sumZ_cons. lia.
Qed.

Lemma totalPot_nonneg e : nonNegative e -> 0 <= totalPot e.
Proof.
  intros [_ Hbet]. rewrite totalPot_sum. unfold sumTotalBets.
  apply sumZ_nonneg. by apply List.Forall_map.
Qed.

Lemma payCase_award e rs award : nonNegative e -> payCase e rs award -> 0 <= award.
Proof.
  intros Hnn Hpay. pose proof (totalPot_nonneg e Hnn) as Hpot.
  destruct Hpay as [|r Hr|chosen Hlen]; [lia|exact Hpot|].
  apply Z.div_pos; lia.
Qed.

Lemma nonNegative_paid rs award e :
  0 <= award -> nonNegative e -> nonNegative (paid rs award e).
Proof.
  intros Haward. unfold paid. revert e. induction rs as [|r rs IH]; intros e Hnn; [done|].
  cbn [foldl]. apply IH. destruct Hnn as [Hstack Hbet]. split.
  - unfold updatePlayer. engine_fields. apply List.Forall_map.
    eapply Forall_impl; [exact Hstack|]. intros p Hp. cbn beta in *.
    case_bool_decide; player_fields; lia.
  - by apply (Forall_keeps totalBet (fun t => 0 <= t) e); [apply keeps_updatePlayer|].
Qed.

Lemma flag_keeps {A} (g : EnginePlayer -> A) (flag : EnginePlayer -> EnginePlayer) :
  (forall p q, core p = core q -> g p = g q) ->
  (forall q, core (flag q) = core q) -> forall q, g (flag q) = g q.
Proof. intros Hg Hflag q. by apply Hg. Qed.

Lemma nonNegative_postBlind p blind flag e :
  (forall q, core (flag q) = core q) -> 0 <= blind ->
  nonNegative e -> nonNegative (postBlind (Some p) blind flag e).
Proof.
  intros Hflag Hblind Hnn. unfold postBlind.
  eapply nonNegative_players; [reflexivity|].
  eapply nonNegative_keeps; [by apply keeps_updatePlayer..|].
  apply nonNegative_commitAmount; [exact Hblind|].
  eapply nonNegative_keeps; [| |exact Hnn]; apply keeps_updatePlayer;
    apply flag_keeps; try done; intros x y Hxy; unfold core in Hxy; congruence.
Qed.

Lemma nonNegative_raiseBy p amount' e e' :
  raiseBy p amount' e = inl e' -> nonNegative e -> nonNegative e'.
Proof.
  unfold raiseBy. repeat (case_match; try discriminate). intros [= <-] Hnn.
  eapply nonNegative_keeps; [by apply keeps_updatePlayer..|].
  eapply nonNegative_players; [reflexivity|].
  apply nonNegative_commitAmount; [|exact Hnn].
  repeat match goal with H : bool_decide _ = false |- _ =>
    apply bool_decide_eq_false_1 in H end.
  unfold RAISE_INCREMENT in *. lia.
Qed.

Lemma nonNegative_callContribution p e :
  nonNegative e -> nonNegative (callContribution p e).
Proof.
  intros Hnn. unfold callContribution. case_bool_decide; [exact Hnn|].
  apply nonNegative_commitAmount; [lia|exact Hnn].
Qed.

Lemma totalBet_opened random eligible e :
  map totalBet (players (opened random eligible e)) = map (fun _ => 0) (players e).
Proof.
  assert (Hkeeps : keeps totalBet
                     (forAllPlayers clearedForHand (set_handNumber (handNumber e + 1) e))
                     (opened random eligible e)).
  { unfold opened, drawCards, resetPlayersForHand.
    eapply keeps_trans; [|apply keeps_players; reflexivity].
    apply keeps_foldl. intros e' p. by apply keeps_updatePlayer. }
  unfold keeps in Hkeeps. rewrite Hkeeps. unfold forAllPlayers. engine_fields.
  rewrite map_map. by apply map_ext.
Qed.

Lemma Forall_const_map {A B} (P : B -> Prop) (x : B) (l : list A) :
  P x -> Forall P (map (fun _ => x) l).
Proof. intros Hx. apply List.Forall_map. by apply Forall_forall. Qed.

Lemma preserved_nonNegative K : preserved K nonNegative.
Proof.
  split; intros ? *; intros _ Hnn; intros.
  - eapply nonNegative_keeps; [| |exact Hnn]; (apply keeps_sameCore; [|done]);
      intros p q Hpq; unfold core in Hpq; congruence.
  - destruct Hnn as [Hstack Hbet]. unfold nonNegative, joined. engine_fields.
    split; (apply Forall_app; split; [done|]); apply Forall_singleton;
      cbn [newcomer stack totalBet]; unfold STARTING_STACK; lia.
  - eapply nonNegative_keeps; [| |exact Hnn]; by apply keeps_seated.
  - eapply nonNegative_keeps; [| |exact Hnn]; by apply keeps_unseated.
  - destruct Hnn as [Hstack Hbet]. split.
    + by apply (Forall_keeps stack (fun s => 0 <= s) e); [apply keeps_opened|].
    + apply List.Forall_map. rewrite totalBet_opened. by apply Forall_const_map.
  - eapply nonNegative_keeps; [| |exact Hnn]; by apply keeps_dealtTo.
  - by apply nonNegative_postBlind.
  - eapply nonNegative_keeps; [| |exact Hnn]; by apply keeps_folded.
  - by apply nonNegative_callContribution.
  - by eapply nonNegative_raiseBy.
  - unfold nonNegative. rewrite players_restartTable.
    split; apply List.Forall_map, Forall_forall; intros p _;
      unfold clearedForTable; cbn beta; player_fields; unfold STARTING_STACK; lia.
  - eapply nonNegative_keeps; [| |exact Hnn]; by apply keeps_resetRound.
  - exact Hnn.
  - exact Hnn.
  - exact Hnn.
  - exact Hnn.
  - eapply nonNegative_keeps; [by apply keeps_handOver..|].
    apply nonNegative_paid; [|exact Hnn]. by eapply payCase_award.
Qed.

Lemma quiet_keeps e e' :
  keeps inHand e e' -> phase e' = phase e -> quietBetweenHands e -> quietBetweenHands e'.
Proof.
  unfold quietBetweenHands. intros Hin -> Hquiet Hph.
  by apply (Forall_keeps inHand (fun b => b = false) e e'); [|apply Hquiet].
Qed.

Lemma nobodyIn_updatePlayer pid f e :
  (forall p, inHand p = false -> inHand (f p) = false) ->
  Forall (fun p => inHand p = false) (players e) ->
  Forall (fun p => inHand p = false) (players (updatePlayer pid f e)).
Proof.
  intros Hf Hall. unfold updatePlayer. engine_fields. apply List.Forall_map.
  eapply Forall_impl; [exact Hall|]. intros p Hp. cbn beta in *.
  case_bool_decide; [by apply Hf|exact Hp].
Qed.

Lemma core_keeps_inHand (flag : EnginePlayer -> EnginePlayer) :
  (forall q, core (flag q) = core q) -> forall q, inHand (flag q) = inHand q.
Proof. intros Hflag q. pose proof (Hflag q) as Hq. unfold core in Hq. congruence. Qed.

Lemma core_keeps_stack (flag : EnginePlayer -> EnginePlayer) :
  (forall q, core (flag q) = core q) -> forall q, stack (flag q) = stack q.
Proof. intros Hflag q. pose proof (Hflag q) as Hq. unfold core in Hq. congruence. Qed.

Lemma core_keeps_totalBet (flag : EnginePlayer -> EnginePlayer) :
  (forall q, core (flag q) = core q) -> forall q, totalBet (flag q) = totalBet q.
Proof. intros Hflag q. pose proof (Hflag q) as Hq. unfold core in Hq. congruence. Qed.

Lemma preserved_quiet K : preserved K quietBetweenHands.
Proof.
  split; intros ? *; intros _ Hquiet; intros.
  - eapply quiet_keeps; [| |exact Hquiet].
    + apply keeps_sameCore; [|done]. intros p q Hpq. unfold core in Hpq. congruence.
    + by destruct H as (_&_&_&_&_&_&->&_).
  - intros Hph. unfold joined. engine_fields. apply Forall_app. split; [by apply Hquiet|].
    by apply Forall_singleton.
  - eapply quiet_keeps; [| |exact Hquiet]; [by apply keeps_seated|by apply field_seated].
  - intros Hph. rewrite field_unseated in Hph by done. specialize (Hquiet Hph).
    unfold unseated. apply nobodyIn_updatePlayer; [done|].
    destruct (inHand player);
      [apply nobodyIn_updatePlayer; [done|]|]; by case_match.
  - intros Hph. discriminate.
  - eapply quiet_keeps; [| |exact Hquiet]; [by apply keeps_dealtTo|reflexivity].
  - eapply quiet_keeps; [| |exact Hquiet]; [|by apply field_postBlind].
    apply keeps_postBlind; try done. by apply core_keeps_inHand.
  - intros Hph. specialize (Hquiet Hph). by apply nobodyIn_updatePlayer.
  - eapply quiet_keeps; [| |exact Hquiet];
      [by apply keeps_callContribution|by apply field_callContribution].
  - eapply quiet_keeps; [| |exact Hquiet];
      [by eapply keeps_raiseBy|by eapply field_raiseBy].
  - intros _. rewrite players_restartTable. apply List.Forall_map, Forall_forall.
    intros p _. reflexivity.
  - eapply quiet_keeps; [| |exact Hquiet];
      [by apply keeps_resetRound|by apply field_resetRound].
  - intros Hph. discriminate.
  - intros Hph. discriminate.
  - intros Hph. discriminate.
  - intros Hph. discriminate.
  - intros _. unfold handOver, forAllPlayers. engine_fields.
    apply List.Forall_map, Forall_forall. intros p _. reflexivity.
Qed.

Lemma sumZ_app l l' : sumZ (l ++ l') = sumZ l + sumZ l'.
Proof.
  induction l as [|x l IH]; [by rewrite sumZ_nil|].
  cbn [app]. rewrite !sumZ_cons, IH. lia.
Qed.

Lemma sumZ_const {A} (x : Z) (l : list A) :
  sumZ (map (fun _ => x) l) = x * Z.of_nat (length l).
Proof.
  induction l as [|y l IH]; [cbn [map length]; rewrite sumZ_nil; lia|].
  cbn [map length]. rewrite sumZ_cons, IH. lia.
Qed.

Lemma sumTotalBets_keeps e e' : keeps totalBet e e' -> sumTotalBets e' = sumTotalBets e.
Proof. unfold keeps, sumTotalBets. by intros ->. Qed.

Lemma sumStacks_keeps e e' : keeps stack e e' -> sumStacks e' = sumStacks e.
Proof. unfold keeps, sumStacks. by intros ->. Qed.

Lemma potIsBets_keeps e e' :
  keeps totalBet e e' -> pot e' = pot e -> sidePot e' = sidePot e ->
  potIsBets e -> potIsBets e'.
Proof.
  unfold potIsBets. intros Hbet -> ->. by rewrite (sumTotalBets_keeps e e').
Qed.

Lemma preserved_potIsBets K : preserved K potIsBets.
Proof.
  split; intros ? *; intros _ Hpot; intros.
  - eapply potIsBets_keeps; [| | |exact Hpot].
    + apply keeps_sameCore; [|done]. intros p q Hpq. unfold core in Hpq. congruence.
    + by destruct H as (_&_&_&_&_&_&_&_&_&->&_).
    + by destruct H as (_&_&_&_&_&_&_&_&_&_&->).
  - unfold potIsBets, sumTotalBets, joined in *. engine_fields.
    rewrite map_app, sumZ_app. cbn [map newcomer totalBet]. rewrite sumZ_cons, sumZ_nil.
    lia.
  - eapply potIsBets_keeps; [| | |exact Hpot];
      [by apply keeps_seated|by apply field_seated..].
  - eapply potIsBets_keeps; [| | |exact Hpot];
      [by apply keeps_unseated|by apply field_unseated..].
  - unfold potIsBets, sumTotalBets. rewrite totalBet_opened, sumZ_const.
    cbn [opened]. unfold opened, drawCards. engine_fields. lia.
  - eapply potIsBets_keeps; [| | |exact Hpot]; [by apply keeps_dealtTo|reflexivity..].
  - apply postBlind_accounted.
  - eapply potIsBets_keeps; [| | |exact Hpot]; [by apply keeps_folded|reflexivity..].
  - unfold callContribution. case_bool_decide; [exact Hpot|].
    apply commitAmount_accounted.
  - by apply (raiseBy_accounted p amount' e e').
  - unfold potIsBets, sumTotalBets. rewrite players_restartTable, map_map.
    cbn [fst restartTable]. rewrite (sumZ_const 0). reflexivity.
  - eapply potIsBets_keeps; [| | |exact Hpot];
      [by apply keeps_resetRound|by apply field_resetRound..].
  - exact Hpot.
  - exact Hpot.
  - exact Hpot.
  - exact Hpot.
  - eapply potIsBets_keeps; [| | |exact Hpot].
    + eapply keeps_trans; [by apply keeps_paid|]. by apply keeps_handOver.
    + unfold handOver. engine_fields. by apply field_paid.
    + unfold handOver. engine_fields. by apply field_paid.
Qed.

Lemma sum_chipsOf ps :
  sumZ (map chipsOf ps) = sumZ (map stack ps) + sumZ (map totalBet ps).
Proof.
  induction ps as [|p ps IH]; [cbn [map]; by rewrite !sumZ_nil|].
  cbn [map]. rewrite !sumZ_cons, IH. unfold chipsOf. lia.
Qed.

Lemma length_keeps {A} (g : EnginePlayer -> A) e e' :
  keeps g e e' -> length (players e') = length (players e).
Proof.
  unfold keeps. intros Hg. apply (f_equal length) in Hg. by rewrite !length_map in Hg.
Qed.

Lemma chipsBounded_keeps e e' :
  keeps stack e e' -> keeps totalBet e e' -> phase e' = phase e ->
  chipsBounded e -> chipsBounded e'.
Proof.
  unfold chipsBounded. intros Hs Ht ->.
  by rewrite (sumStacks_keeps e e'), (sumTotalBets_keeps e e'), (length_keeps stack e e').
Qed.

(** A step that moves chips from stacks to commitments. *)
Lemma chipsBounded_committed e e' :
  keeps chipsOf e e' -> sumStacks e' <= sumStacks e -> phase e' = phase e ->
  chipsBounded e -> chipsBounded e'.
Proof.
  unfold chipsBounded. intros Hchips Hless -> Hbound.
  rewrite (length_keeps chipsOf e e') by done.
  case_bool_decide; [lia|].
  pose proof (sum_chipsOf (players e)) as Hsum.
  pose proof (sum_chipsOf (players e')) as Hsum'.
  unfold keeps in Hchips. rewrite Hchips in Hsum'. unfold sumStacks, sumTotalBets in *. lia.
Qed.

Lemma sumZ_map_le {A} (f g : A -> Z) (l : list A) :
  Forall (fun x => f x <= g x) l -> sumZ (map f l) <= sumZ (map g l).
Proof.
  induction 1 as [|x l Hx _ IH]; [cbn [map]; by rewrite !sumZ_nil|].
  cbn [map]. rewrite !sumZ_cons. lia.
Qed.

Lemma commitAmount_chips pid amount e :
  0 <= amount -> nonNegative e ->
  keeps chipsOf e (commitAmount pid amount e)
  /\ sumStacks (commitAmount pid amount e) <= sumStacks e.
Proof.
  intros Hamount [Hstack _]. unfold keeps, sumStacks. rewrite players_commitAmount.
  rewrite !map_map. split.
  - apply map_ext. intros p. case_bool_decide; [|reflexivity].
    unfold chipsOf. player_fields. lia.
  - apply sumZ_map_le. eapply Forall_impl; [exact Hstack|]. intros p Hp.
    cbn beta in *. case_bool_decide; player_fields; lia.
Qed.

Lemma chipsBounded_commitAmount pid amount e :
  0 <= amount -> nonNegative e -> chipsBounded e ->
  chipsBounded (commitAmount pid amount e).
Proof.
  intros Hamount Hnn. destruct (commitAmount_chips pid amount e Hamount Hnn) as [Hk Hle].
  apply chipsBounded_committed; [exact Hk|exact Hle|]. by apply field_commitAmount.
Qed.

Lemma sumStacks_paid_one pid award ps :
  NoDup (map playerId ps) -> pid ∈ map playerId ps ->
  sumZ (map stack
          (map (fun p => if bool_decide (playerId p = pid)
                         then set_stack (stack p + award) p else p) ps))
  = sumZ (map stack ps) + award.
Proof.
  induction ps as [|p ps IH]; intros Hnd Hin; [by apply elem_of_nil in Hin|].
  cbn [map] in *. apply NoDup_cons in Hnd as [Hfresh Hnd]. rewrite !sumZ_cons.
  case_bool_decide as Hp.
  - player_fields.
    assert (Hrest : map (fun q => if bool_decide (playerId q = pid)
                                  then set_stack (stack q + award) q else q) ps = ps).
    { rewrite <- (map_id ps) at 2. apply map_ext_in. intros q Hq.
      rewrite bool_decide_eq_false_2; [reflexivity|]. intros Hid. apply Hfresh.
      rewrite Hp, <- Hid. apply list_elem_of_fmap. exists q.
      split; [reflexivity|by apply list_elem_of_In]. }
    rewrite Hrest. lia.
  - apply elem_of_cons in Hin as [Hin|Hin]; [by subst pid|]. rewrite IH by done. lia.
Qed.

Lemma sumStacks_paid rs award e :
  distinctIds e ->
  Forall (fun r => playerId r ∈ map playerId (players e)) rs ->
  sumStacks (paid rs award e) = sumStacks e + award * Z.of_nat (length rs).
Proof.
  unfold paid. revert e. induction rs as [|r rs IH]; intros e Hids Hrs.
  - cbn [foldl length]. lia.
  - apply Forall_cons in Hrs as [Hr Hrs]. cbn [foldl length].
    assert (Hkeeps : keeps playerId e
                       (updatePlayer (playerId r)
                          (fun p => set_stack (stack p + award) p) e))
      by (by apply keeps_updatePlayer).
    rewrite IH.
    + unfold sumStacks at 1, updatePlayer. engine_fields.
      rewrite sumStacks_paid_one by done. unfold sumStacks. lia.
    + by eapply distinctIds_keeps.
    + unfold keeps in Hkeeps. by rewrite Hkeeps.
Qed.

Lemma active_is_player e r : r ∈ activePlayers e -> r ∈ players e /\ inHand r = true.
Proof.
  intros Hr. apply elem_of_activePlayers in Hr as [Hin Hact]. split; [exact Hin|].
  unfold isActive in Hact. by apply andb_true_iff in Hact as [-> _].
Qed.

Lemma payCase_recipients e rs award :
  payCase e rs award -> Forall (fun r => r ∈ activePlayers e) rs.
Proof.
  intros [|r Hr|chosen Hlen].
  - constructor.
  - by apply Forall_singleton.
  - apply Forall_forall. intros r Hr. apply list_elem_of_In in Hr.
    apply List.filter_In in Hr as [Hr _]. by apply list_elem_of_In.
Qed.

Lemma payCase_share e rs award :
  nonNegative e -> payCase e rs award -> award * Z.of_nat (length rs) <= totalPot e.
Proof.
  intros Hnn Hpay. pose proof (totalPot_nonneg e Hnn) as Hpot.
  destruct Hpay as [|r Hr|chosen Hlen]; cbn [length]; [lia|lia|].
  rewrite Z.mul_comm. apply Z.mul_div_le. lia.
Qed.

Lemma running_if_active e r :
  quietBetweenHands e -> r ∈ activePlayers e -> phase e <> waiting.
Proof.
  intros Hquiet Hr Hph. apply active_is_player in Hr as [Hin Hhand].
  specialize (Hquiet Hph). rewrite Forall_forall in Hquiet.
  specialize (Hquiet r Hin). cbn beta in Hquiet. congruence.
Qed.

Lemma preserved_chipsBounded :
  preserved (fun e => (distinctIds e /\ nonNegative e) /\ quietBetweenHands e) chipsBounded.
Proof.
  split; intros ? *; intros [[Hids Hnn] Hquiet] Hbound; intros.
  - eapply chipsBounded_keeps; [| | |exact Hbound].
    + apply keeps_sameCore; [|done]. intros p q Hpq. unfold core in Hpq. congruence.
    + apply keeps_sameCore; [|done]. intros p q Hpq. unfold core in Hpq. congruence.
    + by destruct H as (_&_&_&_&_&_&->&_).
  - unfold chipsBounded, sumStacks, sumTotalBets, joined in *. engine_fields.
    rewrite !map_app, !sumZ_app, length_app. cbn [map newcomer stack totalBet length].
    rewrite !sumZ_cons, !sumZ_nil. case_bool_decide; lia.
  - eapply chipsBounded_keeps; [| | |exact Hbound];
      [by apply keeps_seated..|by apply field_seated].
  - eapply chipsBounded_keeps; [| | |exact Hbound];
      [by apply keeps_unseated..|by apply field_unseated].
  - unfold chipsBounded in *. rewrite H in Hbound.
    rewrite bool_decide_eq_true_2 in Hbound by done.
    rewrite bool_decide_eq_false_2 by discriminate.
    rewrite (sumStacks_keeps e) by (by apply keeps_opened).
    rewrite (length_keeps stack e) by (by apply keeps_opened).
    unfold sumTotalBets. rewrite totalBet_opened, sumZ_const. lia.
  - eapply chipsBounded_keeps; [| | |exact Hbound]; [by apply keeps_dealtTo..|reflexivity].
  - unfold postBlind.
    match goal with
    | |- chipsBounded (set_currentBet ?x ?y) =>
        apply (chipsBounded_keeps y); [reflexivity..|]
    end.
    eapply chipsBounded_keeps; [by apply keeps_updatePlayer..|reflexivity|].
    apply chipsBounded_commitAmount; [done| |].
    + eapply nonNegative_keeps; [| |exact Hnn]; apply keeps_updatePlayer;
        [by apply core_keeps_stack|by apply core_keeps_totalBet].
    + eapply chipsBounded_keeps; [| | |exact Hbound]; [| |reflexivity];
        apply keeps_updatePlayer; [by apply core_keeps_stack|by apply core_keeps_totalBet].
  - eapply chipsBounded_keeps; [| | |exact Hbound]; [by apply keeps_folded..|reflexivity].
  - unfold callContribution. case_bool_decide; [exact Hbound|].
    apply chipsBounded_commitAmount; [lia|done..].
  - revert H0. unfold raiseBy. repeat (case_match; try discriminate). intros [= <-].
    eapply chipsBounded_keeps; [by apply keeps_updatePlayer..|reflexivity|].
    match goal with
    | |- chipsBounded (set_minimumRaise _ (set_currentBet _ ?y)) =>
        apply (chipsBounded_keeps y); [reflexivity..|]
    end.
    apply chipsBounded_commitAmount; [|done..].
    repeat match goal with Hb : bool_decide _ = false |- _ =>
      apply bool_decide_eq_false_1 in Hb end.
    unfold RAISE_INCREMENT in *. lia.
  - unfold chipsBounded, sumStacks. rewrite players_restartTable, map_map, length_map.
    rewrite bool_decide_eq_true_2 by reflexivity.
    rewrite (sumZ_const STARTING_STACK). lia.
  - eapply chipsBounded_keeps; [| | |exact Hbound];
      [by apply keeps_resetRound..|by apply field_resetRound].
  - unfold chipsBounded in *. engine_fields. rewrite H in Hbound.
    by rewrite !bool_decide_eq_false_2 in * by discriminate.
  - unfold chipsBounded in *. engine_fields. rewrite H in Hbound.
    by rewrite !bool_decide_eq_false_2 in * by discriminate.
  - unfold chipsBounded in *. engine_fields.
    rewrite (bool_decide_eq_false_2 (combo = waiting)) by discriminate.
    destruct H as [H|H]; rewrite H in Hbound;
      by rewrite bool_decide_eq_false_2 in Hbound by discriminate.
  - unfold chipsBounded in *. unfold oxtailDrawn. engine_fields. rewrite H in Hbound.
    by rewrite !bool_decide_eq_false_2 in * by discriminate.
  - pose proof (payCase_recipients _ _ _ H) as Hrs.
    pose proof (payCase_share _ _ _ Hnn H) as Hshare.
    assert (Hpaid : sumStacks (handOver (paid recipients award e))
                    = sumStacks e + award * Z.of_nat (length recipients)).
    { rewrite (sumStacks_keeps (paid recipients award e)) by (by apply keeps_handOver).
      apply sumStacks_paid; [exact Hids|].
      eapply Forall_impl; [exact Hrs|]. intros r Hr. cbn beta in *.
      apply active_is_player in Hr as [Hr _]. apply list_elem_of_fmap. by exists r. }
    assert (Hlen : length (players (handOver (paid recipients award e)))
                   = length (players e)).
    { apply (length_keeps playerId).
      eapply keeps_trans; [by apply keeps_paid|]. by apply keeps_handOver. }
    unfold chipsBounded in *. rewrite Hpaid, Hlen.
    rewrite bool_decide_eq_true_2 by reflexivity.
    pose proof (totalPot_nonneg e Hnn) as Hpot. rewrite totalPot_sum in *.
    case_bool_decide as Hph; [|lia].
    destruct recipients as [|r rs]; [cbn [length]; lia|].
    apply Forall_cons in Hrs as [Hr _]. exfalso.
    by apply (running_if_active e r).
Qed.

Lemma preserved_chips :
  preserved anyEngine
    (fun e =>
       (((distinctIds e /\ nonNegative e) /\ quietBetweenHands e) /\ chipsBounded e)
       /\ potIsBets e).
Proof.
  apply preserved_and; [|apply preserved_potIsBets].
  apply preserved_and; [|apply preserved_chipsBounded].
  apply preserved_and; [|apply preserved_quiet].
  apply preserved_and; [apply preserved_distinctIds|apply preserved_nonNegative].
Qed.

Lemma reachable_chips e :
  reachable e ->
  distinctIds e /\ nonNegative e /\ quietBetweenHands e /\ chipsBounded e /\ potIsBets e.
Proof.
  intros Hreach.
  assert (Hall : (((distinctIds newEngine /\ nonNegative newEngine)
                   /\ quietBetweenHands newEngine) /\ chipsBounded newEngine)
                 /\ potIsBets newEngine).
  { split; [split; [split; [split|]|]|].
    - constructor.
    - split; constructor.
    - intros _. constructor.
    - vm_compute. discriminate.
    - reflexivity. }
  pose proof (reachable_preserved _ preserved_chips e Hall Hreach) as Hchips.
  cbv beta in Hchips. destruct Hchips as [[[[H1 H2] H3] H4] H5].
  exact (conj H1 (conj H2 (conj H3 (conj H4 H5)))).
Qed.

(** X5.  In every engine that a run can reach no player has a negative
    stack or a negative commitment to the hand. *)
Theorem stacks_never_negative e p :
  reachable e -> p ∈ players e -> 0 <= stack p /\ 0 <= totalBet p.
Proof.
  intros Hreach Hp. destruct (reachable_chips e Hreach) as (_ & [Hstack Hbet] & _).
  rewrite Forall_forall in Hstack, Hbet. split; [by apply Hstack|by apply Hbet].
Qed.

Lemma stacks_never_negative_witness :
  reachable comboTable
  /\ firstToSubmit ∈ players comboTable
  /\ 0 <= stack firstToSubmit /\ 0 <= totalBet firstToSubmit.
Proof.
  assert (Hreach : reachable comboTable).
  { unfold comboTable. apply reachable_run; [vm_compute; reflexivity|].
    apply reachable_new. }
  assert (Hin : firstToSubmit ∈ players comboTable).
  { apply (getPlayer_elem "p2"). vm_compute. reflexivity. }
  split; [exact Hreach|].
  split; [exact Hin|]. exact (stacks_never_negative comboTable firstToSubmit Hreach Hin).
Defined.

(** X6.  In every engine that a run can reach the pot and the side pot
    together are the sum of the players' commitments, which is what
    [totalPot] pays out. *)
Theorem pot_is_the_commitments e :
  reachable e -> pot e + sidePot e = sumTotalBets e /\ totalPot e = pot e + sidePot e.
Proof.
  intros Hreach. destruct (reachable_chips e Hreach) as (_ & _ & _ & _ & Hpot).
  unfold potIsBets in Hpot. split; [exact Hpot|]. rewrite totalPot_sum. lia.
Qed.

Lemma pot_is_the_commitments_witness :
  reachable lastCardTie
  /\ pot lastCardTie = 1000 /\ sidePot lastCardTie = 0
  /\ pot lastCardTie + sidePot lastCardTie = sumTotalBets lastCardTie.
Proof.
  assert (Hreach : reachable lastCardTie).
  { unfold lastCardTie. apply reachable_run; [vm_compute; reflexivity|].
    apply reachable_new. }
  split; [exact Hreach|]. split; [vm_compute; reflexivity|].
  split; [vm_compute; reflexivity|].
  exact (proj1 (pot_is_the_commitments lastCardTie Hreach)).
Defined.

(** X7.  No chips are created: in every engine that a run can reach the
    stacks add up to at most the starting stack of 500 for every player,
    and while a hand runs so do the stacks and the commitments together. *)
Theorem chips_never_created e :
  reachable e ->
  sumStacks e <= STARTING_STACK * Z.of_nat (length (players e))
  /\ (phase e <> waiting ->
      sumStacks e + sumTotalBets e <= STARTING_STACK * Z.of_nat (length (players e))).
Proof.
  intros Hreach. destruct (reachable_chips e Hreach) as (_ & Hnn & _ & Hbound & _).
  pose proof (totalPot_nonneg e Hnn) as Hpot. rewrite totalPot_sum in Hpot.
  unfold chipsBounded in Hbound. split.
  - case_bool_decide; lia.
  - intros Hph. by rewrite bool_decide_eq_false_2 in Hbound.
Qed.

Lemma chips_never_created_witness :
  reachable comboTable
  /\ phase comboTable <> waiting
  /\ sumStacks comboTable + sumTotalBets comboTable
     <= STARTING_STACK * Z.of_nat (length (players comboTable)).
Proof.
  assert (Hreach : reachable comboTable).
  { unfold comboTable. apply reachable_run; [vm_compute; reflexivity|].
    apply reachable_new. }
  assert (Hph : phase comboTable <> waiting) by (vm_compute; discriminate).
  split; [exact Hreach|]. split; [exact Hph|].
  exact (proj2 (chips_never_created comboTable Hreach) Hph).
Defined.

(** X8.  Between hands nobody is in the hand, and every betting action is
    rejected: in every engine that a run can reach and whose phase is
    [waiting], no player has [inHand] set, and [betAction] answers with an
    error and changes nothing. *)
Theorem no_bets_between_hands e :
  reachable e -> phase e = waiting ->
  (forall p, p ∈ players e -> inHand p = false)
  /\ forall pid msg, betAction pid msg e = (e, [EvError (Some pid) "Invalid action"]).
Proof.
  intros Hreach Hph. destruct (reachable_chips e Hreach) as (_ & _ & Hquiet & _).
  specialize (Hquiet Hph). rewrite Forall_forall in Hquiet.
  split; [exact Hquiet|]. intros pid msg. unfold betAction.
  destruct (getPlayer pid e) as [player|] eqn:Hplayer; [|reflexivity].
  rewrite (Hquiet player) by (by eapply getPlayer_elem). reflexivity.
Qed.

Lemma no_bets_between_hands_witness :
  reachable threeWaiting
  /\ phase threeWaiting = waiting
  /\ betAction "b" (mkBet BetCheck None) threeWaiting
     = (threeWaiting, [EvError (Some "b") "Invalid action"]).
Proof.
  assert (Hreach : reachable threeWaiting).
  { unfold threeWaiting, lateSeated, handOne.
    do 3 (apply reachable_run; [vm_compute; reflexivity|]). apply reachable_new. }
  assert (Hph : phase threeWaiting = waiting) by (vm_compute; reflexivity).
  split; [exact Hreach|]. split; [exact Hph|].
  exact (proj2 (no_bets_between_hands threeWaiting Hreach Hph) "b" (mkBet BetCheck None)).
Defined.

(** ** Seats *)

Lemma keeps_elem {A} (g : EnginePlayer -> A) e e' p' :
  keeps g e e' -> p' ∈ players e' -> exists p, p ∈ players e /\ g p = g p'.
Proof.
  unfold keeps. intros Hg Hp'.
  assert (Hin : g p' ∈ map g (players e')) by (apply list_elem_of_fmap; eauto).
  rewrite Hg in Hin. apply list_elem_of_fmap in Hin as [p [Heq Hp]]. eauto.
Qed.

Lemma keeps_sym {A} (g : EnginePlayer -> A) e e' : keeps g e e' -> keeps g e' e.
Proof. unfold keeps. congruence. Qed.

Lemma idSeat_eq p q : idSeat p = idSeat q -> playerId p = playerId q /\ seatIndex p = seatIndex q.
Proof. unfold idSeat. intros [= ? ?]. by split. Qed.

Lemma seatsAgree_keeps e e' :
  keeps idSeat e e' -> seats e' = seats e -> seatsAgree e -> seatsAgree e'.
Proof.
  intros Hkeeps Hseats (Hlen & Hplayers & Hslots). unfold seatsAgree. rewrite Hseats.
  split; [exact Hlen|]. split.
  - intros p' s Hp' Hs. destruct (keeps_elem idSeat e e' p' Hkeeps Hp') as (p & Hp & Heq).
    apply idSeat_eq in Heq as [Hid Hseat]. rewrite <- Hid. apply Hplayers; [exact Hp|].
    congruence.
  - intros k pid Hk. destruct (Hslots k pid Hk) as (p & Hp & Hid & Hseat).
    destruct (keeps_elem idSeat e' e p (keeps_sym _ _ _ Hkeeps) Hp) as (p' & Hp' & Heq).
    apply idSeat_eq in Heq as [Hid' Hseat']. exists p'. repeat split; congruence.
Qed.

Lemma noEmptyId_keeps e e' : keeps playerId e e' -> noEmptyId e' -> noEmptyId e.
Proof. unfold keeps, noEmptyId. by intros ->. Qed.

Lemma seatingSound_keeps e e' :
  keeps idSeat e e' -> seats e' = seats e -> seatingSound e -> seatingSound e'.
Proof.
  intros Hkeeps Hseats Hsound Hids. apply (seatsAgree_keeps e e'); try done.
  apply Hsound. apply (noEmptyId_keeps e e'); [|exact Hids].
  unfold keeps in *. rewrite <- !(map_map idSeat fst). by rewrite Hkeeps.
Qed.

Lemma players_seated pid seat player e :
  exists n,
    players (seated pid seat player e)
    = map (fun p => if bool_decide (playerId p = pid)
                    then set_entryHand n (set_seatIndex (Some seat) p) else p)
        (players e).
Proof. unfold seated, updatePlayer. engine_fields. by destruct (truthy _); eauto. Qed.

Lemma seats_seated pid seat player e :
  seats (seated pid seat player e)
  = <[(seat - 1)%nat := Some pid]>
      (if truthy (seatIndex player)
       then <[(default 0 (seatIndex player) - 1)%nat := None]> (seats e)
       else seats e).
Proof. unfold seated, updatePlayer. engine_fields. by destruct (truthy _). Qed.

Lemma slot_free e k pid :
  noEmptyId e -> seatsAgree e -> (k < SEAT_COUNT)%nat ->
  seatOccupant (S k) e = None \/ seatOccupant (S k) e = Some pid ->
  seats e !! k = Some None \/ seats e !! k = Some (Some pid).
Proof.
  intros Hids (Hlen & _ & Hslots) Hk Hocc. unfold seatOccupant in Hocc.
  destruct (seats e !! k) as [[x|]|] eqn:Hslot.
  - right. destruct (Hslots k x Hslot) as (p & Hp & Hid & _).
    rewrite bool_decide_eq_false_2 in Hocc.
    + destruct Hocc as [Hocc|Hocc]; congruence.
    + intros ->. apply Hids. apply list_elem_of_fmap. by exists p.
  - by left.
  - apply lookup_ge_None in Hslot. lia.
Qed.

(** The seat of a seated player is a seat of the table, so it is truthy. *)
Lemma seated_truthy e p s :
  seatsAgree e -> p ∈ players e -> seatIndex p = Some s ->
  truthy (seatIndex p) = true /\ (default 0 (seatIndex p) - 1 = s - 1)%nat
  /\ seats e !! (s - 1)%nat = Some (Some (playerId p)).
Proof.
  intros (_ & Hplayers & _) Hp Hs. destruct (Hplayers p s Hp Hs) as [Hseat Hslot].
  rewrite Hs. unfold isSeat in Hseat. destruct s as [|s]; [lia|]. by repeat split.
Qed.

Lemma seatsAgree_seated pid seat player e :
  distinctIds e -> noEmptyId e -> seatsAgree e -> isSeat seat ->
  getPlayer pid e = Some player ->
  seatOccupant seat e = None \/ seatOccupant seat e = Some pid ->
  seatsAgree (seated pid seat player e).
Proof.
  intros Hnd Hids Hagree Hseat Hplayer Hocc.
  pose proof (getPlayer_elem _ _ _ Hplayer) as Hin.
  pose proof (getPlayer_id _ _ _ Hplayer) as Hid.
  destruct seat as [|k0]; [unfold isSeat in Hseat; lia|].
  assert (Hk0 : (k0 < SEAT_COUNT)%nat) by (unfold isSeat in Hseat; lia).
  pose proof (slot_free e k0 pid Hids Hagree Hk0 Hocc) as Hfree.
  destruct Hagree as (Hlen & Hplayers & Hslots).
  destruct (players_seated pid (S k0) player e) as [n Hps].
  pose proof (seats_seated pid (S k0) player e) as Hseats.
  replace (S k0 - 1)%nat with k0 in Hseats by lia.
  (* the slots after the player has left the old seat *)
  set (S1 := if truthy (seatIndex player)
             then <[(default 0 (seatIndex player) - 1)%nat := None]> (seats e)
             else seats e) in *.
  assert (Hlen1 : length S1 = SEAT_COUNT).
  { unfold S1. destruct (truthy _); by rewrite ?length_insert. }
  assert (Hother : forall k x, x <> pid -> seats e !! k = Some (Some x) ->
                               S1 !! k = Some (Some x)).
  { intros k x Hx Hk. unfold S1. destruct (seatIndex player) as [old|] eqn:Hold;
      [|exact Hk].
    destruct (seated_truthy e player old (conj Hlen (conj Hplayers Hslots)) Hin Hold)
      as (Htruthy & Hidx & Hslot).
    rewrite Hold in Htruthy, Hidx. rewrite Htruthy, Hidx.
    rewrite list_lookup_insert_ne; [exact Hk|]. intros Heq. rewrite Heq in Hslot.
    congruence. }
  assert (Hback : forall k x, S1 !! k = Some (Some x) ->
                              seats e !! k = Some (Some x)
                              /\ seatIndex player <> Some (S k)).
  { intros k x Hk. unfold S1 in Hk. destruct (seatIndex player) as [old|] eqn:Hold;
      [|by split].
    destruct (seated_truthy e player old (conj Hlen (conj Hplayers Hslots)) Hin Hold)
      as (Htruthy & Hidx & Hslot).
    rewrite Hold in Htruthy, Hidx. rewrite Htruthy, Hidx in Hk.
    destruct (decide (k = (old - 1)%nat)) as [->|Hne].
    - rewrite list_lookup_insert_eq in Hk by (apply lookup_lt_Some in Hslot; lia).
      discriminate.
    - rewrite list_lookup_insert_ne in Hk by done. split; [exact Hk|].
      intros [= ->]. apply Hne. lia. }
  unfold seatsAgree. rewrite Hps, Hseats. split; [by rewrite length_insert|]. split.
  - intros p' s Hp' Hs. apply list_elem_of_fmap in Hp' as [p [-> Hp]].
    case_bool_decide as Hpid.
    + unfold set_entryHand, set_seatIndex in Hs. cbn [seatIndex] in Hs.
      injection Hs as <-. player_fields.
      split; [exact Hseat|]. replace (S k0 - 1)%nat with k0 by lia.
      rewrite list_lookup_insert_eq by lia. by rewrite Hpid.
    + destruct (Hplayers p s Hp Hs) as [Hs' Hslot]. split; [exact Hs'|].
      rewrite list_lookup_insert_ne; [by apply Hother|].
      intros Heq. rewrite <- Heq in Hslot. destruct Hfree as [Hfree|Hfree]; congruence.
  - intros k x Hk. destruct (decide (k = k0)) as [->|Hne].
    + rewrite list_lookup_insert_eq in Hk by lia. injection Hk as <-.
      exists (set_entryHand n (set_seatIndex (Some (S k0)) player)).
      split; [|by split]. apply list_elem_of_fmap. exists player.
      split; [|exact Hin]. by rewrite bool_decide_eq_true_2.
    + rewrite list_lookup_insert_ne in Hk by done.
      destruct (Hback k x Hk) as [Hslot Hnot].
      destruct (Hslots k x Hslot) as (p & Hp & Hpx & Hps').
      exists p. split; [|by split]. apply list_elem_of_fmap. exists p.
      split; [|exact Hp]. rewrite bool_decide_eq_false_2; [reflexivity|].
      intros Hpid. apply Hnot. rewrite <- Hps'. f_equal.
      symmetry. by apply (getPlayer_unique pid e).
Qed.

Lemma players_unseated pid player e :
  exists F,
    (forall p, playerId (F p) = playerId p /\ seatIndex (F p) = None)
    /\ players (unseated pid player e)
       = map (fun p => if bool_decide (playerId p = pid) then F p else p) (players e).
Proof.
  unfold unseated, updatePlayer. engine_fields. destruct (inHand player).
  - exists (fun p => set_seatIndex None (set_inHand false (set_hasFolded true p))).
    split; [by intros p|]. engine_fields. rewrite map_map.
    assert (Hps : players (if truthy (seatIndex player)
                           then set_seats
                                  (<[(default 0 (seatIndex player) - 1)%nat := None]>
                                     (seats e)) e
                           else e) = players e) by (by destruct (truthy _)).
    rewrite Hps. apply map_ext. intros p.
    destruct (bool_decide (playerId p = pid)) eqn:Hp; player_fields; by rewrite Hp.
  - exists (set_seatIndex None). split; [by intros p|]. by destruct (truthy _).
Qed.

Lemma seats_unseated pid player e :
  seats (unseated pid player e)
  = if truthy (seatIndex player)
    then <[(default 0 (seatIndex player) - 1)%nat := None]> (seats e)
    else seats e.
Proof.
  unfold unseated, updatePlayer. engine_fields.
  destruct (inHand player), (truthy _); reflexivity.
Qed.

Lemma seatsAgree_unseated pid player e :
  distinctIds e -> seatsAgree e -> getPlayer pid e = Some player ->
  seatsAgree (unseated pid player e).
Proof.
  intros Hnd Hagree Hplayer.
  pose proof (getPlayer_elem _ _ _ Hplayer) as Hin.
  pose proof (getPlayer_id _ _ _ Hplayer) as Hid.
  destruct (players_unseated pid player e) as (F & HF & Hps).
  pose proof (seats_unseated pid player e) as Hseats.
  pose proof Hagree as (Hlen & Hplayers & Hslots).
  set (S1 := if truthy (seatIndex player)
             then <[(default 0 (seatIndex player) - 1)%nat := None]> (seats e)
             else seats e) in *.
  assert (Hother : forall k x, x <> pid -> seats e !! k = Some (Some x) ->
                               S1 !! k = Some (Some x)).
  { intros k x Hx Hk. unfold S1. destruct (seatIndex player) as [old|] eqn:Hold;
      [|exact Hk].
    destruct (seated_truthy e player old Hagree Hin Hold) as (Htruthy & Hidx & Hslot).
    rewrite Hold in Htruthy, Hidx. rewrite Htruthy, Hidx.
    rewrite list_lookup_insert_ne; [exact Hk|]. intros Heq. rewrite Heq in Hslot.
    congruence. }
  assert (Hback : forall k x, S1 !! k = Some (Some x) ->
                              seats e !! k = Some (Some x)
                              /\ seatIndex player <> Some (S k)).
  { intros k x Hk. unfold S1 in Hk. destruct (seatIndex player) as [old|] eqn:Hold;
      [|by split].
    destruct (seated_truthy e player old Hagree Hin Hold) as (Htruthy & Hidx & Hslot).
    rewrite Hold in Htruthy, Hidx. rewrite Htruthy, Hidx in Hk.
    destruct (decide (k = (old - 1)%nat)) as [->|Hne].
    - rewrite list_lookup_insert_eq in Hk by (apply lookup_lt_Some in Hslot; lia).
      discriminate.
    - rewrite list_lookup_insert_ne in Hk by done. split; [exact Hk|].
      intros [= ->]. apply Hne. lia. }
  unfold seatsAgree. rewrite Hps, Hseats. split.
  { unfold S1. destruct (truthy _); by rewrite ?length_insert. }
  split.
  - intros p' s Hp' Hs. apply list_elem_of_fmap in Hp' as [p [-> Hp]].
    case_bool_decide as Hpid.
    + destruct (HF p) as [_ Hnone]. congruence.
    + destruct (Hplayers p s Hp Hs) as [Hs' Hslot]. split; [exact Hs'|].
      by apply Hother.
  - intros k x Hk. destruct (Hback k x Hk) as [Hslot Hnot].
    destruct (Hslots k x Hslot) as (p & Hp & Hpx & Hps').
    exists p. split; [|by split]. apply list_elem_of_fmap. exists p.
    split; [|exact Hp]. rewrite bool_decide_eq_false_2; [reflexivity|].
    intros Hpid. apply Hnot. rewrite <- Hps'. f_equal.
    symmetry. by apply (getPlayer_unique pid e).
Qed.

Lemma keeps_idSeat_core e e' : sameCore e e' -> keeps idSeat e e'.
Proof.
  apply keeps_sameCore. intros p q Hpq. unfold core in Hpq. unfold idSeat. congruence.
Qed.

Lemma preserved_seatingSound : preserved distinctIds seatingSound.
Proof.
  split; intros ? *; intros Hnd Hsound; intros.
  - eapply seatingSound_keeps; [| |exact Hsound]; [by apply keeps_idSeat_core|].
    by destruct H as (_&->&_).
  - intros Hids.
    assert (Hids0 : noEmptyId e).
    { intros Hin. apply Hids. unfold joined. engine_fields. rewrite map_app.
      apply elem_of_app. by left. }
    destruct (Hsound Hids0) as (Hlen & Hplayers & Hslots). unfold seatsAgree, joined.
    engine_fields. split; [exact Hlen|]. split.
    + intros p s Hp Hs. apply elem_of_app in Hp as [Hp|Hp]; [by apply Hplayers|].
      apply list_elem_of_singleton in Hp. subst p. discriminate.
    + intros k x Hk. destruct (Hslots k x Hk) as (p & Hp & Hrest). exists p.
      split; [|exact Hrest]. apply elem_of_app. by left.
  - intros Hids.
    assert (Hids0 : noEmptyId e)
      by (apply (noEmptyId_keeps e (seated pid seat player e));
          [by apply keeps_seated|exact Hids]).
    apply seatsAgree_seated; try done. by apply Hsound.
  - intros Hids.
    assert (Hids0 : noEmptyId e)
      by (apply (noEmptyId_keeps e (unseated pid player e));
          [by apply keeps_unseated|exact Hids]).
    apply seatsAgree_unseated; try done. by apply Hsound.
  - eapply seatingSound_keeps; [| |exact Hsound];
      [by apply keeps_opened|apply seats_opened].
  - eapply seatingSound_keeps; [| |exact Hsound]; [by apply keeps_dealtTo|reflexivity].
  - eapply seatingSound_keeps; [| |exact Hsound]; [|by apply field_postBlind].
    apply keeps_postBlind; try done. intros q. pose proof (H q) as Hq.
    unfold core in Hq. unfold idSeat. congruence.
  - eapply seatingSound_keeps; [| |exact Hsound]; [by apply keeps_folded|reflexivity].
  - eapply seatingSound_keeps; [| |exact Hsound];
      [by apply keeps_callContribution|by apply field_callContribution].
  - eapply seatingSound_keeps; [| |exact Hsound];
      [by eapply keeps_raiseBy|by eapply field_raiseBy].
  - intros _. unfold seatsAgree. rewrite players_restartTable. cbn [fst restartTable].
    split; [reflexivity|]. split.
    + intros p s Hp Hs. apply list_elem_of_fmap in Hp as [q [-> _]]. discriminate.
    + intros k x Hk. apply lookup_replicate in Hk as [Hk _]. discriminate.
  - eapply seatingSound_keeps; [| |exact Hsound];
      [by apply keeps_resetRound|by apply field_resetRound].
  - exact Hsound.
  - exact Hsound.
  - exact Hsound.
  - exact Hsound.
  - eapply seatingSound_keeps; [| |exact Hsound].
    + eapply keeps_trans; [by apply keeps_paid|]. by apply keeps_handOver.
    + unfold handOver. engine_fields. by apply field_paid.
Qed.

(** X9.  The seat array and the players' seat numbers agree.  In every
    engine that a run can reach and in which no player has the empty
    string as id, the array has six slots, every player with a seat number
    is the one whose id is in that slot, and every id in a slot is that of
    a player with that seat number: nobody sits in two seats and no seat
    has two players. *)
Theorem seats_and_players_agree e :
  reachable e -> noEmptyId e ->
  length (seats e) = SEAT_COUNT
  /\ (forall p s, p ∈ players e -> seatIndex p = Some s ->
        isSeat s /\ seats e !! (s - 1)%nat = Some (Some (playerId p)))
  /\ (forall k pid, seats e !! k = Some (Some pid) ->
        exists p, p ∈ players e /\ playerId p = pid /\ seatIndex p = Some (S k)).
Proof.
  intros Hreach Hids.
  assert (Hsound : distinctIds e /\ seatingSound e).
  { apply (reachable_preserved _
             (preserved_and _ _ preserved_distinctIds preserved_seatingSound) e);
      [|exact Hreach].
    split; [constructor|]. intros _. split; [reflexivity|]. split.
    - intros p s Hp. by apply elem_of_nil in Hp.
    - intros k x Hk. apply lookup_replicate in Hk as [Hk _]. discriminate. }
  destruct Hsound as [_ Hsound]. exact (Hsound Hids).
Qed.

Lemma seats_and_players_agree_witness :
  reachable lateJoiner
  /\ noEmptyId lateJoiner
  /\ seats lateJoiner = [None; Some "b"; Some "c"; None; None; None]
  /\ exists p, p ∈ players lateJoiner /\ playerId p = "c" /\ seatIndex p = Some 3%nat.
Proof.
  assert (Hreach : reachable lateJoiner).
  { unfold lateJoiner, threeWaiting, lateSeated, handOne.
    do 4 (apply reachable_run; [vm_compute; reflexivity|]). apply reachable_new. }
  assert (Hids : noEmptyId lateJoiner).
  { unfold noEmptyId. vm_compute. intros Hin.
    repeat (apply elem_of_cons in Hin as [Hin|Hin]; [discriminate|]).
    by apply elem_of_nil in Hin. }
  split; [exact Hreach|]. split; [exact Hids|]. split; [vm_compute; reflexivity|].
  destruct (seats_and_players_agree lateJoiner Hreach Hids) as (_ & _ & Hslots).
  apply (Hslots 2%nat "c"). vm_compute. reflexivity.
Defined.

(** ** The actions on offer *)


Lemma betAction_turn pid msg e p :
  getPlayer pid e = Some p -> inHand p = true -> hasFolded p = false ->
  truthy (actingSeat e) = true -> seatIndex p = actingSeat e ->
  betAction pid msg e
  = match action msg with
    | BetFold =>
        ((fun e'' => advanceTurn (markSeatActed (seatIndex p) false e'')) ;> broadcast)
          (updatePlayer pid
             (fun q => set_lastAction (Some "Fold") (set_inHand false (set_hasFolded true q)))
             e)
    | BetCheck =>
        if bool_decide (betThisRound p < currentBet e) then reject pid "Cannot check" e
        else
          ((fun e'' => advanceTurn (markSeatActed (seatIndex p) false e'')) ;> broadcast)
            (updatePlayer pid (set_lastAction (Some "Check")) e)
    | BetCall =>
        ((fun e'' => advanceTurn (markSeatActed (seatIndex p) false e'')) ;> broadcast)
          (updatePlayer pid (set_lastAction (Some "Call")) (callContribution p e))
    | BetRaise =>
        match raiseBy p (amount msg) e with
        | inr reason => reject pid reason e
        | inl e' =>
            ((fun e'' => advanceTurn (markSeatActed (seatIndex p) true e'')) ;> broadcast) e'
        end
    end.
Proof.
  intros Hp Hin Hfold Hacting Hseat. unfold betAction.
  rewrite Hp, Hin, Hfold, Hacting. cbn [negb orb].
  rewrite (bool_decide_eq_true_2 _ Hseat). cbn [negb].
  rewrite Hseat, Hacting. cbn [negb]. rewrite <- Hseat. reflexivity.
Qed.




(** ** The end of a hand *)

Lemma paid_one_outcome w text e :
  NoDup (map playerId (players e)) -> w ∈ players e ->
  wonBy w (totalPot e) e ((payAndReport [w] (totalPot e) text ;> endHand) e).
Proof.
  intros Hnd Hw. unfold wonBy.
  assert (Hstacks : forall pid,
            stack <$> getPlayer pid (fst ((payAndReport [w] (totalPot e) text ;> endHand) e))
            = (fun s => s + totalPot e
                            * Z.of_nat (length (List.filter
                                                  (fun r => bool_decide (playerId r = pid))
                                                  [w])))
                <$> (stack <$> getPlayer pid e)).
  { intros pid. rewrite fst_andThen.
    rewrite (stack_getPlayer_idStack _ _ _ (idStack_endHand _)).
    unfold payAndReport. cbn [fst].
    match goal with
    | |- context [getPlayer ?i (set_lastResult ?r ?x)] =>
        rewrite (getPlayer_players i x (set_lastResult r x) eq_refl)
    end.
    apply stack_paid. }
  split; [rewrite fst_andThen; apply phase_endHand|]. split; [|split; [|split]].
  - rewrite Hstacks, (getPlayer_of_elem e w Hnd Hw). cbn [List.filter].
    rewrite bool_decide_eq_true_2 by reflexivity. cbn. f_equal. lia.
  - intros pid Hpid. rewrite Hstacks. cbn [List.filter].
    rewrite bool_decide_eq_false_2 by congruence.
    destruct (getPlayer pid e); cbn; [f_equal; lia|reflexivity].
  - rewrite snd_andThen. unfold payAndReport at 1. cbn [snd app].
    eexists _, _. split; reflexivity.
  - apply (calm_andThen (payAndReport [w] (totalPot e) text) endHand);
      [apply calm_payAndReport|apply calm_endHand].
Qed.

(** X11.  When one player alone is best-ranked at the evaluation of the
    combos, nobody ranks better than that player, who is paid the whole
    pot: the hand ends, the stack of the winner grows by [totalPot], the
    other stacks stay and the result names the winner and the amount. *)
Theorem unique_best_takes_pot e best :
  NoDup (map playerId (players e)) ->
  bestRanked (map (evaluatePlayer e) (activePlayers e)) = [best] ->
  ev_player best ∈ activePlayers e
  /\ (forall p, p ∈ activePlayers e -> betterThan (evaluatePlayer e p) best = false)
  /\ evaluateCombos e = awardPot (ev_player best) e
  /\ wonBy (ev_player best) (totalPot e) e (evaluateCombos e).
Proof.
  intros Hnd Hone.
  assert (Hbest : best ∈ bestRanked (map (evaluatePlayer e) (activePlayers e)))
    by (rewrite Hone; apply list_elem_of_here).
  unfold bestRanked in Hbest. apply list_elem_of_In, List.filter_In in Hbest as [Hin Hmin].
  apply list_elem_of_In, list_elem_of_fmap in Hin as [p [-> Hp]].
  cbn [evaluatePlayer ev_player]. split; [exact Hp|]. split.
  - intros q Hq. rewrite forallb_forall in Hmin.
    apply negb_true_iff, Hmin, list_elem_of_In, list_elem_of_fmap. by exists q.
  - rewrite (evaluateCombos_single e _ Hone). cbn [evaluatePlayer ev_player].
    split; [reflexivity|]. unfold awardPot. apply paid_one_outcome; [exact Hnd|].
    by apply elem_of_activePlayers in Hp as [Hp _].
Qed.

Lemma unique_best_takes_pot_witness :
  comboSubmit "p1" [] twoSubmitted = evaluateCombos lateShowdown
  /\ exists best,
    bestRanked (map (evaluatePlayer lateShowdown) (activePlayers lateShowdown)) = [best]
    /\ playerId (ev_player best) = "p2"
    /\ totalPot lateShowdown = 30
    /\ wonBy (ev_player best) 30 lateShowdown (evaluateCombos lateShowdown).
Proof.
  split; [vm_compute; reflexivity|].
  assert (Hnd : NoDup (map playerId (players lateShowdown))).
  { apply distinctb_NoDup. vm_compute. reflexivity. }
  destruct (bestRanked (map (evaluatePlayer lateShowdown) (activePlayers lateShowdown)))
    as [|best [|second rest]] eqn:Hbest;
    [exfalso; apply (f_equal length) in Hbest; vm_compute in Hbest; discriminate
    | |exfalso; apply (f_equal length) in Hbest; vm_compute in Hbest; discriminate].
  exists best. split; [reflexivity|].
  assert (Hid : playerId (ev_player best) = "p2").
  { apply (f_equal (fun l => map (fun x => playerId (ev_player x)) l)) in Hbest.
    vm_compute in Hbest. injection Hbest as Hb. symmetry. exact Hb. }
  assert (Hpot : totalPot lateShowdown = 30) by (vm_compute; reflexivity).
  split; [exact Hid|]. split; [exact Hpot|]. rewrite <- Hpot.
  exact (proj2 (proj2 (proj2 (unique_best_takes_pot lateShowdown best Hnd Hbest)))).
Defined.

(** ** A fold that leaves one player *)

Lemma activePlayers_map pid (h : EnginePlayer -> EnginePlayer) ps :
  (forall p, playerId (h p) = playerId p) ->
  (forall p, isActive (h p) = isActive p && negb (bool_decide (playerId p = pid))) ->
  List.filter isActive (map h ps)
  = map h (List.filter (fun p => negb (bool_decide (playerId p = pid)))
             (List.filter isActive ps)).
Proof.
  intros Hid Hact. induction ps as [|p ps IH]; [reflexivity|].
  cbn [map List.filter]. rewrite Hact, IH.
  destruct (isActive p); cbn [andb List.filter]; [|reflexivity].
  destruct (negb (bool_decide (playerId p = pid))); reflexivity.
Qed.

Lemma wonBy_alike w w' amount amount' e e' outcome :
  playerId w' = playerId w -> username w' = username w -> stack w' = stack w ->
  amount' = amount ->
  (forall pid, stack <$> getPlayer pid e' = stack <$> getPlayer pid e) ->
  wonBy w' amount' e' outcome -> wonBy w amount e outcome.
Proof.
  intros Hid Hname Hstack -> Hsame (Hphase & Hw & Hothers & Hresult & Hcalm).
  unfold wonBy. rewrite <- Hid, <- Hname, <- Hstack.
  split; [exact Hphase|]. split; [exact Hw|]. split; [|split; [exact Hresult|exact Hcalm]].
  intros pid Hpid. rewrite <- Hsame. by apply Hothers.
Qed.

Lemma wonBy_then_broadcast w amount e (p : Proc) e0 :
  wonBy w amount e (p e0) -> wonBy w amount e ((p ;> broadcast) e0).
Proof.
  intros (Hphase & Hw & Hothers & (result & rest & Hevents & Hwinners) & Hcalm).
  unfold wonBy. rewrite fst_andThen, snd_andThen. unfold broadcast at 1 2 3. cbn [fst].
  split; [exact Hphase|]. split; [exact Hw|]. split; [exact Hothers|]. split.
  - rewrite Hevents. eexists _, _. split; [reflexivity|exact Hwinners].
  - apply noError_app. split; [exact Hcalm|apply noError_broadcast].
Qed.

(** X12.  When the player to act folds and one other player is left in the
    hand, the hand ends at once and that player is paid the whole pot: the
    table waits for the dealer, the stack of the player who is left grows
    by [totalPot], the other stacks stay, and the result names that player
    and the amount. *)
Theorem fold_to_last_player pid e folder w :
  NoDup (map playerId (players e)) ->
  getPlayer pid e = Some folder ->
  inHand folder = true -> hasFolded folder = false ->
  truthy (actingSeat e) = true -> seatIndex folder = actingSeat e ->
  List.filter (fun p => negb (bool_decide (playerId p = pid))) (activePlayers e) = [w] ->
  wonBy w (totalPot e) e (betAction pid (mkBet BetFold None) e).
Proof.
  intros Hnd Hp Hin Hfold Hacting Hseat Hleft.
  rewrite (betAction_turn pid _ e folder Hp Hin Hfold Hacting Hseat). cbn [action].
  set (foldf := fun p => set_lastAction (Some "Fold") (set_inHand false (set_hasFolded true p))).
  set (e1 := updatePlayer pid foldf e).
  set (e2 := markSeatActed (seatIndex folder) false e1).
  assert (Hplayers2 : players e2 = players e1).
  { unfold e2, markSeatActed. by destruct (seatIndex folder) as [[|k]|]. }
  assert (Hacting2 : actingSeat e2 = actingSeat e).
  { unfold e2, markSeatActed. by destruct (seatIndex folder) as [[|k]|]. }
  assert (Hactive2 : activePlayers e2 = [w]).
  { unfold activePlayers. rewrite Hplayers2. unfold e1, updatePlayer. engine_fields.
    rewrite (activePlayers_map pid).
    - fold (activePlayers e). rewrite Hleft. cbn [map].
      assert (Hw : w ∈ [w]) by apply list_elem_of_here.
      rewrite <- Hleft in Hw. apply list_elem_of_In, List.filter_In in Hw as [_ Hw].
      apply negb_true_iff in Hw. by rewrite Hw.
    - intros p. by case_bool_decide.
    - intros p. cbn beta. destruct (bool_decide (playerId p = pid)); cbn [negb].
      + unfold foldf, isActive. player_fields. cbn [negb andb]. by rewrite andb_false_r.
      + by rewrite andb_true_r. }
  set (e3 := resetRound e2).
  assert (Hactive3 : activePlayers e3 = [set_betThisRound 0 w]).
  { unfold activePlayers, e3, resetRound. engine_fields.
    rewrite players_forAllPlayers. engine_fields.
    rewrite (activePlayers_same (set_betThisRound 0)) by reflexivity.
    fold (activePlayers e2). by rewrite Hactive2. }
  assert (Hkeep : keeps idStack e e3).
  { eapply keeps_trans; [|by apply keeps_resetRound].
    eapply keeps_trans; [|apply keeps_players; exact Hplayers2].
    by apply keeps_updatePlayer. }
  assert (Hbets : keeps totalBet e e3).
  { eapply keeps_trans; [|by apply keeps_resetRound].
    eapply keeps_trans; [|apply keeps_players; exact Hplayers2].
    by apply keeps_updatePlayer. }
  assert (Hpot : totalPot e3 = totalPot e).
  { rewrite !totalPot_sum. by apply sumTotalBets_keeps. }
  apply wonBy_then_broadcast. fold e1. fold e2.
  unfold advanceTurn. rewrite Hacting2, Hacting. cbn [negb].
  unfold isBettingRoundComplete. rewrite Hactive2. cbn [length].
  rewrite bool_decide_eq_true_2 by lia.
  rewrite finishBettingRound_advance. fold e3. unfold advancePhase.
  rewrite Hactive3. cbn [length]. rewrite bool_decide_eq_true_2 by lia.
  unfold resolveHandByFold. rewrite Hactive3.
  apply (wonBy_alike w (set_betThisRound 0 w) (totalPot e) (totalPot e3) e e3);
    [reflexivity|reflexivity|reflexivity|exact Hpot| |].
  - intros pid'. by apply stack_getPlayer_idStack.
  - apply paid_one_outcome.
    + unfold keeps in Hkeep. apply (f_equal (map fst)) in Hkeep.
      rewrite !map_map in Hkeep. cbn [idStack fst] in Hkeep.
      change (map playerId (players e3) = map playerId (players e)) in Hkeep.
      by rewrite Hkeep.
    + assert (Hw : set_betThisRound 0 w ∈ activePlayers e3)
        by (rewrite Hactive3; apply list_elem_of_here).
      by apply elem_of_activePlayers in Hw as [Hw _].
Qed.

Lemma fold_to_last_player_witness :
  exists folder w,
    getPlayer "a" handOne = Some folder
    /\ playerId w = "b"
    /\ totalPot handOne = 15
    /\ wonBy w 15 handOne (betAction "a" (mkBet BetFold None) handOne).
Proof.
  destruct (getPlayer "a" handOne) as [folder|] eqn:Hp;
    [|exfalso; vm_compute in Hp; discriminate].
  destruct (List.filter (fun p => negb (bool_decide (playerId p = "a")))
              (activePlayers handOne)) as [|w [|second rest]] eqn:Hleft;
    [exfalso; apply (f_equal length) in Hleft; vm_compute in Hleft; discriminate
    | |exfalso; apply (f_equal length) in Hleft; vm_compute in Hleft; discriminate].
  exists folder, w. split; [reflexivity|].
  assert (Hid : playerId w = "b").
  { apply (f_equal (map playerId)) in Hleft. vm_compute in Hleft.
    injection Hleft as Hb. symmetry. exact Hb. }
  assert (Hpot : totalPot handOne = 15) by (vm_compute; reflexivity).
  split; [exact Hid|]. split; [exact Hpot|]. rewrite <- Hpot.
  assert (Hfolder : Some folder = getPlayer "a" handOne) by (symmetry; exact Hp).
  apply (fold_to_last_player "a" handOne folder w).
  - apply distinctb_NoDup. vm_compute. reflexivity.
  - exact Hp.
  - apply (f_equal (fun o => inHand <$> o)) in Hfolder. vm_compute in Hfolder.
    injection Hfolder as H. exact H.
  - apply (f_equal (fun o => hasFolded <$> o)) in Hfolder. vm_compute in Hfolder.
    injection Hfolder as H. exact H.
  - vm_compute. reflexivity.
  - apply (f_equal (fun o => seatIndex <$> o)) in Hfolder. vm_compute in Hfolder.
    injection Hfolder as H. etransitivity; [exact H|vm_compute; reflexivity].
  - exact Hleft.
Defined.

(** ** What the players are shown *)

Lemma find_map_id (g : EnginePlayer -> EnginePlayer) pid ps :
  (forall p, playerId (g p) = playerId p) ->
  List.find (fun p => bool_decide (playerId p = pid)) (map g ps)
  = g <$> List.find (fun p => bool_decide (playerId p = pid)) ps.
Proof.
  intros Hid. induction ps as [|p ps IH]; [reflexivity|].
  cbn [map List.find]. rewrite Hid. by destruct (bool_decide (playerId p = pid)).
Qed.

Lemma getPlayer_withOtherCards d hidden secret pid e :
  getPlayer pid (withOtherCards d hidden secret e)
  = (fun p => set_comboSelection (snd (secret p)) (set_hand (fst (secret p)) p))
      <$> getPlayer pid e.
Proof.
  unfold getPlayer, withOtherCards, forAllPlayers. engine_fields.
  by apply find_map_id.
Qed.

Lemma revealedBoss_withOtherCards d hidden secret e :
  (bossRevealedCount e <= length (bossCards e))%nat ->
  revealedBoss (withOtherCards d hidden secret e) = revealedBoss e.
Proof.
  intros Hcount. unfold revealedBoss at 1. unfold withOtherCards, forAllPlayers.
  engine_fields. rewrite take_app_le.
  - unfold revealedBoss. by rewrite take_take, Nat.min_id.
  - unfold revealedBoss. rewrite length_take. lia.
Qed.

(** X13.  The cards that are not on the table stay out of what the players
    are shown.  With another deck, other Boss cards behind the disclosed
    ones, and other hands and provisional selections of the players, the
    snapshot for the table is the same, and so is the private state sent to
    a player whose own hand and selection are as before. *)
Theorem hidden_cards_stay_hidden d hidden secret e :
  (bossRevealedCount e <= length (bossCards e))%nat ->
  snapshotOf (withOtherCards d hidden secret e) = snapshotOf e
  /\ forall pid p,
       getPlayer pid e = Some p -> secret p = (hand p, comboSelection p) ->
       privateEvents pid (withOtherCards d hidden secret e) = privateEvents pid e.
Proof.
  intros Hcount. split.
  - unfold snapshotOf. rewrite (revealedBoss_withOtherCards d hidden secret e Hcount).
    f_equal.
    unfold withOtherCards at 2. unfold forAllPlayers. engine_fields.
    apply imap_ext. intros i slot _. unfold seatInfo.
    destruct slot as [pid|]; [|reflexivity].
    destruct (bool_decide (pid = "")); [reflexivity|].
    rewrite getPlayer_withOtherCards.
    destruct (getPlayer pid e) as [p|]; reflexivity.
  - intros pid p Hp Hsecret. unfold privateEvents.
    rewrite getPlayer_withOtherCards, Hp. cbn [fmap option_fmap option_map].
    rewrite Hsecret. cbn [fst snd].
    assert (Hown : set_comboSelection (comboSelection p) (set_hand (hand p) p) = p)
      by (by destruct p).
    rewrite Hown. reflexivity.
Qed.

Lemma hidden_cards_stay_hidden_witness :
  (bossRevealedCount afterBlinds <= length (bossCards afterBlinds))%nat
  /\ snapshotOf (withOtherCards orderedDeck [] (fun _ => ([], [])) afterBlinds)
     = snapshotOf afterBlinds.
Proof.
  assert (Hcount : (bossRevealedCount afterBlinds <= length (bossCards afterBlinds))%nat)
    by (vm_compute; lia).
  split; [exact Hcount|].
  exact (proj1 (hidden_cards_stay_hidden orderedDeck [] (fun _ => ([], [])) afterBlinds
                  Hcount)).
Defined.

(** ** The deal *)

Lemma dealHands_cons p ps e :
  dealHands (p :: ps) e
  = dealHands ps
      (updatePlayer (playerId p) (set_hand (take 7 (deck e)))
         (set_deck (drop 7 (deck e)) e)).
Proof. reflexivity. Qed.

Lemma dealHands_dealt eligible e :
  NoDup (map playerId eligible) ->
  deck (dealHands eligible e) = drop (7 * length eligible) (deck e)
  /\ (forall i p q,
        eligible !! i = Some p -> getPlayer (playerId p) e = Some q ->
        getPlayer (playerId p) (dealHands eligible e)
        = Some (set_hand (take 7 (drop (7 * i) (deck e))) q))
  /\ (forall pid,
        pid ∉ map playerId eligible ->
        getPlayer pid (dealHands eligible e) = getPlayer pid e).
Proof.
  revert e. induction eligible as [|p ps IH]; intros e Hnd.
  - split; [reflexivity|]. split; [intros i p q Hi; by destruct i|reflexivity].
  - apply NoDup_cons in Hnd as [Hfresh Hnd]. rewrite dealHands_cons.
    set (e1 := updatePlayer (playerId p) (set_hand (take 7 (deck e)))
                 (set_deck (drop 7 (deck e)) e)).
    destruct (IH e1 Hnd) as (Hdeck & Hdealt & Hothers).
    assert (Hdeck1 : deck e1 = drop 7 (deck e)) by reflexivity.
    assert (Hsame : forall pid, pid <> playerId p -> getPlayer pid e1 = getPlayer pid e).
    { intros pid Hpid. unfold e1. rewrite getPlayer_updatePlayer_ne by done.
      by apply getPlayer_players. }
    split; [|split].
    + rewrite Hdeck, Hdeck1, drop_drop. f_equal. cbn [length]. lia.
    + intros [|i] p' q Hi Hq.
      * injection Hi as <-. rewrite (Hothers _ Hfresh). unfold e1.
        rewrite getPlayer_updatePlayer by done.
        rewrite (getPlayer_players _ e (set_deck (drop 7 (deck e)) e) eq_refl), Hq.
        reflexivity.
      * cbn [lookup list_lookup] in Hi.
        assert (Hne : playerId p' <> playerId p).
        { intros Heq. apply Hfresh. rewrite <- Heq. apply list_elem_of_fmap.
          exists p'. split; [reflexivity|]. by apply list_elem_of_lookup_2 in Hi. }
        rewrite (Hdealt i p' q Hi) by (by rewrite Hsame).
        rewrite Hdeck1, drop_drop.
        replace (7 + 7 * i)%nat with (7 * S i)%nat by lia. reflexivity.
    + intros pid Hpid. apply not_elem_of_cons in Hpid as [Hne Hpid].
      rewrite (Hothers pid Hpid). by apply Hsame.
Qed.

(** X14.  [dealHands] gives the players their cards from the top of the
    deck, seven each, in the order of the list: the player at index [i]
    gets the cards [7 i] to [7 i + 6] of the deck and is otherwise as
    before, the deck loses the cards dealt, and a player who is not in the
    list is as before.  When the deck has seven cards for everyone in the
    list, every hand dealt has seven cards. *)
Theorem dealHands_seven_each eligible e :
  NoDup (map playerId eligible) ->
  deck (dealHands eligible e) = drop (7 * length eligible) (deck e)
  /\ (forall i p q,
        eligible !! i = Some p -> getPlayer (playerId p) e = Some q ->
        getPlayer (playerId p) (dealHands eligible e)
        = Some (set_hand (take 7 (drop (7 * i) (deck e))) q))
  /\ (forall pid,
        pid ∉ map playerId eligible ->
        getPlayer pid (dealHands eligible e) = getPlayer pid e)
  /\ ((7 * length eligible <= length (deck e))%nat ->
      forall i, (i < length eligible)%nat ->
                length (take 7 (drop (7 * i) (deck e))) = 7%nat).
Proof.
  intros Hnd. destruct (dealHands_dealt eligible e Hnd) as (Hdeck & Hdealt & Hothers).
  split; [exact Hdeck|]. split; [exact Hdealt|]. split; [exact Hothers|].
  intros Henough i Hi. rewrite length_take, length_drop. lia.
Qed.

Lemma dealHands_seven_each_witness :
  NoDup (map playerId (players afterBlinds))
  /\ deck (dealHands (players afterBlinds) afterBlinds) = drop 21 (deck afterBlinds).
Proof.
  assert (Hnd : NoDup (map playerId (players afterBlinds)))
    by (apply distinctb_NoDup; vm_compute; reflexivity).
  split; [exact Hnd|].
  exact (proj1 (dealHands_seven_each (players afterBlinds) afterBlinds Hnd)).
Defined.

(** ** What a payment does to the chips *)

Lemma sumStacks_payAndReport rs award text e :
  distinctIds e -> Forall (fun r => r ∈ players e) rs ->
  sumStacks (fst ((payAndReport rs award text ;> endHand) e))
  = sumStacks e + award * Z.of_nat (length rs).
Proof.
  intros Hids Hrs. rewrite fst_andThen.
  assert (Hend : forall x, sumStacks (fst (endHand x)) = sumStacks x).
  { intros x. pose proof (idStack_endHand x) as Hx.
    apply (f_equal (map snd)) in Hx. rewrite !map_map in Hx.
    unfold sumStacks. f_equal. exact Hx. }
  rewrite Hend. destruct (fst_payAndReport rs award text e) as [result ->].
  rewrite <- (sumStacks_paid rs award e Hids).
  - reflexivity.
  - eapply Forall_impl; [exact Hrs|]. intros r Hr. cbn beta.
    apply list_elem_of_fmap. by exists r.
Qed.

(** X15.  A payment moves the pot to the stacks, but for the remainder of a
    split.  [awardPot] adds the whole pot to the sum of the stacks;
    [splitPot] among [k] players adds the pot less the remainder of its
    division by [k], and these chips are in nobody's stack afterwards. *)
Theorem split_drops_the_remainder e :
  distinctIds e ->
  (forall w, w ∈ players e ->
     sumStacks (fst (awardPot w e)) = sumStacks e + totalPot e)
  /\ (forall ws, ws <> [] -> Forall (fun r => r ∈ players e) ws ->
        sumStacks (fst (splitPot ws e))
        = sumStacks e + totalPot e - totalPot e mod Z.of_nat (length ws)).
Proof.
  intros Hids. split.
  - intros w Hw. unfold awardPot.
    rewrite (sumStacks_payAndReport [w] _ _ e Hids); [cbn [length]; lia|].
    by apply Forall_singleton.
  - intros ws Hws Hin. unfold splitPot. cbv zeta.
    rewrite (sumStacks_payAndReport ws _ _ e Hids Hin).
    assert (Hk : 0 < Z.of_nat (length ws)) by (destruct ws; [done|cbn [length]; lia]).
    pose proof (Z.div_mod (totalPot e) (Z.of_nat (length ws))) as Hdiv. lia.
Qed.

Lemma split_drops_the_remainder_witness :
  distinctIds lastCardTie
  /\ sumStacks (fst (splitPot (players lastCardTie) lastCardTie))
     = sumStacks lastCardTie + totalPot lastCardTie
       - totalPot lastCardTie mod Z.of_nat (length (players lastCardTie)).
Proof.
  assert (Hids : distinctIds lastCardTie)
    by (apply distinctb_NoDup; vm_compute; reflexivity).
  split; [exact Hids|].
  apply (proj2 (split_drops_the_remainder lastCardTie Hids)).
  - vm_compute. discriminate.
  - apply Forall_forall. intros r Hr. exact Hr.
Defined.

(** ** The combo queue *)

Lemma comboOrderFrom_filter n s e :
  comboOrderFrom n s e = List.filter (activeAt e) (map (seatAfter s) (seq 0 n)).
Proof.
  revert s. induction n as [|n IH]; intros s; [reflexivity|].
  cbn [comboOrderFrom seq map List.filter]. rewrite IH.
  rewrite <- seq_shift, map_map.
  rewrite (map_ext (fun k => seatAfter s (S k)) (seatAfter (getNextSeatIndex s)))
    by (intros k; apply seatAfter_S).
  change (seatAfter s 0) with s.
  assert (Hs : activeAt e s
               = match getPlayerBySeat s e with Some p => isActive p | None => false end)
    by reflexivity.
  rewrite Hs. destruct (getPlayerBySeat s e) as [p|]; [|reflexivity].
  by destruct (isActive p).
Qed.

Lemma distinct_seats_NoDup (l : list nat) :
  forallb (fun i => forallb (fun j => negb (Nat.eqb (nth i l 0%nat) (nth j l 0%nat))
                                      || Nat.eqb i j)
                      (seq 0 (length l)))
          (seq 0 (length l)) = true ->
  NoDup l.
Proof.
  intros Hall. apply NoDup_ListNoDup, (List.NoDup_nth l 0%nat). intros i j Hi Hj Heq.
  rewrite forallb_forall in Hall.
  assert (Hrow := Hall i). rewrite forallb_forall in Hrow.
  specialize (Hrow ltac:(apply in_seq; lia) j ltac:(apply in_seq; lia)).
  apply orb_true_iff in Hrow as [Hrow|Hrow].
  - apply negb_true_iff, Nat.eqb_neq in Hrow. contradiction.
  - by apply Nat.eqb_eq.
Qed.

Lemma seats_from_NoDup s : isSeat s -> NoDup (map (seatAfter s) (seq 0 SEAT_COUNT)).
Proof.
  unfold isSeat, SEAT_COUNT. intros Hs.
  assert (Hs' : (s = 1 \/ s = 2 \/ s = 3 \/ s = 4 \/ s = 5 \/ s = 6)%nat) by lia.
  repeat (destruct Hs' as [->|Hs']); try subst s;
    apply distinct_seats_NoDup; vm_compute; reflexivity.
Qed.

Lemma buildComboOrder_filter e :
  buildComboOrder e
  = List.filter (activeAt e) (map (seatAfter (comboStartSeat e)) (seq 0 SEAT_COUNT)).
Proof. apply comboOrderFrom_filter. Qed.

Lemma elem_of_buildComboOrder e seat :
  isSeat (comboStartSeat e) ->
  seat ∈ buildComboOrder e <-> isSeat seat /\ activeAt e seat = true.
Proof.
  intros Hstart. rewrite buildComboOrder_filter.
  rewrite list_elem_of_In, List.filter_In, <- list_elem_of_In.
  rewrite list_elem_of_fmap. split.
  - intros [[k [-> _]] Hact]. split; [by apply seatAfter_isSeat|exact Hact].
  - intros [Hseat Hact]. split; [|exact Hact].
    destruct (seatAfter_covers _ seat Hstart Hseat) as [k [Hk ->]].
    exists k. split; [reflexivity|]. apply list_elem_of_In, in_seq. lia.
Qed.

(** X16.  The combo queue that [buildComboOrder] makes asks every player
    who is still in the hand once: no seat is in the queue twice, and a
    seat is in the queue exactly when it is a seat of the table whose
    player is in the hand and has not folded.  The queue goes clockwise
    from the small blind, or from the seat left of the dealer when there
    is no small blind. *)
Theorem comboOrder_every_player_once e :
  isSeat (comboStartSeat e) ->
  buildComboOrder e
  = List.filter (activeAt e) (map (seatAfter (comboStartSeat e)) (seq 0 SEAT_COUNT))
  /\ NoDup (buildComboOrder e)
  /\ (forall seat, seat ∈ buildComboOrder e <-> isSeat seat /\ activeAt e seat = true).
Proof.
  intros Hstart. split; [apply buildComboOrder_filter|]. split.
  - rewrite buildComboOrder_filter.
    apply NoDup_ListNoDup, List.NoDup_filter, NoDup_ListNoDup.
    by apply seats_from_NoDup.
  - intros seat. by apply elem_of_buildComboOrder.
Qed.

Lemma comboOrder_every_player_once_witness :
  isSeat (comboStartSeat comboTable)
  /\ buildComboOrder comboTable = [2; 3; 1]%nat
  /\ NoDup (buildComboOrder comboTable).
Proof.
  assert (Hstart : isSeat (comboStartSeat comboTable)) by (vm_compute; lia).
  split; [exact Hstart|]. split; [vm_compute; reflexivity|].
  exact (proj1 (proj2 (comboOrder_every_player_once comboTable Hstart))).
Defined.

(** ** Selections *)

(** X17.  To sanitize a selection twice is to sanitize it once: what
    [sanitizeSelections] returns for a player it returns again when it is
    given its own result, so a selection that [comboUpdate] has stored is
    taken as it is by [comboSubmit]. *)
Theorem sanitizeSelections_idempotent p selections :
  sanitizeSelections p (sanitizeSelections p selections)
  = sanitizeSelections p selections.
Proof.
  unfold sanitizeSelections.
  assert (Hagain : forall (seenA seenB : gset string),
            seenA ⊆ seenB ->
            sanitizeLoop p seenA (sanitizeLoop p seenB selections)
            = sanitizeLoop p seenB selections).
  { induction selections as [|selection rest IH]; intros seenA seenB Hsub; [reflexivity|].
    cbn [sanitizeLoop]. case_bool_decide as Hseen; [by apply IH|].
    destruct (findCardInHand p (cardId selection)) as [card|] eqn:Hcard; [|by apply IH].
    pose proof (findCardInHand_id _ _ _ Hcard) as Hid.
    cbn [sanitizeLoop cardId mode]. rewrite Hid.
    rewrite bool_decide_eq_false_2 by set_solver. rewrite Hcard, !Hid.
    f_equal.
    - f_equal. destruct (bool_decide (card_rank card = RA)); [|reflexivity].
      cbn [andb]. by destruct (bool_decide (mode selection = high)).
    - apply IH. by apply union_mono_l. }
  by apply Hagain.
Qed.

(** ** The Boss cards *)

Lemma bossOnTable_fields e e' :
  phase e' = phase e -> bossCards e' = bossCards e ->
  bossRevealedCount e' = bossRevealedCount e ->
  bossOnTable e -> bossOnTable e'.
Proof. unfold bossOnTable. by intros -> -> ->. Qed.

Lemma preserved_bossOnTable K : preserved K bossOnTable.
Proof.
  split; intros ? *; intros _ Hboss; intros.
  - destruct H as (_&_&_&_&Hcards&Hcount&Hphase&_).
    by apply (bossOnTable_fields e e').
  - by apply (bossOnTable_fields e).
  - apply (bossOnTable_fields e); [by apply field_seated..|exact Hboss].
  - apply (bossOnTable_fields e); [by apply field_unseated..|exact Hboss].
  - unfold bossOnTable.
    destruct (cards_opened random (getEligibleSeatedPlayers e) e) as [_ ->].
    assert (Hphase : phase (opened random (getEligibleSeatedPlayers e) e) = rush)
      by reflexivity.
    rewrite Hphase. split; [|reflexivity].
    rewrite length_take, length_buildDeck. reflexivity.
  - by apply (bossOnTable_fields e).
  - apply (bossOnTable_fields e); [by apply field_postBlind..|exact Hboss].
  - by apply (bossOnTable_fields e).
  - apply (bossOnTable_fields e); [by apply field_callContribution..|exact Hboss].
  - apply (bossOnTable_fields e); [by eapply field_raiseBy..|exact Hboss].
  - split; reflexivity.
  - apply (bossOnTable_fields e); [by apply field_resetRound..|exact Hboss].
  - unfold bossOnTable in *. rewrite H in Hboss. engine_fields. by destruct Hboss.
  - unfold bossOnTable in *. rewrite H in Hboss. engine_fields. by destruct Hboss.
  - unfold bossOnTable in *. engine_fields.
    destruct H as [H|H]; rewrite H in Hboss; destruct Hboss as [Hlen Hcount]; lia.
  - unfold bossOnTable, oxtailDrawn in *. rewrite H in Hboss. engine_fields.
    rewrite length_app. cbn [length]. lia.
  - unfold bossOnTable, handOver, forAllPlayers. engine_fields. split; reflexivity.
Qed.

(** X18.  In every engine that a run can reach the Boss cards fit the
    phase: there are none between hands, five during the betting rounds
    with three, four and five of them disclosed, and from the combo phase
    on every Boss card is disclosed.  The disclosed count is never more
    than the number of Boss cards, and the phases [showdown] and
    [hand_end] are never entered. *)
Theorem boss_cards_by_phase e :
  reachable e ->
  bossOnTable e /\ (bossRevealedCount e <= length (bossCards e))%nat.
Proof.
  intros Hreach.
  assert (Hboss : bossOnTable e).
  { apply (reachable_preserved _ (preserved_bossOnTable anyEngine) e); [|exact Hreach].
    split; reflexivity. }
  split; [exact Hboss|]. unfold bossOnTable in Hboss.
  destruct (phase e); try contradiction;
    destruct Hboss as [H1 H2]; rewrite ?H1, ?H2; cbn [length]; lia.
Qed.

Lemma boss_cards_by_phase_witness :
  reachable comboTable
  /\ (bossRevealedCount comboTable <= length (bossCards comboTable))%nat.
Proof.
  assert (Hreach : reachable comboTable).
  { unfold comboTable. apply reachable_run; [vm_compute; reflexivity|].
    apply reachable_new. }
  split; [exact Hreach|].
  exact (proj2 (boss_cards_by_phase comboTable Hreach)).
Defined.

(** ** The players in the hand *)

Lemma reachable_seating e : reachable e -> distinctIds e /\ seatingSound e.
Proof.
  intros Hreach.
  apply (reachable_preserved _
           (preserved_and _ _ preserved_distinctIds preserved_seatingSound) e);
    [|exact Hreach].
  split; [constructor|]. intros _. split; [reflexivity|]. split.
  - intros p s Hp. by apply elem_of_nil in Hp.
  - intros k x Hk. apply lookup_replicate in Hk as [Hk _]. discriminate.
Qed.

Lemma getPlayerBySeat_own e p seat :
  distinctIds e -> noEmptyId e -> seatsAgree e ->
  p ∈ players e -> seatIndex p = Some seat ->
  isSeat seat /\ getPlayerBySeat seat e = Some p.
Proof.
  intros Hids Hempty (_ & Hplayers & _) Hp Hseat.
  destruct (Hplayers p seat Hp Hseat) as [Hs Hslot]. split; [exact Hs|].
  unfold getPlayerBySeat, seatOccupant. destruct seat as [|k]; [unfold isSeat in Hs; lia|].
  replace (S k - 1)%nat with k in Hslot by lia. rewrite Hslot.
  rewrite bool_decide_eq_false_2.
  - by apply getPlayer_of_elem.
  - intros Hid. apply Hempty. rewrite <- Hid. apply list_elem_of_fmap. by exists p.
Qed.

Lemma getPlayerBySeat_seat e p seat :
  distinctIds e -> seatsAgree e -> getPlayerBySeat seat e = Some p -> seatIndex p = Some seat.
Proof.
  intros Hids (_ & _ & Hslots) Hp. unfold getPlayerBySeat, seatOccupant in Hp.
  destruct seat as [|k]; [discriminate|].
  destruct (seats e !! k) as [[pid|]|] eqn:Hslot; try discriminate.
  destruct (bool_decide (pid = "")); [discriminate|].
  destruct (Hslots k pid Hslot) as (q & Hq & Hid & Hseat).
  by rewrite <- (getPlayer_unique pid e p q Hids Hp Hq Hid).
Qed.

(** X19.  Every player who is still in the hand has a turn in the combo
    queue.  In an engine that a run can reach, with no empty player id and
    a start seat of the queue that is a seat of the table, a player who is
    in the hand and has not folded sits at a seat, is the player that the
    engine finds at that seat, and that seat is in the queue that
    [buildComboOrder] makes; no other seat of the queue is the player's. *)
Theorem active_players_are_queued e p :
  reachable e -> noEmptyId e -> isSeat (comboStartSeat e) ->
  p ∈ activePlayers e ->
  exists seat,
    seatIndex p = Some seat
    /\ getPlayerBySeat seat e = Some p
    /\ seat ∈ buildComboOrder e
    /\ forall seat', seat' ∈ buildComboOrder e ->
          getPlayerBySeat seat' e = Some p -> seat' = seat.
Proof.
  intros Hreach Hempty Hstart Hactive.
  destruct (reachable_seating e Hreach) as [Hids Hsound].
  specialize (Hsound Hempty).
  destruct (reachable_wellFormed e Hreach) as [_ Hseated].
  apply elem_of_activePlayers in Hactive as [Hp Hact].
  rewrite Forall_forall in Hseated. pose proof (Hseated p Hp Hact) as Htruthy.
  destruct (seatIndex p) as [seat|] eqn:Hseat; [|discriminate]. exists seat.
  destruct (getPlayerBySeat_own e p seat Hids Hempty Hsound Hp Hseat) as [Hs Hfound].
  split; [reflexivity|]. split; [exact Hfound|]. split.
  - apply elem_of_buildComboOrder; [exact Hstart|]. split; [exact Hs|].
    unfold activeAt. by rewrite Hfound.
  - intros seat' _ Hfound'.
    pose proof (getPlayerBySeat_seat e p seat' Hids Hsound Hfound') as Hseat'.
    congruence.
Qed.

Lemma active_players_are_queued_witness :
  exists p seat,
    p ∈ activePlayers comboTable
    /\ playerId p = "p1"
    /\ seatIndex p = Some seat
    /\ seat ∈ buildComboOrder comboTable.
Proof.
  assert (Hreach : reachable comboTable).
  { unfold comboTable. apply reachable_run; [vm_compute; reflexivity|].
    apply reachable_new. }
  assert (Hempty : noEmptyId comboTable).
  { unfold noEmptyId. vm_compute. intros Hin.
    repeat (apply elem_of_cons in Hin as [Hin|Hin]; [discriminate|]).
    by apply elem_of_nil in Hin. }
  assert (Hstart : isSeat (comboStartSeat comboTable)) by (vm_compute; lia).
  destruct (getPlayer "p1" comboTable) as [p|] eqn:Hp;
    [|exfalso; vm_compute in Hp; discriminate].
  assert (Hactive : p ∈ activePlayers comboTable).
  { apply elem_of_activePlayers. split; [by eapply getPlayer_elem|].
    assert (Hsome : Some p = getPlayer "p1" comboTable) by (symmetry; exact Hp).
    apply (f_equal (fun o => isActive <$> o)) in Hsome. vm_compute in Hsome.
    injection Hsome as H. exact H. }
  destruct (active_players_are_queued comboTable p Hreach Hempty Hstart Hactive)
    as (seat & Hseat & _ & Hqueue & _).
  exists p, seat. split; [exact Hactive|]. split; [by eapply getPlayer_id|].
  split; [exact Hseat|exact Hqueue].
Defined.

(** ** Entry to the hands *)

Lemma entryBound_keeps e e' :
  keeps entryHand e e' -> (handNumber e <= handNumber e')%nat ->
  entryBound e -> entryBound e'.
Proof.
  intros Hkeeps Hhand Hbound. unfold entryBound in *.
  pose proof (Forall_keeps entryHand (fun n => (n <= handNumber e + 1)%nat) e e'
                Hkeeps Hbound) as Hall.
  eapply Forall_impl; [exact Hall|]. intros p Hp. cbn beta in *. lia.
Qed.

Lemma preserved_entryBound K : preserved K entryBound.
Proof.
  split; intros ? *; intros _ Hbound; intros.
  - pose proof H as (_&_&Hhand&_). apply (entryBound_keeps e e'); [|lia|exact Hbound].
    apply keeps_sameCore; [|exact H]. intros p q Hpq. unfold core in Hpq. congruence.
  - unfold entryBound, joined in *. engine_fields. apply Forall_app.
    split; [exact Hbound|]. apply Forall_singleton. cbn [newcomer entryHand].
    destruct (isHandActive e); lia.
  - unfold entryBound in *.
    assert (Hhand : handNumber (seated pid seat player e) = handNumber e)
      by (by apply field_seated).
    assert (Hn : exists n, (n <= handNumber e + 1)%nat
                   /\ players (seated pid seat player e)
                      = map (fun p => if bool_decide (playerId p = pid)
                                      then set_entryHand n (set_seatIndex (Some seat) p)
                                      else p) (players e)).
    { unfold seated, updatePlayer. engine_fields.
      destruct (truthy (seatIndex player)); engine_fields;
        (eexists; split; [|reflexivity]); destruct (isHandActive _); lia. }
    destruct Hn as (m & Hm & ->). rewrite Hhand. apply List.Forall_map.
    eapply Forall_impl; [exact Hbound|]. intros p Hp. cbn beta in *.
    case_bool_decide; [player_fields; lia|exact Hp].
  - apply (entryBound_keeps e); [by apply keeps_unseated| |exact Hbound].
    by rewrite field_unseated.
  - apply (entryBound_keeps e); [by apply keeps_opened| |exact Hbound].
    assert (Hhand : handNumber (opened random (getEligibleSeatedPlayers e) e)
                    = (handNumber e + 1)%nat).
    { unfold opened, drawCards. engine_fields. by rewrite field_resetPlayersForHand. }
    lia.
  - apply (entryBound_keeps e); [by apply keeps_dealtTo|reflexivity|exact Hbound].
  - apply (entryBound_keeps e); [| |exact Hbound].
    + apply keeps_postBlind; try done. intros q. pose proof (H q) as Hq.
      unfold core in Hq. congruence.
    + by rewrite field_postBlind.
  - apply (entryBound_keeps e); [by apply keeps_folded|reflexivity|exact Hbound].
  - apply (entryBound_keeps e); [by apply keeps_callContribution| |exact Hbound].
    by rewrite field_callContribution.
  - apply (entryBound_keeps e); [by eapply keeps_raiseBy| |exact Hbound].
    assert (Hhand : handNumber e' = handNumber e) by (by eapply field_raiseBy).
    lia.
  - unfold entryBound. rewrite players_restartTable. apply List.Forall_map, Forall_forall.
    intros p _. unfold clearedForTable. player_fields. lia.
  - apply (entryBound_keeps e); [by apply keeps_resetRound| |exact Hbound].
    by rewrite field_resetRound.
  - exact Hbound.
  - exact Hbound.
  - exact Hbound.
  - exact Hbound.
  - apply (entryBound_keeps e); [| |exact Hbound].
    + eapply keeps_trans; [by apply keeps_paid|]. by apply keeps_handOver.
    + unfold handOver, forAllPlayers. engine_fields. by rewrite field_paid.
Qed.

(** X20.  A seated player is passed over by one start of a hand at most.
    In an engine that a run can reach and where no player id is empty, the
    entry hand of a player is at most the hand number plus one, and a
    seated player whose entry hand is at most the hand number is among the
    players that [getEligibleSeatedPlayers] returns. *)
Theorem passed_over_once_at_most e p :
  reachable e -> noEmptyId e -> p ∈ players e -> truthy (seatIndex p) = true ->
  (entryHand p <= handNumber e + 1)%nat
  /\ ((entryHand p <= handNumber e)%nat -> p ∈ getEligibleSeatedPlayers e).
Proof.
  intros Hreach Hempty Hp Hseated. split.
  - assert (Hbound : entryBound e).
    { apply (reachable_preserved _ (preserved_entryBound anyEngine) e); [|exact Hreach].
      constructor. }
    unfold entryBound in Hbound. rewrite Forall_forall in Hbound. by apply Hbound.
  - intros Hentry. destruct (reachable_seating e Hreach) as [Hids Hsound].
    destruct (Hsound Hempty) as (_ & Hplayers & _).
    destruct (seatIndex p) as [seat|] eqn:Hseat; [|discriminate].
    destruct (Hplayers p seat Hp Hseat) as [_ Hslot].
    unfold getEligibleSeatedPlayers. apply list_elem_of_omap.
    exists (Some (playerId p)). split; [by eapply list_elem_of_lookup_2|].
    rewrite bool_decide_eq_false_2.
    + rewrite (getPlayer_of_elem e p Hids Hp), Hseat, Hseated.
      by rewrite bool_decide_eq_true_2.
    + intros Hid. apply Hempty. rewrite <- Hid. apply list_elem_of_fmap. by exists p.
Qed.

Lemma passed_over_once_at_most_witness :
  exists p,
    p ∈ players lateJoiner
    /\ playerId p = "c"
    /\ (entryHand p <= handNumber lateJoiner + 1)%nat.
Proof.
  assert (Hreach : reachable lateJoiner).
  { unfold lateJoiner, threeWaiting, lateSeated, handOne.
    do 4 (apply reachable_run; [vm_compute; reflexivity|]). apply reachable_new. }
  assert (Hempty : noEmptyId lateJoiner).
  { unfold noEmptyId. vm_compute. intros Hin.
    repeat (apply elem_of_cons in Hin as [Hin|Hin]; [discriminate|]).
    by apply elem_of_nil in Hin. }
  destruct (getPlayer "c" lateJoiner) as [p|] eqn:Hp;
    [|exfalso; vm_compute in Hp; discriminate].
  assert (Hsome : Some p = getPlayer "c" lateJoiner) by (symmetry; exact Hp).
  assert (Hseated : truthy (seatIndex p) = true).
  { apply (f_equal (fun o => (fun q => truthy (seatIndex q)) <$> o)) in Hsome.
    vm_compute in Hsome. injection Hsome as H. exact H. }
  exists p. split; [by eapply getPlayer_elem|]. split; [by eapply getPlayer_id|].
  exact (proj1 (passed_over_once_at_most lateJoiner p Hreach Hempty
                  (getPlayer_elem _ _ _ Hp) Hseated)).
Defined.

(** ** The start of a hand *)

Lemma getPlayer_keeps {A} (g : EnginePlayer -> A) pid e e' :
  keeps (fun p => (playerId p, g p)) e e' ->
  g <$> getPlayer pid e' = g <$> getPlayer pid e.
Proof.
  unfold keeps, getPlayer. generalize (players e) (players e'). intros ps qs. revert ps.
  induction qs as [|q qs IH]; intros [|p ps] Heq; try discriminate; [reflexivity|].
  cbn [map] in Heq. injection Heq as Hid Hg Hrest. cbn [List.find]. rewrite Hid.
  destruct (bool_decide (playerId p = pid)); [cbn; by rewrite Hg|by apply IH].
Qed.

Lemma settled_keeps_idHand e e' : settled e e' -> keeps idHand e e'.
Proof.
  intros [Hplayers _]. unfold keeps.
  induction Hplayers as [|p q ps qs (Hid & _ & _ & _ & Hhand & _) _ IH]; [reflexivity|].
  cbn [map]. unfold idHand at 1 3. by rewrite Hid, Hhand, IH.
Qed.

Lemma keeps_assignBlinds {A} (g : EnginePlayer -> A) eligible e :
  (forall p d, g (set_isDealer d p) = g p) ->
  (forall p, g (set_isSmallBlind true p) = g p) ->
  (forall p, g (set_isBigBlind true p) = g p) ->
  (forall p s b t, g (set_totalBet t (set_betThisRound b (set_stack s p))) = g p) ->
  (forall p b, g (set_betThisRound b p) = g p) ->
  keeps g e (assignBlinds eligible e).
Proof.
  intros Hdealer Hsmall Hbig Hcommit Hbet. unfold assignBlinds.
  eapply keeps_trans; [|by apply keeps_postBlind].
  eapply keeps_trans; [|by apply keeps_postBlind].
  eapply keeps_trans; [|apply keeps_players; reflexivity].
  eapply keeps_trans;
    [|apply keeps_foldl; intros e' p; apply keeps_updatePlayer; intros q; apply Hdealer].
  repeat case_match; try apply keeps_refl.
  eapply keeps_trans; [|apply keeps_updatePlayer; intros q; apply Hdealer].
  by apply keeps_players.
Qed.

Lemma handNumber_assignBlinds eligible e :
  handNumber (assignBlinds eligible e) = handNumber e.
Proof.
  unfold assignBlinds. rewrite !field_postBlind by done. engine_fields.
  rewrite field_foldl by (intros e' p; by apply field_updatePlayer).
  by repeat case_match.
Qed.

Lemma handNumber_dealHands eligible e : handNumber (dealHands eligible e) = handNumber e.
Proof. unfold dealHands. apply field_foldl. intros e' p. reflexivity. Qed.

Lemma keeps_dealHands {A} (g : EnginePlayer -> A) eligible e :
  (forall q cards, g (set_hand cards q) = g q) -> keeps g e (dealHands eligible e).
Proof.
  intros Hg. unfold dealHands. apply keeps_foldl. intros e' p.
  by apply (keeps_dealtTo g e' p).
Qed.

Lemma length_omap_le {A B} (f : A -> option B) (l : list A) :
  (length (omap f l) <= length l)%nat.
Proof.
  induction l as [|x l IH]; [reflexivity|]. cbn [omap list_omap length].
  destruct (f x); cbn [length]; lia.
Qed.

Lemma NoDup_omap_ids (f : option string -> option EnginePlayer) (slots : list (option string)) :
  (forall slot p, f slot = Some p -> slot = Some (playerId p)) ->
  (forall i j pid, slots !! i = Some (Some pid) -> slots !! j = Some (Some pid) -> i = j) ->
  NoDup (map playerId (omap f slots)).
Proof.
  intros Hf. induction slots as [|slot slots IH]; intros Hone; [constructor|].
  assert (Hrest : NoDup (map playerId (omap f slots))).
  { apply IH. intros i j pid Hi Hj.
    assert (S i = S j) by (by apply (Hone (S i) (S j) pid)). lia. }
  cbn [omap list_omap]. destruct (f slot) as [p|] eqn:Hp; [|exact Hrest].
  cbn [map]. apply NoDup_cons. split; [|exact Hrest].
  intros Hin. apply list_elem_of_fmap in Hin as (q & Hid & Hq).
  apply list_elem_of_omap in Hq as (slot' & Hslot' & Hq).
  apply list_elem_of_lookup_1 in Hslot' as [j Hj].
  apply Hf in Hp, Hq. subst slot slot'. rewrite <- Hid in Hj.
  assert (0 = S j)%nat by (by apply (Hone 0%nat (S j) (playerId p))). lia.
Qed.

Lemma NoDup_eligible e :
  distinctIds e -> seatsAgree e -> NoDup (map playerId (getEligibleSeatedPlayers e)).
Proof.
  intros Hids (_ & _ & Hslots). unfold getEligibleSeatedPlayers. apply NoDup_omap_ids.
  - intros [pid|] p Hp; [|discriminate].
    destruct (bool_decide (pid = "")); [discriminate|].
    destruct (getPlayer pid e) as [q|] eqn:Hq; [|discriminate].
    destruct (truthy (seatIndex q) && bool_decide (entryHand q <= handNumber e)%nat);
      [|discriminate].
    injection Hp as <-. f_equal. symmetry. by eapply getPlayer_id.
  - intros i j pid Hi Hj.
    destruct (Hslots i pid Hi) as (p & Hp & Hpid & Hseat).
    destruct (Hslots j pid Hj) as (q & Hq & Hqid & Hseat').
    assert (Heq : q = p).
    { apply (getPlayer_unique pid e p q Hids); [|exact Hq|exact Hqid].
      rewrite <- Hpid. by apply getPlayer_of_elem. }
    subst q. congruence.
Qed.

Lemma eligible_joined e p : p ∈ getEligibleSeatedPlayers e -> p ∈ players e.
Proof.
  unfold getEligibleSeatedPlayers. intros Hp.
  apply list_elem_of_omap in Hp as ([pid|] & _ & Hp); [|discriminate].
  destruct (bool_decide (pid = "")); [discriminate|].
  destruct (getPlayer pid e) as [q|] eqn:Hq; [|discriminate].
  destruct (truthy (seatIndex q) && bool_decide (entryHand q <= handNumber e)%nat);
    [|discriminate].
  injection Hp as <-. by eapply getPlayer_elem.
Qed.

Lemma no_cards_opened random eligible e :
  Forall (fun p => hand p = []) (players (opened random eligible e)).
Proof.
  assert (Hkeeps : keeps hand
                     (forAllPlayers clearedForHand (set_handNumber (handNumber e + 1) e))
                     (opened random eligible e)).
  { unfold opened, drawCards, resetPlayersForHand.
    eapply keeps_trans; [|apply keeps_players; reflexivity].
    apply keeps_foldl. intros e' p. by apply keeps_updatePlayer. }
  apply (Forall_keeps hand (fun cards => cards = []) _ _ Hkeeps).
  unfold forAllPlayers. engine_fields. apply List.Forall_map, Forall_forall.
  intros p _. reflexivity.
Qed.

(** X21.  A hand that the dealer starts deals seven cards to every eligible
    player.  In an engine that a run can reach, with no empty player id,
    when the dealer calls [startHand] between hands and two or more seated
    players are eligible, the call is carried out without an error and the
    hand number goes up by one; the eligible player at index [i] then
    holds the seven cards that follow the five Boss cards and the cards of
    the players before in the shuffled deck, and a player who is not
    eligible holds no cards. *)
Theorem startHand_deals_seven pid random e dealer :
  reachable e -> noEmptyId e ->
  getPlayer pid e = Some dealer -> isDealer dealer = true -> phase e = waiting ->
  (2 <= length (getEligibleSeatedPlayers e))%nat ->
  handNumber (fst (startHand pid random e)) = (handNumber e + 1)%nat
  /\ noError (snd (startHand pid random e))
  /\ (forall i p,
        getEligibleSeatedPlayers e !! i = Some p ->
        hand <$> getPlayer (playerId p) (fst (startHand pid random e))
        = Some (take 7 (drop (5 + 7 * i) (buildDeck random)))
        /\ length (take 7 (drop (5 + 7 * i) (buildDeck random))) = 7%nat)
  /\ (forall q,
        q ∈ players (fst (startHand pid random e)) ->
        playerId q ∉ map playerId (getEligibleSeatedPlayers e) ->
        hand q = []).
Proof.
  intros Hreach Hempty Hdealer Hflag Hphase Htwo.
  destruct (reachable_seating e Hreach) as [Hids Hsound].
  specialize (Hsound Hempty).
  set (eligible := getEligibleSeatedPlayers e) in *.
  assert (Hstart : startHand pid random e = (beginHand random eligible ;> broadcast) e).
  { unfold startHand. rewrite Hdealer, Hflag. cbn [negb]. unfold isHandActive.
    rewrite bool_decide_eq_true_2 by exact Hphase. cbn [negb].
    fold eligible. by rewrite bool_decide_eq_false_2 by lia. }
  rewrite Hstart, fst_andThen, fst_broadcast, snd_andThen, beginHand_opened.
  set (e5 := opened random eligible e).
  set (e6 := set_bossVisible true (dealHands eligible e5)).
  set (e7 := assignBlinds eligible e6).
  destruct (calm_startBettingRound (smallBlindSeat e7) e7) as [Hsettled Hcalm].
  set (e8 := fst (startBettingRound (smallBlindSeat e7) e7)) in *.
  assert (Hnd : NoDup (map playerId eligible)) by (by apply NoDup_eligible).
  destruct (dealHands_dealt eligible e5 Hnd) as (_ & Hdealt & Hothers).
  assert (Hhands : keeps idHand e6 e8).
  { eapply keeps_trans; [|by apply settled_keeps_idHand].
    by apply keeps_assignBlinds. }
  assert (Hlook : forall x, hand <$> getPlayer x e8
                            = hand <$> getPlayer x (dealHands eligible e5)).
  { intros x. by rewrite (getPlayer_keeps hand x e6 e8 Hhands). }
  assert (Hids5 : keeps playerId e e5) by (by apply keeps_opened).
  split; [|split; [|split]].
  - destruct Hsettled as (_ & _ & -> & _). unfold e7. rewrite handNumber_assignBlinds.
    unfold e6. engine_fields. rewrite handNumber_dealHands. unfold e5, opened, drawCards.
    engine_fields. by rewrite field_resetPlayersForHand.
  - apply noError_app. split; [exact Hcalm|apply noError_broadcast].
  - intros i p Hi. split.
    + assert (Hp : p ∈ players e)
        by (apply eligible_joined; by eapply list_elem_of_lookup_2).
      assert (Hsome : is_Some (getPlayer (playerId p) e5)).
      { destruct (getPlayer (playerId p) e5) as [q|] eqn:Hq; [by eexists|].
        exfalso. apply getPlayer_None_fresh in Hq. apply Hq.
        unfold keeps in Hids5. rewrite Hids5. apply list_elem_of_fmap. by exists p. }
      destruct Hsome as [q Hq]. rewrite Hlook, (Hdealt i p q Hi Hq).
      destruct (cards_opened random eligible e) as [Hdeck _]. fold e5 in Hdeck.
      rewrite Hdeck, drop_drop. reflexivity.
    + apply lookup_lt_Some in Hi.
      pose proof (length_omap_le
                    (fun slot : option string =>
                       match slot with
                       | Some pid' =>
                           if bool_decide (pid' = "") then None
                           else
                             match getPlayer pid' e with
                             | Some p' =>
                                 if truthy (seatIndex p')
                                    && bool_decide (entryHand p' <= handNumber e)%nat
                                 then Some p' else None
                             | None => None
                             end
                       | None => None
                       end) (seats e)) as Hlen.
      fold (getEligibleSeatedPlayers e) in Hlen. fold eligible in Hlen.
      destruct Hsound as (Hseats & _). unfold SEAT_COUNT in Hseats.
      rewrite length_take, length_drop, length_buildDeck. lia.
  - intros q Hq Hout.
    destruct (keeps_elem idHand e6 e8 q Hhands Hq) as (q6 & Hq6 & Heq).
    unfold idHand in Heq. injection Heq as Hid Hhand. rewrite <- Hhand.
    assert (Hq6' : q6 ∈ players (dealHands eligible e5)) by exact Hq6.
    assert (Hids6 : distinctIds (dealHands eligible e5)).
    { eapply distinctIds_keeps; [|exact Hids].
      eapply keeps_trans; [exact Hids5|]. by apply keeps_dealHands. }
    pose proof (getPlayer_of_elem _ q6 Hids6 Hq6') as Hfound.
    rewrite Hothers in Hfound by (by rewrite Hid).
    apply getPlayer_elem in Hfound.
    pose proof (no_cards_opened random eligible e) as Hnone.
    rewrite Forall_forall in Hnone. by apply Hnone.
Qed.

Lemma startHand_deals_seven_witness :
  exists dealer,
    getPlayer "b" threeWaiting = Some dealer
    /\ isDealer dealer = true
    /\ handNumber (fst (startHand "b" firstIndex threeWaiting))
       = (handNumber threeWaiting + 1)%nat.
Proof.
  assert (Hreach : reachable threeWaiting).
  { unfold threeWaiting, lateSeated, handOne.
    do 3 (apply reachable_run; [vm_compute; reflexivity|]). apply reachable_new. }
  assert (Hempty : noEmptyId threeWaiting).
  { unfold noEmptyId. vm_compute. intros Hin.
    repeat (apply elem_of_cons in Hin as [Hin|Hin]; [discriminate|]).
    by apply elem_of_nil in Hin. }
  destruct (getPlayer "b" threeWaiting) as [dealer|] eqn:Hdealer;
    [|exfalso; vm_compute in Hdealer; discriminate].
  assert (Hsome : Some dealer = getPlayer "b" threeWaiting) by (symmetry; exact Hdealer).
  assert (Hflag : isDealer dealer = true).
  { apply (f_equal (fun o => isDealer <$> o)) in Hsome. vm_compute in Hsome.
    injection Hsome as H. exact H. }
  assert (Hphase : phase threeWaiting = waiting) by (vm_compute; reflexivity).
  assert (Htwo : (2 <= length (getEligibleSeatedPlayers threeWaiting))%nat)
    by (vm_compute; lia).
  exists dealer. split; [reflexivity|]. split; [exact Hflag|].
  exact (proj1 (startHand_deals_seven "b" firstIndex threeWaiting dealer
                  Hreach Hempty Hdealer Hflag Hphase Htwo)).
Defined.

(** ** The dealer *)

(** X22.  After a hand the dealer button goes to the next occupied seat.
    In an engine that a run can reach, with no empty player id, a dealer
    seat and some occupied seat, [rotateDealer] sets the dealer seat to
    the first occupied seat clockwise after the old one; the player whom
    the engine finds at that seat has the dealer flag, and nobody at
    another seat has it. *)
Theorem button_moves_on e s :
  reachable e -> noEmptyId e ->
  dealerSeat e = Some s -> isSeat s ->
  (exists t, isSeat t /\ is_Some (getPlayerBySeat t e)) ->
  exists t d,
    dealerSeat (rotateDealer e) = Some t
    /\ firstSeatFrom occupiedSeat (getNextSeatIndex s) e t
    /\ getPlayerBySeat t (rotateDealer e) = Some d
    /\ isDealer d = true
    /\ forall p, p ∈ players (rotateDealer e) -> isDealer p = true -> seatIndex p = Some t.
Proof.
  intros Hreach Hempty Hdealer Hs (t0 & Ht0 & Hocc).
  destruct (reachable_seating e Hreach) as [Hids Hsound].
  specialize (Hsound Hempty).
  assert (Hnext : isSeat (getNextSeatIndex s)) by apply getNextSeatIndex_isSeat.
  unfold rotateDealer. rewrite Hdealer.
  destruct s as [|k]; [unfold isSeat in Hs; lia|]. cbn [truthy negb].
  unfold getNextOccupiedSeat, findSeatInDirection.
  pose proof (scanSeats_spec (fun player => bool_decide (is_Some player)) SEAT_COUNT
                (getNextSeatIndex (S k)) e) as Hscan.
  destruct (scanSeats (fun player => bool_decide (is_Some player)) SEAT_COUNT
              (getNextSeatIndex (S k)) e) as [t|].
  - destruct Hscan as (j & Hj & Ht & Hfound & Hbefore).
    assert (Hseat : isSeat t) by (rewrite Ht; by apply seatAfter_isSeat).
    destruct t as [|t']; [unfold isSeat in Hseat; lia|].
    apply bool_decide_eq_true_1 in Hfound as [d Hd].
    set (flag := fun p => set_isDealer (bool_decide (seatIndex p = Some (S t'))) p).
    exists (S t'), (flag d). split; [reflexivity|]. split.
    { exists j. split; [exact Hj|]. split; [exact Ht|]. split; [|exact Hbefore].
      unfold occupiedSeat. rewrite Hd. by apply bool_decide_eq_true_2. }
    assert (Hown : seatIndex d = Some (S t')) by (by apply (getPlayerBySeat_seat e)).
    split; [|split].
    + unfold getPlayerBySeat in *. unfold seatOccupant in *.
      unfold forAllPlayers. engine_fields.
      destruct (seats e !! t') as [[pid|]|]; try discriminate.
      destruct (bool_decide (pid = "")); [discriminate|].
      unfold getPlayer in *. engine_fields.
      rewrite (find_map_id flag) by reflexivity. by rewrite Hd.
    + unfold flag. player_fields. by apply bool_decide_eq_true_2.
    + intros p Hp Hflag. unfold forAllPlayers in Hp. engine_fields.
      apply list_elem_of_fmap in Hp as (p0 & -> & _). unfold flag in *.
      player_fields. cbn [isDealer set_isDealer] in Hflag.
      by apply bool_decide_eq_true_1 in Hflag.
  - exfalso. destruct (seatAfter_covers _ t0 Hnext Ht0) as (j & Hj & ->).
    specialize (Hscan j Hj). apply bool_decide_eq_false_1 in Hscan. contradiction.
Qed.

Lemma button_moves_on_witness :
  reachable comboTable
  /\ dealerSeat comboTable = Some 1%nat
  /\ exists t, dealerSeat (rotateDealer comboTable) = Some t
               /\ firstSeatFrom occupiedSeat (getNextSeatIndex 1) comboTable t.
Proof.
  assert (Hreach : reachable comboTable).
  { unfold comboTable. apply reachable_run; [vm_compute; reflexivity|].
    apply reachable_new. }
  assert (Hempty : noEmptyId comboTable).
  { unfold noEmptyId. vm_compute. intros Hin.
    repeat (apply elem_of_cons in Hin as [Hin|Hin]; [discriminate|]).
    by apply elem_of_nil in Hin. }
  assert (Hdealer : dealerSeat comboTable = Some 1%nat) by (vm_compute; reflexivity).
  assert (Hs : isSeat 1) by (unfold isSeat, SEAT_COUNT; lia).
  assert (Hocc : exists t, isSeat t /\ is_Some (getPlayerBySeat t comboTable)).
  { exists 1%nat. split; [exact Hs|].
    destruct (getPlayerBySeat 1 comboTable) as [d|] eqn:Hd; [by eexists|].
    exfalso. vm_compute in Hd. discriminate. }
  split; [exact Hreach|]. split; [exact Hdealer|].
  destruct (button_moves_on comboTable 1%nat Hreach Hempty Hdealer Hs Hocc)
    as (t & d & Ht & Hfirst & _).
  exists t. split; [exact Ht|exact Hfirst].
Defined.
